(** * The SRE agent runtime

    A shallow embedding of src/sre-agent/runtime: the alert intake
    ([intake.py], with the [heapq] algorithms it runs on), the agent loop
    ([agent.py]), the webhook endpoints and alert processing ([main.py],
    with [hmac] and SHA-256 under them) and the incident report tool
    ([tools.py], with the path operations it uses), the alert queue and
    /ops endpoints ([main.py]), the tools that send requests and the
    loader of the scaling limits ([tools.py], [config.py]), followed by
    what the specification says of them and by further properties of the
    code.

    Conventions. Integers and clock readings are [Z]; the rounding of
    floating point clock arithmetic is not modelled. A [str] is its UTF-8
    encoding. Dictionaries are [gmap]s, sets are [gset]s; the input of a
    tool call is the JSON value that [json.loads] gave, a float of it an
    IEEE double. A function that may raise returns [Py.result], with the
    name of the exception; a loop that Python bounds by data runs on fuel
    and returns [option]. Whatever a function reads from outside (the
    clock, the LLM, HTTP, the file system) is an argument. *)

From stdpp Require Import base option list gmap strings sorting pretty.
From Stdlib Require Import ZArith Lia Ascii.
From Stdlib Require Floats.SpecFloat.
Local Open Scope Z_scope.

(** * Python values. A [str] is represented by its UTF-8 encoding and a
    [bytes] by its bytes, both as a [string]; [str.encode()] is then the
    identity, [==] on [str] is [=], and a [str] is ASCII iff every byte is
    below 128. *)
Module Py.
Inductive result (A : Type) :=
  | Return (a : A)
  | Raise (exc : string).
Arguments Return {A} a.
Arguments Raise {A} exc.

Definition ord (c : ascii) : Z := Z.of_N (N_of_ascii c).
Definition chr (z : Z) : ascii := ascii_of_N (Z.to_N (z mod 256)).

Definition to_bytes (s : string) : list Z := ord <$> String.list_ascii_of_string s.
Definition of_bytes (l : list Z) : string := String.string_of_list_ascii (chr <$> l).

Definition isascii (s : string) : bool :=
  forallb (λ c, ord c <? 128) (String.list_ascii_of_string s).

(** [s.startswith(p)] *)
Fixpoint startswith (p s : string) : bool :=
  match p, s with
  | EmptyString, _ => true
  | String a p', String b s' => bool_decide (a = b) && startswith p' s'
  | String _ _, EmptyString => false
  end.

Fixpoint drop_chars (n : nat) (s : string) : string :=
  match n, s with
  | S n', String _ s' => drop_chars n' s'
  | _, _ => s
  end.

(** [s.removeprefix(p)] *)
Definition removeprefix (p s : string) : string :=
  if startswith p s then drop_chars (String.length p) s else s.

(** [hmac.compare_digest] on two [str]: a [TypeError] unless both are
    ASCII, their equality otherwise. *)
Definition compare_digest (a b : string) : result bool :=
  if isascii a && isascii b then Return (bool_decide (a = b))
  else Raise "TypeError".
End Py.

(** * hashlib.sha256 and hmac (FIPS 180-4, RFC 2104), on bytes as [Z] *)
Module Hashlib.
Definition w32 (x : Z) : Z := x mod 2 ^ 32.
Definition add32 (x y : Z) : Z := w32 (x + y).
Definition rotr (n x : Z) : Z := w32 (Z.lor (Z.shiftr x n) (Z.shiftl x (32 - n))).
Definition shr (n x : Z) : Z := Z.shiftr x n.
Definition not32 (x : Z) : Z := Z.lxor x (2 ^ 32 - 1).

Definition Ch (x y z : Z) : Z := Z.lxor (Z.land x y) (Z.land (not32 x) z).
Definition Maj (x y z : Z) : Z :=
  Z.lxor (Z.lxor (Z.land x y) (Z.land x z)) (Z.land y z).
Definition Sigma0 (x : Z) : Z := Z.lxor (Z.lxor (rotr 2 x) (rotr 13 x)) (rotr 22 x).
Definition Sigma1 (x : Z) : Z := Z.lxor (Z.lxor (rotr 6 x) (rotr 11 x)) (rotr 25 x).
Definition sigma0 (x : Z) : Z := Z.lxor (Z.lxor (rotr 7 x) (rotr 18 x)) (shr 3 x).
Definition sigma1 (x : Z) : Z := Z.lxor (Z.lxor (rotr 17 x) (rotr 19 x)) (shr 10 x).

(** The constants of FIPS 180-4 are the first 32 bits of the fractional
    parts of the cube roots (for [K]) and of the square roots (for
    [H0]) of the first primes. *)
Definition is_prime (n : Z) : bool :=
  forallb (λ d, negb (n mod d =? 0)) (seqZ 2 (Z.sqrt n - 1)).

Definition primes (count : nat) : list Z :=
  take count (filter (λ n, is_prime n = true) (seqZ 2 310)).

(** The largest [r] in [lo, hi) with [r ^ 3 <= n], by bisection. *)
Fixpoint cbrt_loop (fuel : nat) (lo hi n : Z) : Z :=
  match fuel with
  | O => lo
  | S fuel' =>
      if hi - lo <=? 1 then lo
      else
        let mid := (lo + hi) / 2 in
        if mid * mid * mid <=? n then cbrt_loop fuel' mid hi n
        else cbrt_loop fuel' lo mid n
  end.

Definition cbrt (n : Z) : Z := cbrt_loop (Z.to_nat (Z.log2_up (n + 1)) + 1) 0 (n + 1) n.

Definition K : list Z := (λ p, cbrt (p * 2 ^ 96) mod 2 ^ 32) <$> primes 64.

Definition H0 : list Z := (λ p, Z.sqrt (p * 2 ^ 64) mod 2 ^ 32) <$> primes 8.

(** Big-endian encoding of [x] on [n] bytes. *)
Fixpoint be_bytes (n : nat) (x : Z) : list Z :=
  match n with
  | O => []
  | S n' => be_bytes n' (x / 256) ++ [x mod 256]
  end.

Fixpoint be_word (bs : list Z) (acc : Z) : Z :=
  match bs with
  | [] => acc
  | b :: bs' => be_word bs' (acc * 256 + b)
  end.

(** Padding: 0x80, zeros up to 56 mod 64, the bit length on 8 bytes. *)
Definition pad (msg : list Z) : list Z :=
  let len := Z.of_nat (length msg) in
  let zeros := Z.to_nat ((55 - len) mod 64) in
  msg ++ [0x80] ++ replicate zeros 0 ++ be_bytes 8 (8 * len).

Fixpoint chunks (n : nat) (fuel : nat) (l : list Z) : list (list Z) :=
  match fuel with
  | O => []
  | S fuel' =>
      match l with
      | [] => []
      | _ :: _ => take n l :: chunks n fuel' (drop n l)
      end
  end.

(** The message schedule, most recent word first. *)
Fixpoint schedule (n : nat) (w : list Z) : list Z :=
  match n with
  | O => w
  | S n' =>
      let next := add32 (add32 (sigma1 (w !!! 1%nat)) (w !!! 6%nat))
                        (add32 (sigma0 (w !!! 14%nat)) (w !!! 15%nat)) in
      schedule n' (next :: w)
  end.

Definition round (s : list Z) (kw : Z * Z) : list Z :=
  match s with
  | [a; b; c; d; e; f; g; h] =>
      let t1 := add32 (add32 (add32 h (Sigma1 e)) (add32 (Ch e f g) kw.1)) kw.2 in
      let t2 := add32 (Sigma0 a) (Maj a b c) in
      [add32 t1 t2; a; b; c; add32 d t1; e; f; g]
  | _ => s
  end.

Definition compress (h : list Z) (block : list Z) : list Z :=
  let w0 := (λ bs, be_word bs 0) <$> chunks 4 16 block in
  let w := rev (schedule 48 (rev w0)) in
  let s := foldl round h (zip K w) in
  zip_with add32 h s.

Definition sha256 (msg : list Z) : list Z :=
  let p := pad msg in
  let h := foldl compress H0 (chunks 64 (length p) p) in
  h ≫= be_bytes 4.

Definition block_size : nat := 64.

(** [hmac.new(key, msg, hashlib.sha256).digest()] *)
Definition hmac_sha256 (key msg : list Z) : list Z :=
  let key := if decide (block_size < length key)%nat then sha256 key else key in
  let key := key ++ replicate (block_size - length key) 0 in
  let ipad := (λ b, Z.lxor b 0x36) <$> key in
  let opad := (λ b, Z.lxor b 0x5c) <$> key in
  sha256 (opad ++ sha256 (ipad ++ msg)).

Definition hexdigit (n : Z) : ascii :=
  if n <? 10 then Py.chr (48 + n) else Py.chr (87 + n).

(** [.hexdigest()]: two lowercase hexadecimal digits per byte. *)
Definition hex (bs : list Z) : string :=
  String.string_of_list_ascii (bs ≫= λ b, [hexdigit (b / 16 mod 16); hexdigit (b mod 16)]).

Definition sha256_hexdigest (msg : string) : string := hex (sha256 (Py.to_bytes msg)).

(** [hmac.new(key, msg, hashlib.sha256).hexdigest()] *)
Definition hmac_sha256_hexdigest (key msg : string) : string :=
  hex (hmac_sha256 (Py.to_bytes key) (Py.to_bytes msg)).
End Hashlib.

(** Hexadecimal digits, to say what a hex digest is made of. *)
Module HashlibSpec.
(** A lowercase hexadecimal digit. *)
Definition is_hexdigit (c : ascii) : bool :=
  bool_decide (c ∈ ["0"; "1"; "2"; "3"; "4"; "5"; "6"; "7"; "8"; "9";
                    "a"; "b"; "c"; "d"; "e"; "f"]%char).
End HashlibSpec.

(** One-bit mutations of a string. *)
Module Mutation.
Import Py.

(** The character [c] with bit [k] flipped. *)
Definition flip_bit (k : nat) (c : ascii) : ascii :=
  chr (Z.lxor (ord c) (2 ^ Z.of_nat k)).

(** [s] with bit [k] of its [i]-th character flipped. *)
Fixpoint mutate (i k : nat) (s : string) {struct s} : string :=
  match s with
  | EmptyString => EmptyString
  | String c s' =>
      match i with
      | O => String (flip_bit k c) s'
      | S i' => String c (mutate i' k s')
      end
  end.
End Mutation.

(** * heapq, as intake.py uses it: [heappush], [heappop] and [heapify] on
    a list, with the [<] of its items. A loop runs on fuel and a list
    access that would raise [IndexError] gives [None]; neither happens on
    the calls the intake makes (see [HeapqFacts]). *)
Module Heapq.
Local Open Scope nat_scope.
Section heapq.
Context {A : Type} (lt : A → A → bool).

(** The [while pos > startpos] loop of [_siftdown]. *)

Fixpoint siftdown_loop (fuel : nat) (heap : list A) (newitem : A)
    (startpos pos : nat) {struct fuel} : option (list A) :=
  if decide (startpos < pos) then
    match fuel with
    | O => None
    | S fuel' =>
        parent ← heap !! ((pos - 1) / 2);
        if lt newitem parent
        then siftdown_loop fuel' (<[pos := parent]> heap) newitem startpos ((pos - 1) / 2)
        else Some (<[pos := newitem]> heap)
    end
  else Some (<[pos := newitem]> heap).

(** [_siftdown(heap, startpos, pos)] *)
Definition _siftdown (heap : list A) (startpos pos : nat) : option (list A) :=
  newitem ← heap !! pos;
  siftdown_loop pos heap newitem startpos pos.

(** The choice of [childpos] in [_siftup]: the right child unless the
    left one is smaller. *)
Definition smaller_child (heap : list A) (endpos childpos : nat) : option nat :=
  let rightpos := childpos + 1 in
  if decide (rightpos < endpos) then
    l ← heap !! childpos;
    r ← heap !! rightpos;
    Some (if negb (lt l r) then rightpos else childpos)
  else Some childpos.

(** The [while childpos < endpos] loop of [_siftup]: the smaller child
    moves up until a leaf is reached. *)
Fixpoint siftup_loop (fuel : nat) (heap : list A) (endpos pos : nat)
    {struct fuel} : option (list A * nat) :=
  if decide (2 * pos + 1 < endpos) then
    match fuel with
    | O => None
    | S fuel' =>
        childpos ← smaller_child heap endpos (2 * pos + 1);
        child ← heap !! childpos;
        siftup_loop fuel' (<[pos := child]> heap) endpos childpos
    end
  else Some (heap, pos).

(** [_siftup(heap, pos)] *)
Definition _siftup (heap : list A) (pos : nat) : option (list A) :=
  newitem ← heap !! pos;
  '(heap', pos') ← siftup_loop (length heap) heap (length heap) pos;
  _siftdown (<[pos' := newitem]> heap') pos pos'.

(** [heappush(heap, item)] *)
Definition heappush (heap : list A) (item : A) : option (list A) :=
  _siftdown (heap ++ [item]) 0 (length (heap ++ [item]) - 1).

(** [heappop(heap)]: the smallest item and the heap left. *)
Definition heappop (heap : list A) : option (A * list A) :=
  lastelt ← last heap;
  match removelast heap with
  | [] => Some (lastelt, [])
  | returnitem :: rest =>
      heap' ← _siftup (<[0 := lastelt]> (returnitem :: rest)) 0;
      Some (returnitem, heap')
  end.

(** [for i in reversed(range(n // 2)): _siftup(x, i)] *)
Fixpoint heapify_loop (i : nat) (x : list A) : option (list A) :=
  match i with
  | O => Some x
  | S i' => x' ← _siftup x i'; heapify_loop i' x'
  end.

(** [heapify(x)] *)
Definition heapify (x : list A) : option (list A) :=
  heapify_loop (length x / 2) x.
End heapq.
End Heapq.

(** * Heaps: what [heapq] maintains *)
Module HeapqSpec.
Local Open Scope nat_scope.
Import Heapq.
Section spec.
Context {A : Type} (lt : A → A → bool).

(** [x <= y] as [heapq] sees it: not [y < x]. *)
Definition le (x y : A) : Prop := lt y x = false.

Definition child (i j : nat) : Prop := j = 2 * i + 1 ∨ j = 2 * i + 2.

Definition heap_from (lo : nat) (l : list A) : Prop :=
  ∀ i j x y, lo ≤ i → child i j → l !! i = Some x → l !! j = Some y → le x y.

Definition heap_ok (l : list A) : Prop := heap_from 0 l.

Definition hole (lo : nat) (l : list A) (pos : nat) : Prop :=
  (∀ i j x y, lo ≤ i → child i j → i ≠ pos → j ≠ pos →
      l !! i = Some x → l !! j = Some y → le x y) ∧
  (∀ c x y, lo < pos → child pos c →
      l !! ((pos - 1) / 2) = Some x → l !! c = Some y → le x y).

Inductive desc (lo : nat) : nat → Prop :=
  | desc_refl : desc lo lo
  | desc_child p c : desc lo p → child p c → desc lo c.

(** The order in which successive [heappop]s empty a heap. *)
Fixpoint drain (fuel : nat) (q : list A) : option (list A) :=
  match q with
  | [] => Some []
  | _ :: _ =>
      match fuel with
      | O => None
      | S fuel' =>
          '(m, q') ← heappop lt q;
          l ← drain fuel' q';
          Some (m :: l)
      end
  end.
End spec.
End HeapqSpec.

(** * models.py *)
Module Models.
Inductive AlertSeverity := CRITICAL | HIGH | WARNING | INFO.
Inductive Priority := P1 | P2 | P3 | P4.

(** [timestamp] is a point on the clock; [details] is the opaque mapping
    handed to the LLM. *)
Record PagerDutyAlert := {
  incident_id : string;
  service_name : string;
  severity : AlertSeverity;
  priority : option Priority;
  description : string;
  dedup_key : option string;
  runbook_url : option string;
  timestamp : Z;
  details : list (string * string);
}.
End Models.

(** * state.py *)
Module State.
Record ErrorRecord := {
  err_timestamp : Z;
  err_type : string;
  err_message : string;
  err_incident_id : option string;
  err_trace_id : option string;
}.

Record RuntimeState := {
  webhooks_received : Z;
  webhooks_processed : Z;
  webhooks_ignored : Z;
  webhooks_failed : Z;
  agent_runs_completed : Z;
  agent_runs_failed : Z;
  total_input_tokens : Z;
  total_output_tokens : Z;
  run_token_usage : list Z;
  hourly_token_log : list (Z * Z);
  alerts_deduplicated : Z;
  alerts_queued : Z;
  alerts_expired : Z;
  active_incidents : gmap string Z;
  recent_errors : list ErrorRecord;
  run_durations : list Z;
  draining : bool;
}.

(** [collections.deque(maxlen=n).append]: a full deque drops its oldest
    entry. *)
Definition deque_append {A} (maxlen : nat) (d : list A) (x : A) : list A :=
  if decide (length d = maxlen) then drop 1 d ++ [x] else d ++ [x].

(** Field updates. *)
Definition set_webhooks_received (v : Z) (s : RuntimeState) : RuntimeState :=
  {| webhooks_received := v; webhooks_processed := webhooks_processed s;
     webhooks_ignored := webhooks_ignored s; webhooks_failed := webhooks_failed s;
     agent_runs_completed := agent_runs_completed s;
     agent_runs_failed := agent_runs_failed s;
     total_input_tokens := total_input_tokens s;
     total_output_tokens := total_output_tokens s; run_token_usage := run_token_usage s;
     hourly_token_log := hourly_token_log s;
     alerts_deduplicated := alerts_deduplicated s; alerts_queued := alerts_queued s;
     alerts_expired := alerts_expired s; active_incidents := active_incidents s;
     recent_errors := recent_errors s; run_durations := run_durations s;
     draining := draining s |}.
Definition set_webhooks_processed (v : Z) (s : RuntimeState) : RuntimeState :=
  {| webhooks_received := webhooks_received s; webhooks_processed := v;
     webhooks_ignored := webhooks_ignored s; webhooks_failed := webhooks_failed s;
     agent_runs_completed := agent_runs_completed s;
     agent_runs_failed := agent_runs_failed s;
     total_input_tokens := total_input_tokens s;
     total_output_tokens := total_output_tokens s; run_token_usage := run_token_usage s;
     hourly_token_log := hourly_token_log s;
     alerts_deduplicated := alerts_deduplicated s; alerts_queued := alerts_queued s;
     alerts_expired := alerts_expired s; active_incidents := active_incidents s;
     recent_errors := recent_errors s; run_durations := run_durations s;
     draining := draining s |}.
Definition set_webhooks_ignored (v : Z) (s : RuntimeState) : RuntimeState :=
  {| webhooks_received := webhooks_received s;
     webhooks_processed := webhooks_processed s; webhooks_ignored := v;
     webhooks_failed := webhooks_failed s;
     agent_runs_completed := agent_runs_completed s;
     agent_runs_failed := agent_runs_failed s;
     total_input_tokens := total_input_tokens s;
     total_output_tokens := total_output_tokens s; run_token_usage := run_token_usage s;
     hourly_token_log := hourly_token_log s;
     alerts_deduplicated := alerts_deduplicated s; alerts_queued := alerts_queued s;
     alerts_expired := alerts_expired s; active_incidents := active_incidents s;
     recent_errors := recent_errors s; run_durations := run_durations s;
     draining := draining s |}.
Definition set_webhooks_failed (v : Z) (s : RuntimeState) : RuntimeState :=
  {| webhooks_received := webhooks_received s;
     webhooks_processed := webhooks_processed s; webhooks_ignored := webhooks_ignored s;
     webhooks_failed := v; agent_runs_completed := agent_runs_completed s;
     agent_runs_failed := agent_runs_failed s;
     total_input_tokens := total_input_tokens s;
     total_output_tokens := total_output_tokens s; run_token_usage := run_token_usage s;
     hourly_token_log := hourly_token_log s;
     alerts_deduplicated := alerts_deduplicated s; alerts_queued := alerts_queued s;
     alerts_expired := alerts_expired s; active_incidents := active_incidents s;
     recent_errors := recent_errors s; run_durations := run_durations s;
     draining := draining s |}.
Definition set_agent_runs_completed (v : Z) (s : RuntimeState) : RuntimeState :=
  {| webhooks_received := webhooks_received s;
     webhooks_processed := webhooks_processed s; webhooks_ignored := webhooks_ignored s;
     webhooks_failed := webhooks_failed s; agent_runs_completed := v;
     agent_runs_failed := agent_runs_failed s;
     total_input_tokens := total_input_tokens s;
     total_output_tokens := total_output_tokens s; run_token_usage := run_token_usage s;
     hourly_token_log := hourly_token_log s;
     alerts_deduplicated := alerts_deduplicated s; alerts_queued := alerts_queued s;
     alerts_expired := alerts_expired s; active_incidents := active_incidents s;
     recent_errors := recent_errors s; run_durations := run_durations s;
     draining := draining s |}.
Definition set_agent_runs_failed (v : Z) (s : RuntimeState) : RuntimeState :=
  {| webhooks_received := webhooks_received s;
     webhooks_processed := webhooks_processed s; webhooks_ignored := webhooks_ignored s;
     webhooks_failed := webhooks_failed s;
     agent_runs_completed := agent_runs_completed s; agent_runs_failed := v;
     total_input_tokens := total_input_tokens s;
     total_output_tokens := total_output_tokens s; run_token_usage := run_token_usage s;
     hourly_token_log := hourly_token_log s;
     alerts_deduplicated := alerts_deduplicated s; alerts_queued := alerts_queued s;
     alerts_expired := alerts_expired s; active_incidents := active_incidents s;
     recent_errors := recent_errors s; run_durations := run_durations s;
     draining := draining s |}.
Definition set_total_input_tokens (v : Z) (s : RuntimeState) : RuntimeState :=
  {| webhooks_received := webhooks_received s;
     webhooks_processed := webhooks_processed s; webhooks_ignored := webhooks_ignored s;
     webhooks_failed := webhooks_failed s;
     agent_runs_completed := agent_runs_completed s;
     agent_runs_failed := agent_runs_failed s; total_input_tokens := v;
     total_output_tokens := total_output_tokens s; run_token_usage := run_token_usage s;
     hourly_token_log := hourly_token_log s;
     alerts_deduplicated := alerts_deduplicated s; alerts_queued := alerts_queued s;
     alerts_expired := alerts_expired s; active_incidents := active_incidents s;
     recent_errors := recent_errors s; run_durations := run_durations s;
     draining := draining s |}.
Definition set_total_output_tokens (v : Z) (s : RuntimeState) : RuntimeState :=
  {| webhooks_received := webhooks_received s;
     webhooks_processed := webhooks_processed s; webhooks_ignored := webhooks_ignored s;
     webhooks_failed := webhooks_failed s;
     agent_runs_completed := agent_runs_completed s;
     agent_runs_failed := agent_runs_failed s;
     total_input_tokens := total_input_tokens s; total_output_tokens := v;
     run_token_usage := run_token_usage s; hourly_token_log := hourly_token_log s;
     alerts_deduplicated := alerts_deduplicated s; alerts_queued := alerts_queued s;
     alerts_expired := alerts_expired s; active_incidents := active_incidents s;
     recent_errors := recent_errors s; run_durations := run_durations s;
     draining := draining s |}.
Definition set_run_token_usage (v : list Z) (s : RuntimeState) : RuntimeState :=
  {| webhooks_received := webhooks_received s;
     webhooks_processed := webhooks_processed s; webhooks_ignored := webhooks_ignored s;
     webhooks_failed := webhooks_failed s;
     agent_runs_completed := agent_runs_completed s;
     agent_runs_failed := agent_runs_failed s;
     total_input_tokens := total_input_tokens s;
     total_output_tokens := total_output_tokens s; run_token_usage := v;
     hourly_token_log := hourly_token_log s;
     alerts_deduplicated := alerts_deduplicated s; alerts_queued := alerts_queued s;
     alerts_expired := alerts_expired s; active_incidents := active_incidents s;
     recent_errors := recent_errors s; run_durations := run_durations s;
     draining := draining s |}.
Definition set_hourly_token_log (v : list (Z * Z)) (s : RuntimeState) : RuntimeState :=
  {| webhooks_received := webhooks_received s;
     webhooks_processed := webhooks_processed s; webhooks_ignored := webhooks_ignored s;
     webhooks_failed := webhooks_failed s;
     agent_runs_completed := agent_runs_completed s;
     agent_runs_failed := agent_runs_failed s;
     total_input_tokens := total_input_tokens s;
     total_output_tokens := total_output_tokens s; run_token_usage := run_token_usage s;
     hourly_token_log := v; alerts_deduplicated := alerts_deduplicated s;
     alerts_queued := alerts_queued s; alerts_expired := alerts_expired s;
     active_incidents := active_incidents s; recent_errors := recent_errors s;
     run_durations := run_durations s; draining := draining s |}.
Definition set_alerts_deduplicated (v : Z) (s : RuntimeState) : RuntimeState :=
  {| webhooks_received := webhooks_received s;
     webhooks_processed := webhooks_processed s; webhooks_ignored := webhooks_ignored s;
     webhooks_failed := webhooks_failed s;
     agent_runs_completed := agent_runs_completed s;
     agent_runs_failed := agent_runs_failed s;
     total_input_tokens := total_input_tokens s;
     total_output_tokens := total_output_tokens s; run_token_usage := run_token_usage s;
     hourly_token_log := hourly_token_log s; alerts_deduplicated := v;
     alerts_queued := alerts_queued s; alerts_expired := alerts_expired s;
     active_incidents := active_incidents s; recent_errors := recent_errors s;
     run_durations := run_durations s; draining := draining s |}.
Definition set_alerts_queued (v : Z) (s : RuntimeState) : RuntimeState :=
  {| webhooks_received := webhooks_received s;
     webhooks_processed := webhooks_processed s; webhooks_ignored := webhooks_ignored s;
     webhooks_failed := webhooks_failed s;
     agent_runs_completed := agent_runs_completed s;
     agent_runs_failed := agent_runs_failed s;
     total_input_tokens := total_input_tokens s;
     total_output_tokens := total_output_tokens s; run_token_usage := run_token_usage s;
     hourly_token_log := hourly_token_log s;
     alerts_deduplicated := alerts_deduplicated s; alerts_queued := v;
     alerts_expired := alerts_expired s; active_incidents := active_incidents s;
     recent_errors := recent_errors s; run_durations := run_durations s;
     draining := draining s |}.
Definition set_alerts_expired (v : Z) (s : RuntimeState) : RuntimeState :=
  {| webhooks_received := webhooks_received s;
     webhooks_processed := webhooks_processed s; webhooks_ignored := webhooks_ignored s;
     webhooks_failed := webhooks_failed s;
     agent_runs_completed := agent_runs_completed s;
     agent_runs_failed := agent_runs_failed s;
     total_input_tokens := total_input_tokens s;
     total_output_tokens := total_output_tokens s; run_token_usage := run_token_usage s;
     hourly_token_log := hourly_token_log s;
     alerts_deduplicated := alerts_deduplicated s; alerts_queued := alerts_queued s;
     alerts_expired := v; active_incidents := active_incidents s;
     recent_errors := recent_errors s; run_durations := run_durations s;
     draining := draining s |}.
Definition set_active_incidents (v : gmap string Z) (s : RuntimeState) : RuntimeState :=
  {| webhooks_received := webhooks_received s;
     webhooks_processed := webhooks_processed s; webhooks_ignored := webhooks_ignored s;
     webhooks_failed := webhooks_failed s;
     agent_runs_completed := agent_runs_completed s;
     agent_runs_failed := agent_runs_failed s;
     total_input_tokens := total_input_tokens s;
     total_output_tokens := total_output_tokens s; run_token_usage := run_token_usage s;
     hourly_token_log := hourly_token_log s;
     alerts_deduplicated := alerts_deduplicated s; alerts_queued := alerts_queued s;
     alerts_expired := alerts_expired s; active_incidents := v;
     recent_errors := recent_errors s; run_durations := run_durations s;
     draining := draining s |}.
Definition set_recent_errors (v : list ErrorRecord) (s : RuntimeState) : RuntimeState :=
  {| webhooks_received := webhooks_received s;
     webhooks_processed := webhooks_processed s; webhooks_ignored := webhooks_ignored s;
     webhooks_failed := webhooks_failed s;
     agent_runs_completed := agent_runs_completed s;
     agent_runs_failed := agent_runs_failed s;
     total_input_tokens := total_input_tokens s;
     total_output_tokens := total_output_tokens s; run_token_usage := run_token_usage s;
     hourly_token_log := hourly_token_log s;
     alerts_deduplicated := alerts_deduplicated s; alerts_queued := alerts_queued s;
     alerts_expired := alerts_expired s; active_incidents := active_incidents s;
     recent_errors := v; run_durations := run_durations s; draining := draining s |}.
Definition set_run_durations (v : list Z) (s : RuntimeState) : RuntimeState :=
  {| webhooks_received := webhooks_received s;
     webhooks_processed := webhooks_processed s; webhooks_ignored := webhooks_ignored s;
     webhooks_failed := webhooks_failed s;
     agent_runs_completed := agent_runs_completed s;
     agent_runs_failed := agent_runs_failed s;
     total_input_tokens := total_input_tokens s;
     total_output_tokens := total_output_tokens s; run_token_usage := run_token_usage s;
     hourly_token_log := hourly_token_log s;
     alerts_deduplicated := alerts_deduplicated s; alerts_queued := alerts_queued s;
     alerts_expired := alerts_expired s; active_incidents := active_incidents s;
     recent_errors := recent_errors s; run_durations := v; draining := draining s |}.

Definition set_draining (v : bool) (s : RuntimeState) : RuntimeState :=
  {| webhooks_received := webhooks_received s;
     webhooks_processed := webhooks_processed s; webhooks_ignored := webhooks_ignored s;
     webhooks_failed := webhooks_failed s;
     agent_runs_completed := agent_runs_completed s;
     agent_runs_failed := agent_runs_failed s;
     total_input_tokens := total_input_tokens s;
     total_output_tokens := total_output_tokens s; run_token_usage := run_token_usage s;
     hourly_token_log := hourly_token_log s;
     alerts_deduplicated := alerts_deduplicated s; alerts_queued := alerts_queued s;
     alerts_expired := alerts_expired s; active_incidents := active_incidents s;
     recent_errors := recent_errors s; run_durations := run_durations s; draining := v |}.

Definition RuntimeState_init : RuntimeState :=
  {| webhooks_received := 0; webhooks_processed := 0; webhooks_ignored := 0;
     webhooks_failed := 0; agent_runs_completed := 0; agent_runs_failed := 0;
     total_input_tokens := 0; total_output_tokens := 0; run_token_usage := [];
     hourly_token_log := []; alerts_deduplicated := 0; alerts_queued := 0;
     alerts_expired := 0; active_incidents := ∅; recent_errors := [];
     run_durations := []; draining := false |}.
End State.

(** * telemetry.py: each instrument is the running sum of its [add] calls,
    each histogram the list of its recorded values. *)
Module Telemetry.
Record Instruments := {
  webhooks_received_counter : Z;
  webhooks_processed_counter : Z;
  webhooks_ignored_counter : Z;
  webhooks_failed_counter : Z;
  agent_runs_completed_counter : Z;
  agent_runs_failed_counter : Z;
  agent_run_duration_histogram : list Z;
  incidents_active_updown : Z;
  tokens_input_counter : Z;
  tokens_output_counter : Z;
  tokens_per_run_histogram : list Z;
  alerts_deduplicated_counter : Z;
  alerts_queued_counter : Z;
  alerts_expired_counter : Z;
  intake_queue_depth_updown : Z;
}.

(** [counter.add(n)] and [histogram.record(v)]. *)
Definition add_webhooks_received_counter (n : Z) (t : Instruments) : Instruments :=
  {| webhooks_received_counter := webhooks_received_counter t + n;
     webhooks_processed_counter := webhooks_processed_counter t;
     webhooks_ignored_counter := webhooks_ignored_counter t;
     webhooks_failed_counter := webhooks_failed_counter t;
     agent_runs_completed_counter := agent_runs_completed_counter t;
     agent_runs_failed_counter := agent_runs_failed_counter t;
     agent_run_duration_histogram := agent_run_duration_histogram t;
     incidents_active_updown := incidents_active_updown t;
     tokens_input_counter := tokens_input_counter t;
     tokens_output_counter := tokens_output_counter t;
     tokens_per_run_histogram := tokens_per_run_histogram t;
     alerts_deduplicated_counter := alerts_deduplicated_counter t;
     alerts_queued_counter := alerts_queued_counter t;
     alerts_expired_counter := alerts_expired_counter t;
     intake_queue_depth_updown := intake_queue_depth_updown t |}.
Definition add_webhooks_processed_counter (n : Z) (t : Instruments) : Instruments :=
  {| webhooks_received_counter := webhooks_received_counter t;
     webhooks_processed_counter := webhooks_processed_counter t + n;
     webhooks_ignored_counter := webhooks_ignored_counter t;
     webhooks_failed_counter := webhooks_failed_counter t;
     agent_runs_completed_counter := agent_runs_completed_counter t;
     agent_runs_failed_counter := agent_runs_failed_counter t;
     agent_run_duration_histogram := agent_run_duration_histogram t;
     incidents_active_updown := incidents_active_updown t;
     tokens_input_counter := tokens_input_counter t;
     tokens_output_counter := tokens_output_counter t;
     tokens_per_run_histogram := tokens_per_run_histogram t;
     alerts_deduplicated_counter := alerts_deduplicated_counter t;
     alerts_queued_counter := alerts_queued_counter t;
     alerts_expired_counter := alerts_expired_counter t;
     intake_queue_depth_updown := intake_queue_depth_updown t |}.
Definition add_webhooks_ignored_counter (n : Z) (t : Instruments) : Instruments :=
  {| webhooks_received_counter := webhooks_received_counter t;
     webhooks_processed_counter := webhooks_processed_counter t;
     webhooks_ignored_counter := webhooks_ignored_counter t + n;
     webhooks_failed_counter := webhooks_failed_counter t;
     agent_runs_completed_counter := agent_runs_completed_counter t;
     agent_runs_failed_counter := agent_runs_failed_counter t;
     agent_run_duration_histogram := agent_run_duration_histogram t;
     incidents_active_updown := incidents_active_updown t;
     tokens_input_counter := tokens_input_counter t;
     tokens_output_counter := tokens_output_counter t;
     tokens_per_run_histogram := tokens_per_run_histogram t;
     alerts_deduplicated_counter := alerts_deduplicated_counter t;
     alerts_queued_counter := alerts_queued_counter t;
     alerts_expired_counter := alerts_expired_counter t;
     intake_queue_depth_updown := intake_queue_depth_updown t |}.
Definition add_webhooks_failed_counter (n : Z) (t : Instruments) : Instruments :=
  {| webhooks_received_counter := webhooks_received_counter t;
     webhooks_processed_counter := webhooks_processed_counter t;
     webhooks_ignored_counter := webhooks_ignored_counter t;
     webhooks_failed_counter := webhooks_failed_counter t + n;
     agent_runs_completed_counter := agent_runs_completed_counter t;
     agent_runs_failed_counter := agent_runs_failed_counter t;
     agent_run_duration_histogram := agent_run_duration_histogram t;
     incidents_active_updown := incidents_active_updown t;
     tokens_input_counter := tokens_input_counter t;
     tokens_output_counter := tokens_output_counter t;
     tokens_per_run_histogram := tokens_per_run_histogram t;
     alerts_deduplicated_counter := alerts_deduplicated_counter t;
     alerts_queued_counter := alerts_queued_counter t;
     alerts_expired_counter := alerts_expired_counter t;
     intake_queue_depth_updown := intake_queue_depth_updown t |}.
Definition add_agent_runs_completed_counter (n : Z) (t : Instruments) : Instruments :=
  {| webhooks_received_counter := webhooks_received_counter t;
     webhooks_processed_counter := webhooks_processed_counter t;
     webhooks_ignored_counter := webhooks_ignored_counter t;
     webhooks_failed_counter := webhooks_failed_counter t;
     agent_runs_completed_counter := agent_runs_completed_counter t + n;
     agent_runs_failed_counter := agent_runs_failed_counter t;
     agent_run_duration_histogram := agent_run_duration_histogram t;
     incidents_active_updown := incidents_active_updown t;
     tokens_input_counter := tokens_input_counter t;
     tokens_output_counter := tokens_output_counter t;
     tokens_per_run_histogram := tokens_per_run_histogram t;
     alerts_deduplicated_counter := alerts_deduplicated_counter t;
     alerts_queued_counter := alerts_queued_counter t;
     alerts_expired_counter := alerts_expired_counter t;
     intake_queue_depth_updown := intake_queue_depth_updown t |}.
Definition add_agent_runs_failed_counter (n : Z) (t : Instruments) : Instruments :=
  {| webhooks_received_counter := webhooks_received_counter t;
     webhooks_processed_counter := webhooks_processed_counter t;
     webhooks_ignored_counter := webhooks_ignored_counter t;
     webhooks_failed_counter := webhooks_failed_counter t;
     agent_runs_completed_counter := agent_runs_completed_counter t;
     agent_runs_failed_counter := agent_runs_failed_counter t + n;
     agent_run_duration_histogram := agent_run_duration_histogram t;
     incidents_active_updown := incidents_active_updown t;
     tokens_input_counter := tokens_input_counter t;
     tokens_output_counter := tokens_output_counter t;
     tokens_per_run_histogram := tokens_per_run_histogram t;
     alerts_deduplicated_counter := alerts_deduplicated_counter t;
     alerts_queued_counter := alerts_queued_counter t;
     alerts_expired_counter := alerts_expired_counter t;
     intake_queue_depth_updown := intake_queue_depth_updown t |}.
Definition add_incidents_active_updown (n : Z) (t : Instruments) : Instruments :=
  {| webhooks_received_counter := webhooks_received_counter t;
     webhooks_processed_counter := webhooks_processed_counter t;
     webhooks_ignored_counter := webhooks_ignored_counter t;
     webhooks_failed_counter := webhooks_failed_counter t;
     agent_runs_completed_counter := agent_runs_completed_counter t;
     agent_runs_failed_counter := agent_runs_failed_counter t;
     agent_run_duration_histogram := agent_run_duration_histogram t;
     incidents_active_updown := incidents_active_updown t + n;
     tokens_input_counter := tokens_input_counter t;
     tokens_output_counter := tokens_output_counter t;
     tokens_per_run_histogram := tokens_per_run_histogram t;
     alerts_deduplicated_counter := alerts_deduplicated_counter t;
     alerts_queued_counter := alerts_queued_counter t;
     alerts_expired_counter := alerts_expired_counter t;
     intake_queue_depth_updown := intake_queue_depth_updown t |}.
Definition add_tokens_input_counter (n : Z) (t : Instruments) : Instruments :=
  {| webhooks_received_counter := webhooks_received_counter t;
     webhooks_processed_counter := webhooks_processed_counter t;
     webhooks_ignored_counter := webhooks_ignored_counter t;
     webhooks_failed_counter := webhooks_failed_counter t;
     agent_runs_completed_counter := agent_runs_completed_counter t;
     agent_runs_failed_counter := agent_runs_failed_counter t;
     agent_run_duration_histogram := agent_run_duration_histogram t;
     incidents_active_updown := incidents_active_updown t;
     tokens_input_counter := tokens_input_counter t + n;
     tokens_output_counter := tokens_output_counter t;
     tokens_per_run_histogram := tokens_per_run_histogram t;
     alerts_deduplicated_counter := alerts_deduplicated_counter t;
     alerts_queued_counter := alerts_queued_counter t;
     alerts_expired_counter := alerts_expired_counter t;
     intake_queue_depth_updown := intake_queue_depth_updown t |}.
Definition add_tokens_output_counter (n : Z) (t : Instruments) : Instruments :=
  {| webhooks_received_counter := webhooks_received_counter t;
     webhooks_processed_counter := webhooks_processed_counter t;
     webhooks_ignored_counter := webhooks_ignored_counter t;
     webhooks_failed_counter := webhooks_failed_counter t;
     agent_runs_completed_counter := agent_runs_completed_counter t;
     agent_runs_failed_counter := agent_runs_failed_counter t;
     agent_run_duration_histogram := agent_run_duration_histogram t;
     incidents_active_updown := incidents_active_updown t;
     tokens_input_counter := tokens_input_counter t;
     tokens_output_counter := tokens_output_counter t + n;
     tokens_per_run_histogram := tokens_per_run_histogram t;
     alerts_deduplicated_counter := alerts_deduplicated_counter t;
     alerts_queued_counter := alerts_queued_counter t;
     alerts_expired_counter := alerts_expired_counter t;
     intake_queue_depth_updown := intake_queue_depth_updown t |}.
Definition add_alerts_deduplicated_counter (n : Z) (t : Instruments) : Instruments :=
  {| webhooks_received_counter := webhooks_received_counter t;
     webhooks_processed_counter := webhooks_processed_counter t;
     webhooks_ignored_counter := webhooks_ignored_counter t;
     webhooks_failed_counter := webhooks_failed_counter t;
     agent_runs_completed_counter := agent_runs_completed_counter t;
     agent_runs_failed_counter := agent_runs_failed_counter t;
     agent_run_duration_histogram := agent_run_duration_histogram t;
     incidents_active_updown := incidents_active_updown t;
     tokens_input_counter := tokens_input_counter t;
     tokens_output_counter := tokens_output_counter t;
     tokens_per_run_histogram := tokens_per_run_histogram t;
     alerts_deduplicated_counter := alerts_deduplicated_counter t + n;
     alerts_queued_counter := alerts_queued_counter t;
     alerts_expired_counter := alerts_expired_counter t;
     intake_queue_depth_updown := intake_queue_depth_updown t |}.
Definition add_alerts_queued_counter (n : Z) (t : Instruments) : Instruments :=
  {| webhooks_received_counter := webhooks_received_counter t;
     webhooks_processed_counter := webhooks_processed_counter t;
     webhooks_ignored_counter := webhooks_ignored_counter t;
     webhooks_failed_counter := webhooks_failed_counter t;
     agent_runs_completed_counter := agent_runs_completed_counter t;
     agent_runs_failed_counter := agent_runs_failed_counter t;
     agent_run_duration_histogram := agent_run_duration_histogram t;
     incidents_active_updown := incidents_active_updown t;
     tokens_input_counter := tokens_input_counter t;
     tokens_output_counter := tokens_output_counter t;
     tokens_per_run_histogram := tokens_per_run_histogram t;
     alerts_deduplicated_counter := alerts_deduplicated_counter t;
     alerts_queued_counter := alerts_queued_counter t + n;
     alerts_expired_counter := alerts_expired_counter t;
     intake_queue_depth_updown := intake_queue_depth_updown t |}.
Definition add_alerts_expired_counter (n : Z) (t : Instruments) : Instruments :=
  {| webhooks_received_counter := webhooks_received_counter t;
     webhooks_processed_counter := webhooks_processed_counter t;
     webhooks_ignored_counter := webhooks_ignored_counter t;
     webhooks_failed_counter := webhooks_failed_counter t;
     agent_runs_completed_counter := agent_runs_completed_counter t;
     agent_runs_failed_counter := agent_runs_failed_counter t;
     agent_run_duration_histogram := agent_run_duration_histogram t;
     incidents_active_updown := incidents_active_updown t;
     tokens_input_counter := tokens_input_counter t;
     tokens_output_counter := tokens_output_counter t;
     tokens_per_run_histogram := tokens_per_run_histogram t;
     alerts_deduplicated_counter := alerts_deduplicated_counter t;
     alerts_queued_counter := alerts_queued_counter t;
     alerts_expired_counter := alerts_expired_counter t + n;
     intake_queue_depth_updown := intake_queue_depth_updown t |}.
Definition add_intake_queue_depth_updown (n : Z) (t : Instruments) : Instruments :=
  {| webhooks_received_counter := webhooks_received_counter t;
     webhooks_processed_counter := webhooks_processed_counter t;
     webhooks_ignored_counter := webhooks_ignored_counter t;
     webhooks_failed_counter := webhooks_failed_counter t;
     agent_runs_completed_counter := agent_runs_completed_counter t;
     agent_runs_failed_counter := agent_runs_failed_counter t;
     agent_run_duration_histogram := agent_run_duration_histogram t;
     incidents_active_updown := incidents_active_updown t;
     tokens_input_counter := tokens_input_counter t;
     tokens_output_counter := tokens_output_counter t;
     tokens_per_run_histogram := tokens_per_run_histogram t;
     alerts_deduplicated_counter := alerts_deduplicated_counter t;
     alerts_queued_counter := alerts_queued_counter t;
     alerts_expired_counter := alerts_expired_counter t;
     intake_queue_depth_updown := intake_queue_depth_updown t + n |}.
Definition record_agent_run_duration_histogram (v : Z) (t : Instruments) : Instruments :=
  {| webhooks_received_counter := webhooks_received_counter t;
     webhooks_processed_counter := webhooks_processed_counter t;
     webhooks_ignored_counter := webhooks_ignored_counter t;
     webhooks_failed_counter := webhooks_failed_counter t;
     agent_runs_completed_counter := agent_runs_completed_counter t;
     agent_runs_failed_counter := agent_runs_failed_counter t;
     agent_run_duration_histogram := agent_run_duration_histogram t ++ [v];
     incidents_active_updown := incidents_active_updown t;
     tokens_input_counter := tokens_input_counter t;
     tokens_output_counter := tokens_output_counter t;
     tokens_per_run_histogram := tokens_per_run_histogram t;
     alerts_deduplicated_counter := alerts_deduplicated_counter t;
     alerts_queued_counter := alerts_queued_counter t;
     alerts_expired_counter := alerts_expired_counter t;
     intake_queue_depth_updown := intake_queue_depth_updown t |}.
Definition record_tokens_per_run_histogram (v : Z) (t : Instruments) : Instruments :=
  {| webhooks_received_counter := webhooks_received_counter t;
     webhooks_processed_counter := webhooks_processed_counter t;
     webhooks_ignored_counter := webhooks_ignored_counter t;
     webhooks_failed_counter := webhooks_failed_counter t;
     agent_runs_completed_counter := agent_runs_completed_counter t;
     agent_runs_failed_counter := agent_runs_failed_counter t;
     agent_run_duration_histogram := agent_run_duration_histogram t;
     incidents_active_updown := incidents_active_updown t;
     tokens_input_counter := tokens_input_counter t;
     tokens_output_counter := tokens_output_counter t;
     tokens_per_run_histogram := tokens_per_run_histogram t ++ [v];
     alerts_deduplicated_counter := alerts_deduplicated_counter t;
     alerts_queued_counter := alerts_queued_counter t;
     alerts_expired_counter := alerts_expired_counter t;
     intake_queue_depth_updown := intake_queue_depth_updown t |}.

Definition Instruments_init : Instruments :=
  {| webhooks_received_counter := 0; webhooks_processed_counter := 0;
     webhooks_ignored_counter := 0; webhooks_failed_counter := 0;
     agent_runs_completed_counter := 0; agent_runs_failed_counter := 0;
     agent_run_duration_histogram := []; incidents_active_updown := 0;
     tokens_input_counter := 0; tokens_output_counter := 0;
     tokens_per_run_histogram := []; alerts_deduplicated_counter := 0;
     alerts_queued_counter := 0; alerts_expired_counter := 0;
     intake_queue_depth_updown := 0 |}.
End Telemetry.

(** * config.py: the fields the modelled code reads *)
Module Config.
Record Config := {
  llm_model : string;
  llm_model_escalation : string;
  llm_escalation_turn : Z;
  pagerduty_api_token : string;
  pagerduty_webhook_secret : string;
  incidents_dir : string;
  max_concurrent_alerts : Z;
  alert_queue_ttl_seconds : Z;
  max_tokens_per_incident : Z;
  max_tokens_per_hour : Z;
  ops_auth_token : string;
}.

(** The checks of [Config.__init__] on the numeric settings. *)
Definition valid (c : Config) : Prop :=
  1 ≤ max_concurrent_alerts c ∧ 0 ≤ alert_queue_ttl_seconds c ∧
  0 ≤ max_tokens_per_incident c ∧ 0 ≤ max_tokens_per_hour c.
End Config.

(** * intake.py *)
Module Intake.
Import Models State Telemetry.

Definition _priority_rank (priority : option Priority) : Z :=
  match priority with
  | None => 99
  | Some P1 => 1
  | Some P2 => 2
  | Some P3 => 3
  | Some P4 => 4
  end.

Record QueuedAlert := {
  alert : PagerDutyAlert;
  trace_id : string;
  enqueued_at : Z;
  priority_rank : Z;
}.

(** [QueuedAlert.__lt__] *)
Definition QueuedAlert_lt (self other : QueuedAlert) : bool :=
  if negb (priority_rank self =? priority_rank other)
  then priority_rank self <? priority_rank other
  else enqueued_at self <? enqueued_at other.

(** A task of [_tasks] is identified by the arguments of its
    [_run_wrapper]. *)
Definition Task : Type := PagerDutyAlert * string.

Record AlertIntake := {
  _max_concurrent : Z;
  _queue_ttl_seconds : Z;
  _known_incidents : gset string;
  _active_services : gmap string string;
  _active_count : Z;
  _queue : list QueuedAlert;
  _tasks : list Task;
  _shutting_down : bool;
}.

(** The objects a method of [AlertIntake] reaches: the instance itself,
    the [RuntimeState] it was constructed with ([self._state], the same
    object as the [state] global of main.py) and the module-level
    instruments of telemetry.py. *)
Record World := {
  intake : AlertIntake;
  state : RuntimeState;
  telemetry : Instruments;
}.

(** [AlertIntake.__init__] *)
Definition AlertIntake_init (max_concurrent queue_ttl_seconds : Z) : AlertIntake :=
  {| _max_concurrent := max_concurrent;
     _queue_ttl_seconds := queue_ttl_seconds;
     _known_incidents := ∅;
     _active_services := ∅;
     _active_count := 0;
     _queue := [];
     _tasks := [];
     _shutting_down := false |}.

Definition World_init (max_concurrent queue_ttl_seconds : Z) : World :=
  {| intake := AlertIntake_init max_concurrent queue_ttl_seconds;
     state := RuntimeState_init;
     telemetry := Instruments_init |}.

(** ** Field updates *)
Definition set_known_incidents (v : gset string) (i : AlertIntake) : AlertIntake :=
  {| _max_concurrent := _max_concurrent i; _queue_ttl_seconds := _queue_ttl_seconds i;
     _known_incidents := v; _active_services := _active_services i;
     _active_count := _active_count i; _queue := _queue i; _tasks := _tasks i;
     _shutting_down := _shutting_down i |}.
Definition set_active_services (v : gmap string string) (i : AlertIntake) : AlertIntake :=
  {| _max_concurrent := _max_concurrent i; _queue_ttl_seconds := _queue_ttl_seconds i;
     _known_incidents := _known_incidents i; _active_services := v;
     _active_count := _active_count i; _queue := _queue i; _tasks := _tasks i;
     _shutting_down := _shutting_down i |}.
Definition set_active_count (v : Z) (i : AlertIntake) : AlertIntake :=
  {| _max_concurrent := _max_concurrent i; _queue_ttl_seconds := _queue_ttl_seconds i;
     _known_incidents := _known_incidents i; _active_services := _active_services i;
     _active_count := v; _queue := _queue i; _tasks := _tasks i;
     _shutting_down := _shutting_down i |}.
Definition set_queue (v : list QueuedAlert) (i : AlertIntake) : AlertIntake :=
  {| _max_concurrent := _max_concurrent i; _queue_ttl_seconds := _queue_ttl_seconds i;
     _known_incidents := _known_incidents i; _active_services := _active_services i;
     _active_count := _active_count i; _queue := v; _tasks := _tasks i;
     _shutting_down := _shutting_down i |}.
Definition set_tasks (v : list Task) (i : AlertIntake) : AlertIntake :=
  {| _max_concurrent := _max_concurrent i; _queue_ttl_seconds := _queue_ttl_seconds i;
     _known_incidents := _known_incidents i; _active_services := _active_services i;
     _active_count := _active_count i; _queue := _queue i; _tasks := v;
     _shutting_down := _shutting_down i |}.
Definition set_shutting_down (v : bool) (i : AlertIntake) : AlertIntake :=
  {| _max_concurrent := _max_concurrent i; _queue_ttl_seconds := _queue_ttl_seconds i;
     _known_incidents := _known_incidents i; _active_services := _active_services i;
     _active_count := _active_count i; _queue := _queue i; _tasks := _tasks i;
     _shutting_down := v |}.

Definition upd_intake (f : AlertIntake → AlertIntake) (w : World) : World :=
  {| intake := f (intake w); state := state w; telemetry := telemetry w |}.
Definition upd_state (f : RuntimeState → RuntimeState) (w : World) : World :=
  {| intake := intake w; state := f (state w); telemetry := telemetry w |}.
Definition upd_telemetry (f : Instruments → Instruments) (w : World) : World :=
  {| intake := intake w; state := state w; telemetry := f (telemetry w) |}.

(** ** Methods *)

(** [_start_run]: the task is added to [_tasks]; it leaves the set when
    its wrapper returns (see [_run_wrapper_exit]). *)
Definition _start_run (alert : PagerDutyAlert) (trace_id : string) (w : World) : World :=
  upd_intake (λ self, set_tasks (_tasks self ++ [(alert, trace_id)]) self) w.

(** The bookkeeping shared by both dispatch sites: [_active_count += 1],
    [_active_services[service_name] = incident_id],
    [_state.active_incidents[incident_id] = time.time()],
    [incidents_active_updown.add(1)], [_start_run]. *)
Definition dispatch (alert : PagerDutyAlert) (trace_id : string) (now : Z) (w : World) : World :=
  let w := upd_intake (λ self, set_active_count (_active_count self + 1) self) w in
  let w := upd_intake (λ self, set_active_services
             (<[service_name alert := incident_id alert]> (_active_services self)) self) w in
  let w := upd_state (λ s, set_active_incidents
             (<[incident_id alert := now]> (active_incidents s)) s) w in
  let w := upd_telemetry (add_incidents_active_updown 1) w in
  _start_run alert trace_id w.

(** [submit]; [now] is the reading of [time.time()]. The result is
    [None] only if a list access of heapq raises. *)
Definition submit (alert : PagerDutyAlert) (trace_id : string) (now : Z) (w : World)
    : option (string * World) :=
  if _shutting_down (intake w) then Some ("rejected"%string, w)
  else if bool_decide (incident_id alert ∈ _known_incidents (intake w)) then
    let w := upd_state (λ s, set_alerts_deduplicated (alerts_deduplicated s + 1) s) w in
    let w := upd_telemetry (add_alerts_deduplicated_counter 1) w in
    Some ("deduplicated"%string, w)
  else
    let w := upd_intake (λ self, set_known_incidents
               ({[incident_id alert]} ∪ _known_incidents self) self) w in
    let can_dispatch :=
      bool_decide (service_name alert ∉ dom (_active_services (intake w)))
      && (_active_count (intake w) <? _max_concurrent (intake w)) in
    if can_dispatch then
      Some ("dispatched"%string, dispatch alert trace_id now w)
    else
      let queued := {| alert := alert; trace_id := trace_id; enqueued_at := now;
                       priority_rank := _priority_rank (priority alert) |} in
      q ← Heapq.heappush QueuedAlert_lt (_queue (intake w)) queued;
      let w := upd_intake (set_queue q) w in
      let w := upd_state (λ s, set_alerts_queued (alerts_queued s + 1) s) w in
      let w := upd_telemetry (add_alerts_queued_counter 1) w in
      let w := upd_telemetry (add_intake_queue_depth_updown 1) w in
      Some ("queued"%string, w).

(** The body of [for item in self._queue] in [shutdown]. *)
Definition discard_queued (w : World) (item : QueuedAlert) : World :=
  let w := upd_intake (λ self, set_known_incidents
             (_known_incidents self ∖ {[incident_id (alert item)]}) self) w in
  upd_telemetry (add_intake_queue_depth_updown (-1)) w.

(** [shutdown], up to the release of the lock; the wait on [_tasks]
    that follows changes no field. *)
Definition shutdown (w : World) : World :=
  let w := upd_intake (set_shutting_down true) w in
  let w := foldl discard_queued w (_queue (intake w)) in
  upd_intake (set_queue []) w.

(** The body of the [while self._queue] loop of [_dispatch_next], after
    the pop. *)
Definition scan_body (now : Z) (candidate : QueuedAlert)
    (acc : World * option QueuedAlert * list QueuedAlert)
    : World * option QueuedAlert * list QueuedAlert :=
  let '(w, eligible, remaining) := acc in
  let age := now - enqueued_at candidate in
  if _queue_ttl_seconds (intake w) <? age then
    let w := upd_intake (λ self, set_known_incidents
               (_known_incidents self ∖ {[incident_id (alert candidate)]}) self) w in
    let w := upd_state (λ s, set_alerts_expired (alerts_expired s + 1) s) w in
    let w := upd_telemetry (add_alerts_expired_counter 1) w in
    let w := upd_telemetry (add_intake_queue_depth_updown (-1)) w in
    (w, eligible, remaining)
  else if bool_decide (eligible = None)
          && bool_decide (service_name (alert candidate) ∉ dom (_active_services (intake w))) then
    let w := upd_telemetry (add_intake_queue_depth_updown (-1)) w in
    (w, Some candidate, remaining)
  else (w, eligible, remaining ++ [candidate]).

Fixpoint scan_loop (fuel : nat) (now : Z)
    (acc : World * option QueuedAlert * list QueuedAlert)
    : option (World * option QueuedAlert * list QueuedAlert) :=
  match _queue (intake acc.1.1) with
  | [] => Some acc
  | _ :: _ =>
      match fuel with
      | O => None
      | S fuel' =>
          '(candidate, q) ← Heapq.heappop QueuedAlert_lt (_queue (intake acc.1.1));
          let '(w, eligible, remaining) := acc in
          scan_loop fuel' now
            (scan_body now candidate (upd_intake (set_queue q) w, eligible, remaining))
      end
  end.

(** [_dispatch_next]; [now] and [started] are the two readings of
    [time.time()]. *)
Definition _dispatch_next (now started : Z) (w : World) : option World :=
  match _queue (intake w) with
  | [] => Some w
  | _ :: _ =>
      if _max_concurrent (intake w) <=? _active_count (intake w) then Some w
      else
        '(w, eligible, remaining) ← scan_loop (length (_queue (intake w))) now (w, None, []);
        q ← Heapq.heapify QueuedAlert_lt remaining;
        let w := upd_intake (set_queue q) w in
        match eligible with
        | Some e => Some (dispatch (alert e) (trace_id e) started w)
        | None => Some w
        end
  end.

(** [_on_complete] *)
Definition _on_complete (alert : PagerDutyAlert) (now started : Z) (w : World) : option World :=
  let w := upd_intake (λ self, set_active_count (_active_count self - 1) self) w in
  let w := upd_intake (λ self, set_known_incidents
             (_known_incidents self ∖ {[incident_id alert]}) self) w in
  let w := upd_intake (λ self, set_active_services
             (delete (service_name alert) (_active_services self)) self) w in
  if negb (_shutting_down (intake w)) then _dispatch_next now started w else Some w.

(** The end of [_run_wrapper] for the [k]-th task of [_tasks]: the
    [finally] clause runs [_on_complete], the wrapper returns and the
    done-callback [self._tasks.discard] drops the task. Nothing but
    the wait of [shutdown] reads [_tasks] in between, so the three are
    one step here. [None] if there is no such task. *)
Definition _run_wrapper_exit (k : nat) (now started : Z) (w : World) : option World :=
  '(alert, _) ← _tasks (intake w) !! k;
  w ← _on_complete alert now started w;
  Some (upd_intake (λ self, set_tasks (delete k (_tasks self)) self) w).

(** ** The intake as a transition system: webhook handlers submit,
    runs complete, the lifespan shuts down. Every method body runs
    without suspension once it holds [_lock], so each is one atomic
    step. *)
Inductive event :=
  | Submit (alert : PagerDutyAlert) (trace_id : string) (now : Z)
  | Complete (k : nat) (now started : Z)
  | Shutdown.

Definition step (ev : event) (w : World) : option (option string * World) :=
  match ev with
  | Submit alert trace_id now =>
      '(d, w') ← submit alert trace_id now w; Some (Some d, w')
  | Complete k now started =>
      w' ← _run_wrapper_exit k now started w; Some (None, w')
  | Shutdown => Some (None, shutdown w)
  end.

Fixpoint run (evs : list event) (w : World) : option (list (option string) * World) :=
  match evs with
  | [] => Some ([], w)
  | ev :: evs' =>
      '(d, w') ← step ev w;
      '(ds, w'') ← run evs' w';
      Some (d :: ds, w'')
  end.

(** Between two steps of the intake the rest of the service (main.py)
    writes to [state] and to the instruments, all but the queue depth
    gauge, which only the intake moves. *)
Inductive reachable (max_concurrent queue_ttl_seconds : Z) : World → Prop :=
  | reachable_init :
      reachable max_concurrent queue_ttl_seconds
        (World_init max_concurrent queue_ttl_seconds)
  | reachable_step w ev d w' :
      reachable max_concurrent queue_ttl_seconds w →
      step ev w = Some (d, w') →
      reachable max_concurrent queue_ttl_seconds w'
  | reachable_main w state' telemetry' :
      reachable max_concurrent queue_ttl_seconds w →
      intake_queue_depth_updown telemetry' = intake_queue_depth_updown (telemetry w) →
      reachable max_concurrent queue_ttl_seconds
        {| intake := intake w; state := state'; telemetry := telemetry' |}.
End Intake.

(** * The intake: what its scan computes and what its fields satisfy *)
Module IntakeSpec.
Import Models State Telemetry Intake.

Definition is_expired (ttl now : Z) (c : QueuedAlert) : bool :=
  ttl <? now - enqueued_at c.

Definition is_free (active : gmap string string) (c : QueuedAlert) : bool :=
  bool_decide (service_name (alert c) ∉ dom active).

Definition expired_of (ttl now : Z) (l : list QueuedAlert) : list QueuedAlert :=
  filter (λ c, is_expired ttl now c) l.
Definition fresh_of (ttl now : Z) (l : list QueuedAlert) : list QueuedAlert :=
  filter (λ c, ¬ is_expired ttl now c) l.

(** First candidate of [l] whose service is free, and the others in
    order. *)
Fixpoint elect (active : gmap string string) (l : list QueuedAlert)
    : option QueuedAlert * list QueuedAlert :=
  match l with
  | [] => (None, [])
  | c :: l' =>
      if is_free active c then (Some c, l')
      else let '(e, r) := elect active l' in (e, c :: r)
  end.

(** The effect of the expiry branch of the scan on the world. *)
Definition expire (c : QueuedAlert) (w : World) : World :=
  upd_telemetry (add_intake_queue_depth_updown (-1))
    (upd_telemetry (add_alerts_expired_counter 1)
      (upd_state (λ s, set_alerts_expired (alerts_expired s + 1) s)
        (upd_intake (λ self, set_known_incidents
           (_known_incidents self ∖ {[incident_id (alert c)]}) self) w))).

(** The entry [submit] pushes on the heap. *)
Definition queued_of (alert : PagerDutyAlert) (trace_id : string) (now : Z) : QueuedAlert :=
  {| alert := alert; trace_id := trace_id; enqueued_at := now;
     priority_rank := _priority_rank (priority alert) |}.

Definition scan_fold (now : Z) (l : list QueuedAlert)
    (acc : World * option QueuedAlert * list QueuedAlert) :=
  foldl (λ acc c, scan_body now c acc) acc l.

Definition task_ids (ts : list Task) : list string := (λ t, incident_id t.1) <$> ts.
Definition task_entries (ts : list Task) : list (string * string) :=
  (λ t, (service_name t.1, incident_id t.1)) <$> ts.
Definition queue_ids (q : list QueuedAlert) : list string := (λ c, incident_id (alert c)) <$> q.

(** What holds of the private fields of an [AlertIntake] between any
    two steps. *)
Record IntakeInv (i : AlertIntake) : Prop := {
  inv_heap : HeapqSpec.heap_ok QueuedAlert_lt (_queue i);
  inv_count : _active_count i = Z.of_nat (length (_tasks i));
  inv_cap : _active_count i ≤ _max_concurrent i;
  inv_services : _active_services i = list_to_map (task_entries (_tasks i));
  inv_nodup_services : NoDup (task_entries (_tasks i)).*1;
  inv_known : _known_incidents i = list_to_set (task_ids (_tasks i) ++ queue_ids (_queue i));
  inv_nodup_ids : NoDup (task_ids (_tasks i) ++ queue_ids (_queue i));
  inv_blocked : Forall (λ q, service_name (alert q) ∈ dom (_active_services i)
                             ∨ _max_concurrent i ≤ _active_count i) (_queue i);
  inv_shutdown : _shutting_down i = true → _queue i = [];
}.

Definition Inv (w : World) : Prop :=
  IntakeInv (intake w) ∧
  intake_queue_depth_updown (telemetry w) = Z.of_nat (length (_queue (intake w))).

(** A queued alert carries the rank of its priority. *)
Definition ranked (q : QueuedAlert) : Prop :=
  priority_rank q = _priority_rank (priority (alert q)).

(** What a step answers once the intake is shutting down. *)
Definition rejected_or_silent (ev : event) (d : option string) : Prop :=
  match ev with
  | Submit _ _ _ => d = Some "rejected"%string
  | _ => d = None
  end.
End IntakeSpec.

(** * agent.py *)
Module Agent.
Import Models Config Py.

Definition MAX_TURNS : nat := 20.
Definition MAX_DURATION_SECONDS : Z := 300.

(** The summaries [run_agent] writes; the formatted text is in the
    comment of each constructor. Only [FinalText] carries text the
    code does not build itself. *)
Inductive Summary :=
  | NoSummary
    (* "" *)
  | DurationLimitExceeded (elapsed turns : Z)
    (* f"Duration limit exceeded ({elapsed:.0f}s). Escalating after {turns} turns." *)
  | TokenBudgetExceeded (tokens_used budget turns : Z)
    (* f"Token budget exceeded ({tokens_used:,}/{budget:,}). Escalating after {turns} turns." *)
  | FinalText (content : string)
    (* message.content *)
  | EmptyResponse
    (* "Agent produced empty response." *)
  | MaxTurnsReached
    (* f"Max turns reached ({MAX_TURNS}). Escalating." *).

(** [estimated_cost_usd] is floating point and is left out. *)
Record AgentResult := {
  summary : Summary;
  turns : Z;
  input_tokens : Z;
  output_tokens : Z;
  models_used : list string;
  tool_calls_made : list string;
}.

Record ToolCall := {
  tool_call_id : string;
  tool_name : string;
  arguments : string;
}.

Record Message := {
  role : string;
  content : string;
  message_tool_calls : list ToolCall;
  message_tool_call_id : option string;
}.

Record Usage := { prompt_tokens : Z; completion_tokens : Z }.

(** A chat completion: [usage], and for each choice the tool calls and
    the content of its message. *)
Record Response := {
  usage : option Usage;
  choices : list (list ToolCall * string);
}.

(** What a run reads from outside: the clock at its start and at the
    top of each turn, the system prompt file, the LLM, [json.loads] on
    the arguments of a tool call and [ToolExecutor.execute]. *)
Record Env := {
  start_time : Z;
  clock : nat → Z;
  load_system_prompt : result string;
  create : nat → string → list Message → result Response;
  json_loads : string → option string;
  execute : string → string → string;
}.

Record Loop := {
  result_ : AgentResult;
  messages : list Message;
  current_model : string;
  escalated_model : bool;
}.

Inductive Outcome :=
  | Break (r : AgentResult)
  | Continue (st : Loop)
  | Raised (exc : string).

Definition with_summary (s : Summary) (r : AgentResult) : AgentResult :=
  {| summary := s; turns := turns r; input_tokens := input_tokens r;
     output_tokens := output_tokens r; models_used := models_used r;
     tool_calls_made := tool_calls_made r |}.
Definition with_turns (n : Z) (r : AgentResult) : AgentResult :=
  {| summary := summary r; turns := n; input_tokens := input_tokens r;
     output_tokens := output_tokens r; models_used := models_used r;
     tool_calls_made := tool_calls_made r |}.

(** [if response.usage: ...] *)
Definition track_usage (model : string) (u : option Usage) (r : AgentResult) : AgentResult :=
  match u with
  | None => r
  | Some u =>
      {| summary := summary r; turns := turns r;
         input_tokens := input_tokens r + prompt_tokens u;
         output_tokens := output_tokens r + completion_tokens u;
         models_used := if bool_decide (model ∈ models_used r) then models_used r
                        else models_used r ++ [model];
         tool_calls_made := tool_calls_made r |}
  end.

(** [for tool_call in message.tool_calls: ...] *)
Definition run_tool_call (env : Env) (acc : AgentResult * list Message) (tc : ToolCall)
    : AgentResult * list Message :=
  let '(r, msgs) := acc in
  let tool_input := default "{}"%string (json_loads env (arguments tc)) in
  let r := {| summary := summary r; turns := turns r; input_tokens := input_tokens r;
              output_tokens := output_tokens r; models_used := models_used r;
              tool_calls_made := tool_calls_made r ++ [tool_name tc] |} in
  let tool_result := execute env (tool_name tc) tool_input in
  (r, msgs ++ [{| role := "tool"; content := tool_result; message_tool_calls := [];
                  message_tool_call_id := Some (tool_call_id tc) |}]).

(** One pass through the body of [for turn in range(MAX_TURNS)]. *)
Definition agent_turn (config : Config) (env : Env) (turn : nat) (st : Loop) : Outcome :=
  let r := with_turns (Z.of_nat turn + 1) (result_ st) in
  let escalate :=
    negb (escalated_model st)
    && negb (bool_decide (llm_model_escalation config = ""%string))
    && (llm_escalation_turn config <=? Z.of_nat turn) in
  let model := if escalate then llm_model_escalation config else current_model st in
  let escalated := if escalate then true else escalated_model st in
  let elapsed := clock env turn - start_time env in
  if MAX_DURATION_SECONDS <? elapsed then
    Break (with_summary (DurationLimitExceeded elapsed (turns r)) r)
  else
    let tokens_used := input_tokens r + output_tokens r in
    if (0 <? max_tokens_per_incident config)
       && (max_tokens_per_incident config <=? tokens_used) then
      Break (with_summary
               (TokenBudgetExceeded tokens_used (max_tokens_per_incident config) (turns r)) r)
    else
      match create env turn model (messages st) with
      | Raise exc => Raised exc
      | Return response =>
          let r := track_usage model (usage response) r in
          match choices response with
          | [] => Raised "IndexError"
          | (tool_calls, content) :: _ =>
              match tool_calls with
              | _ :: _ =>
                  let assistant := {| role := "assistant"; content := content;
                                      message_tool_calls := tool_calls;
                                      message_tool_call_id := None |} in
                  let '(r, msgs) :=
                    foldl (run_tool_call env) (r, messages st ++ [assistant]) tool_calls in
                  Continue {| result_ := r; messages := msgs; current_model := model;
                              escalated_model := escalated |}
              | [] =>
                  if bool_decide (content = ""%string)
                  then Break (with_summary EmptyResponse r)
                  else Break (with_summary (FinalText content) r)
              end
          end
      end.

(** The [for] loop with [n] passes left; its [else] clause runs when
    none is left. *)
Fixpoint turn_loop (config : Config) (env : Env) (n : nat) (turn : nat) (st : Loop)
    : result AgentResult :=
  match n with
  | O => Return (with_summary MaxTurnsReached (result_ st))
  | S n' =>
      match agent_turn config env turn st with
      | Break r => Return r
      | Raised exc => Raise exc
      | Continue st' => turn_loop config env n' (S turn) st'
      end
  end.

(** [run_agent]; [user_message] is [_format_alert_message(alert)]. The
    token refresh and the construction of the client and of the tool
    executor before the loop are not modelled, nor is the closing of the
    HTTP client in [finally]. *)
Definition run_agent (config : Config) (env : Env) (user_message : string)
    : result AgentResult :=
  match load_system_prompt env with
  | Raise exc => Raise exc
  | Return system_prompt =>
      turn_loop config env MAX_TURNS 0
        {| result_ := {| summary := NoSummary; turns := 0; input_tokens := 0;
                         output_tokens := 0; models_used := []; tool_calls_made := [] |};
           messages := [ {| role := "system"; content := system_prompt;
                            message_tool_calls := []; message_tool_call_id := None |};
                         {| role := "user"; content := user_message;
                            message_tool_calls := []; message_tool_call_id := None |} ];
           current_model := llm_model config;
           escalated_model := false |}
  end.
End Agent.

(** * The agent loop: what it reads of its environment *)
Module AgentSpec.
Import Py Config Agent.

(** Two environments show a run the same clock and the same LLM at the
    turns below [bound], and are the same otherwise. *)
Definition agree (bound : nat) (env env' : Env) : Prop :=
  start_time env = start_time env' ∧
  load_system_prompt env = load_system_prompt env' ∧
  json_loads env = json_loads env' ∧
  execute env = execute env' ∧
  ∀ t, (t < bound)%nat → clock env t = clock env' t ∧ create env t = create env' t.
End AgentSpec.

(** * main.py *)
Module Main.
Import Models State Telemetry Config Intake Py.

(** ** The webhook endpoints *)

(** What the handlers read of a decoded JSON payload:
    [payload.get("event", {}).get("event_type", "")],
    [payload.get("incident", {}).get("state", "")], and the alert that
    [PagerDutyAlert.from_webhook] and [PagerDutyAlert.from_gcp_webhook]
    build from it ([None] when they raise). *)
Record Payload := {
  event_type : string;
  incident_state : string;
  from_webhook : option PagerDutyAlert;
  from_gcp_webhook : option PagerDutyAlert;
}.

(** A request: header values by lower-case name, query parameters, the
    raw body and the outcome of [request.json()]. *)
Record Request := {
  headers : gmap string string;
  query_params : gmap string string;
  body : string;
  json : result Payload;
}.

(** How a handler ends: it returns a dict (served with status 200),
    raises an [HTTPException], or lets another exception escape (served
    as a 500 by the framework). *)
Inductive Response :=
  | Returned (content : list (string * string))
  | HTTPException (status_code : Z) (detail : string)
  | Unhandled (exc : string).

Definition MAX_RECENT_ERRORS : nat := 50.

(** [_verify_signature] *)
Definition _verify_signature (body signature secret : string) : result bool :=
  if bool_decide (signature = ""%string) then Return false
  else
    let expected := Hashlib.hmac_sha256_hexdigest secret body in
    let provided := removeprefix "v1=" signature in
    compare_digest expected provided.

(** The tail both endpoints share once a payload yielded an alert:
    count it and hand it to the intake. *)
Definition admit_alert (alert : PagerDutyAlert) (trace_id : string) (now : Z) (w : World)
    : Response * World :=
  let w := upd_state (λ s, set_webhooks_processed (webhooks_processed s + 1) s) w in
  let w := upd_telemetry (add_webhooks_processed_counter 1) w in
  match submit alert trace_id now w with
  | Some (disposition, w) =>
      (Returned [("status", disposition); ("incident_id", incident_id alert);
                 ("trace_id", trace_id)]%string, w)
  | None => (Unhandled "IndexError", w)
  end.

Definition ignore_event (key value : string) (w : World) : Response * World :=
  let w := upd_state (λ s, set_webhooks_ignored (webhooks_ignored s + 1) s) w in
  let w := upd_telemetry (add_webhooks_ignored_counter 1) w in
  (Returned [("status", "ignored"); (key, value)]%string, w).

Definition fail_webhook (w : World) : World :=
  let w := upd_state (λ s, set_webhooks_failed (webhooks_failed s + 1) s) w in
  upd_telemetry (add_webhooks_failed_counter 1) w.

Definition record_error (e : ErrorRecord) (w : World) : World :=
  upd_state (λ s, set_recent_errors (deque_append MAX_RECENT_ERRORS (recent_errors s) e) s) w.

(** [receive_webhook]; [trace_id] is the fresh [uuid.uuid4()] and [now]
    the reading of [time.time()] (every path reads the clock at most
    once). *)
Definition receive_webhook (config : Config) (request : Request)
    (trace_id : string) (now : Z) (w : World) : Response * World :=
  let w := upd_state (λ s, set_webhooks_received (webhooks_received s + 1) s) w in
  let w := upd_telemetry (add_webhooks_received_counter 1) w in
  if draining (state w) then (HTTPException 503 "Service is draining", w)
  else
    let verified :=
      if bool_decide (pagerduty_webhook_secret config = ""%string) then Return true
      else _verify_signature (body request)
             (default ""%string (headers request !! "x-pagerduty-signature"%string))
             (pagerduty_webhook_secret config) in
    match verified with
    | Raise exc => (Unhandled exc, w)
    | Return false =>
        let w := fail_webhook w in
        let w := record_error
                   {| err_timestamp := now; err_type := "webhook_auth_failure";
                      err_message := "Invalid webhook signature";
                      err_incident_id := None; err_trace_id := Some trace_id |} w in
        (HTTPException 401 "Invalid webhook signature", w)
    | Return true =>
        match json request with
        | Raise exc => (Unhandled exc, w)
        | Return payload =>
            if negb (bool_decide (event_type payload
                       ∈ ["incident.triggered"; "incident.escalated"]%string))
            then ignore_event "event_type" (event_type payload) w
            else
              match from_webhook payload with
              | None =>
                  let w := fail_webhook w in
                  let w := record_error
                             {| err_timestamp := now; err_type := "payload_parse_error";
                                err_message := "Failed to parse PagerDuty webhook payload";
                                err_incident_id := None; err_trace_id := Some trace_id |} w in
                  (HTTPException 400 "Invalid payload", w)
              | Some alert => admit_alert alert trace_id now w
              end
        end
    end.

(** [receive_gcp_webhook] *)
Definition receive_gcp_webhook (config : Config) (request : Request)
    (trace_id : string) (now : Z) (w : World) : Response * World :=
  let w := upd_state (λ s, set_webhooks_received (webhooks_received s + 1) s) w in
  let w := upd_telemetry (add_webhooks_received_counter 1) w in
  if draining (state w) then (HTTPException 503 "Service is draining", w)
  else
    let auth_token := default ""%string (query_params request !! "auth_token"%string) in
    let verified :=
      if negb (bool_decide (ops_auth_token config = ""%string))
         && negb (bool_decide (auth_token = ""%string))
      then compare_digest auth_token (ops_auth_token config)
      else Return true in
    match verified with
    | Raise exc => (Unhandled exc, w)
    | Return false => (HTTPException 401 "Invalid auth token", fail_webhook w)
    | Return true =>
        match json request with
        | Raise exc => (Unhandled exc, w)
        | Return payload =>
            if negb (bool_decide (incident_state payload = "open"%string))
            then ignore_event "state" (incident_state payload) w
            else
              match from_gcp_webhook payload with
              | None =>
                  let w := fail_webhook w in
                  let w := record_error
                             {| err_timestamp := now; err_type := "gcp_payload_parse_error";
                                err_message :=
                                  "Failed to parse GCP Cloud Monitoring webhook payload";
                                err_incident_id := None; err_trace_id := Some trace_id |} w in
                  (HTTPException 400 "Invalid payload", w)
              | Some alert => admit_alert alert trace_id now w
              end
        end
    end.

(** ** Processing an alert *)

(** An entry of [_alert_queue]; the alert stands for the fields copied
    from it. *)
Record AlertEntry := {
  entry_status : string;
  entry_alert : PagerDutyAlert;
  entry_trace_id : string;
  entry_queued_at : Z;
}.

Definition with_status (status : string) (e : AlertEntry) : AlertEntry :=
  {| entry_status := status; entry_alert := entry_alert e;
     entry_trace_id := entry_trace_id e; entry_queued_at := entry_queued_at e |}.

(** The module globals [_process_alert] touches: [state] (the object the
    intake holds as [_state]), the instruments, and [_alert_queue]. *)
Record App := {
  world : World;
  _alert_queue : gmap string AlertEntry;
}.

(** The text of the budget note, by the values formatted into it. *)
Record BudgetNote := {
  note_budget_type : string;
  note_tokens_used : Z;
  note_budget : Z;
  note_alert : PagerDutyAlert;
}.

(** The requests [_escalate_budget_exhausted] sends to
    [https://api.pagerduty.com/incidents/{incident_id}]: a POST of a note
    to [.../notes], and a PUT whose body is
    [{"incident": {"type": "incident_reference", "escalation_level": n}}].
    [x_trace_id] is the [X-Trace-Id] header, present for a non-empty
    trace id. *)
Inductive HttpRequest :=
  | POST_note (incident : string) (note : BudgetNote) (x_trace_id : option string)
  | PUT_incident (incident : string) (escalation_level : Z) (x_trace_id : option string).

(** What a call of [_process_alert] reads from outside: the successive
    readings of [time.time()], whether a request comes back or [httpx]
    raises, the environment of the agent run it may start,
    [_format_alert_message], and [_append_cost_to_report] on the
    incident id, the result and the duration of a run: it works on the
    files of the incidents directory, and returns, or lets an exception
    of [exists], [glob] or [stat] escape, which it calls outside its
    own [try]. *)
Record Env := {
  time : nat → Z;
  send : HttpRequest → result unit;
  agent_env : Agent.Env;
  format_alert_message : PagerDutyAlert → string;
  _append_cost_to_report : string → Agent.AgentResult → Z → result unit;
}.

(** What a call leaves behind: the globals, the requests sent in order,
    the agent run started if any, how the call of
    [_append_cost_to_report] ended if there was one, and the exception
    that escaped if any. *)
Record Outcome := {
  app : App;
  requests : list HttpRequest;
  agent_run : option (result Agent.AgentResult);
  cost_footer : option (result unit);
  raised : option string;
}.

(** [_tokens_last_hour], at clock reading [now] *)
Definition _tokens_last_hour (now : Z) (state : RuntimeState) : Z :=
  let cutoff := now - 3600 in
  foldr Z.add 0 ((λ e, e.2) <$> filter (λ e, cutoff ≤ e.1) (hourly_token_log state)).

(** [_is_hourly_budget_exhausted]; the clock is read only when a budget
    is set. *)
Definition _is_hourly_budget_exhausted (config : Config) (now : Z) (state : RuntimeState)
    : bool :=
  if max_tokens_per_hour config <=? 0 then false
  else max_tokens_per_hour config <=? _tokens_last_hour now state.

(** [_escalate_budget_exhausted]: the requests sent and the exception
    that escaped, if any. *)
Definition _escalate_budget_exhausted (config : Config) (env : Env) (now : Z)
    (state : RuntimeState) (alert : PagerDutyAlert) (trace_id budget_type : string)
    : list HttpRequest * option string :=
  let tokens_used := _tokens_last_hour now state in
  let budget := max_tokens_per_hour config in
  let x_trace_id := if bool_decide (trace_id = ""%string) then None else Some trace_id in
  let post := POST_note (incident_id alert)
                {| note_budget_type := budget_type; note_tokens_used := tokens_used;
                   note_budget := budget; note_alert := alert |} x_trace_id in
  match send env post with
  | Raise exc => ([post], Some exc)
  | Return _ =>
      let put := PUT_incident (incident_id alert) 2 x_trace_id in
      match send env put with
      | Raise exc => ([post; put], Some exc)
      | Return _ => ([post; put], None)
      end
  end.

Definition MAX_RUNS : nat := 500.
Definition MAX_TOKEN_LOG : nat := Z.to_nat 10000.

Definition upd_world (f : World → World) (a : App) : App :=
  {| world := f (world a); _alert_queue := _alert_queue a |}.
Definition set_status (incident status : string) (a : App) : App :=
  {| world := world a;
     _alert_queue := alter (with_status status) incident (_alert_queue a) |}.

(** The statements every branch runs once the run is over:
    [state.active_incidents.pop(alert.incident_id, None)] and
    [incidents_active_updown.add(-1)]. *)
Definition close_incident (alert : PagerDutyAlert) (w : World) : World :=
  let w := upd_state (λ s, set_active_incidents
             (delete (incident_id alert) (active_incidents s)) s) w in
  upd_telemetry (add_incidents_active_updown (-1)) w.

Definition record_duration (duration : Z) (w : World) : World :=
  let w := upd_state (λ s, set_run_durations
             (deque_append MAX_RUNS (run_durations s) duration) s) w in
  upd_telemetry (record_agent_run_duration_histogram duration) w.

(** The [except Exception] clause of [_process_alert]; [duration] and
    [timestamp] come from the two readings of the clock it makes. *)
Definition record_failure (alert : PagerDutyAlert) (trace_id : string)
    (duration timestamp : Z) (a : App) : App :=
  let a := upd_world (upd_state (λ s,
             set_agent_runs_failed (agent_runs_failed s + 1) s)) a in
  let a := upd_world (upd_telemetry (add_agent_runs_failed_counter 1)) a in
  let a := upd_world (record_duration duration) a in
  let a := upd_world (close_incident alert) a in
  let a := set_status (incident_id alert) "failed" a in
  upd_world (record_error
    {| err_timestamp := timestamp; err_type := "agent_failure";
       err_message := "Agent failed for incident " +:+ incident_id alert;
       err_incident_id := Some (incident_id alert);
       err_trace_id := Some trace_id |}) a.

(** [_process_alert]. [time env 0] is [queued_at]; the budget check
    reads the clock when a budget is set, so later readings are counted
    from [reads]. The [try] block ends with the call of
    [_append_cost_to_report]: when that raises, the [except] clause runs
    after the statements of a completed run. *)
Definition _process_alert (config : Config) (env : Env)
    (alert : PagerDutyAlert) (trace_id : string) (a : App) : Outcome :=
  let a := {| world := world a;
              _alert_queue := <[incident_id alert :=
                  {| entry_status := "processing"; entry_alert := alert;
                     entry_trace_id := trace_id; entry_queued_at := time env 0 |}]>
                (_alert_queue a) |} in
  let reads := if max_tokens_per_hour config <=? 0 then 1%nat else 2%nat in
  if _is_hourly_budget_exhausted config (time env 1) (state (world a)) then
    let a := upd_world (upd_state (λ s,
               set_agent_runs_completed (agent_runs_completed s + 1) s)) a in
    let a := upd_world (upd_telemetry (add_agent_runs_completed_counter 1)) a in
    let a := upd_world (close_incident alert) a in
    let a := set_status (incident_id alert) "escalated" a in
    let '(sent, exc) :=
      _escalate_budget_exhausted config env (time env 2) (state (world a))
        alert trace_id "hourly" in
    {| app := a; requests := sent; agent_run := None; cost_footer := None;
       raised := exc |}
  else
    let start := time env reads in
    let run := Agent.run_agent config (agent_env env) (format_alert_message env alert) in
    let duration := time env (S reads) - start in
    match run with
    | Return result =>
        let a := upd_world (upd_state (λ s,
                   set_agent_runs_completed (agent_runs_completed s + 1) s)) a in
        let a := upd_world (upd_telemetry (add_agent_runs_completed_counter 1)) a in
        let a := upd_world (record_duration duration) a in
        let a := upd_world (close_incident alert) a in
        let run_tokens := Agent.input_tokens result + Agent.output_tokens result in
        let a := upd_world (upd_state (λ s, set_total_input_tokens
                   (total_input_tokens s + Agent.input_tokens result) s)) a in
        let a := upd_world (upd_state (λ s, set_total_output_tokens
                   (total_output_tokens s + Agent.output_tokens result) s)) a in
        let a := upd_world (upd_state (λ s, set_run_token_usage
                   (deque_append MAX_RUNS (run_token_usage s) run_tokens) s)) a in
        let a := upd_world (upd_state (λ s, set_hourly_token_log
                   (deque_append MAX_TOKEN_LOG (hourly_token_log s)
                      (time env (S (S reads)), run_tokens)) s)) a in
        let a := upd_world (upd_telemetry
                   (add_tokens_input_counter (Agent.input_tokens result))) a in
        let a := upd_world (upd_telemetry
                   (add_tokens_output_counter (Agent.output_tokens result))) a in
        let a := upd_world (upd_telemetry (record_tokens_per_run_histogram run_tokens)) a in
        let a := set_status (incident_id alert) "done" a in
        let footer := _append_cost_to_report env (incident_id alert) result duration in
        match footer with
        | Return _ =>
            {| app := a; requests := []; agent_run := Some run;
               cost_footer := Some footer; raised := None |}
        | Raise _ =>
            let duration := time env (S (S (S reads))) - start in
            let a := record_failure alert trace_id duration
                       (time env (S (S (S (S reads))))) a in
            {| app := a; requests := []; agent_run := Some run;
               cost_footer := Some footer; raised := None |}
        end
    | Raise _ =>
        let a := record_failure alert trace_id duration (time env (S (S reads))) a in
        {| app := a; requests := []; agent_run := Some run; cost_footer := None;
           raised := None |}
    end.

(** ** The incident provider, as far as the requests above address it:
    the escalation level of each incident. The PUT carries the level in
    its body, and the provider sets the incident to it. *)
Definition Provider : Type := gmap string Z.

Definition serve (r : HttpRequest) (p : Provider) : Provider :=
  match r with
  | POST_note _ _ _ => p
  | PUT_incident incident level _ => <[incident := level]> p
  end.
End Main.

(** * pathlib, on POSIX paths *)
Module Pathlib.
Import Py.

(** [s.split("/")] *)
Fixpoint split_sep (s : string) : list string :=
  match s with
  | EmptyString => [EmptyString]
  | String c s' =>
      if bool_decide (c = "/"%char) then EmptyString :: split_sep s'
      else match split_sep s' with
           | x :: xs => String c x :: xs
           | [] => [String c EmptyString]
           end
  end.

(** A pure path: its root ("", "/" or "//") and the components after it. *)
Record PurePath := {
  root : string;
  tail : list string;
}.

(** Two leading slashes, and only two, are kept as a root of their own. *)
Definition parse_root (s : string) : string :=
  if startswith "//" s && negb (startswith "///" s) then "//"
  else if startswith "/" s then "/"
  else "".

(** [Path(s)]: empty and "." components are dropped. *)
Definition Path (s : string) : PurePath :=
  {| root := parse_root s;
     tail := filter (λ x, x ≠ ""%string ∧ x ≠ "."%string) (split_sep s) |}.

(** [p.name]: the last component, "" if there is none. *)
Definition name (p : PurePath) : string := List.last (tail p) ""%string.

(** [p / s]: a rooted [s] replaces [p]. *)
Definition truediv (p : PurePath) (s : string) : PurePath :=
  let q := Path s in
  if bool_decide (root q = ""%string) then {| root := root p; tail := tail p ++ tail q |}
  else q.

Fixpoint join (sep : string) (l : list string) : string :=
  match l with
  | [] => ""
  | [x] => x
  | x :: l' => x +:+ sep +:+ join sep l'
  end.

(** [str(p)] *)
Definition str (p : PurePath) : string :=
  if bool_decide (root p = ""%string) && bool_decide (tail p = []) then "."
  else root p +:+ join "/" (tail p).
End Pathlib.

(** * Paths: separators *)
Module PathlibSpec.
(** [s] contains the separator. *)
Definition has_sep (s : string) : bool :=
  existsb (λ c, bool_decide (c = "/"%char)) (String.list_ascii_of_string s).
End PathlibSpec.

(** * tools.py: the write_incident_report tool *)
Module Tools.
Import Py Pathlib.

(** The calls on the file system, in order. *)
Inductive FsCall :=
  | Mkdir (p : PurePath)
    (* p.mkdir(parents=True, exist_ok=True) *)
  | WriteText (p : PurePath) (content : string)
    (* p.write_text(content) *).

(** What the handler hands back: one of its two JSON envelopes,
    [{"error": msg}] or [{"status": "written", "path": path}], or an
    exception of the file system (which [execute] turns into an error
    envelope). *)
Inductive ToolResult :=
  | ErrorEnvelope (msg : string)
  | Written (path : string)
  | Raised (exc : string).

(** [ToolExecutor._write_incident_report]; [fs] tells whether a call on
    the file system returns or raises. *)
Definition _write_incident_report (incidents_dir : PurePath)
    (fs : FsCall → result unit) (input : gmap string string)
    : ToolResult * list FsCall :=
  let filename := default ""%string (input !! "filename"%string) in
  let content := default ""%string (input !! "content"%string) in
  if bool_decide (filename = ""%string) || bool_decide (content = ""%string) then
    (ErrorEnvelope "filename and content are required", [])
  else
    let safe_name := name (Path filename) in
    if negb (bool_decide (safe_name = filename)) then
      (ErrorEnvelope ("Invalid filename (path traversal rejected): " +:+ filename), [])
    else
      let mkdir := Mkdir incidents_dir in
      match fs mkdir with
      | Raise exc => (Raised exc, [mkdir])
      | Return _ =>
          let filepath := truediv incidents_dir safe_name in
          let write := WriteText filepath content in
          match fs write with
          | Raise exc => (Raised exc, [mkdir; write])
          | Return _ => (Written (str filepath), [mkdir; write])
          end
      end.
End Tools.

(** * The agent loop: the model, the conversation and the usage of a turn *)
Module AgentSchedule.
Import Py Config Agent.

(** The model of two-phase escalation at [turn]: the escalation model,
    if one is configured, from turn [llm_escalation_turn] on. *)
Definition model_at (config : Config) (turn : nat) : string :=
  if negb (bool_decide (llm_model_escalation config = ""%string))
     && (llm_escalation_turn config <=? Z.of_nat turn)
  then llm_model_escalation config else llm_model config.

(** The message that answers a tool call: the result of the tool on the
    decoded arguments, [{}] standing in for arguments that do not
    decode, under the id of the call. *)
Definition answer (env : Env) (tc : ToolCall) : Message :=
  {| role := "tool";
     content := execute env (tool_name tc)
                  (default "{}"%string (json_loads env (arguments tc)));
     message_tool_calls := []; message_tool_call_id := Some (tool_call_id tc) |}.

(** What a turn that called tools adds to the conversation. *)
Definition exchange (env : Env) (tool_calls : list ToolCall) (content : string)
    : list Message :=
  {| role := "assistant"; content := content; message_tool_calls := tool_calls;
     message_tool_call_id := None |} :: (answer env <$> tool_calls).

(** The two messages a run starts from. *)
Definition opening (env : Env) (user_message : string) : list Message :=
  match load_system_prompt env with
  | Return system_prompt =>
      [ {| role := "system"; content := system_prompt;
           message_tool_calls := []; message_tool_call_id := None |};
        {| role := "user"; content := user_message;
           message_tool_calls := []; message_tool_call_id := None |} ]
  | Raise _ => []
  end.

(** The conversation at the top of [turn]: the opening, then the
    exchange of each earlier turn (a turn without tool calls adds
    nothing: it is the last). *)
Fixpoint conversation (config : Config) (env : Env) (user_message : string)
    (turn : nat) : list Message :=
  match turn with
  | O => opening env user_message
  | S turn' =>
      let msgs := conversation config env user_message turn' in
      match create env turn' (model_at config turn') msgs with
      | Return {| choices := (tool_call :: tool_calls, content) :: _ |} =>
          msgs ++ exchange env (tool_call :: tool_calls) content
      | _ => msgs
      end
  end.

Definition with_create (f : nat → string → list Message → result Response) (env : Env)
    : Env :=
  {| start_time := start_time env; clock := clock env;
     load_system_prompt := load_system_prompt env; create := f;
     json_loads := json_loads env; execute := execute env |}.

(** An LLM that does not look at what it is asked: at [turn] it answers
    as [env] does for the model and the conversation above. *)
Definition on_schedule (config : Config) (env : Env) (user_message : string) : Env :=
  with_create (λ turn _ _, create env turn (model_at config turn)
                             (conversation config env user_message turn)) env.

(** No response of the LLM reports negative token counts, or more than
    [U] tokens in all. *)
Definition usage_within (U : Z) (env : Env) : Prop :=
  ∀ turn model msgs response u,
    create env turn model msgs = Return response → usage response = Some u →
    0 ≤ prompt_tokens u ∧ 0 ≤ completion_tokens u ∧
    prompt_tokens u + completion_tokens u ≤ U.

(** The model a pass asks, by the state of the loop. *)
Definition asked (config : Config) (turn : nat) (st : Loop) : string :=
  if negb (escalated_model st)
     && negb (bool_decide (llm_model_escalation config = ""%string))
     && (llm_escalation_turn config <=? Z.of_nat turn)
  then llm_model_escalation config else current_model st.

(** [current_model] and [escalated_model] at the top of [turn]. *)
Definition model_inv (config : Config) (turn : nat) (st : Loop) : Prop :=
  if escalated_model st
  then current_model st = llm_model_escalation config ∧
       llm_model_escalation config ≠ ""%string ∧
       llm_escalation_turn config ≤ Z.of_nat turn
  else current_model st = llm_model config.

(** [models_used] at the top of a turn: the models asked so far, each
    once, the escalation model last. *)
Definition models_inv (config : Config) (st : Loop) : Prop :=
  models_used (result_ st)
    ∈ [[]; [llm_model config]; [llm_model_escalation config];
       [llm_model config; llm_model_escalation config]] ∧
  NoDup (models_used (result_ st)) ∧
  (escalated_model st = false →
   models_used (result_ st) ∈ [[]; [llm_model config]]).

(** The state a run enters its loop with. *)
Definition first_loop (config : Config) (env : Env) (user_message : string) : Loop :=
  {| result_ := {| summary := NoSummary; turns := 0; input_tokens := 0;
                   output_tokens := 0; models_used := []; tool_calls_made := [] |};
     messages := opening env user_message;
     current_model := llm_model config;
     escalated_model := false |}.
End AgentSchedule.

(** * main.py: the alert queue endpoints and the /ops endpoints *)
Module Ops.
Import Models State Telemetry Config Intake Py Main.

(** How an endpoint ends: with the body it returns, with an
    [HTTPException], or with another exception. *)
Inductive Answer (A : Type) :=
  | Answered (body : A)
  | Refused (status_code : Z) (detail : string)
  | Crashed (exc : string).
Arguments Answered {A} body.
Arguments Refused {A} status_code detail.
Arguments Crashed {A} exc.

(** ** The alert queue *)

(** The position of a priority in [priority_order]; an entry without
    priority sorts as "P5". *)
Definition priority_order (p : option Priority) : Z :=
  match p with
  | Some P1 => 0
  | Some P2 => 1
  | Some P3 => 2
  | Some P4 => 3
  | None => 4
  end.

Definition pending_key (e : AlertEntry) : Z * Z :=
  (priority_order (priority (entry_alert e)), entry_queued_at e).

(** The order of Python on pairs of numbers. *)
Definition key_le (a b : Z * Z) : bool :=
  (a.1 <? b.1) || ((a.1 =? b.1) && (a.2 <=? b.2)).

(** [list.sort(key=...)]: a stable sort, here by insertion from the
    right, each entry going before the first one whose key is not below
    its own. *)
Fixpoint insert_by_key (x : AlertEntry) (l : list AlertEntry) : list AlertEntry :=
  match l with
  | [] => [x]
  | y :: l' =>
      if key_le (pending_key x) (pending_key y) then x :: y :: l'
      else y :: insert_by_key x l'
  end.

Definition sort_by_key (l : list AlertEntry) : list AlertEntry :=
  foldr insert_by_key [] l.

(** [alerts_pending]; [values] is [_alert_queue.values()], the entries
    in the order of their insertion. Each dict of the answer holds the
    alert fields and [queued_at] of its entry. *)
Definition alerts_pending (values : list AlertEntry) : list (PagerDutyAlert * Z) :=
  (λ e, (entry_alert e, entry_queued_at e))
    <$> sort_by_key (filter (λ e, entry_status e = "pending"%string) values).

(** What [claim_alert] and [complete_alert] do: their answer, the
    globals after them, and the stamp ([claimed_at], [completed_at])
    they write into the entry, which [AlertEntry] does not hold. *)
Record QueueOutcome := {
  answer : Answer (list (string * string));
  globals : App;
  stamp : option Z;
}.

(** [claim_alert]; [now] is the reading of [time.time()]. *)
Definition claim_alert (incident : string) (now : Z) (a : App) : QueueOutcome :=
  match _alert_queue a !! incident with
  | None =>
      {| answer := Refused 404 ("Alert not found: " +:+ incident); globals := a;
         stamp := None |}
  | Some alert_data =>
      if negb (bool_decide (entry_status alert_data = "pending"%string)) then
        {| answer := Refused 409 ("Alert is already " +:+ entry_status alert_data);
           globals := a; stamp := None |}
      else
        {| answer := Answered [("status", "claimed"); ("incident_id", incident)]%string;
           globals := set_status incident "processing" a;
           stamp := Some now |}
  end.

(** [complete_alert] *)
Definition complete_alert (incident : string) (now : Z) (a : App) : QueueOutcome :=
  match _alert_queue a !! incident with
  | None =>
      {| answer := Refused 404 ("Alert not found: " +:+ incident); globals := a;
         stamp := None |}
  | Some _ =>
      let a := set_status incident "done" a in
      let a := upd_world (upd_state (λ s, set_active_incidents
                 (delete incident (active_incidents s)) s)) a in
      let a := upd_world (upd_telemetry (add_incidents_active_updown (-1))) a in
      let a := upd_world (upd_state (λ s,
                 set_agent_runs_completed (agent_runs_completed s + 1) s)) a in
      {| answer := Answered [("status", "completed"); ("incident_id", incident)]%string;
         globals := a; stamp := Some now |}
  end.

(** The entry a run writes as it starts. *)
Definition begin_processing (alert : PagerDutyAlert) (trace_id : string) (now : Z) (a : App)
    : App :=
  {| world := world a;
     _alert_queue := <[incident_id alert :=
         {| entry_status := "processing"; entry_alert := alert;
            entry_trace_id := trace_id; entry_queued_at := now |}]> (_alert_queue a) |}.

(** The globals of main.py as the code that writes [_alert_queue] can
    leave them: [_process_alert], whose first entry is seen while the
    run goes on, and the two endpoints above. The rest of the service
    writes to [state], the intake and the instruments only. *)
Inductive served (config : Config) : App → Prop :=
  | served_start w :
      served config {| world := w; _alert_queue := ∅ |}
  | served_world a w :
      served config a → served config {| world := w; _alert_queue := _alert_queue a |}
  | served_begin a alert trace_id now :
      served config a → served config (begin_processing alert trace_id now a)
  | served_process a env alert trace_id :
      served config a → served config (app (_process_alert config env alert trace_id a))
  | served_claim a incident now :
      served config a → served config (globals (claim_alert incident now a))
  | served_complete a incident now :
      served config a → served config (globals (complete_alert incident now a)).

(** ** The /ops endpoints *)

(** [_require_ops_auth] *)
Definition _require_ops_auth (config : Config) (request : Request) : Answer unit :=
  if bool_decide (ops_auth_token config = ""%string) then Answered ()
  else
    let auth := default ""%string (headers request !! "authorization"%string) in
    if negb (startswith "Bearer " auth) then Refused 401 "Missing authorization header"
    else
      let token := removeprefix "Bearer " auth in
      match compare_digest token (ops_auth_token config) with
      | Raise exc => Crashed exc
      | Return false => Refused 403 "Invalid auth token"
      | Return true => Answered ()
      end.

(** [ops_drain]; the body is [{"status": "draining", "active_incidents":
    n}], given by [n]. *)
Definition ops_drain (config : Config) (request : Request) (w : World)
    : Answer nat * World :=
  match _require_ops_auth config request with
  | Refused status_code detail => (Refused status_code detail, w)
  | Crashed exc => (Crashed exc, w)
  | Answered _ =>
      let w := upd_state (set_draining true) w in
      (Answered (size (active_incidents (state w))), w)
  end.

(** The body of [ops_errors]; [by_type] is a dict, read here without
    the order of its keys. *)
Record ErrorsReport := {
  total : nat;
  by_type : gmap string Z;
  recent : list ErrorRecord;
}.

(** [ops_errors] *)
Definition ops_errors (s : RuntimeState) : ErrorsReport :=
  let errors := recent_errors s in
  {| total := length errors;
     by_type := foldl (λ counts e,
                   <[err_type e := default 0 (counts !! err_type e) + 1]> counts)
                  ∅ errors;
     recent := drop (length errors - 20) errors |}.
End Ops.

(** * The globals of main.py: the statuses of the alert queue, the webhook
    counts, and what the intake leaves alone *)
Module OpsSpec.
Import Py Models State Telemetry Config Intake Main Ops.

(** The statuses the code writes into an entry. *)
Definition written_statuses : list string :=
  ["processing"; "escalated"; "done"; "failed"]%string.

(** The agent was run and raised. *)
Definition run_failed (out : Outcome) : bool :=
  match agent_run out with
  | Some (Raise _) => true
  | _ => false
  end.

(** The agent returned and [_append_cost_to_report] raised. *)
Definition footer_failed (out : Outcome) : bool :=
  match cost_footer out with
  | Some (Raise _) => true
  | _ => false
  end.

(** A request counted as received, and no more. *)
Definition count_received (w : World) : World :=
  upd_telemetry (add_webhooks_received_counter 1)
    (upd_state (λ s, set_webhooks_received (webhooks_received s + 1) s) w).

(** The value of the [authorization] header. *)
Definition authorization (request : Request) : string :=
  default ""%string (headers request !! "authorization"%string).

(** What a webhook adds to the counts of processed, ignored and failed
    webhooks, by its answer. *)
Definition tally (r : Response) : Z * Z * Z :=
  match r with
  | Returned (("status", s) :: _)%string =>
      if bool_decide (s = "ignored"%string) then (0, 1, 0) else (1, 0, 0)
  | Returned _ => (0, 0, 0)
  | HTTPException status_code _ =>
      if bool_decide (status_code = 503) then (0, 0, 0) else (0, 0, 1)
  | Unhandled _ => (0, 0, 0)
  end.

(** From [w] to [w'] the webhook counters of [state], and the counter
    instruments with them, have moved by one webhook received and by
    the tally of [r]. *)
Definition counted (w w' : World) (r : Response) : Prop :=
  webhooks_received (state w') = webhooks_received (state w) + 1 ∧
  webhooks_processed (state w') = webhooks_processed (state w) + (tally r).1.1 ∧
  webhooks_ignored (state w') = webhooks_ignored (state w) + (tally r).1.2 ∧
  webhooks_failed (state w') = webhooks_failed (state w) + (tally r).2 ∧
  webhooks_received_counter (telemetry w')
    = webhooks_received_counter (telemetry w) + 1 ∧
  webhooks_processed_counter (telemetry w')
    = webhooks_processed_counter (telemetry w) + (tally r).1.1 ∧
  webhooks_ignored_counter (telemetry w')
    = webhooks_ignored_counter (telemetry w) + (tally r).1.2 ∧
  webhooks_failed_counter (telemetry w')
    = webhooks_failed_counter (telemetry w) + (tally r).2.

(** [state] and the instruments without what the intake writes: its
    counters of deduplicated, queued and expired alerts, the active
    incidents and the two gauges. *)
Definition rest_of_state (s : RuntimeState) : RuntimeState :=
  {| webhooks_received := webhooks_received s;
     webhooks_processed := webhooks_processed s;
     webhooks_ignored := webhooks_ignored s; webhooks_failed := webhooks_failed s;
     agent_runs_completed := agent_runs_completed s;
     agent_runs_failed := agent_runs_failed s;
     total_input_tokens := total_input_tokens s;
     total_output_tokens := total_output_tokens s;
     run_token_usage := run_token_usage s; hourly_token_log := hourly_token_log s;
     alerts_deduplicated := 0; alerts_queued := 0; alerts_expired := 0;
     active_incidents := ∅; recent_errors := recent_errors s;
     run_durations := run_durations s; draining := draining s |}.

Definition rest_of_instruments (t : Instruments) : Instruments :=
  {| webhooks_received_counter := webhooks_received_counter t;
     webhooks_processed_counter := webhooks_processed_counter t;
     webhooks_ignored_counter := webhooks_ignored_counter t;
     webhooks_failed_counter := webhooks_failed_counter t;
     agent_runs_completed_counter := agent_runs_completed_counter t;
     agent_runs_failed_counter := agent_runs_failed_counter t;
     agent_run_duration_histogram := agent_run_duration_histogram t;
     incidents_active_updown := 0;
     tokens_input_counter := tokens_input_counter t;
     tokens_output_counter := tokens_output_counter t;
     tokens_per_run_histogram := tokens_per_run_histogram t;
     alerts_deduplicated_counter := 0; alerts_queued_counter := 0;
     alerts_expired_counter := 0; intake_queue_depth_updown := 0 |}.

Definition rest_of_world (w : World) : RuntimeState * Instruments :=
  (rest_of_state (state w), rest_of_instruments (telemetry w)).

(** What the intake decides at a step: its answer and its own fields
    after it. *)
Definition decision (r : option (option string * World))
    : option (option string * AlertIntake) :=
  (λ r, (r.1, intake r.2)) <$> r.

(** The number of errors of a type in a list of errors. *)
Definition count_type (t : string) (errors : list ErrorRecord) : Z :=
  Z.of_nat (length (filter (λ e, err_type e = t) errors)).
End OpsSpec.

(** * More of [str] *)
Module PyStr.
Import Py.

(** [s.rstrip(c)] for a one-character [c]. *)
Fixpoint rstrip (c : ascii) (s : string) : string :=
  match s with
  | EmptyString => EmptyString
  | String a s' =>
      let r := rstrip c s' in
      if bool_decide (a = c) && bool_decide (r = EmptyString) then EmptyString
      else String a r
  end.

(** The bytes 10xxxxxx, which continue a character of UTF-8. *)
Definition is_continuation (c : ascii) : bool := (128 <=? ord c) && (ord c <? 192).

(** [s[:n]]: the first [n] characters, each with its continuation
    bytes. *)
Fixpoint take_chars (n : nat) (s : string) : string :=
  match s with
  | EmptyString => EmptyString
  | String c s' =>
      if is_continuation c then String c (take_chars n s')
      else match n with
           | O => EmptyString
           | S n' => String c (take_chars n' s')
           end
  end.

(** [s.split(c)] for a one-character [c]. *)
Fixpoint split (c : ascii) (s : string) : list string :=
  match s with
  | EmptyString => [EmptyString]
  | String a s' =>
      if bool_decide (a = c) then EmptyString :: split c s'
      else match split c s' with
           | x :: xs => String a x :: xs
           | [] => [String a EmptyString]
           end
  end.

(** The line feed. *)
Definition LF : string := String (ascii_of_nat 10) EmptyString.
End PyStr.

(** * models.py and config.py: the scaling limits *)
Module Scaling.
Import Py PyStr.

Inductive ScalingMode := APPLICATION | CLOUD_NATIVE.

Record ScalingConfig := {
  scaling_service_name : string;
  min_instances : Z;
  max_instances : Z;
  mode : ScalingMode;
}.

(** [ScalingMode(mode_str)], after the membership test of the loader. *)
Definition parse_mode (mode_str : string) : option ScalingMode :=
  if bool_decide (mode_str = "application"%string) then Some APPLICATION
  else if bool_decide (mode_str = "cloud_native"%string) then Some CLOUD_NATIVE
  else None.

(** The body of the loop of [Config._load_scaling_limits] on one entry
    of SCALING_LIMITS. [str.strip] and [int] are not modelled: the
    loader is given them. Every failure is a [ValueError]; the
    validation of [ScalingConfig] (both bounds at least 1) cannot fail
    after the tests before it. *)
Definition load_entry (strip : string → string) (int : string → result Z)
    (limits : gmap string ScalingConfig) (entry : string)
    : result (gmap string ScalingConfig) :=
  match split "|" (strip entry) with
  | [p0; p1; p2; p3] =>
      let name := strip p0 in
      match int (strip p1), int (strip p2) with
      | Return min_inst, Return max_inst =>
          match parse_mode (strip p3) with
          | None => Raise "ValueError"
          | Some m =>
              if min_inst <? 1 then Raise "ValueError"
              else if max_inst <? min_inst then Raise "ValueError"
              else Return (<[name := {| scaling_service_name := name;
                                        min_instances := min_inst;
                                        max_instances := max_inst; mode := m |}]> limits)
          end
      | _, _ => Raise "ValueError"
      end
  | _ => Raise "ValueError"
  end.

Fixpoint load_entries (strip : string → string) (int : string → result Z)
    (limits : gmap string ScalingConfig) (entries : list string)
    : result (gmap string ScalingConfig) :=
  match entries with
  | [] => Return limits
  | entry :: entries' =>
      match load_entry strip int limits entry with
      | Raise exc => Raise exc
      | Return limits' => load_entries strip int limits' entries'
      end
  end.

(** [Config._load_scaling_limits]; [raw] is the value of SCALING_LIMITS,
    empty when the variable is not set. *)
Definition _load_scaling_limits (strip : string → string) (int : string → result Z)
    (raw : string) : result (gmap string ScalingConfig) :=
  if bool_decide (raw = ""%string) then Return ∅
  else load_entries strip int ∅ (split "," raw).
End Scaling.

(** * JSON values, and what Python does with them *)
Module Json.
Import Py PyStr SpecFloat.

(** What [json.loads] gives: [None], a [bool], an [int], a [float], a
    [str], a [list] or a [dict]. A [float] is an IEEE double;
    [spec_float] has every double, NaN and the infinities included,
    which [json.loads] reads. The members of a [dict] are its items in
    order; should a key occur twice, the later item is the one that
    counts. *)
Local Unset Elimination Schemes.
Inductive Json :=
  | JNull
  | JBool (b : bool)
  | JInt (n : Z)
  | JFloat (f : spec_float)
  | JStr (s : string)
  | JList (items : list Json)
  | JObj (members : list (string * Json)).
Local Set Elimination Schemes.

Definition Dict : Type := list (string * Json).

(** [d.get(key, default)] *)
Definition get (key : string) (default_ : Json) (d : Dict) : Json :=
  default default_ ((λ found, found.2.2) <$> list_find (λ m, m.1 = key) (reverse d)).

(** [j.get(key, "")] on a decoded value; an [AttributeError] when it
    is not a [dict]. *)
Definition json_get (key : string) (j : Json) : result Json :=
  match j with
  | JObj members => Return (get key (JStr "") members)
  | _ => Raise "AttributeError"
  end.

Definition is_zero (f : spec_float) : bool :=
  match f with
  | S754_zero _ => true
  | _ => false
  end.

(** The truth value of [j]: what [not j] negates. *)
Definition truthy (j : Json) : bool :=
  match j with
  | JNull => false
  | JBool b => b
  | JInt n => negb (n =? 0)
  | JFloat f => negb (is_zero f)
  | JStr s => negb (bool_decide (s = ""%string))
  | JList items => negb (bool_decide (items = []))
  | JObj members => negb (bool_decide (members = []))
  end.

(** [j == s] for a [str] [s] *)
Definition eq_str (j : Json) (s : string) : bool :=
  match j with
  | JStr t => bool_decide (t = s)
  | _ => false
  end.

(** [d.get(key)] on a [dict] whose keys are [str]: a [list] or a
    [dict] cannot be hashed, and no other value equals a [str]. *)
Definition lookup_key {A} (key : Json) (d : gmap string A) : result (option A) :=
  match key with
  | JStr s => Return (d !! s)
  | JList _ | JObj _ => Raise "TypeError"
  | _ => Return None
  end.

(** [j[:n]]: a [str] and a [list] can be sliced, a [dict] and the
    other values raise (a [dict] a [TypeError] up to Python 3.11 and a
    [KeyError] from 3.12 on; the model says [TypeError]). *)
Definition slice_to (n : nat) (j : Json) : result Json :=
  match j with
  | JStr s => Return (JStr (take_chars n s))
  | JList items => Return (JList (take n items))
  | _ => Raise "TypeError"
  end.

(** A float against an integer, which Python compares by their exact
    values; [None] for NaN, which is neither below nor above nor equal
    to anything. A finite float is [m * 2 ^ e], negated when [s]. *)
Definition float_compare_int (f : spec_float) (n : Z) : option comparison :=
  match f with
  | S754_nan => None
  | S754_infinity s => Some (if s then Lt else Gt)
  | S754_zero _ => Some (0 ?= n)
  | S754_finite s m e =>
      let v := if s then Z.neg m else Z.pos m in
      Some (if 0 <=? e then v * 2 ^ e ?= n else v ?= n * 2 ^ (- e))
  end.

(** [j < n] and [j > n] for an [int] [n]; [True] and [False] are the
    integers 1 and 0, and a value that is not a number raises. *)
Definition compare_int (j : Json) (n : Z) : result (option comparison) :=
  match j with
  | JInt t => Return (Some (t ?= n))
  | JBool b => Return (Some ((if b then 1 else 0) ?= n))
  | JFloat f => Return (float_compare_int f n)
  | _ => Raise "TypeError"
  end.

Definition lt_int (j : Json) (n : Z) : result bool :=
  match compare_int j n with
  | Return c => Return (bool_decide (c = Some Lt))
  | Raise exc => Raise exc
  end.

Definition gt_int (j : Json) (n : Z) : result bool :=
  match compare_int j n with
  | Return c => Return (bool_decide (c = Some Gt))
  | Raise exc => Raise exc
  end.

(** [str(j)], as an f-string formats [j]. The text of a float, a list
    or a dict is not modelled: [repr] gives it. *)
Definition format (repr : Json → string) (j : Json) : string :=
  match j with
  | JStr s => s
  | JNull => "None"
  | JBool true => "True"
  | JBool false => "False"
  | JInt n => pretty n
  | _ => repr j
  end.
End Json.

(** * tools.py: the tools that send requests, and [execute] *)
Module Executor.
Import Py PyStr Pathlib Tools Scaling Json.

Inductive Method := GET | POST | PUT.

(** A call of [http_client]: the method, the URL, the headers and the
    [json] argument ([None] when there is none, or when it is given
    as [None]). *)
Record HttpCall := {
  method : Method;
  url : string;
  headers : list (string * string);
  json : option Json;
}.

Definition json_arg (j : Json) : option Json :=
  match j with
  | JNull => None
  | _ => Some j
  end.

(** What the tools read of a response: the status, the [content-type]
    header ("" when absent), the text, and [response.json()]. *)
Record HttpResponse := {
  status_code : Z;
  content_type : string;
  text : string;
  decoded : result Json;
}.

(** The fields of a [ToolExecutor] that the tools below read. *)
Record ToolExecutor := {
  services : gmap string string;
  ops_auth_token : string;
  pagerduty_api_token : string;
  pagerduty_routing_key : string;
  incidents_dir : PurePath;
  trace_id : string;
  scaling_config : gmap string ScalingConfig;
}.

(** What the executor reaches outside. [http] is a call of the HTTP
    client: it gives the response, or raises, be it that the request
    fails or that the client refuses to encode it. [fs] is a call on
    the file system. [email] is the tool [_email_incident_report],
    which speaks SMTP and is not modelled. *)
Record Outside := {
  http : HttpCall → result HttpResponse;
  fs : FsCall → result unit;
  email : Json → result Json;
}.

Inductive Effect :=
  | Http (call : HttpCall)
  | Fs (call : FsCall).

Definition error (msg : string) : Json := JObj [("error"%string, JStr msg)].

(** [_base_headers] *)
Definition _base_headers (self : ToolExecutor) : list (string * string) :=
  if bool_decide (trace_id self = ""%string) then []
  else [("X-Trace-Id"%string, trace_id self)].

(** The headers of a request to a monitored service. *)
Definition ops_headers (self : ToolExecutor) : list (string * string) :=
  _base_headers self ++
  (if bool_decide (ops_auth_token self = ""%string) then []
   else [("Authorization"%string, "Bearer " +:+ ops_auth_token self)]).

(** The headers of a request to the PagerDuty REST API. *)
Definition pagerduty_headers (self : ToolExecutor) : list (string * string) :=
  _base_headers self ++
  [("Authorization"%string, "Token token=" +:+ pagerduty_api_token self);
   ("Content-Type"%string, "application/json"%string)].

(** [response.json()] for a JSON content type, [response.text]
    otherwise. *)
Definition body_data (response : HttpResponse) : result Json :=
  if startswith "application/json" (content_type response) then decoded response
  else Return (JStr (text response)).

(** [_call_ops_endpoint]. Of the values JSON has only a [str] has
    [startswith]. *)
Definition _call_ops_endpoint (repr : Json → string) (self : ToolExecutor) (out : Outside)
    (input : Dict) : result Json * list HttpCall :=
  let service_name := get "service_name" (JStr "") input in
  let endpoint := get "endpoint" (JStr "") input in
  let method_ := get "method" (JStr "GET") input in
  if negb (truthy service_name) || negb (truthy endpoint) then
    (Return (error "service_name and endpoint are required"), [])
  else
    match endpoint with
    | JStr endpoint =>
        if negb (startswith "/ops/" endpoint) then
          (Return (error ("Endpoint must start with /ops/: " +:+ endpoint)), [])
        else if negb (eq_str method_ "GET" || eq_str method_ "POST") then
          (Return (error ("Method must be GET or POST: " +:+ format repr method_)), [])
        else
          match lookup_key service_name (services self) with
          | Raise exc => (Raise exc, [])
          | Return base_url =>
              let base_url := default ""%string base_url in
              if bool_decide (base_url = ""%string) then
                (Return (error ("Unknown service: " +:+ format repr service_name)), [])
              else
                let call :=
                  if eq_str method_ "GET" then
                    {| method := GET; url := rstrip "/" base_url +:+ endpoint;
                       headers := ops_headers self; json := None |}
                  else
                    {| method := POST; url := rstrip "/" base_url +:+ endpoint;
                       headers := ops_headers self;
                       json := json_arg (get "body" (JObj []) input) |} in
                match http out call with
                | Raise exc => (Raise exc, [call])
                | Return response =>
                    match body_data response with
                    | Raise exc => (Raise exc, [call])
                    | Return data =>
                        (Return (JObj [("status_code"%string,
                                        JInt (status_code response));
                                       ("body"%string, data)]), [call])
                    end
                end
          end
    | _ => (Raise "AttributeError", [])
    end.

(** [_query_cloud_logs] and [_query_cloud_metrics] *)
Definition _query_cloud_logs : Json :=
  error ("Cloud log querying not yet implemented. "
         +:+ "Implement _query_cloud_logs for your cloud provider.").
Definition _query_cloud_metrics : Json :=
  error ("Cloud metrics querying not yet implemented. "
         +:+ "Implement _query_cloud_metrics for your cloud provider.").

(** [_create_pagerduty_incident] *)
Definition _create_pagerduty_incident (self : ToolExecutor) (out : Outside)
    (input : Dict) : result Json * list HttpCall :=
  let summary := get "summary" (JStr "") input in
  let severity := get "severity" (JStr "critical") input in
  let details := get "details" (JStr "") input in
  if negb (truthy summary) then (Return (error "summary is required"), [])
  else if bool_decide (pagerduty_routing_key self = ""%string) then
    (Return (error ("PAGERDUTY_ROUTING_KEY not configured. "
                    +:+ "Cannot create PagerDuty incidents.")), [])
  else
    let payload :=
      JObj [("routing_key", JStr (pagerduty_routing_key self));
            ("event_action", JStr "trigger");
            ("dedup_key", if bool_decide (trace_id self = ""%string) then JNull
                          else JStr ("sre-agent-" +:+ trace_id self));
            ("payload",
             JObj [("summary", summary); ("severity", severity);
                   ("source", JStr "sre-agent");
                   ("custom_details",
                    JObj [("agent_trace_id", JStr (trace_id self));
                          ("diagnostic_details", details)])])]%string in
    let call := {| method := POST; url := "https://events.pagerduty.com/v2/enqueue";
                   headers := []; json := Some payload |} in
    match http out call with
    | Raise exc => (Raise exc, [call])
    | Return response =>
        if bool_decide (status_code response = 202) then
          match decoded response with
          | Raise exc => (Raise exc, [call])
          | Return result_ =>
              match json_get "dedup_key" result_, json_get "message" result_ with
              | Return dedup_key, Return message =>
                  (Return (JObj [("status", JStr "incident_created");
                                 ("dedup_key", dedup_key);
                                 ("message", message)]%string), [call])
              | Raise exc, _ | _, Raise exc => (Raise exc, [call])
              end
          end
        else
          (Return (JObj [("error", JStr ("PagerDuty Events API returned "
                                         +:+ pretty (status_code response)));
                         ("body", JStr (text response))]%string), [call])
    end.

Definition incident_url (incident_id : string) : string :=
  "https://api.pagerduty.com/incidents/" +:+ incident_id.

Definition note (content : string) : Json :=
  JObj [("note", JObj [("content", JStr content)])]%string.

(** [_escalate_pagerduty] *)
Definition _escalate_pagerduty (repr : Json → string) (self : ToolExecutor) (out : Outside)
    (input : Dict) : result Json * list HttpCall :=
  let incident_id := get "incident_id" (JStr "") input in
  let message := get "escalation_message" (JStr "") input in
  if negb (truthy incident_id) || negb (truthy message) then
    (Return (error "incident_id and escalation_message are required"), [])
  else
    match incident_id with
    | JStr incident_id =>
        if startswith "gcp-" incident_id then
          match slice_to 200 message with
          | Raise exc => (Raise exc, [])
          | Return head =>
              _create_pagerduty_incident self out
                [("summary", JStr ("[SRE Agent Escalation] " +:+ format repr head));
                 ("severity", JStr "critical"); ("details", message)]%string
          end
        else
          let post := {| method := POST; url := incident_url incident_id +:+ "/notes";
                         headers := pagerduty_headers self;
                         json := Some (note ("[SRE Agent Escalation]" +:+ LF +:+ LF
                                             +:+ format repr message)) |} in
          match http out post with
          | Raise exc => (Raise exc, [post])
          | Return response =>
              let put := {| method := PUT; url := incident_url incident_id;
                            headers := pagerduty_headers self;
                            json := Some (JObj [("incident",
                                     JObj [("type", JStr "incident_reference");
                                           ("escalation_level", JInt 2)])]%string) |} in
              match http out put with
              | Raise exc => (Raise exc, [post; put])
              | Return _ =>
                  (Return (JObj [("status", JStr "escalated");
                                 ("incident_id", JStr incident_id);
                                 ("note_status", JInt (status_code response))]%string),
                   [post; put])
              end
          end
    | _ => (Raise "AttributeError", [])
    end.

(** [_acknowledge_alert]; for an id that starts with "gcp-" the
    arguments of the log call are evaluated, [note[:200]] among
    them. *)
Definition _acknowledge_alert (repr : Json → string) (self : ToolExecutor) (out : Outside)
    (input : Dict) : result Json * list HttpCall :=
  let incident_id := get "incident_id" (JStr "") input in
  let note_ := get "resolution_note" (JStr "") input in
  if negb (truthy incident_id) || negb (truthy note_) then
    (Return (error "incident_id and resolution_note are required"), [])
  else
    match incident_id with
    | JStr incident_id =>
        if startswith "gcp-" incident_id then
          match slice_to 200 note_ with
          | Raise exc => (Raise exc, [])
          | Return _ =>
              (Return (JObj [("status", JStr "resolved_by_agent");
                             ("incident_id", JStr incident_id);
                             ("message",
                              JStr "GCP-sourced alert resolved without paging humans.")
                            ]%string), [])
          end
        else
          let post := {| method := POST; url := incident_url incident_id +:+ "/notes";
                         headers := pagerduty_headers self;
                         json := Some (note ("[SRE Agent Resolution]" +:+ LF +:+ LF
                                             +:+ format repr note_)) |} in
          match http out post with
          | Raise exc => (Raise exc, [post])
          | Return _ =>
              let put := {| method := PUT; url := incident_url incident_id;
                            headers := pagerduty_headers self;
                            json := Some (JObj [("incident",
                                     JObj [("type", JStr "incident_reference");
                                           ("status", JStr "acknowledged")])]%string) |} in
              match http out put with
              | Raise exc => (Raise exc, [post; put])
              | Return response =>
                  (Return (JObj [("status", JStr "acknowledged");
                                 ("incident_id", JStr incident_id);
                                 ("response_status", JInt (status_code response))]%string),
                   [post; put])
              end
          end
    | _ => (Raise "AttributeError", [])
    end.

(** [_write_incident_report] on a decoded object. On two strings it is
    [Tools._write_incident_report]; [Path(filename)] raises on another
    value than a [str], and [write_text] raises on one before it opens
    the file. *)
Definition _write_incident_report_json (self : ToolExecutor) (out : Outside)
    (input : Dict) : ToolResult * list FsCall :=
  let filename := get "filename" (JStr "") input in
  let content := get "content" (JStr "") input in
  if negb (truthy filename) || negb (truthy content) then
    (ErrorEnvelope "filename and content are required", [])
  else
    match filename, content with
    | JStr filename, JStr content =>
        _write_incident_report (incidents_dir self) (fs out)
          {[ "filename"%string := filename; "content"%string := content ]}
    | JStr filename, _ =>
        if negb (bool_decide (name (Path filename) = filename)) then
          (ErrorEnvelope ("Invalid filename (path traversal rejected): " +:+ filename), [])
        else
          let mkdir := Mkdir (incidents_dir self) in
          match fs out mkdir with
          | Raise exc => (Raised exc, [mkdir])
          | Return _ => (Raised "TypeError", [mkdir])
          end
    | _, _ => (Raised "TypeError", [])
    end.

(** [_scale_service] *)
Definition _scale_service (repr : Json → string) (self : ToolExecutor) (out : Outside)
    (input : Dict) : result Json * list HttpCall :=
  let service_name := get "service_name" (JStr "") input in
  let target := get "target_instances" (JInt 0) input in
  let reason := get "reason" (JStr "") input in
  if negb (truthy service_name) || negb (truthy target) || negb (truthy reason) then
    (Return (error "service_name, target_instances, and reason are required"), [])
  else
    match lookup_key service_name (scaling_config self) with
    | Raise exc => (Raise exc, [])
    | Return None =>
        (Return (error ("Service '" +:+ format repr service_name
                        +:+ "' does not have scaling limits configured. Cannot scale. "
                        +:+ "Escalate to a human for capacity changes.")), [])
    | Return (Some scaling) =>
        match lt_int target (min_instances scaling) with
        | Raise exc => (Raise exc, [])
        | Return true =>
            (Return (error ("Target " +:+ format repr target +:+ " is below minimum ("
                            +:+ pretty (min_instances scaling) +:+ ") for service '"
                            +:+ format repr service_name +:+ "'.")), [])
        | Return false =>
            match gt_int target (max_instances scaling) with
            | Raise exc => (Raise exc, [])
            | Return true =>
                (Return (error ("Target " +:+ format repr target +:+ " exceeds maximum ("
                                +:+ pretty (max_instances scaling) +:+ ") for service '"
                                +:+ format repr service_name
                                +:+ "'. Escalate for capacity planning.")), [])
            | Return false =>
                match mode scaling with
                | APPLICATION =>
                    match lookup_key service_name (services self) with
                    | Raise exc => (Raise exc, [])
                    | Return base_url =>
                        let base_url := default ""%string base_url in
                        if bool_decide (base_url = ""%string) then
                          (Return (error ("Service '" +:+ format repr service_name
                                          +:+ "' not in service registry")), [])
                        else
                          let call :=
                            {| method := POST;
                               url := rstrip "/" base_url +:+ "/ops/scale";
                               headers := ops_headers self;
                               json := Some (JObj [("target_instances", target);
                                                   ("reason", reason)]%string) |} in
                          match http out call with
                          | Raise exc => (Raise exc, [call])
                          | Return response =>
                              match body_data response with
                              | Raise exc => (Raise exc, [call])
                              | Return data =>
                                  (Return (JObj [("status", JStr "scaling_requested");
                                                 ("mode", JStr "application");
                                                 ("service", service_name);
                                                 ("target_instances", target);
                                                 ("response_status",
                                                  JInt (status_code response));
                                                 ("response_body", data)]%string),
                                   [call])
                              end
                          end
                    end
                | CLOUD_NATIVE =>
                    (Return (error ("Cloud-native scaling not yet implemented. "
                                    +:+ "Implement _scale_service cloud_native mode for "
                                    +:+ "your cloud provider in tools.py.")), [])
                end
            end
        end
    end.

(** The envelope of [_write_incident_report]. *)
Definition report_envelope (r : ToolResult) : result Json :=
  match r with
  | ErrorEnvelope msg => Return (error msg)
  | Written path =>
      Return (JObj [("status", JStr "written"); ("path", JStr path)]%string)
  | Raised exc => Raise exc
  end.

(** A handler on the input of a tool call, which is whatever
    [json.loads] made of the arguments: the first [input.get] raises
    when that is not a [dict]. *)
Definition on_dict {A} (h : Dict → result Json * list A) (input : Json)
    : result Json * list A :=
  match input with
  | JObj members => h members
  | _ => (Raise "AttributeError", [])
  end.

(** The table of [execute]: the handler of a tool, by its name. *)
Definition handler (repr : Json → string) (self : ToolExecutor) (out : Outside)
    (tool_name : string) : option (Json → result Json * list Effect) :=
  let requests (h : Dict → result Json * list HttpCall) :=
    Some (on_dict (λ input, ((h input).1, Http <$> (h input).2))) in
  if bool_decide (tool_name = "call_ops_endpoint"%string) then
    requests (_call_ops_endpoint repr self out)
  else if bool_decide (tool_name = "query_cloud_logs"%string) then
    Some (λ _, (Return _query_cloud_logs, []))
  else if bool_decide (tool_name = "query_cloud_metrics"%string) then
    Some (λ _, (Return _query_cloud_metrics, []))
  else if bool_decide (tool_name = "escalate_pagerduty"%string) then
    requests (_escalate_pagerduty repr self out)
  else if bool_decide (tool_name = "acknowledge_alert"%string) then
    requests (_acknowledge_alert repr self out)
  else if bool_decide (tool_name = "create_pagerduty_incident"%string) then
    requests (_create_pagerduty_incident self out)
  else if bool_decide (tool_name = "write_incident_report"%string) then
    Some (on_dict (λ input,
      let r := _write_incident_report_json self out input in
      (report_envelope r.1, Fs <$> r.2)))
  else if bool_decide (tool_name = "email_incident_report"%string) then
    Some (λ input, (email out input, []))
  else if bool_decide (tool_name = "scale_service"%string) then
    requests (_scale_service repr self out)
  else None.

(** [execute]: the answer handed to the LLM, before [json.dumps], and
    the calls made outside. An exception of a handler becomes an error
    envelope. *)
Definition execute (repr : Json → string) (self : ToolExecutor) (out : Outside)
    (tool_name : string) (input : Json) : Json * list Effect :=
  match handler repr self out tool_name with
  | None => (error ("Unknown tool: " +:+ tool_name), [])
  | Some h =>
      match h input with
      | (Return answer, effects) => (answer, effects)
      | (Raise exc, effects) => (error exc, effects)
      end
  end.
End Executor.

(** * The tool executor: where its requests go *)
Module ExecutorSpec.
Import Py PyStr Pathlib Tools Scaling Json Executor SpecFloat.

(** The requests among the calls made outside. *)
Definition sent (effects : list Effect) : list HttpCall :=
  omap (λ e, match e with Http c => Some c | Fs _ => None end) effects.

(** A request to the service registered under [service]: the URL is
    the base URL of the registry without its trailing slashes, followed
    by [path] as it stands, and the headers are the trace id and the
    ops token. Nothing is said of what [path] holds. *)
Definition at_service (self : ToolExecutor) (service path : string) (c : HttpCall)
    : Prop :=
  ∃ base, services self !! service = Some base ∧ base ≠ ""%string ∧
    url c = rstrip "/" base +:+ path ∧ headers c = ops_headers self.

(** A note posted to, or an update put on, the URL that the PagerDuty
    REST API has for incidents, followed by [incident_id] as it stands,
    under the PagerDuty token. *)
Definition at_incident (self : ToolExecutor) (incident_id : string) (c : HttpCall)
    : Prop :=
  headers c = pagerduty_headers self ∧
  (method c = POST ∧
   url c = "https://api.pagerduty.com/incidents/" +:+ incident_id +:+ "/notes" ∨
   method c = PUT ∧ url c = "https://api.pagerduty.com/incidents/" +:+ incident_id).

(** An event posted to the PagerDuty Events API, with no header and
    the routing key, which is set, in its body. *)
Definition at_events (self : ToolExecutor) (c : HttpCall) : Prop :=
  method c = POST ∧ url c = "https://events.pagerduty.com/v2/enqueue"%string ∧
  headers c = [] ∧ pagerduty_routing_key self ≠ ""%string ∧
  ∃ rest, json c = Some (JObj (("routing_key"%string, JStr (pagerduty_routing_key self))
                               :: rest)).

(** Where a request of a tool goes, by the name of the tool and the
    input of the call. *)
Definition destination (self : ToolExecutor) (tool_name : string) (input : Json)
    (c : HttpCall) : Prop :=
  if bool_decide (tool_name = "call_ops_endpoint"%string) then
    ∃ service endpoint,
      json_get "service_name" input = Return (JStr service) ∧
      json_get "endpoint" input = Return (JStr endpoint) ∧
      startswith "/ops/" endpoint = true ∧
      method c ∈ [GET; POST] ∧ at_service self service endpoint c
  else if bool_decide (tool_name = "scale_service"%string) then
    ∃ service,
      json_get "service_name" input = Return (JStr service) ∧
      method c = POST ∧ at_service self service "/ops/scale" c
  else if bool_decide (tool_name = "escalate_pagerduty"%string) then
    ∃ incident_id,
      json_get "incident_id" input = Return (JStr incident_id) ∧
      if startswith "gcp-" incident_id then at_events self c
      else at_incident self incident_id c
  else if bool_decide (tool_name = "acknowledge_alert"%string) then
    ∃ incident_id,
      json_get "incident_id" input = Return (JStr incident_id) ∧
      startswith "gcp-" incident_id = false ∧ at_incident self incident_id c
  else if bool_decide (tool_name = "create_pagerduty_incident"%string) then
    at_events self c
  else False.

(** [target] is a number from [lo] to [hi]: an integer, a [bool]
    ([True] is 1 and [False] is 0), or a float that is not NaN, by its
    exact value. *)
Definition between (lo hi : Z) (target : Json) : Prop :=
  match target with
  | JInt n => lo ≤ n ≤ hi
  | JBool b => lo ≤ (if b then 1 else 0) ≤ hi
  | JFloat (S754_zero _) => lo ≤ 0 ≤ hi
  | JFloat (S754_finite s m e) =>
      let v := if s then Z.neg m else Z.pos m in
      if 0 <=? e then lo ≤ v * 2 ^ e ≤ hi
      else lo * 2 ^ (- e) ≤ v ≤ hi * 2 ^ (- e)
  | _ => False
  end.

(** The limits are within bounds, and filed under their service. *)
Definition limits_ok (limits : gmap string ScalingConfig) : Prop :=
  map_Forall (λ name scaling,
    scaling_service_name scaling = name ∧
    1 ≤ min_instances scaling ∧ min_instances scaling ≤ max_instances scaling) limits.
End ExecutorSpec.

(** The alerts of tests/test_intake.py. *)
Module Examples.
Import Models.
Definition _make_alert (incident_id service_name : string) (priority : option Priority)
    : PagerDutyAlert :=
  {| incident_id := incident_id; service_name := service_name; severity := HIGH;
     priority := priority; description := "Test alert"; dedup_key := None;
     runbook_url := None; timestamp := 0; details := [] |}.
End Examples.

(** The settings of tests/test_main.py, with the defaults of config.py
    for what the tests leave unset. *)
Module ExampleConfig.
Import Config.
Definition test_config : Config :=
  {| llm_model := "gpt-4o"; llm_model_escalation := ""; llm_escalation_turn := 5;
     pagerduty_api_token := "pd-test"; pagerduty_webhook_secret := "";
     incidents_dir := "/app/incidents"; max_concurrent_alerts := 3;
     alert_queue_ttl_seconds := 600; max_tokens_per_incident := 100000;
     max_tokens_per_hour := 0; ops_auth_token := "ops-test" |}.

Definition with_webhook_secret (secret : string) (c : Config) : Config :=
  {| llm_model := llm_model c; llm_model_escalation := llm_model_escalation c;
     llm_escalation_turn := llm_escalation_turn c;
     pagerduty_api_token := pagerduty_api_token c; pagerduty_webhook_secret := secret;
     incidents_dir := incidents_dir c; max_concurrent_alerts := max_concurrent_alerts c;
     alert_queue_ttl_seconds := alert_queue_ttl_seconds c;
     max_tokens_per_incident := max_tokens_per_incident c;
     max_tokens_per_hour := max_tokens_per_hour c; ops_auth_token := ops_auth_token c |}.

Definition with_max_tokens_per_incident (n : Z) (c : Config) : Config :=
  {| llm_model := llm_model c; llm_model_escalation := llm_model_escalation c;
     llm_escalation_turn := llm_escalation_turn c;
     pagerduty_api_token := pagerduty_api_token c;
     pagerduty_webhook_secret := pagerduty_webhook_secret c;
     incidents_dir := incidents_dir c; max_concurrent_alerts := max_concurrent_alerts c;
     alert_queue_ttl_seconds := alert_queue_ttl_seconds c;
     max_tokens_per_incident := n;
     max_tokens_per_hour := max_tokens_per_hour c; ops_auth_token := ops_auth_token c |}.

Definition with_max_tokens_per_hour (n : Z) (c : Config) : Config :=
  {| llm_model := llm_model c; llm_model_escalation := llm_model_escalation c;
     llm_escalation_turn := llm_escalation_turn c;
     pagerduty_api_token := pagerduty_api_token c;
     pagerduty_webhook_secret := pagerduty_webhook_secret c;
     incidents_dir := incidents_dir c; max_concurrent_alerts := max_concurrent_alerts c;
     alert_queue_ttl_seconds := alert_queue_ttl_seconds c;
     max_tokens_per_incident := max_tokens_per_incident c;
     max_tokens_per_hour := n; ops_auth_token := ops_auth_token c |}.
End ExampleConfig.

(** Agent runs against a scripted LLM. *)
Module ExampleRuns.
Import Py Agent.

(** An LLM that answers every request with the same final text and the
    same usage, under a clock that shows [seconds] at every turn of a
    run started at 1000. *)
Definition final_answer (seconds : Z) (text : string) : Env :=
  {| start_time := 1000;
     clock := λ _, seconds;
     load_system_prompt := Return "You are an SRE agent."%string;
     create := λ _ _ _, Return {| usage := Some {| prompt_tokens := 120;
                                                   completion_tokens := 30 |};
                                  choices := [([], text)] |};
     json_loads := λ s, Some s;
     execute := λ _ _, "{}"%string |}.

(** An LLM that asks for one call of [call_ops_endpoint] at every turn,
    each request costing 600 tokens; the clock advances by ten seconds a
    turn from [first]. *)
Definition always_tool_call (first : Z) : Env :=
  {| start_time := 1000;
     clock := λ turn, first + 10 * Z.of_nat turn;
     load_system_prompt := Return "You are an SRE agent."%string;
     create := λ _ _ _,
       Return {| usage := Some {| prompt_tokens := 500; completion_tokens := 100 |};
                 choices := [([ {| tool_call_id := "call-1";
                                   tool_name := "call_ops_endpoint";
                                   arguments := "{}" |} ], ""%string)] |};
     json_loads := λ s, Some s;
     execute := λ _ _, "{}"%string |}.
End ExampleRuns.

(** Requests against the webhook endpoints. *)
Module ExampleRequests.
Import Py Models Main.

(** A request with the one header, the one query parameter (when not
    [None]), body [{}] and the payload it decodes to. *)
Definition empty_payload : Payload :=
  {| event_type := ""; incident_state := ""; from_webhook := None;
     from_gcp_webhook := None |}.

Definition signed_request (signature : string) : Request :=
  {| headers := {[ "x-pagerduty-signature"%string := signature ]};
     query_params := ∅; body := "{}"; json := Return empty_payload |}.

Definition gcp_request (auth_token : option string) (payload : Payload) : Request :=
  {| headers := ∅;
     query_params := match auth_token with
                     | Some t => {[ "auth_token"%string := t ]}
                     | None => ∅
                     end;
     body := "{}"; json := Return payload |}.
End ExampleRequests.

(** File systems for the report tool. *)
Module ExampleFs.
Import Py Pathlib Tools.

(** Every call returns. *)
Definition fs_ok (c : FsCall) : result unit := Return ().

(** Every call returns but a write to a path that ends in "..", which
    names a directory. *)
Definition fs_posix (c : FsCall) : result unit :=
  match c with
  | WriteText p _ =>
      if bool_decide (name p = ".."%string) then Raise "IsADirectoryError" else Return ()
  | Mkdir _ => Return ()
  end.

Definition report_input (filename content : string) : gmap string string :=
  {[ "filename"%string := filename; "content"%string := content ]}.
End ExampleFs.

(** A service that has spent 1200 tokens within the hour, and 5000 before
    it, with one alert running. *)
Module ExampleProcess.
Import Py Models State Telemetry Config Intake Main Examples ExampleConfig ExampleRuns.

Definition busy_world : World :=
  match submit (_make_alert "PD-1" "api" (Some P2)) "trace-1" 9990 (World_init 3 600) with
  | Some (_, w) => w
  | None => World_init 3 600
  end.

Definition spent_world : World :=
  {| intake := intake busy_world;
     state := set_hourly_token_log [(1000, 5000); (9000, 700); (9500, 500)]
                (state busy_world);
     telemetry := telemetry busy_world |}.

Definition spent_app : App := {| world := spent_world; _alert_queue := ∅ |}.

Definition budget_config : Config := with_max_tokens_per_hour 1000 test_config.

(** The clock shows 10000, 10001, ...; every request comes back, and so
    does the call that appends the cost footer. *)
Definition process_env : Env :=
  {| time := λ i, 10000 + Z.of_nat i;
     send := λ _, Return ();
     agent_env := final_answer 1000 "Resolved.";
     format_alert_message := description;
     _append_cost_to_report := λ _ _ _, Return () |}.
End ExampleProcess.

(** Worlds of the intake reached by a few events. *)
Module ExampleWorlds.
Import Models State Telemetry Intake Examples.

(** The world after the events, or the world the events start from if
    one of them is not enabled. *)
Definition after (evs : list event) (w : World) : World :=
  default w (snd <$> run evs w).

(** Under a cap of one: a run for "api", and in the queue a P1 alert
    for "api" and an alert without priority for "db". *)
Definition crowded_world : World :=
  after [Submit (_make_alert "inc-1" "api" (Some P2)) "t1" 0;
         Submit (_make_alert "inc-2" "api" (Some P1)) "t2" 1;
         Submit (_make_alert "inc-3" "db" None) "t3" 2] (World_init 1 600).

(** The same after [shutdown]. *)
Definition stopped_world : World := after [Shutdown] crowded_world.
End ExampleWorlds.

(** A service with an escalation model from the third turn on, and an
    LLM that calls two tools at each of its first three turns and then
    gives its answer. *)
Module ExampleSchedule.
Import Py Config Agent ExampleConfig.

Definition escalating_config : Config :=
  {| llm_model := "gemini-flash"; llm_model_escalation := "gemini-pro";
     llm_escalation_turn := 2;
     pagerduty_api_token := "pd-test"; pagerduty_webhook_secret := "";
     incidents_dir := "/app/incidents"; max_concurrent_alerts := 3;
     alert_queue_ttl_seconds := 600; max_tokens_per_incident := 2000;
     max_tokens_per_hour := 0; ops_auth_token := "ops-test" |}.

Definition two_tools : list ToolCall :=
  [ {| tool_call_id := "call-a"; tool_name := "call_ops_endpoint";
       arguments := "{service_name: api}" |};
    {| tool_call_id := "call-b"; tool_name := "query_cloud_logs";
       arguments := "not json" |} ].

Definition diagnosing : Env :=
  {| start_time := 1000;
     clock := λ turn, 1000 + 10 * Z.of_nat turn;
     load_system_prompt := Return "You are an SRE agent."%string;
     create := λ turn model _,
       Return {| usage := Some {| prompt_tokens := 500; completion_tokens := 100 |};
                 choices := if bool_decide (turn < 3)%nat then [(two_tools, model)]
                            else [([], "Resolved by " +:+ model)] |};
     json_loads := λ s, if bool_decide (s = "not json"%string) then None else Some s;
     execute := λ name input, name +:+ " " +:+ input |}.
End ExampleSchedule.

(** The globals after the alert of [busy_world] has been processed, and
    a run of the agent that spends 12000 tokens. *)
Module ExampleQueue.
Import Py Models State Telemetry Config Intake Main Ops Examples ExampleConfig.
Import ExampleProcess.

Definition busy_app : App := {| world := busy_world; _alert_queue := ∅ |}.

Definition finished_app : App :=
  app (_process_alert test_config process_env (_make_alert "PD-1" "api" (Some P2))
         "trace-1" busy_app).

Definition greedy_env : Env :=
  {| time := λ i, 10000 + Z.of_nat i;
     send := λ _, Return ();
     agent_env := ExampleRuns.always_tool_call 1000;
     format_alert_message := description;
     _append_cost_to_report := λ _ _ _, Return () |}.

(** The same run on a host where listing the reports fails. *)
Definition unlisted_env : Env :=
  {| time := λ i, 10000 + Z.of_nat i;
     send := λ _, Return ();
     agent_env := ExampleRuns.final_answer 1000 "Resolved.";
     format_alert_message := description;
     _append_cost_to_report := λ _ _ _, Raise "PermissionError" |}.

(** The clock of a later call, half an hour on. *)
Definition later_env : Env :=
  {| time := λ i, 11800 + Z.of_nat i;
     send := λ _, Return ();
     agent_env := ExampleRuns.final_answer 1000 "Resolved.";
     format_alert_message := description;
     _append_cost_to_report := λ _ _ _, Return () |}.
End ExampleQueue.

(** Requests to the endpoints of the service. *)
Module ExampleOps.
Import Py Models State Main Examples.

Definition bearer_request (authorization : string) : Request :=
  {| headers := {[ "authorization"%string := authorization ]};
     query_params := ∅; body := "{}";
     json := Return {| event_type := ""; incident_state := ""; from_webhook := None;
                       from_gcp_webhook := None |} |}.

(** A PagerDuty webhook for a triggered incident, and a GCP webhook for
    an open one. *)
Definition triggered_request (alert : PagerDutyAlert) : Request :=
  {| headers := ∅; query_params := ∅; body := "{}";
     json := Return {| event_type := "incident.triggered"; incident_state := "";
                       from_webhook := Some alert; from_gcp_webhook := None |} |}.

Definition open_request (alert : PagerDutyAlert) : Request :=
  {| headers := ∅; query_params := ∅; body := "{}";
     json := Return {| event_type := ""; incident_state := "open";
                       from_webhook := None; from_gcp_webhook := Some alert |} |}.
End ExampleOps.

(** An executor for two services, and the outside that answers every
    request with status 500. *)
Module ExampleExecutor.
Import Py PyStr Pathlib Tools Scaling Json Executor SpecFloat.

(** [int] on the strings of digits. *)
Fixpoint digits (acc : Z) (s : string) : result Z :=
  match s with
  | EmptyString => Return acc
  | String c s' =>
      if (48 <=? ord c) && (ord c <=? 57) then digits (10 * acc + (ord c - 48)) s'
      else Raise "ValueError"
  end.
Definition int (s : string) : result Z :=
  if bool_decide (s = ""%string) then Raise "ValueError" else digits 0 s.

Definition limits : gmap string ScalingConfig :=
  match _load_scaling_limits id int "api|2|6|application,db|1|3|cloud_native" with
  | Return l => l
  | Raise _ => ∅
  end.

Definition executor : ToolExecutor :=
  {| services := {[ "api" := "https://api.internal/"; "db" := "https://db.internal" ]};
     ops_auth_token := "ops-test"; pagerduty_api_token := "pd-test";
     pagerduty_routing_key := ""; incidents_dir := Path "/app/incidents";
     trace_id := "trace-1"; scaling_config := limits |}%string.

Definition failing : Outside :=
  {| http := λ _, Return {| status_code := 500; content_type := "text/plain";
                            text := "Internal Server Error";
                            decoded := Raise "JSONDecodeError" |};
     fs := λ _, Return ();
     email := λ _, Return (error "SMTP not configured.") |}.

(** A [repr] that tells the kinds of values apart and no more. *)
Definition kind (j : Json) : string :=
  match j with
  | JFloat _ => "<float>"
  | JList _ => "<list>"
  | JObj _ => "<dict>"
  | _ => ""
  end.

(** The input of a call that scales "api". *)
Definition scale_api (target : Json) : Json :=
  JObj [("service_name", JStr "api"); ("target_instances", target);
        ("reason", JStr "traffic")]%string.

Definition scale_request (target : Json) : HttpCall :=
  {| method := POST; url := "https://api.internal/ops/scale";
     headers := [("X-Trace-Id", "trace-1"); ("Authorization", "Bearer ops-test")]%string;
     json := Some (JObj [("target_instances", target);
                         ("reason", JStr "traffic")]%string) |}.
End ExampleExecutor.

(** Decidable facts about concrete values, by evaluation. *)
Ltac by_compute := apply (bool_decide_unpack _); vm_compute; exact I.

(** * Properties *)

(** * hashlib against published digests *)
Module HashlibVectors.
Import Hashlib.
Example sha256_abc :
  sha256_hexdigest "abc"
    = "ba7816bf8f01cfea414140de5dae2223b00361a396177a9cb410ff61f20015ad"%string.
Proof. vm_compute. reflexivity. Qed.
Example sha256_empty :
  sha256_hexdigest ""
    = "e3b0c44298fc1c149afbf4c8996fb92427ae41e4649b934ca495991b7852b855"%string.
Proof. vm_compute. reflexivity. Qed.
Example hmac_rfc4231_2 :
  hmac_sha256_hexdigest "Jefe" "what do ya want for nothing?"
    = "5bdcc146bf60754e6a042426089575c75a003f089d2739839dec58b964ec3843"%string.
Proof. vm_compute. reflexivity. Qed.
Example hmac_body_secret :
  hmac_sha256_hexdigest "secret" "body"
    = "dc46983557fea127b43af721467eb9b3fde2338fe3e14f51952aa8478c13d355"%string.
Proof. vm_compute. reflexivity. Qed.
Example sha256_constants :
  length K = 64%nat ∧ K !! 0%nat = Some 0x428a2f98 ∧ K !! 63%nat = Some 0xc67178f2 ∧
  H0 !! 0%nat = Some 0x6a09e667 ∧ H0 !! 7%nat = Some 0x5be0cd19.
Proof. vm_compute. done. Qed.
End HashlibVectors.

(** * Strings and [compare_digest] *)
Module PyFacts.
Import Py.

Lemma append_String c s t : String c s +:+ t = String c (s +:+ t).
Proof. done. Qed.

Lemma startswith_app p r : startswith p (p +:+ r) = true.
Proof.
  induction p as [|a p IH]; [done|]. rewrite append_String. simpl.
  by rewrite bool_decide_eq_true_2.
Qed.

Lemma startswith_inv p : ∀ s,
  startswith p s = true → s = p +:+ drop_chars (String.length p) s.
Proof.
  induction p as [|a p IH]; intros s Hs; simpl in *; [done|].
  destruct s as [|b s]; [done|]. apply andb_true_iff in Hs as [Hab Hs].
  apply bool_decide_eq_true in Hab as ->. rewrite append_String. simpl. f_equal.
  by apply IH.
Qed.

Lemma drop_chars_app p r : drop_chars (String.length p) (p +:+ r) = r.
Proof.
  induction p as [|a p IH]; [by destruct r|]. by rewrite append_String.
Qed.

Lemma removeprefix_app p r : removeprefix p (p +:+ r) = r.
Proof. unfold removeprefix. by rewrite startswith_app, drop_chars_app. Qed.

Lemma isascii_String c s : isascii (String c s) = (ord c <? 128) && isascii s.
Proof. done. Qed.

Lemma isascii_app s t : isascii (s +:+ t) = isascii s && isascii t.
Proof.
  induction s as [|c s IH]; [done|].
  by rewrite append_String, !isascii_String, IH, andb_assoc.
Qed.

Lemma isascii_removeprefix p s : isascii s = true → isascii (removeprefix p s) = true.
Proof.
  unfold removeprefix. destruct (startswith p s) eqn:Hp; [|done].
  intros Hs. rewrite (startswith_inv _ _ Hp), isascii_app in Hs.
  by apply andb_true_iff in Hs as [_ ?].
Qed.

Lemma string_length_app s t :
  String.length (s +:+ t) = (String.length s + String.length t)%nat.
Proof.
  induction s as [|c s IH]; [done|]. rewrite append_String. simpl. by rewrite IH.
Qed.

(** [compare_digest] on ASCII arguments is equality. *)
Lemma compare_digest_ascii a b :
  isascii a = true → isascii b = true →
  compare_digest a b = Return (bool_decide (a = b)).
Proof. intros Ha Hb. unfold compare_digest. by rewrite Ha, Hb. Qed.

Lemma compare_digest_non_ascii a b :
  isascii a = false ∨ isascii b = false → compare_digest a b = Raise "TypeError".
Proof.
  intros H. unfold compare_digest.
  destruct H as [->| ->]; [done|]. by rewrite andb_false_r.
Qed.
End PyFacts.

(** * The shape of a digest *)
Module HashlibFacts.
Import Py Hashlib HashlibSpec PyFacts.

Lemma round_length s kw : length (round s kw) = length s.
Proof. unfold round. by repeat case_match. Qed.

Lemma foldl_round_length l : ∀ s, length (foldl round s l) = length s.
Proof. induction l as [|kw l IH]; intros s; simpl; [done|]. by rewrite IH, round_length. Qed.

Lemma compress_length h block : length (compress h block) = length h.
Proof.
  unfold compress. rewrite length_zip_with, foldl_round_length. lia.
Qed.

Lemma foldl_compress_length l : ∀ h, length (foldl compress h l) = length h.
Proof.
  induction l as [|b l IH]; intros h; simpl; [done|]. by rewrite IH, compress_length.
Qed.

Lemma be_bytes_length n x : length (be_bytes n x) = n.
Proof.
  revert x. induction n as [|n IH]; intros x; simpl; [done|].
  rewrite length_app, IH. simpl. lia.
Qed.

Lemma bind_be_bytes_length (h : list Z) : length (h ≫= be_bytes 4) = (4 * length h)%nat.
Proof.
  induction h as [|x h IH]; [done|].
  rewrite bind_cons, length_app, be_bytes_length, IH. simpl. lia.
Qed.

(** A digest has 32 bytes. *)
Lemma sha256_length msg : length (sha256 msg) = 32%nat.
Proof. unfold sha256. by rewrite bind_be_bytes_length, foldl_compress_length. Qed.

Lemma hmac_sha256_length key msg : length (hmac_sha256 key msg) = 32%nat.
Proof. apply sha256_length. Qed.

Lemma hexdigit_cases n :
  0 ≤ n < 16 →
  hexdigit n ∈ ["0"; "1"; "2"; "3"; "4"; "5"; "6"; "7"; "8"; "9";
                "a"; "b"; "c"; "d"; "e"; "f"]%char.
Proof.
  intros Hn.
  assert (n = 0 ∨ n = 1 ∨ n = 2 ∨ n = 3 ∨ n = 4 ∨ n = 5 ∨ n = 6 ∨ n = 7 ∨ n = 8 ∨
          n = 9 ∨ n = 10 ∨ n = 11 ∨ n = 12 ∨ n = 13 ∨ n = 14 ∨ n = 15) as H by lia.
  clear Hn.
  repeat (destruct H as [->|H]; [vm_compute; set_solver|]). subst. vm_compute. set_solver.
Qed.

Lemma hex_digits bs :
  forallb is_hexdigit (String.list_ascii_of_string (hex bs)) = true.
Proof.
  unfold hex. rewrite String.list_ascii_of_string_of_list_ascii.
  induction bs as [|b bs IH]; [done|].
  rewrite bind_cons. simpl. rewrite IH, andb_true_r.
  apply andb_true_iff. split; apply bool_decide_eq_true, hexdigit_cases.
  - apply Z.mod_pos_bound. lia.
  - apply Z.mod_pos_bound. lia.
Qed.

Lemma hex_length bs : String.length (hex bs) = (2 * length bs)%nat.
Proof.
  unfold hex. induction bs as [|b bs IH]; [done|].
  rewrite bind_cons. simpl. rewrite IH. lia.
Qed.

Lemma hexdigits_ascii s :
  forallb is_hexdigit (String.list_ascii_of_string s) = true → isascii s = true.
Proof.
  induction s as [|c s IH]; [done|]. simpl. intros H.
  apply andb_true_iff in H as [Hc Hs]. rewrite isascii_String, (IH Hs), andb_true_r.
  apply bool_decide_eq_true in Hc.
  repeat (apply elem_of_cons in Hc as [->|Hc]; [done|]). by apply elem_of_nil in Hc.
Qed.

Lemma hexdigits_no_prefix s :
  forallb is_hexdigit (String.list_ascii_of_string s) = true → startswith "v1=" s = false.
Proof.
  destruct s as [|c s]; [done|]. simpl. intros H.
  apply andb_true_iff in H as [Hc _]. apply bool_decide_eq_true in Hc.
  repeat (apply elem_of_cons in Hc as [->|Hc]; [done|]). by apply elem_of_nil in Hc.
Qed.

(** A hex digest is 64 ASCII characters, none of them "v". *)
Lemma hexdigest_facts key msg :
  let d := hmac_sha256_hexdigest key msg in
  isascii d = true ∧ startswith "v1=" d = false ∧ String.length d = 64%nat.
Proof.
  unfold hmac_sha256_hexdigest. split_and!.
  - apply hexdigits_ascii, hex_digits.
  - apply hexdigits_no_prefix, hex_digits.
  - by rewrite hex_length, hmac_sha256_length.
Qed.
End HashlibFacts.

(** * One-bit mutations *)
Module MutationFacts.
Import Py Mutation PyFacts.

Lemma flip_bit_neq k c : (k < 8)%nat → flip_bit k c ≠ c.
Proof.
  intros Hk.
  assert (k = 0 ∨ k = 1 ∨ k = 2 ∨ k = 3 ∨ k = 4 ∨ k = 5 ∨ k = 6 ∨ k = 7)%nat as H
    by lia.
  destruct c as [[] [] [] [] [] [] [] []];
    repeat (destruct H as [->|H]; [by vm_compute|]); subst; by vm_compute.
Qed.

Lemma flip_bit_ascii k c :
  (k < 7)%nat → (ord c <? 128) = true → (ord (flip_bit k c) <? 128) = true.
Proof.
  intros Hk.
  assert (k = 0 ∨ k = 1 ∨ k = 2 ∨ k = 3 ∨ k = 4 ∨ k = 5 ∨ k = 6)%nat as H by lia.
  destruct c as [[] [] [] [] [] [] [] []];
    repeat (destruct H as [->|H]; [by vm_compute|]); subst; by vm_compute.
Qed.

Lemma mutate_length i k s : String.length (mutate i k s) = String.length s.
Proof.
  revert i. induction s as [|c s IH]; intros i; [reflexivity|].
  destruct i; simpl; [done|]. by rewrite IH.
Qed.

Lemma mutate_neq i k s : (i < String.length s)%nat → (k < 8)%nat → mutate i k s ≠ s.
Proof.
  revert i. induction s as [|c s IH]; intros i Hi Hk; simpl in *; [lia|].
  destruct i as [|i]; intros Heq; injection Heq as Heq.
  - by apply (flip_bit_neq k c).
  - apply (IH i); [lia|done..].
Qed.

Lemma mutate_ascii i k s : (k < 7)%nat → isascii s = true → isascii (mutate i k s) = true.
Proof.
  revert i. induction s as [|c s IH]; intros i Hk Hs; [done|].
  rewrite isascii_String in Hs. apply andb_true_iff in Hs as [Hc Hs].
  destruct i as [|i]; simpl; rewrite isascii_String; apply andb_true_iff.
  - split; [by apply flip_bit_ascii|done].
  - split; [done|by apply IH].
Qed.
End MutationFacts.

(** * heapq keeps a heap, and pops it in order *)
Module HeapqFacts.
Local Open Scope nat_scope.
Import Heapq HeapqSpec.
Section facts.
Context {A : Type} (lt : A → A → bool).
Local Abbreviation le := (HeapqSpec.le lt).
Local Abbreviation heap_from := (HeapqSpec.heap_from lt).
Local Abbreviation heap_ok := (HeapqSpec.heap_ok lt).
Local Abbreviation hole := (HeapqSpec.hole lt).
Local Abbreviation drain := (HeapqSpec.drain lt).
Hypothesis lt_asym : ∀ x y, lt x y = true → lt y x = false.
Hypothesis le_trans : ∀ x y z, le x y → le y z → le x z.

Lemma le_refl x : le x x.
Proof.
  unfold HeapqSpec.le. destruct (lt x x) eqn:E; [|done]. by rewrite (lt_asym _ _ E) in E.
Qed.

Lemma lt_le x y : lt x y = true → le x y.
Proof. apply lt_asym. Qed.

Lemma parent_of_child i j : child i j → (j - 1) / 2 = i.
Proof.
  intros [-> | ->].
  - replace (2 * i + 1 - 1) with (i * 2) by lia. apply Nat.div_mul. lia.
  - replace (2 * i + 2 - 1) with (1 + i * 2) by lia.
    rewrite Nat.div_add by lia. reflexivity.
Qed.

Lemma child_of_parent j : 0 < j → child ((j - 1) / 2) j.
Proof.
  intros Hj. unfold child.
  pose proof (Nat.div_mod_eq (j - 1) 2).
  pose proof (Nat.mod_upper_bound (j - 1) 2). lia.
Qed.

Lemma child_gt i j : child i j → i < j.
Proof. unfold child. lia. Qed.

Lemma desc_ge lo p : desc lo p → lo ≤ p.
Proof.
  induction 1 as [|p c _ IH Hc]; [lia|]. apply child_gt in Hc. lia.
Qed.

Lemma desc_parent lo p : desc lo p → lo < p → desc lo ((p - 1) / 2).
Proof.
  destruct 1 as [|q c Hq Hc]; [lia|]. intros _.
  by rewrite (parent_of_child _ _ Hc).
Qed.

Lemma desc_zero n : desc 0 n.
Proof.
  induction (lt_wf n) as [n _ IH]. destruct n as [|n]; [constructor|].
  pose proof (child_of_parent (S n) ltac:(lia)) as Hc.
  eapply desc_child; [|exact Hc]. apply IH. apply child_gt in Hc. lia.
Qed.

Lemma insert_swap_perm (l : list A) i j x y :
  l !! i = Some x → i ≠ j → j < length l →
  <[i := y]> (<[j := x]> l) ≡ₚ <[j := y]> l.
Proof.
  intros Hi Hij Hj.
  rewrite <-(list_insert_insert_eq l j x y).
  apply Permutation_insert_swap.
  - by apply list_lookup_insert_eq.
  - by rewrite list_lookup_insert_ne.
Qed.

Lemma hole_insert lo l pos v : hole lo l pos → hole lo (<[pos := v]> l) pos.
Proof.
  intros [H1 H2]. split.
  - intros i j x y Hlo Hc Hi Hj. rewrite !list_lookup_insert_ne by done. eauto.
  - intros c x y Hlo Hc. pose proof (child_gt _ _ Hc).
    assert ((pos - 1) / 2 < pos).
    { pose proof (child_of_parent pos ltac:(lia)) as Hp. apply child_gt in Hp. lia. }
    rewrite !list_lookup_insert_ne by lia. eauto.
Qed.

Lemma siftdown_loop_S fuel heap newitem lo pos :
  siftdown_loop lt (S fuel) heap newitem lo pos =
    if decide (lo < pos) then
      parent ← heap !! ((pos - 1) / 2);
      if lt newitem parent
      then siftdown_loop lt fuel (<[pos := parent]> heap) newitem lo ((pos - 1) / 2)
      else Some (<[pos := newitem]> heap)
    else Some (<[pos := newitem]> heap).
Proof. reflexivity. Qed.

(* Filling the hole at [pos] with [newitem] restores the heap order. *)
Lemma fill_hole lo heap pos newitem :
  hole lo heap pos →
  (∀ c y, child pos c → heap !! c = Some y → le newitem y) →
  (∀ x, lo < pos → heap !! ((pos - 1) / 2) = Some x → le x newitem) →
  heap_from lo (<[pos := newitem]> heap).
Proof.
  intros [Hh1 Hh2] Hnew Hpar i j x y Hlo Hc Hx Hy.
  pose proof (child_gt _ _ Hc).
  destruct (decide (i = pos)) as [->|Hip].
  - rewrite list_lookup_insert_ne in Hy by lia.
    apply lookup_lt_Some in Hx as Hlen. rewrite length_insert in Hlen.
    rewrite list_lookup_insert_eq in Hx by done. simplify_eq. eauto.
  - rewrite list_lookup_insert_ne in Hx by done.
    destruct (decide (j = pos)) as [->|Hjp].
    + apply lookup_lt_Some in Hy as Hlen. rewrite length_insert in Hlen.
      rewrite list_lookup_insert_eq in Hy by done. simplify_eq.
      rewrite <-(parent_of_child _ _ Hc) in Hx. apply Hpar; [lia|done].
    + rewrite list_lookup_insert_ne in Hy by done. eapply Hh1; eauto.
Qed.

Lemma siftdown_loop_spec fuel : ∀ heap newitem lo pos,
  pos ≤ fuel → pos < length heap → desc lo pos → hole lo heap pos →
  (∀ c y, child pos c → heap !! c = Some y → le newitem y) →
  ∃ heap', siftdown_loop lt fuel heap newitem lo pos = Some heap' ∧
           heap_from lo heap' ∧ heap' ≡ₚ <[pos := newitem]> heap.
Proof.
  induction fuel as [|fuel IH]; intros heap newitem lo pos Hfuel Hlen Hdesc Hhole Hnew.
  - assert (pos = 0) as -> by lia. simpl. destruct (decide (lo < 0)); [lia|].
    eexists; split; [done|split; [|done]].
    apply fill_hole; [done..|]. intros; lia.
  - rewrite siftdown_loop_S. destruct (decide (lo < pos)) as [Hlt|Hge].
    + set (pp := (pos - 1) / 2).
      pose proof (child_of_parent pos ltac:(lia)) as Hcp. fold pp in Hcp.
      pose proof (child_gt _ _ Hcp) as Hpp.
      pose proof (desc_parent _ _ Hdesc Hlt) as Hdp. fold pp in Hdp.
      pose proof (desc_ge _ _ Hdp) as Hlopp.
      destruct (lookup_lt_is_Some_2 heap pp ltac:(lia)) as [parent Hparent].
      rewrite Hparent. simpl. destruct (lt newitem parent) eqn:Hcmp.
      * destruct Hhole as [Hh1 Hh2].
        destruct (IH (<[pos := parent]> heap) newitem lo pp) as (heap' & Hrun & Hok & Hperm).
        { lia. } { rewrite length_insert. lia. } { done. }
        { split.
          - intros i j x y Hlo Hc Hi Hj Hx Hy.
            destruct (decide (i = pos)) as [->|Hip].
            + rewrite list_lookup_insert_eq in Hx by done. simplify_eq.
              rewrite list_lookup_insert_ne in Hy by (apply child_gt in Hc; lia).
              eapply Hh2; eauto.
            + rewrite list_lookup_insert_ne in Hx by done.
              destruct (decide (j = pos)) as [->|Hjp].
              * rewrite <-(parent_of_child _ _ Hc) in Hi. done.
              * rewrite list_lookup_insert_ne in Hy by done. eapply Hh1; eauto.
          - intros c x y Hlo Hc Hx Hy.
            assert (0 < pp) as Hpp0 by lia.
            pose proof (child_of_parent pp Hpp0) as Hcg.
            pose proof (child_gt _ _ Hcg) as Hg.
            pose proof (desc_ge _ _ (desc_parent _ _ Hdp Hlo)) as Hlog.
            rewrite list_lookup_insert_ne in Hx by lia.
            assert (le x parent) as Hxp.
            { eapply (Hh1 ((pp - 1) / 2) pp); eauto; lia. }
            destruct (decide (c = pos)) as [->|Hcpos].
            + rewrite list_lookup_insert_eq in Hy by done. by simplify_eq.
            + rewrite list_lookup_insert_ne in Hy by done.
              eapply le_trans; [exact Hxp|].
              eapply (Hh1 pp c); eauto. lia. }
        { intros c y Hc Hy.
          destruct (decide (c = pos)) as [->|Hcpos].
          - rewrite list_lookup_insert_eq in Hy by done. simplify_eq. by apply lt_le.
          - rewrite list_lookup_insert_ne in Hy by done.
            eapply le_trans; [apply lt_le, Hcmp|].
            eapply (Hh1 pp c); eauto. lia. }
        exists heap'. split; [done|split; [done|]].
        rewrite Hperm. apply insert_swap_perm; [done|lia|done].
      * eexists; split; [done|split; [|done]].
        apply fill_hole; [done..|]. intros x _ Hx. fold pp in Hx. by simplify_eq.
    + eexists; split; [done|split; [|done]].
      apply fill_hole; [done..|]. intros; lia.
Qed.

Lemma siftdown_spec heap lo pos newitem :
  heap !! pos = Some newitem → desc lo pos → hole lo heap pos →
  (∀ c y, child pos c → heap !! c = Some y → le newitem y) →
  ∃ heap', _siftdown lt heap lo pos = Some heap' ∧
           heap_from lo heap' ∧ heap' ≡ₚ heap.
Proof.
  intros Hpos Hdesc Hhole Hnew. unfold _siftdown. rewrite Hpos. simpl.
  destruct (siftdown_loop_spec pos heap newitem lo pos) as (heap' & Hrun & Hok & Hperm);
    eauto using lookup_lt_Some.
  exists heap'. split_and!; [done..|].
  rewrite Hperm. by rewrite list_insert_id.
Qed.

Lemma smaller_child_spec heap pos :
  2 * pos + 1 < length heap →
  ∃ c x, smaller_child lt heap (length heap) (2 * pos + 1) = Some c ∧
         child pos c ∧ heap !! c = Some x ∧
         (∀ c' y, child pos c' → heap !! c' = Some y → le x y).
Proof.
  intros Hlen. unfold smaller_child.
  destruct (lookup_lt_is_Some_2 heap (2 * pos + 1) Hlen) as [l Hl].
  destruct (decide (2 * pos + 1 + 1 < length heap)) as [Hr|Hr].
  - destruct (lookup_lt_is_Some_2 heap (2 * pos + 1 + 1) Hr) as [r Hrr].
    rewrite Hl, Hrr. simpl. destruct (lt l r) eqn:Hcmp; simpl.
    + exists (2 * pos + 1), l. split_and!; [done|by left|done|].
      intros c' y [->| ->] Hy; simplify_eq; [apply le_refl|].
      replace (2 * pos + 2) with (2 * pos + 1 + 1) in Hy by lia.
      simplify_eq. by apply lt_le.
    + exists (2 * pos + 1 + 1), r. split_and!; [done|right; lia|done|].
      intros c' y [->| ->] Hy; simplify_eq; [done|].
      replace (2 * pos + 2) with (2 * pos + 1 + 1) in Hy by lia.
      simplify_eq. apply le_refl.
  - exists (2 * pos + 1), l. split_and!; [done|by left|done|].
    intros c' y [->| ->] Hy; simplify_eq; [apply le_refl|].
    apply lookup_lt_Some in Hy. lia.
Qed.

Lemma siftup_loop_S fuel heap endpos pos :
  siftup_loop lt (S fuel) heap endpos pos =
    if decide (2 * pos + 1 < endpos) then
      childpos ← smaller_child lt heap endpos (2 * pos + 1);
      child ← heap !! childpos;
      siftup_loop lt fuel (<[pos := child]> heap) endpos childpos
    else Some (heap, pos).
Proof. reflexivity. Qed.

Lemma siftup_loop_spec fuel : ∀ heap lo pos,
  length heap - pos ≤ fuel → pos < length heap → desc lo pos → hole lo heap pos →
  ∃ heap' pos', siftup_loop lt fuel heap (length heap) pos = Some (heap', pos') ∧
    pos' < length heap ∧ length heap ≤ 2 * pos' + 1 ∧
    desc lo pos' ∧ hole lo heap' pos' ∧
    ∀ v, <[pos' := v]> heap' ≡ₚ <[pos := v]> heap.
Proof.
  induction fuel as [|fuel IH]; intros heap lo pos Hfuel Hlen Hdesc Hhole; [lia|].
  rewrite siftup_loop_S. destruct (decide (2 * pos + 1 < length heap)) as [Hc|Hc].
  - destruct (smaller_child_spec heap pos Hc) as (c & x & -> & Hchild & Hx & Hmin).
    simpl. rewrite Hx. simpl.
    pose proof (child_gt _ _ Hchild) as Hgt.
    pose proof (lookup_lt_Some _ _ _ Hx) as Hclen.
    destruct Hhole as [Hh1 Hh2].
    pose proof (desc_ge _ _ Hdesc) as Hlo.
    destruct (IH (<[pos := x]> heap) lo c) as (heap' & pos' & Hrun & Hp1 & Hp2 & Hp3 & Hp4 & Hp5).
    { rewrite length_insert. lia. } { by rewrite length_insert. }
    { by eapply desc_child. }
    { split.
      - intros i j a b Hloi Hij Hic Hjc Ha Hb.
        destruct (decide (i = pos)) as [->|Hip].
        + rewrite list_lookup_insert_eq in Ha by done. simplify_eq.
          rewrite list_lookup_insert_ne in Hb by (apply child_gt in Hij; lia).
          eauto.
        + rewrite list_lookup_insert_ne in Ha by done.
          destruct (decide (j = pos)) as [->|Hjp].
          * rewrite list_lookup_insert_eq in Hb by done. simplify_eq.
            pose proof (child_gt _ _ Hij).
            eapply (Hh2 c); eauto; [lia|].
            by rewrite (parent_of_child _ _ Hij).
          * rewrite list_lookup_insert_ne in Hb by done. eapply Hh1; eauto.
      - intros gc a b _ Hgc Ha Hb.
        rewrite (parent_of_child _ _ Hchild) in Ha.
        rewrite list_lookup_insert_eq in Ha by done. simplify_eq.
        pose proof (child_gt _ _ Hgc).
        rewrite list_lookup_insert_ne in Hb by lia.
        eapply (Hh1 c gc); eauto; lia. }
    rewrite length_insert in Hrun, Hp1, Hp2.
    exists heap', pos'. split_and!; try done.
    intros v. rewrite Hp5. apply insert_swap_perm; [done|lia|done].
  - exists heap, pos. split_and!; try done. lia.
Qed.

Lemma heap_from_hole lo heap : heap_from (S lo) heap → hole lo heap lo.
Proof.
  intros Hh. split; [|lia].
  intros i j x y Hlo Hc Hi Hj. apply Hh; [lia|done].
Qed.

Lemma siftup_spec heap pos :
  pos < length heap → heap_from (S pos) heap →
  ∃ heap', _siftup lt heap pos = Some heap' ∧ heap_from pos heap' ∧ heap' ≡ₚ heap.
Proof.
  intros Hlen Hh. unfold _siftup.
  destruct (lookup_lt_is_Some_2 heap pos Hlen) as [newitem Hnew]. rewrite Hnew. simpl.
  destruct (siftup_loop_spec (length heap) heap pos pos)
    as (heap1 & pos1 & -> & Hp1 & Hp2 & Hp3 & Hp4 & Hp5);
    [lia|done|constructor|by apply heap_from_hole|].
  simpl.
  assert (length heap1 = length heap) as Hlen1.
  { pose proof (Hp5 newitem) as HP. apply Permutation_length in HP.
    by rewrite !length_insert in HP. }
  destruct (siftdown_spec (<[pos1 := newitem]> heap1) pos pos1 newitem)
    as (heap' & Hrun & Hok & Hperm).
  { apply list_lookup_insert_eq. lia. } { done. } { by apply hole_insert. }
  { intros c y Hc Hy. apply lookup_lt_Some in Hy. rewrite length_insert in Hy.
    unfold child in Hc. lia. }
  exists heap'. split_and!; try done.
  rewrite Hperm, Hp5. by rewrite list_insert_id.
Qed.

Theorem heappush_spec heap item :
  heap_ok heap →
  ∃ heap', heappush lt heap item = Some heap' ∧ heap_ok heap' ∧ heap' ≡ₚ item :: heap.
Proof.
  intros Hok. unfold heappush. rewrite length_app. simpl.
  replace (length heap + 1 - 1) with (length heap) by lia.
  destruct (siftdown_spec (heap ++ [item]) 0 (length heap) item)
    as (heap' & Hrun & Hok' & Hperm).
  - by rewrite lookup_app_r, Nat.sub_diag.
  - apply desc_zero.
  - split.
    + intros i j x y _ Hc Hi Hj Hx Hy.
      assert (j < length heap).
      { apply lookup_lt_Some in Hy. rewrite length_app in Hy. simpl in Hy. lia. }
      pose proof (child_gt _ _ Hc).
      rewrite lookup_app_l in Hx, Hy by lia.
      eapply (Hok i j); [lia|done..].
    + intros c x y _ Hc _ Hy. apply lookup_lt_Some in Hy.
      rewrite length_app in Hy. simpl in Hy. unfold child in Hc. lia.
  - intros c y Hc Hy. apply lookup_lt_Some in Hy.
    rewrite length_app in Hy. simpl in Hy. unfold child in Hc. lia.
  - exists heap'. split_and!; try done.
    rewrite Hperm. by rewrite Permutation_app_comm.
Qed.

Lemma heap_root_min heap m :
  heap_ok heap → heap !! 0 = Some m → ∀ y, y ∈ heap → le m y.
Proof.
  intros Hok Hm y [j Hj]%list_elem_of_lookup. revert y Hj.
  induction (lt_wf j) as [j _ IH]. intros y Hj.
  destruct j as [|j]; [simplify_eq; apply le_refl|].
  pose proof (child_of_parent (S j) ltac:(lia)) as Hc.
  pose proof (child_gt _ _ Hc) as Hlt.
  destruct (lookup_lt_is_Some_2 heap ((S j - 1) / 2)) as [p Hp].
  { apply lookup_lt_Some in Hj. lia. }
  eapply le_trans; [apply (IH _ Hlt _ Hp)|].
  eapply (Hok ((S j - 1) / 2) (S j)); [lia|done..].
Qed.

Theorem heappop_spec heap :
  heap_ok heap → heap ≠ [] →
  ∃ m heap', heappop lt heap = Some (m, heap') ∧ heap_ok heap' ∧
             heap ≡ₚ m :: heap' ∧ ∀ y, y ∈ heap → le m y.
Proof.
  intros Hok Hne. unfold heappop.
  destruct (last heap) as [lastelt|] eqn:Hlast.
  2:{ apply last_None in Hlast. done. }
  apply last_Some in Hlast as [front ->]. simpl.
  rewrite removelast_last. destruct front as [|m rest].
  - exists lastelt, []. split_and!.
    + done.
    + by intros i j x y _ Hc Hx.
    + done.
    + intros y Hy. apply list_elem_of_singleton in Hy as ->. apply le_refl.
  - simpl.
    destruct (siftup_spec (lastelt :: rest) 0) as (heap' & -> & Hok' & Hperm).
    { simpl. lia. }
    { intros i j x y Hlo Hc Hx Hy. pose proof (child_gt _ _ Hc).
      destruct i as [|i]; [lia|]. destruct j as [|j]; [lia|].
      simpl in Hx, Hy. eapply (Hok (S i) (S j)); [lia|done|..].
      - simpl. apply lookup_app_l_Some, Hx.
      - simpl. apply lookup_app_l_Some, Hy. }
    simpl. exists m, heap'. split_and!; try done.
    + rewrite Hperm. simpl. apply perm_skip. by rewrite Permutation_app_comm.
    + by apply heap_root_min.
Qed.

Lemma heapify_loop_spec i : ∀ x,
  i ≤ length x → heap_from i x →
  ∃ x', heapify_loop lt i x = Some x' ∧ heap_ok x' ∧ x' ≡ₚ x.
Proof.
  induction i as [|i IH]; intros x Hi Hh; [by exists x|].
  simpl. destruct (siftup_spec x i) as (x1 & -> & Hok1 & Hperm1); [lia|done|].
  simpl. destruct (IH x1) as (x' & Hrun & Hok & Hperm); [|done|].
  { apply Permutation_length in Hperm1. lia. }
  exists x'. split_and!; try done. by rewrite Hperm.
Qed.

Theorem heapify_spec x :
  ∃ x', heapify lt x = Some x' ∧ heap_ok x' ∧ x' ≡ₚ x.
Proof.
  apply heapify_loop_spec.
  - pose proof (Nat.div_mod_eq (length x) 2). lia.
  - intros i j a b Hi Hc _ Hb. apply lookup_lt_Some in Hb.
    pose proof (Nat.div_mod_eq (length x) 2).
    pose proof (Nat.mod_upper_bound (length x) 2). unfold child in Hc. lia.
Qed.

Lemma heap_ok_nil : heap_ok [].
Proof. by intros i j x y _ _ Hx. Qed.

Lemma drain_spec fuel : ∀ q,
  heap_ok q → length q ≤ fuel →
  ∃ l, drain fuel q = Some l ∧ l ≡ₚ q ∧ StronglySorted le l.
Proof.
  induction fuel as [|fuel IH]; intros q Hok Hlen.
  - destruct q; [|simpl in Hlen; lia]. exists []. by repeat constructor.
  - destruct q as [|a q]; [exists []; by repeat constructor|].
    destruct (heappop_spec (a :: q) Hok ltac:(done)) as (m & q' & Hpop & Hok' & Hperm & Hmin).
    cbn [HeapqSpec.drain]. rewrite Hpop. simpl.
    destruct (IH q' Hok') as (l & -> & Hl & Hsorted).
    { apply Permutation_length in Hperm. simpl in *. lia. }
    simpl. exists (m :: l). split_and!; [done|by rewrite Hperm, Hl|].
    constructor; [done|]. apply Forall_forall. intros y Hy. apply Hmin.
    rewrite Hperm. right. by rewrite <-Hl.
Qed.
End facts.
End HeapqFacts.

(** * The intake: the scan, the steps and their invariant *)
Module IntakeFacts.
Import Models State Telemetry Intake IntakeSpec HeapqSpec HeapqFacts.

Lemma QueuedAlert_lt_spec a b :
  QueuedAlert_lt a b = true ↔
  priority_rank a < priority_rank b ∨
  (priority_rank a = priority_rank b ∧ enqueued_at a < enqueued_at b).
Proof.
  unfold QueuedAlert_lt.
  destruct (Z.eqb_spec (priority_rank a) (priority_rank b)); simpl;
    rewrite Z.ltb_lt; lia.
Qed.

Lemma QueuedAlert_le_spec a b :
  le QueuedAlert_lt a b ↔
  priority_rank a < priority_rank b ∨
  (priority_rank a = priority_rank b ∧ enqueued_at a ≤ enqueued_at b).
Proof.
  unfold le. rewrite <-not_true_iff_false, QueuedAlert_lt_spec. lia.
Qed.

Lemma QueuedAlert_lt_asym a b :
  QueuedAlert_lt a b = true → QueuedAlert_lt b a = false.
Proof. rewrite <-not_true_iff_false, !QueuedAlert_lt_spec. lia. Qed.

Lemma QueuedAlert_le_trans a b c :
  le QueuedAlert_lt a b → le QueuedAlert_lt b c → le QueuedAlert_lt a c.
Proof. rewrite !QueuedAlert_le_spec. lia. Qed.

Abbreviation heap_okQ := (heap_ok QueuedAlert_lt).

Lemma scan_body_setq now c q1 q2 w e r :
  let '(w', e', r') := scan_body now c (upd_intake (set_queue q1) w, e, r) in
  scan_body now c (upd_intake (set_queue q2) w, e, r)
    = (upd_intake (set_queue q2) w', e', r').
Proof.
  unfold scan_body. simpl.
  destruct (_ <? _); [done|]. destruct (_ && _); done.
Qed.

Lemma scan_body_queue now c w e r :
  _queue (intake (scan_body now c (w, e, r)).1.1) = _queue (intake w).
Proof.
  unfold scan_body. destruct (_ <? _); [done|]. destruct (_ && _); done.
Qed.

Lemma upd_intake_set_queue_id w :
  _queue (intake w) = [] → upd_intake (set_queue []) w = w.
Proof. destruct w as [[] ? ?]. simpl. by intros ->. Qed.

Local Arguments scan_body : simpl never.

Lemma scan_loop_drain fuel now : ∀ w e r l,
  drain QueuedAlert_lt fuel (_queue (intake w)) = Some l →
  scan_loop fuel now (w, e, r)
    = Some (scan_fold now l (upd_intake (set_queue []) w, e, r)).
Proof.
  induction fuel as [|fuel IH]; intros w e r l Hdrain.
  - destruct (_queue (intake w)) eqn:Hq; [|done]. simpl in Hdrain. simplify_eq.
    simpl. rewrite Hq. by rewrite upd_intake_set_queue_id.
  - destruct (_queue (intake w)) as [|a q] eqn:Hq.
    + simpl in Hdrain. simplify_eq. simpl. rewrite Hq.
      by rewrite upd_intake_set_queue_id.
    + cbn [drain] in Hdrain. cbn [scan_loop]. simpl. rewrite Hq.
      destruct (Heapq.heappop QueuedAlert_lt (a :: q)) as [[m q']|]; [|done].
      simpl in Hdrain. simpl. destruct (drain QueuedAlert_lt fuel q') as [l'|] eqn:Hd; [|done].
      simpl in Hdrain. simplify_eq.
      pose proof (scan_body_setq now m q' [] w e r) as Hset.
      pose proof (scan_body_queue now m (upd_intake (set_queue q') w) e r) as Hqq.
      destruct (scan_body now m (upd_intake (set_queue q') w, e, r)) as [[w1 e1] r1].
      simpl in Hqq. rewrite (IH w1 e1 r1 l') by by rewrite Hqq.
      unfold scan_fold. simpl. by rewrite Hset.
Qed.

Lemma elect_Some act l x r :
  elect act l = (Some x, r) →
  is_free act x = true ∧ l ≡ₚ x :: r ∧
  ∃ l1 l2, l = l1 ++ x :: l2 ∧ r = l1 ++ l2 ∧ Forall (λ c, is_free act c = false) l1.
Proof.
  revert r. induction l as [|c l IH]; intros r H; simpl in H; [done|].
  destruct (is_free act c) eqn:Hc.
  - simplify_eq. split_and!; [done..|]. exists [], r. by split_and!.
  - destruct (elect act l) as [e r1] eqn:He. simplify_eq.
    destruct (IH r1 eq_refl) as (Hx & Hperm & l1 & l2 & -> & -> & Hall).
    split_and!; [done|by rewrite Hperm; apply perm_swap|].
    exists (c :: l1), l2. split_and!; [done..|]. by constructor.
Qed.

Lemma elect_None act l r :
  elect act l = (None, r) → r = l ∧ Forall (λ c, is_free act c = false) l.
Proof.
  revert r. induction l as [|c l IH]; intros r H; simpl in H; [by simplify_eq|].
  destruct (is_free act c) eqn:Hc; [done|].
  destruct (elect act l) as [e r1] eqn:He. simplify_eq.
  destruct (IH r1 eq_refl) as [-> Hall]. split; [done|]. by constructor.
Qed.

Lemma scan_fold_cons now c l acc :
  scan_fold now (c :: l) acc = scan_fold now l (scan_body now c acc).
Proof. reflexivity. Qed.

Lemma scan_body_expired now c w e r :
  is_expired (_queue_ttl_seconds (intake w)) now c = true →
  scan_body now c (w, e, r) = (expire c w, e, r).
Proof. unfold scan_body, is_expired. by intros ->. Qed.

Lemma scan_body_elect now c w r :
  is_expired (_queue_ttl_seconds (intake w)) now c = false →
  is_free (_active_services (intake w)) c = true →
  scan_body now c (w, None, r)
    = (upd_telemetry (add_intake_queue_depth_updown (-1)) w, Some c, r).
Proof. unfold scan_body, is_expired, is_free. by intros -> ->. Qed.

Lemma scan_body_keep now c w e r :
  is_expired (_queue_ttl_seconds (intake w)) now c = false →
  is_Some e ∨ is_free (_active_services (intake w)) c = false →
  scan_body now c (w, e, r) = (w, e, r ++ [c]).
Proof.
  unfold scan_body, is_expired, is_free. intros -> [[x ->]| ->]; [done|].
  by rewrite andb_false_r.
Qed.

Lemma expired_of_cons ttl now c l :
  expired_of ttl now (c :: l) =
    if is_expired ttl now c then c :: expired_of ttl now l else expired_of ttl now l.
Proof.
  unfold expired_of. rewrite filter_cons.
  destruct (is_expired ttl now c); by case_decide.
Qed.

Lemma fresh_of_cons ttl now c l :
  fresh_of ttl now (c :: l) =
    if is_expired ttl now c then fresh_of ttl now l else c :: fresh_of ttl now l.
Proof.
  unfold fresh_of. rewrite filter_cons.
  destruct (is_expired ttl now c); case_decide; naive_solver.
Qed.

Lemma scan_fold_spec now l : ∀ w e r,
  let ttl := _queue_ttl_seconds (intake w) in
  let act := _active_services (intake w) in
  let exp := expired_of ttl now l in
  let fresh := fresh_of ttl now l in
  let el := elect act fresh in
  ∃ w', scan_fold now l (w, e, r)
          = (w', from_option Some el.1 e,
             r ++ (if e is Some _ then fresh else el.2)) ∧
    intake w' = set_known_incidents
                  (_known_incidents (intake w) ∖ list_to_set (queue_ids exp)) (intake w) ∧
    state w' = set_alerts_expired
                  (alerts_expired (state w) + Z.of_nat (length exp)) (state w) ∧
    telemetry w' = add_intake_queue_depth_updown
                    (- Z.of_nat (length exp)
                       - (if e is Some _ then 0 else if el.1 is Some _ then 1 else 0))
                    (add_alerts_expired_counter (Z.of_nat (length exp)) (telemetry w)).
Proof.
  induction l as [|c l IH]; intros w e r; cbv zeta.
  - exists w. unfold scan_fold. simpl. split_and!.
    + destruct e; simpl; by rewrite app_nil_r.
    + destruct w as [[] ? ?]; simpl. unfold set_known_incidents; simpl. f_equal. set_solver.
    + destruct w as [? [] ?]; simpl. unfold set_alerts_expired; simpl. f_equal. lia.
    + destruct w as [? ? []]; simpl. unfold add_intake_queue_depth_updown,
        add_alerts_expired_counter; simpl. destruct e; f_equal; lia.
  - rewrite scan_fold_cons.
    destruct (is_expired (_queue_ttl_seconds (intake w)) now c) eqn:Hexp.
    + rewrite scan_body_expired by done.
      rewrite expired_of_cons, fresh_of_cons, Hexp.
      destruct (IH (expire c w) e r) as (w' & Hrun & Hi & Hs & Ht).
      simpl in *. exists w'.
      split_and!.
      * exact Hrun.
      * rewrite Hi. destruct w as [[] ? ?]; simpl. unfold set_known_incidents; simpl.
        f_equal. set_solver.
      * rewrite Hs. destruct w as [? [] ?]; simpl. unfold set_alerts_expired; simpl.
        f_equal. lia.
      * rewrite Ht. destruct w as [? ? []]; simpl.
        unfold add_intake_queue_depth_updown, add_alerts_expired_counter; simpl.
        f_equal; lia.
    + rewrite expired_of_cons, fresh_of_cons, Hexp.
      destruct e as [x|]; simpl.
      * rewrite scan_body_keep by eauto.
        destruct (IH w (Some x) (r ++ [c])) as (w' & Hrun & Hi & Hs & Ht).
        simpl in *. exists w'.
        split_and!; [|done..]. rewrite Hrun. by rewrite <-app_assoc.
      * destruct (is_free (_active_services (intake w)) c) eqn:Hfree; simpl.
        -- rewrite scan_body_elect by done.
           destruct (IH (upd_telemetry (add_intake_queue_depth_updown (-1)) w) (Some c) r)
             as (w' & Hrun & Hi & Hs & Ht).
           simpl in *. exists w'.
           split_and!; [done..|].
           rewrite Ht. destruct w as [? ? []]; simpl.
           unfold add_intake_queue_depth_updown, add_alerts_expired_counter; simpl.
           f_equal; lia.
        -- rewrite scan_body_keep by eauto.
           destruct (IH w None (r ++ [c])) as (w' & Hrun & Hi & Hs & Ht).
           simpl in *. exists w'.
           destruct (elect _ _) as [e1 r1]. simpl in *.
           split_and!; [|done..]. rewrite Hrun. by rewrite <-app_assoc.
Qed.

Lemma _dispatch_next_idle now started w :
  _queue (intake w) = [] ∨ _max_concurrent (intake w) ≤ _active_count (intake w) →
  _dispatch_next now started w = Some w.
Proof.
  unfold _dispatch_next. intros [->|H]; [done|].
  destruct (_queue (intake w)); [done|].
  by rewrite (proj2 (Z.leb_le _ _) H).
Qed.

Lemma _dispatch_next_scan now started w :
  _queue (intake w) ≠ [] →
  _active_count (intake w) < _max_concurrent (intake w) →
  _dispatch_next now started w =
    '(w, eligible, remaining) ← scan_loop (length (_queue (intake w))) now (w, None, []);
    q ← Heapq.heapify QueuedAlert_lt remaining;
    let w := upd_intake (set_queue q) w in
    match eligible with
    | Some e => Some (dispatch (alert e) (trace_id e) started w)
    | None => Some w
    end.
Proof.
  intros Hne Hcap. unfold _dispatch_next.
  destruct (_queue (intake w)); [done|].
  by rewrite (proj2 (Z.leb_gt _ _) Hcap).
Qed.

Lemma _dispatch_next_spec now started w :
  heap_okQ (_queue (intake w)) →
  _queue (intake w) ≠ [] →
  _active_count (intake w) < _max_concurrent (intake w) →
  let ttl := _queue_ttl_seconds (intake w) in
  let act := _active_services (intake w) in
  ∃ l w1 q,
    drain QueuedAlert_lt (length (_queue (intake w))) (_queue (intake w)) = Some l ∧
    l ≡ₚ _queue (intake w) ∧ StronglySorted (le QueuedAlert_lt) l ∧
    _dispatch_next now started w =
      Some (match (elect act (fresh_of ttl now l)).1 with
            | Some e => dispatch (alert e) (trace_id e) started w1
            | None => w1
            end) ∧
    intake w1 = set_queue q (set_known_incidents
                  (_known_incidents (intake w)
                     ∖ list_to_set (queue_ids (expired_of ttl now l))) (intake w)) ∧
    state w1 = set_alerts_expired
                  (alerts_expired (state w) + Z.of_nat (length (expired_of ttl now l)))
                  (state w) ∧
    telemetry w1 = add_intake_queue_depth_updown
                    (- Z.of_nat (length (expired_of ttl now l))
                       - (if (elect act (fresh_of ttl now l)).1 is Some _ then 1 else 0))
                    (add_alerts_expired_counter
                       (Z.of_nat (length (expired_of ttl now l))) (telemetry w)) ∧
    q ≡ₚ (elect act (fresh_of ttl now l)).2 ∧ heap_okQ q.
Proof.
  intros Hok Hne Hcap ttl act.
  destruct (drain_spec QueuedAlert_lt QueuedAlert_lt_asym QueuedAlert_le_trans
              (length (_queue (intake w))) (_queue (intake w)) Hok ltac:(lia))
    as (l & Hdrain & Hperm & Hsorted).
  destruct (scan_fold_spec now l (upd_intake (set_queue []) w) None [])
    as (w' & Hfold & Hi & Hs & Ht).
  simpl in Hfold, Hi, Hs, Ht. fold ttl act in Hfold, Hi, Hs, Ht.
  destruct (heapify_spec QueuedAlert_lt QueuedAlert_lt_asym QueuedAlert_le_trans
              (elect act (fresh_of ttl now l)).2) as (q & Hq & Hqok & Hqperm).
  exists l, (upd_intake (set_queue q) w'), q.
  split_and!; try done.
  - rewrite _dispatch_next_scan by done.
    rewrite (scan_loop_drain _ now w None [] l Hdrain), Hfold.
    simpl. rewrite Hq. simpl. by destruct (elect act (fresh_of ttl now l)).1.
  - simpl. rewrite Hi. by destruct w as [[] ? ?].
Qed.

(** ** The four outcomes of [submit] *)

Lemma submit_rejected a t now w :
  _shutting_down (intake w) = true → submit a t now w = Some ("rejected"%string, w).
Proof. unfold submit. by intros ->. Qed.

Lemma submit_deduplicated a t now w :
  _shutting_down (intake w) = false →
  incident_id a ∈ _known_incidents (intake w) →
  submit a t now w =
    Some ("deduplicated"%string,
          upd_telemetry (add_alerts_deduplicated_counter 1)
            (upd_state (λ s, set_alerts_deduplicated (alerts_deduplicated s + 1) s) w)).
Proof. unfold submit. intros -> Hin. by rewrite bool_decide_eq_true_2. Qed.

Lemma submit_dispatched a t now w :
  _shutting_down (intake w) = false →
  incident_id a ∉ _known_incidents (intake w) →
  service_name a ∉ dom (_active_services (intake w)) →
  _active_count (intake w) < _max_concurrent (intake w) →
  submit a t now w =
    Some ("dispatched"%string,
          dispatch a t now
            (upd_intake (λ self, set_known_incidents
               ({[incident_id a]} ∪ _known_incidents self) self) w)).
Proof.
  unfold submit. intros -> Hid Hsvc Hcap. rewrite bool_decide_eq_false_2 by done.
  simpl. rewrite bool_decide_eq_true_2 by done.
  by rewrite (proj2 (Z.ltb_lt _ _) Hcap).
Qed.

Lemma submit_queued a t now w :
  _shutting_down (intake w) = false →
  incident_id a ∉ _known_incidents (intake w) →
  service_name a ∈ dom (_active_services (intake w))
    ∨ _max_concurrent (intake w) ≤ _active_count (intake w) →
  heap_okQ (_queue (intake w)) →
  ∃ q, q ≡ₚ queued_of a t now :: _queue (intake w) ∧ heap_okQ q ∧
    submit a t now w =
      Some ("queued"%string,
            upd_telemetry (add_intake_queue_depth_updown 1)
              (upd_telemetry (add_alerts_queued_counter 1)
                (upd_state (λ s, set_alerts_queued (alerts_queued s + 1) s)
                  (upd_intake (set_queue q)
                    (upd_intake (λ self, set_known_incidents
                       ({[incident_id a]} ∪ _known_incidents self) self) w))))).
Proof.
  intros Hsd Hid Hbusy Hok.
  destruct (heappush_spec QueuedAlert_lt QueuedAlert_lt_asym QueuedAlert_le_trans
              (_queue (intake w)) (queued_of a t now) Hok) as (q & Hq & Hqok & Hperm).
  exists q. split_and!; [done..|].
  unfold submit. rewrite Hsd. rewrite bool_decide_eq_false_2 by done. simpl.
  assert (bool_decide (service_name a ∉ dom (_active_services (intake w)))
          && (_active_count (intake w) <? _max_concurrent (intake w)) = false) as ->.
  { destruct Hbusy as [H|H].
    - rewrite bool_decide_eq_false_2; [done|]. by intros Hn.
    - rewrite (proj2 (Z.ltb_ge _ _) H). apply andb_false_r. }
  fold (queued_of a t now). by rewrite Hq.
Qed.

(** ** The invariant *)

Lemma Inv_init max ttl : 0 ≤ max → Inv (World_init max ttl).
Proof.
  intros Hmax. split; [|done].
  constructor; simpl; try done; try constructor.
Qed.

Lemma task_entries_fst ts : (task_entries ts).*1 = (λ t, service_name t.1) <$> ts.
Proof. unfold task_entries. by rewrite <-list_fmap_compose. Qed.

Lemma IntakeInv_dispatch i a t :
  IntakeInv i →
  incident_id a ∉ _known_incidents i →
  service_name a ∉ dom (_active_services i) →
  _active_count i < _max_concurrent i →
  IntakeInv
    (set_tasks (_tasks i ++ [(a, t)])
      (set_active_services (<[service_name a := incident_id a]> (_active_services i))
        (set_active_count (_active_count i + 1)
          (set_known_incidents ({[incident_id a]} ∪ _known_incidents i) i)))).
Proof.
  intros [] Hid Hsvc Hcap.
  assert (service_name a ∉ (task_entries (_tasks i)).*1) as Hsvc'.
  { rewrite inv_services0, dom_list_to_map_L in Hsvc.
    by rewrite elem_of_list_to_set in Hsvc. }
  assert (incident_id a ∉ task_ids (_tasks i) ++ queue_ids (_queue i)) as Hid'.
  { rewrite inv_known0 in Hid. by rewrite elem_of_list_to_set in Hid. }
  assert (task_entries (_tasks i ++ [(a, t)])
          ≡ₚ (service_name a, incident_id a) :: task_entries (_tasks i)) as Hent.
  { unfold task_entries. rewrite fmap_app. simpl. by rewrite Permutation_app_comm. }
  assert (task_ids (_tasks i ++ [(a, t)]) ++ queue_ids (_queue i)
          ≡ₚ incident_id a :: task_ids (_tasks i) ++ queue_ids (_queue i)) as Hids.
  { unfold task_ids. rewrite fmap_app. simpl.
    rewrite <-app_assoc. simpl. by rewrite <-Permutation_middle. }
  constructor; simpl.
  - done.
  - rewrite length_app. simpl. lia.
  - lia.
  - rewrite inv_services0.
    assert (NoDup (task_entries (_tasks i ++ [(a, t)])).*1) as Hnd.
    { rewrite Hent. simpl. by constructor. }
    by rewrite (list_to_map_proper _ _ Hnd Hent).
  - rewrite Hent. simpl. by constructor.
  - rewrite Hids, inv_known0. simpl. done.
  - rewrite Hids. by constructor.
  - eapply Forall_impl; [exact inv_blocked0|]. simpl.
    intros q [H|H]; [left|right; lia]. rewrite dom_insert_L. set_solver.
  - done.
Qed.

Lemma IntakeInv_enqueue i a q :
  IntakeInv i →
  _shutting_down i = false →
  incident_id (alert a) ∉ _known_incidents i →
  service_name (alert a) ∈ dom (_active_services i)
    ∨ _max_concurrent i ≤ _active_count i →
  q ≡ₚ a :: _queue i → heap_okQ q →
  IntakeInv
    (set_queue q (set_known_incidents ({[incident_id (alert a)]} ∪ _known_incidents i) i)).
Proof.
  intros [] Hsd Hid Hbusy Hperm Hok.
  assert (incident_id (alert a) ∉ task_ids (_tasks i) ++ queue_ids (_queue i)) as Hid'.
  { rewrite inv_known0 in Hid. by rewrite elem_of_list_to_set in Hid. }
  assert (task_ids (_tasks i) ++ queue_ids q
          ≡ₚ incident_id (alert a) :: task_ids (_tasks i) ++ queue_ids (_queue i)) as Hids.
  { unfold queue_ids. rewrite Hperm. simpl. by rewrite <-Permutation_middle. }
  constructor; simpl; try done.
  - rewrite Hids, inv_known0. done.
  - rewrite Hids. by constructor.
  - rewrite Hperm. by constructor.
  - by rewrite Hsd.
Qed.

Lemma shutdown_fold (q : list QueuedAlert) : ∀ w,
  let w' := foldl discard_queued w q in
  intake w' = set_known_incidents
                (_known_incidents (intake w) ∖ list_to_set (queue_ids q)) (intake w) ∧
  state w' = state w ∧
  telemetry w' = add_intake_queue_depth_updown (- Z.of_nat (length q)) (telemetry w).
Proof.
  induction q as [|c q IH]; intros w; cbv zeta.
  - simpl. split_and!; [|done|].
    + destruct w as [[] ? ?]; simpl. unfold set_known_incidents; simpl. f_equal. set_solver.
    + destruct w as [? ? []]; simpl. unfold add_intake_queue_depth_updown; simpl.
      f_equal. lia.
  - cbn [foldl]. destruct (IH (discard_queued w c)) as (Hi & Hs & Ht).
    rewrite Hi, Hs, Ht. unfold discard_queued. split_and!; [|done|].
    + destruct w as [[] ? ?]; simpl. unfold set_known_incidents; simpl. f_equal. set_solver.
    + destruct w as [? ? []]; simpl. unfold add_intake_queue_depth_updown; simpl.
      f_equal. lia.
Qed.

Lemma shutdown_spec w :
  intake (shutdown w) =
    set_queue [] (set_known_incidents
      (_known_incidents (intake w) ∖ list_to_set (queue_ids (_queue (intake w))))
      (set_shutting_down true (intake w))) ∧
  state (shutdown w) = state w ∧
  telemetry (shutdown w) =
    add_intake_queue_depth_updown (- Z.of_nat (length (_queue (intake w)))) (telemetry w).
Proof.
  unfold shutdown.
  destruct (shutdown_fold (_queue (intake (upd_intake (set_shutting_down true) w)))
              (upd_intake (set_shutting_down true) w)) as (Hi & Hs & Ht).
  simpl in *. by rewrite Hi, Hs, Ht.
Qed.

Lemma NoDup_app_difference (T Q : list string) :
  NoDup (T ++ Q) →
  (list_to_set (T ++ Q) : gset string) ∖ list_to_set Q = list_to_set T.
Proof.
  intros (_ & Hdisj & _)%NoDup_app. apply set_eq. intros x.
  rewrite elem_of_difference, !elem_of_list_to_set, elem_of_app. naive_solver.
Qed.

Lemma IntakeInv_shutdown i :
  IntakeInv i →
  IntakeInv
    (set_queue [] (set_known_incidents
      (_known_incidents i ∖ list_to_set (queue_ids (_queue i)))
      (set_shutting_down true i))).
Proof.
  intros []. constructor; simpl; try done.
  - rewrite inv_known0, app_nil_r. by apply NoDup_app_difference.
  - rewrite app_nil_r. by apply NoDup_app in inv_nodup_ids0 as (? & _).
Qed.

(** The invariant may be established on representatives of the task
    set and of the queue contents. *)
Lemma IntakeInv_intro i (Ts : list Task) (Qs : list QueuedAlert) :
  heap_okQ (_queue i) → _queue i ≡ₚ Qs → _tasks i ≡ₚ Ts →
  _active_count i = Z.of_nat (length Ts) →
  _active_count i ≤ _max_concurrent i →
  _active_services i = list_to_map (task_entries Ts) →
  NoDup (task_entries Ts).*1 →
  _known_incidents i = list_to_set (task_ids Ts ++ queue_ids Qs) →
  NoDup (task_ids Ts ++ queue_ids Qs) →
  Forall (λ q, service_name (alert q) ∈ dom (_active_services i)
               ∨ _max_concurrent i ≤ _active_count i) Qs →
  (_shutting_down i = true → Qs = []) →
  IntakeInv i.
Proof.
  intros Hheap HQ HT Hcount Hcap Hsvc Hnd Hknown Hndi Hblocked Hsd.
  assert (task_entries (_tasks i) ≡ₚ task_entries Ts) as HE
    by (unfold task_entries; by rewrite HT).
  assert (task_ids (_tasks i) ++ queue_ids (_queue i) ≡ₚ task_ids Ts ++ queue_ids Qs) as HI
    by (unfold task_ids, queue_ids; by rewrite HT, HQ).
  constructor; try done.
  - by rewrite HT.
  - rewrite Hsvc. symmetry. apply list_to_map_proper; [|done]. by rewrite HE.
  - by rewrite HE.
  - by rewrite HI.
  - by rewrite HI.
  - by rewrite HQ.
  - intros H. specialize (Hsd H). subst Qs. by apply Permutation_nil_r in HQ.
Qed.

Lemma delete_list_to_map_head (k v : string) (l : list (string * string)) :
  k ∉ l.*1 →
  delete k (list_to_map ((k, v) :: l) : gmap string string) = list_to_map l.
Proof.
  intros Hk. simpl. rewrite delete_insert_eq. apply delete_id.
  by apply not_elem_of_list_to_map_1.
Qed.

Lemma _run_wrapper_exit_Inv k a tr now started w :
  Inv w → _tasks (intake w) !! k = Some (a, tr) →
  ∃ w', _run_wrapper_exit k now started w = Some w' ∧ Inv w'.
Proof.
  intros [Hi Hg] Hk. destruct Hi.
  set (i := intake w) in *.
  set (rest := delete k (_tasks i)).
  assert (_tasks i ≡ₚ (a, tr) :: rest) as Htasks by by apply delete_Permutation.
  assert (_active_count i = Z.of_nat (S (length rest))) as Hcount.
  { rewrite inv_count0. by rewrite Htasks. }
  assert (task_entries (_tasks i)
            ≡ₚ (service_name a, incident_id a) :: task_entries rest) as HE
    by (unfold task_entries; by rewrite Htasks).
  assert (NoDup (service_name a :: (task_entries rest).*1)) as Hnds.
  { by rewrite HE in inv_nodup_services0. }
  apply NoDup_cons in Hnds as [Hsvc_a Hnds].
  assert (delete (service_name a) (_active_services i)
            = list_to_map (task_entries rest)) as Hact.
  { rewrite inv_services0.
    rewrite (list_to_map_proper _ _ inv_nodup_services0 HE).
    by apply delete_list_to_map_head. }
  assert (task_ids (_tasks i) ++ queue_ids (_queue i)
            ≡ₚ incident_id a :: task_ids rest ++ queue_ids (_queue i)) as HI
    by (unfold task_ids; by rewrite Htasks).
  assert (NoDup (incident_id a :: task_ids rest ++ queue_ids (_queue i))) as Hndi
    by by rewrite <-HI.
  apply NoDup_cons in Hndi as [Hid_a Hndi].
  assert (_known_incidents i ∖ {[incident_id a]}
            = list_to_set (task_ids rest ++ queue_ids (_queue i))) as Hknown.
  { rewrite inv_known0. rewrite (list_to_set_perm_L _ _ HI). simpl.
    apply set_eq. intros x. rewrite elem_of_difference, elem_of_union,
      elem_of_singleton, elem_of_list_to_set. naive_solver. }
  unfold _run_wrapper_exit. fold i. rewrite Hk. simpl. unfold _on_complete.
  set (w1 := upd_intake _ (upd_intake _ (upd_intake _ w))).
  assert (intake w1 = set_active_services (delete (service_name a) (_active_services i))
            (set_known_incidents (_known_incidents i ∖ {[incident_id a]})
              (set_active_count (_active_count i - 1) i))) as Hw1 by done.
  assert (telemetry w1 = telemetry w) as Hw1t by done.
  clearbody w1.
  destruct (_shutting_down (intake w1)) eqn:Hsd.
  { (* shutting down: no dispatch *)
    simpl. eexists; split; [done|].
    rewrite Hw1 in Hsd. simpl in Hsd. specialize (inv_shutdown0 Hsd).
    split; simpl; rewrite ?Hw1, ?Hw1t; simpl.
    - apply (IntakeInv_intro _ rest []); simpl.
      + rewrite inv_shutdown0. apply heap_ok_nil.
      + by rewrite inv_shutdown0.
      + done.
      + lia.
      + lia.
      + done.
      + done.
      + by rewrite Hknown, inv_shutdown0.
      + by rewrite inv_shutdown0 in Hndi.
      + constructor.
      + done.
    - by rewrite Hg, inv_shutdown0. }
  simpl.
  destruct (decide (_queue i = [])) as [Hq|Hq].
  { (* nothing queued *)
    rewrite _dispatch_next_idle by (left; by rewrite Hw1).
    simpl. eexists; split; [done|].
    split; simpl; rewrite ?Hw1, ?Hw1t; simpl.
    - apply (IntakeInv_intro _ rest []); simpl.
      + rewrite Hq. apply heap_ok_nil.
      + by rewrite Hq.
      + done.
      + lia.
      + lia.
      + done.
      + done.
      + by rewrite Hknown, Hq.
      + by rewrite Hq in Hndi.
      + constructor.
      + done.
    - by rewrite Hg, Hq. }
  destruct (_dispatch_next_spec now started w1) as
    (l & w2 & q & Hdrain & Hl & Hsorted & -> & Hi2 & Hs2 & Ht2 & Hqperm & Hqok).
  { by rewrite Hw1. } { by rewrite Hw1. } { rewrite Hw1. simpl. lia. }
  rewrite Hw1 in Hl, Hi2, Hqperm, Hsd. rewrite Hw1t in Ht2.
  simpl in Hl, Hi2, Ht2, Hqperm, Hsd.
  rewrite Hw1 in Ht2. simpl in Ht2. clear Hdrain.
  rewrite Hw1. simpl.
  set (ttl := _queue_ttl_seconds i) in *.
  set (act := delete (service_name a) (_active_services i)) in *.
  pose proof (filter_app_complement (λ c, is_expired ttl now c) l) as Hpart.
  fold (expired_of ttl now l) (fresh_of ttl now l) in Hpart.
  assert (queue_ids (_queue i)
            ≡ₚ queue_ids (expired_of ttl now l) ++ queue_ids (fresh_of ttl now l)) as HQ.
  { unfold queue_ids. rewrite <-fmap_app, Hpart. by rewrite Hl. }
  assert (_known_incidents i ∖ {[incident_id a]}
            ∖ list_to_set (queue_ids (expired_of ttl now l))
          = list_to_set (task_ids rest ++ queue_ids (fresh_of ttl now l))) as Hknown2.
  { rewrite Hknown. rewrite HQ in Hndi.
    rewrite (list_to_set_perm_L _ (task_ids rest ++
               queue_ids (expired_of ttl now l) ++ queue_ids (fresh_of ttl now l)))
      by by rewrite HQ.
    apply NoDup_app in Hndi as (_ & Hd1 & Hndi).
    apply NoDup_app in Hndi as (_ & Hd2 & _).
    apply set_eq. intros x. rewrite elem_of_difference, !elem_of_list_to_set, !elem_of_app.
    split; [naive_solver|]. intros [Hx|Hx]; (split; [naive_solver|]).
    - intros Hx'. eapply Hd1; [done|]. apply elem_of_app; by left.
    - intros Hx'. by eapply Hd2. }
  assert (NoDup (task_ids rest ++ queue_ids (fresh_of ttl now l))) as Hndf.
  { rewrite HQ in Hndi. rewrite (Permutation_app_comm (queue_ids (expired_of _ _ _))) in Hndi.
    rewrite app_assoc in Hndi. by apply NoDup_app in Hndi as (? & _). }
  assert (Z.of_nat (length (_queue i))
            = Z.of_nat (length (expired_of ttl now l))
              + Z.of_nat (length (fresh_of ttl now l))) as Hlen.
  { rewrite <-Hl, <-Nat2Z.inj_add, <-length_app. by rewrite Hpart. }
  assert (Forall (λ c, c ∈ _queue i) (fresh_of ttl now l)) as Hsub.
  { apply Forall_forall. intros c Hc. rewrite <-Hl.
    by apply list_elem_of_filter in Hc as [_ ?]. }
  destruct (elect act (fresh_of ttl now l)) as [[x|] r] eqn:Hel; simpl in *.
  - (* an alert is elected *)
    apply elect_Some in Hel as (Hfree & Hfresh & _).
    eexists; split; [done|].
    assert (x ∈ _queue i) as Hx.
    { rewrite Forall_forall in Hsub. apply Hsub. rewrite Hfresh. by left. }
    assert (service_name (alert x) ∉ (task_entries rest).*1) as Hsvc_x.
    { unfold is_free in Hfree. apply bool_decide_eq_true_1 in Hfree.
      unfold act in *. rewrite Hact, dom_list_to_map_L in Hfree.
      by rewrite elem_of_list_to_set in Hfree. }
    assert (delete k (_tasks i ++ [(alert x, trace_id x)])
              ≡ₚ (alert x, trace_id x) :: rest) as Hfinal.
    { apply (Permutation_cons_inv (a := (a, tr))).
      rewrite <-(delete_Permutation _ k (a, tr)) by by apply lookup_app_l_Some.
      rewrite Htasks. rewrite <-Permutation_middle, app_nil_r. apply perm_swap. }
    assert (queue_ids (fresh_of ttl now l)
              ≡ₚ incident_id (alert x) :: queue_ids r) as Hqf
      by (unfold queue_ids; by rewrite Hfresh).
    split; simpl; rewrite ?Hi2, ?Ht2; simpl.
    + apply (IntakeInv_intro _ ((alert x, trace_id x) :: rest) r); simpl.
      * done.
      * done.
      * done.
      * lia.
      * lia.
      * by rewrite Hact.
      * by constructor.
      * rewrite Hknown2. apply set_eq. intros y.
        rewrite elem_of_union, elem_of_singleton, !elem_of_list_to_set, !elem_of_app.
        rewrite Hqf, elem_of_cons. clear. tauto.
      * rewrite Hqf in Hndf. by rewrite <-Permutation_middle in Hndf.
      * apply Forall_forall. intros c Hc.
        destruct (decide (_max_concurrent i ≤ _active_count i)) as [Hfull|Hroom];
          [right; lia|left].
        assert (∀ c', c' ∈ _queue i →
                  service_name (alert c') ∈ dom (_active_services i)) as Hbusy.
        { intros c' Hc'. rewrite Forall_forall in inv_blocked0.
          destruct (inv_blocked0 c' Hc'); [done|lia]. }
        assert (service_name (alert x) = service_name a) as Heq.
        { unfold is_free in Hfree. apply bool_decide_eq_true_1 in Hfree.
          unfold act in *. rewrite dom_delete_L in Hfree.
          specialize (Hbusy x Hx).
          rewrite elem_of_difference, elem_of_singleton in Hfree.
          destruct (decide (service_name (alert x) = service_name a)); [done|].
          exfalso. by apply Hfree. }
        rewrite dom_insert_L. unfold act in *. rewrite dom_delete_L, Heq.
        assert (c ∈ _queue i) as Hcq.
        { rewrite Forall_forall in Hsub. apply Hsub. rewrite Hfresh. by right. }
        specialize (Hbusy c Hcq).
        rewrite elem_of_union, elem_of_singleton, elem_of_difference, elem_of_singleton.
        destruct (decide (service_name (alert c) = service_name a)); [by left|by right].
      * by rewrite Hsd.
    + rewrite Hg, Hqperm. rewrite Hfresh in Hlen. simpl in Hlen. lia.
  - (* every candidate is expired or blocked *)
    apply elect_None in Hel as [-> Hbusy].
    eexists; split; [done|].
    split; simpl; rewrite ?Hi2, ?Ht2; simpl.
    + apply (IntakeInv_intro _ rest (fresh_of ttl now l)); simpl.
      * done.
      * done.
      * done.
      * lia.
      * lia.
      * done.
      * done.
      * done.
      * done.
      * eapply Forall_impl; [exact Hbusy|]. intros c Hc. left.
        unfold is_free in Hc. apply bool_decide_eq_false_1 in Hc.
        by apply dec_stable in Hc.
      * by rewrite Hsd.
    + rewrite Hg, Hqperm. lia.
Qed.

Lemma submit_Inv a t now w :
  Inv w → ∃ d w', submit a t now w = Some (d, w') ∧ Inv w'.
Proof.
  intros [Hi Hg].
  destruct (_shutting_down (intake w)) eqn:Hsd.
  { rewrite submit_rejected by done. by eexists _, _. }
  destruct (decide (incident_id a ∈ _known_incidents (intake w))) as [Hin|Hnin].
  { rewrite submit_deduplicated by done. by eexists _, _. }
  destruct (decide (service_name a ∈ dom (_active_services (intake w))
                    ∨ _max_concurrent (intake w) ≤ _active_count (intake w)))
    as [Hbusy|Hfree].
  - destruct (submit_queued a t now w Hsd Hnin Hbusy (inv_heap _ Hi))
      as (q & Hperm & Hok & ->).
    eexists _, _. split; [done|]. split; simpl.
    + by apply (IntakeInv_enqueue (intake w) (queued_of a t now) q).
    + rewrite Hg, Hperm. simpl. lia.
  - rewrite submit_dispatched; [|done|done|tauto|lia].
    eexists _, _. split; [done|]. split; simpl.
    + apply IntakeInv_dispatch; [done|done|tauto|lia].
    + done.
Qed.

Lemma shutdown_Inv w : Inv w → Inv (shutdown w).
Proof.
  intros [Hi Hg]. destruct (shutdown_spec w) as (Hi' & _ & Ht').
  split.
  - rewrite Hi'. by apply IntakeInv_shutdown.
  - rewrite Hi', Ht'. simpl. lia.
Qed.

Lemma step_Inv ev w d w' : Inv w → step ev w = Some (d, w') → Inv w'.
Proof.
  intros HI Hstep. destruct ev as [a t now|k now started|]; cbn [step] in Hstep.
  - destruct (submit_Inv a t now w HI) as (d0 & w0 & Hs & HI').
    rewrite Hs in Hstep. simpl in Hstep. by simplify_eq.
  - destruct (_tasks (intake w) !! k) as [[a tr]|] eqn:Hk.
    + destruct (_run_wrapper_exit_Inv k a tr now started w HI Hk) as (w0 & Hs & HI').
      rewrite Hs in Hstep. simpl in Hstep. by simplify_eq.
    + unfold _run_wrapper_exit in Hstep. by destruct (_tasks (intake w) !! k).
  - simplify_eq. by apply shutdown_Inv.
Qed.

Lemma reachable_Inv max ttl w : 1 ≤ max → reachable max ttl w → Inv w.
Proof.
  intros Hmax. induction 1 as [|w ev d w' _ IH Hstep|w st tel _ [Hi Hg] Htel].
  - apply Inv_init. lia.
  - by eapply step_Inv.
  - split; [done|]. simpl. by rewrite Htel.
Qed.

(** Every enabled step of a reachable world returns. *)
Lemma step_total max ttl w ev :
  1 ≤ max → reachable max ttl w →
  (∀ k now started, ev = Complete k now started → is_Some (_tasks (intake w) !! k)) →
  is_Some (step ev w).
Proof.
  intros Hmax Hr Hen. pose proof (reachable_Inv _ _ _ Hmax Hr) as HI.
  destruct ev as [a t now|k now started|]; simpl.
  - destruct (submit_Inv a t now w HI) as (d0 & w0 & -> & _). by eexists.
  - destruct (Hen k now started eq_refl) as [[a tr] Hk].
    destruct (_run_wrapper_exit_Inv k a tr now started w HI Hk) as (w0 & -> & _).
    by eexists.
  - by eexists.
Qed.

Lemma delete_app_l {A} (l1 l2 : list A) k :
  (k < length l1)%nat → delete k (l1 ++ l2) = delete k l1 ++ l2.
Proof.
  revert k. induction l1 as [|x l1 IH]; intros k Hk; simpl in *; [lia|].
  destruct k; [done|]. simpl. f_equal. apply IH. lia.
Qed.

Lemma fresh_of_sorted ttl now l :
  StronglySorted (le QueuedAlert_lt) l →
  StronglySorted (le QueuedAlert_lt) (fresh_of ttl now l).
Proof.
  induction 1 as [|c l _ IH Hc]; [constructor|].
  rewrite fresh_of_cons. destruct (is_expired ttl now c); [done|].
  constructor; [done|]. apply Forall_forall. intros y Hy.
  apply list_elem_of_filter in Hy as [_ Hy]. rewrite Forall_forall in Hc. by apply Hc.
Qed.

(** What the end of a run does to the world. [l] is the order in which
    the scan pops the queue. *)
Lemma _run_wrapper_exit_effect k a tr now started w :
  Inv w → _tasks (intake w) !! k = Some (a, tr) →
  let i := intake w in
  let act := delete (service_name a) (_active_services i) in
  let known := _known_incidents i ∖ {[incident_id a]} in
  let ttl := _queue_ttl_seconds i in
  ∃ l w',
    _run_wrapper_exit k now started w = Some w' ∧
    l ≡ₚ _queue i ∧ StronglySorted (le QueuedAlert_lt) l ∧
    _max_concurrent (intake w') = _max_concurrent i ∧
    _queue_ttl_seconds (intake w') = ttl ∧
    _shutting_down (intake w') = _shutting_down i ∧
    if _shutting_down i then
      intake w' = set_tasks (delete k (_tasks i))
                    (set_active_services act
                      (set_known_incidents known
                        (set_active_count (_active_count i - 1) i))) ∧
      state w' = state w ∧ telemetry w' = telemetry w
    else
      let exp := expired_of ttl now l in
      let el := elect act (fresh_of ttl now l) in
      _known_incidents (intake w') = known ∖ list_to_set (queue_ids exp) ∧
      _queue (intake w') ≡ₚ el.2 ∧
      alerts_expired (state w') = alerts_expired (state w) + Z.of_nat (length exp) ∧
      alerts_expired_counter (telemetry w')
        = alerts_expired_counter (telemetry w) + Z.of_nat (length exp) ∧
      intake_queue_depth_updown (telemetry w')
        = intake_queue_depth_updown (telemetry w) - Z.of_nat (length exp)
          - (if el.1 is Some _ then 1 else 0) ∧
      match el.1 with
      | Some x =>
          _tasks (intake w') = delete k (_tasks i) ++ [(alert x, trace_id x)] ∧
          _active_count (intake w') = _active_count i ∧
          _active_services (intake w')
            = <[service_name (alert x) := incident_id (alert x)]> act
      | None =>
          _tasks (intake w') = delete k (_tasks i) ∧
          _active_count (intake w') = _active_count i - 1 ∧
          _active_services (intake w') = act
      end.
Proof.
  intros [Hi Hg] Hk i act known ttl. destruct Hi. fold i in inv_heap0, inv_cap0.
  unfold _run_wrapper_exit. rewrite Hk. simpl. unfold _on_complete. fold i in Hk.
  set (w1 := upd_intake _ (upd_intake _ (upd_intake _ w))).
  assert (intake w1 = set_active_services act
            (set_known_incidents known (set_active_count (_active_count i - 1) i)))
    as Hw1 by done.
  assert (telemetry w1 = telemetry w) as Hw1t by done.
  assert (state w1 = state w) as Hw1s by done.
  clearbody w1.
  destruct (drain_spec QueuedAlert_lt QueuedAlert_lt_asym QueuedAlert_le_trans
              (length (_queue i)) (_queue i) inv_heap0 ltac:(lia))
    as (l & Hdrain & Hperm & Hsorted).
  destruct (_shutting_down i) eqn:Hsd.
  { assert (_shutting_down (intake w1) = true) as -> by by rewrite Hw1.
    simpl. exists l. eexists. split; [done|]. simpl. rewrite Hw1. simpl.
    by split_and!. }
  assert (_shutting_down (intake w1) = false) as -> by by rewrite Hw1.
  simpl.
  destruct (decide (_queue i = [])) as [Hq|Hq].
  { rewrite _dispatch_next_idle by (left; by rewrite Hw1).
    simpl. exists l. eexists. split; [done|]. simpl. rewrite Hw1, Hw1s, Hw1t. simpl.
    rewrite Hq in Hperm. apply Permutation_nil_r in Hperm. subst l. simpl.
    split_and!; try done; try lia; try by rewrite Hq.
    unfold queue_ids. simpl. by rewrite difference_empty_L. }
  destruct (_dispatch_next_spec now started w1) as
    (l' & w2 & q & Hdrain' & Hl & _ & -> & Hi2 & Hs2 & Ht2 & Hqperm & Hqok).
  { by rewrite Hw1. } { by rewrite Hw1. } { rewrite Hw1. simpl. lia. }
  rewrite Hw1 in Hdrain', Hi2, Hs2, Hqperm. simpl in Hdrain', Hi2, Hs2, Hqperm.
  rewrite Hdrain in Hdrain'. simplify_eq.
  rewrite Hw1 in Ht2. simpl in Ht2. rewrite Hw1s in Hs2. rewrite Hw1t in Ht2.
  rewrite Hw1. simpl. fold ttl in Hi2, Hs2, Ht2, Hqperm |- *.
  assert ((k < length (_tasks i))%nat) as Hklen by by eapply lookup_lt_Some.
  exists l'.
  destruct (elect act (fresh_of ttl now l')) as [[x|] r]; simpl in *.
  - eexists. split; [done|]. simpl. rewrite Hi2, Hs2, Ht2. simpl.
    split_and!; try done; try lia.
    by apply delete_app_l.
  - eexists. split; [done|]. simpl. rewrite Hi2, Hs2, Ht2. simpl.
    split_and!; try done; lia.
Qed.
End IntakeFacts.

(** * The intake: deduplication, serialization, ordering, expiry and
    shutdown *)
Module IntakeClaims.
Import Models State Telemetry Intake IntakeSpec HeapqSpec HeapqFacts IntakeFacts Examples.

Lemma run_reachable max ttl evs : ∀ w ds w',
  reachable max ttl w → run evs w = Some (ds, w') → reachable max ttl w'.
Proof.
  induction evs as [|ev evs IH]; intros w ds w' Hr Hrun; simpl in Hrun.
  - by simplify_eq.
  - destruct (step ev w) as [[d w1]|] eqn:Hstep; [|done]. simpl in Hrun.
    destruct (run evs w1) as [[ds1 w2]|] eqn:Hrest; [|done]. simpl in Hrun.
    simplify_eq. eapply IH; [|done]. by eapply reachable_step.
Qed.

Lemma submit_inv_fields a t now w d w' :
  Inv w → submit a t now w = Some (d, w') →
  _max_concurrent (intake w') = _max_concurrent (intake w) ∧
  _queue_ttl_seconds (intake w') = _queue_ttl_seconds (intake w) ∧
  _shutting_down (intake w') = _shutting_down (intake w) ∧
  Forall (λ q, q ∈ queued_of a t now :: _queue (intake w)) (_queue (intake w')).
Proof.
  intros [Hi Hg] Hs.
  destruct (_shutting_down (intake w)) eqn:Hsd.
  { rewrite submit_rejected in Hs by done. simplify_eq. rewrite Hsd. split_and!; try done.
    apply Forall_forall. intros q Hq. by right. }
  destruct (decide (incident_id a ∈ _known_incidents (intake w))) as [Hin|Hnin].
  { rewrite submit_deduplicated in Hs by done. simplify_eq. simpl. split_and!; try done.
    apply Forall_forall. intros q Hq. by right. }
  destruct (decide (service_name a ∈ dom (_active_services (intake w))
                    ∨ _max_concurrent (intake w) ≤ _active_count (intake w)))
    as [Hbusy|Hfree].
  - destruct (submit_queued a t now w Hsd Hnin Hbusy (inv_heap _ Hi))
      as (q & Hperm & Hok & Hs').
    rewrite Hs' in Hs. simplify_eq. simpl. split_and!; try done.
    apply Forall_forall. intros c Hc. by rewrite <-Hperm.
  - rewrite submit_dispatched in Hs; [|done|done|tauto|lia].
    simplify_eq. simpl. split_and!; try done.
    apply Forall_forall. intros q Hq. by right.
Qed.

Lemma elect_subset act l :
  Forall (λ c, c ∈ l) (elect act l).2.
Proof.
  destruct (elect act l) as [[x|] r] eqn:Hel; simpl.
  - apply elect_Some in Hel as (_ & Hperm & _). apply Forall_forall.
    intros c Hc. rewrite Hperm. by right.
  - apply elect_None in Hel as [-> _]. by apply Forall_forall.
Qed.

Lemma step_config ev w d w' :
  Inv w → step ev w = Some (d, w') →
  _max_concurrent (intake w') = _max_concurrent (intake w) ∧
  _queue_ttl_seconds (intake w') = _queue_ttl_seconds (intake w) ∧
  (Forall ranked (_queue (intake w)) → Forall ranked (_queue (intake w'))).
Proof.
  intros HI Hstep. destruct ev as [a t now|k now started|]; cbn [step] in Hstep.
  - destruct (submit a t now w) as [[d0 w0]|] eqn:Hs; [|done]. simpl in Hstep.
    simplify_eq. destruct (submit_inv_fields _ _ _ _ _ _ HI Hs) as (? & ? & _ & Hsub).
    split_and!; [done..|]. intros Hr. eapply Forall_impl; [exact Hsub|].
    intros q [->|Hq]%elem_of_cons; [done|]. rewrite Forall_forall in Hr. by apply Hr.
  - destruct (_tasks (intake w) !! k) as [[a tr]|] eqn:Hk.
    2:{ unfold _run_wrapper_exit in Hstep. by destruct (_tasks (intake w) !! k). }
    destruct (_run_wrapper_exit_effect k a tr now started w HI Hk)
      as (l & w0 & Hrun & Hl & _ & Hmax & Httl & _ & Heff).
    rewrite Hrun in Hstep. simpl in Hstep. simplify_eq.
    split_and!; [done..|]. intros Hr.
    destruct (_shutting_down (intake w)).
    + destruct Heff as (-> & _). done.
    + destruct Heff as (_ & Hq & _). rewrite Hq.
      eapply Forall_impl; [apply elect_subset|]. simpl.
      intros c Hc. apply list_elem_of_filter in Hc as [_ Hc].
      rewrite Hl in Hc. rewrite Forall_forall in Hr. by apply Hr.
  - simplify_eq. destruct (shutdown_spec w) as (-> & _). simpl.
    split_and!; [done..|]. by intros _.
Qed.

Lemma reachable_facts max ttl w :
  1 ≤ max → reachable max ttl w →
  Inv w ∧ _max_concurrent (intake w) = max ∧ _queue_ttl_seconds (intake w) = ttl ∧
  Forall ranked (_queue (intake w)).
Proof.
  intros Hmax.
  induction 1 as [|w ev d w' _ (HI & Hm & Ht & Hr) Hstep
                  |w st tel _ ([Hi Hg] & Hm & Ht & Hr) Htel].
  - split_and!; try done. apply Inv_init. lia.
  - destruct (step_config _ _ _ _ HI Hstep) as (Hm' & Ht' & Hr').
    split_and!; [by eapply step_Inv|congruence|congruence|by apply Hr'].
  - split_and!; try done. split; [done|]. simpl. by rewrite Htel.
Qed.

(** C2. In every state the intake reaches by submissions, completions
    and a shutdown: no two running tasks share a service name (the keys
    of [_active_services] are exactly the services of the running
    tasks), [_active_count] is the number of running tasks, and
    [0 <= _active_count <= max_concurrent]. *)
Theorem service_serialization_and_concurrency_cap max ttl w :
  1 ≤ max → reachable max ttl w →
  NoDup ((λ t, service_name t.1) <$> _tasks (intake w)) ∧
  (∀ s, s ∈ dom (_active_services (intake w))
        ↔ s ∈ (λ t, service_name t.1) <$> _tasks (intake w)) ∧
  _active_count (intake w) = Z.of_nat (length (_tasks (intake w))) ∧
  0 ≤ _active_count (intake w) ≤ max.
Proof.
  intros Hmax Hr. destruct (reachable_facts _ _ _ Hmax Hr) as ([[] _] & Hm & _).
  rewrite task_entries_fst in inv_nodup_services0.
  split_and!; try done; try lia.
  intros s. rewrite inv_services0, dom_list_to_map_L, elem_of_list_to_set.
  by rewrite task_entries_fst.
Qed.

Lemma service_serialization_and_concurrency_cap_witness :
  ∃ w,
    run [Submit (_make_alert "inc-1" "api" (Some P2)) "t1" 0;
         Submit (_make_alert "inc-2" "api" (Some P1)) "t2" 1;
         Submit (_make_alert "inc-3" "db" None) "t3" 2;
         Submit (_make_alert "inc-4" "cache" None) "t4" 3;
         Complete 0 4 4] (World_init 2 600)
      = Some ([Some "dispatched"; Some "queued"; Some "dispatched"; Some "queued";
               None]%string, w) ∧
    NoDup ((λ t, service_name t.1) <$> _tasks (intake w)) ∧
    _active_count (intake w) = Z.of_nat (length (_tasks (intake w))) ∧
    0 ≤ _active_count (intake w) ≤ 2.
Proof.
  pose (evs := [Submit (_make_alert "inc-1" "api" (Some P2)) "t1" 0;
                Submit (_make_alert "inc-2" "api" (Some P1)) "t2" 1;
                Submit (_make_alert "inc-3" "db" None) "t3" 2;
                Submit (_make_alert "inc-4" "cache" None) "t4" 3;
                Complete 0 4 4]).
  pose (w := ltac:(let t := eval vm_compute in
                     (default (World_init 2 600) (snd <$> run evs (World_init 2 600)))
                   in exact t)).
  assert (run evs (World_init 2 600)
            = Some ([Some "dispatched"; Some "queued"; Some "dispatched"; Some "queued";
                     None]%string, w)) as Hrun
    by (vm_compute; reflexivity).
  assert (reachable 2 600 w) as Hr
    by (eapply run_reachable; [constructor|exact Hrun]).
  destruct (service_serialization_and_concurrency_cap 2 600 w ltac:(lia) Hr)
    as (Hnodup & _ & Hcount & Hcap).
  exists w. split; [exact Hrun|]. split; [exact Hnodup|]. split; [exact Hcount|exact Hcap].
Defined.

(** ** C1 *)

Lemma submit_dispatched_inv a t now w w1 :
  Inv w → submit a t now w = Some ("dispatched"%string, w1) →
  _shutting_down (intake w) = false ∧
  (incident_id a ∉ _known_incidents (intake w)) ∧
  (service_name a ∉ dom (_active_services (intake w))) ∧
  _active_count (intake w) < _max_concurrent (intake w) ∧
  w1 = dispatch a t now
         (upd_intake (λ self, set_known_incidents
            ({[incident_id a]} ∪ _known_incidents self) self) w).
Proof.
  intros [Hi Hg] Hs.
  destruct (_shutting_down (intake w)) eqn:Hsd.
  { by rewrite submit_rejected in Hs. }
  destruct (decide (incident_id a ∈ _known_incidents (intake w))) as [Hin|Hnin].
  { by rewrite submit_deduplicated in Hs. }
  destruct (decide (service_name a ∈ dom (_active_services (intake w))
                    ∨ _max_concurrent (intake w) ≤ _active_count (intake w)))
    as [Hbusy|Hfree].
  - destruct (submit_queued a t now w Hsd Hnin Hbusy (inv_heap _ Hi))
      as (q & Hperm & Hok & Hs'). by rewrite Hs' in Hs.
  - assert (service_name a ∉ dom (_active_services (intake w))) by tauto.
    assert (_active_count (intake w) < _max_concurrent (intake w)) by lia.
    rewrite submit_dispatched in Hs by done. by simplify_eq.
Qed.

Lemma resubmits_deduplicated a (resubmits : list (string * Z)) : ∀ w,
  _shutting_down (intake w) = false →
  incident_id a ∈ _known_incidents (intake w) →
  ∃ w', run ((λ r, Submit a r.1 r.2) <$> resubmits) w
          = Some (replicate (length resubmits) (Some "deduplicated"%string), w') ∧
        intake w' = intake w ∧
        intake_queue_depth_updown (telemetry w')
          = intake_queue_depth_updown (telemetry w) ∧
        alerts_deduplicated (state w')
          = alerts_deduplicated (state w) + Z.of_nat (length resubmits).
Proof.
  induction resubmits as [|[t now] rs IH]; intros w Hsd Hin.
  - exists w. simpl. split_and!; try done. lia.
  - cbn [fmap list_fmap run step]. simpl. rewrite submit_deduplicated by done. simpl.
    destruct (IH (upd_telemetry (add_alerts_deduplicated_counter 1)
                (upd_state (λ s, set_alerts_deduplicated (alerts_deduplicated s + 1) s) w)))
      as (w' & Hrun & Hi & Hg & Hd); [done..|].
    cbn [fmap list_fmap] in Hrun. rewrite Hrun. simpl.
    exists w'. split_and!; try done. rewrite Hd. simpl. lia.
Qed.

Lemma elect_all_busy act l :
  Forall (λ c, service_name (alert c) ∈ dom act) l → elect act l = (None, l).
Proof.
  induction 1 as [|c l Hc _ IH]; [done|]. simpl.
  unfold is_free. rewrite bool_decide_eq_false_2 by by intros H; apply H.
  by rewrite IH.
Qed.

(** C1, as amended. While the intake is not shutting down, a submit for
    an incident id that is in [_known_incidents] returns "deduplicated",
    adds one to [alerts_deduplicated] (and to its instrument) and
    changes nothing else; hence, from any reachable state, a submit
    that returns "dispatched" followed by any number of submits of the
    same alert yields "deduplicated" for each of them, and once that
    run has completed a further submit of the same alert returns
    "dispatched" again. *)
Theorem submit_deduplicates_known_incident :
  (∀ w a t now,
     _shutting_down (intake w) = false →
     incident_id a ∈ _known_incidents (intake w) →
     ∃ w', submit a t now w = Some ("deduplicated"%string, w') ∧
           intake w' = intake w ∧
           state w' = set_alerts_deduplicated (alerts_deduplicated (state w) + 1) (state w) ∧
           telemetry w' = add_alerts_deduplicated_counter 1 (telemetry w)) ∧
  (∀ max ttl w a t0 now0 w1 (resubmits : list (string * Z)) now started t' now',
     1 ≤ max → reachable max ttl w →
     submit a t0 now0 w = Some ("dispatched"%string, w1) →
     ∃ w2 w3 w4,
       run ((λ r, Submit a r.1 r.2) <$> resubmits) w1
         = Some (replicate (length resubmits) (Some "deduplicated"%string), w2) ∧
       intake w2 = intake w1 ∧
       _tasks (intake w2) !! (length (_tasks (intake w))) = Some (a, t0) ∧
       _run_wrapper_exit (length (_tasks (intake w))) now started w2 = Some w3 ∧
       submit a t' now' w3 = Some ("dispatched"%string, w4)).
Proof.
  split.
  - intros w a t now Hsd Hin. rewrite submit_deduplicated by done. by eexists.
  - intros max ttl w a t0 now0 w1 resubmits now started t' now' Hmax Hr Hs.
    destruct (reachable_facts _ _ _ Hmax Hr) as (HI & _).
    destruct (submit_dispatched_inv _ _ _ _ _ HI Hs) as (Hsd & Hnin & Hfree & Hcap & ->).
    set (w1 := dispatch a t0 now0 _) in *.
    assert (Inv w1) as HI1.
    { destruct (submit_Inv a t0 now0 w HI) as (d & w0 & Hs' & HI').
      rewrite Hs in Hs'. by simplify_eq. }
    destruct (resubmits_deduplicated a resubmits w1) as (w2 & Hrun & Hi2 & Hg2 & _).
    { done. } { simpl. set_solver. }
    assert (Inv w2) as HI2.
    { destruct HI1 as [? Hg1]. split; [by rewrite Hi2|]. by rewrite Hg2, Hi2. }
    assert (_tasks (intake w2) !! (length (_tasks (intake w))) = Some (a, t0)) as Hk.
    { rewrite Hi2. simpl. by rewrite lookup_app_r, Nat.sub_diag. }
    destruct (_run_wrapper_exit_effect _ a t0 now started w2 HI2 Hk)
      as (l & w3 & Hexit & Hl & _ & Hmax3 & _ & Hsd3 & Heff).
    rewrite Hi2 in Hl, Hmax3, Hsd3, Heff. simpl in Hl, Hmax3, Hsd3, Heff.
    rewrite Hsd in Hsd3, Heff.
    assert (delete (service_name a)
              (<[service_name a := incident_id a]> (_active_services (intake w)))
            = _active_services (intake w)) as Hact.
    { rewrite delete_insert_eq. apply delete_id. by apply not_elem_of_dom. }
    rewrite Hact in Heff.
    rewrite (elect_all_busy (_active_services (intake w))) in Heff.
    2:{ destruct HI as [[] _]. apply Forall_forall. intros c Hc.
        apply list_elem_of_filter in Hc as [_ Hc]. rewrite Hl in Hc.
        rewrite Forall_forall in inv_blocked0.
        destruct (inv_blocked0 c Hc); [done|lia]. }
    simpl in Heff. destruct Heff as (Hknown3 & _ & _ & _ & _ & _ & Hcount3 & Hact3).
    exists w2, w3. eexists. split_and!; [done..|].
    apply submit_dispatched.
    + done.
    + rewrite Hknown3. set_solver.
    + by rewrite Hact3.
    + rewrite Hcount3, Hmax3. lia.
Qed.

Lemma submit_deduplicates_known_incident_witness :
  ∃ w1 w2 w3 w4,
    submit (_make_alert "inc-1" "api" (Some P2)) "t1" 0 (World_init 3 600)
      = Some ("dispatched"%string, w1) ∧
    run [Submit (_make_alert "inc-1" "api" (Some P2)) "t2" 1] w1
      = Some ([Some "deduplicated"%string], w2) ∧
    _run_wrapper_exit 0 2 2 w2 = Some w3 ∧
    submit (_make_alert "inc-1" "api" (Some P2)) "t3" 3 w3
      = Some ("dispatched"%string, w4).
Proof.
  destruct (proj2 submit_deduplicates_known_incident 3 600 (World_init 3 600)
              (_make_alert "inc-1" "api" (Some P2)) "t1"%string 0
              (dispatch (_make_alert "inc-1" "api" (Some P2)) "t1" 0
                 (upd_intake (λ self, set_known_incidents
                    ({[ "inc-1"%string ]} ∪ _known_incidents self) self)
                    (World_init 3 600)))
              [("t2"%string, 1)] 2 2 "t3"%string 3)
    as (w2 & w3 & w4 & H1 & _ & _ & H3 & H4).
  - lia.
  - constructor.
  - reflexivity.
  - eexists _, w2, w3, w4. split; [reflexivity|]. split; [exact H1|]. split; [exact H3|exact H4].
Defined.

(** C1 as stated fails: with the incident still active, a submit made
    after [shutdown] is answered "rejected", not "deduplicated". *)
Lemma submit_known_incident_rejected_after_shutdown :
  ∃ w, run [Submit (_make_alert "inc-1" "api" (Some P2)) "t1" 0; Shutdown]
           (World_init 3 600)
         = Some ([Some "dispatched"%string; None], w) ∧
       incident_id (_make_alert "inc-1" "api" (Some P2)) ∈ _known_incidents (intake w) ∧
       submit (_make_alert "inc-1" "api" (Some P2)) "t2" 1 w = Some ("rejected"%string, w) ∧
       submit (_make_alert "inc-1" "api" (Some P2)) "t2" 1 w
         ≠ Some ("deduplicated"%string,
                 upd_telemetry (add_alerts_deduplicated_counter 1)
                   (upd_state (λ s, set_alerts_deduplicated (alerts_deduplicated s + 1) s) w)).
Proof.
  eexists. split; [vm_compute; reflexivity|]. split; [|split].
  - by_compute.
  - vm_compute. reflexivity.
  - discriminate.
Qed.

(** ** C3 *)

Lemma NoDup_fmap_inj {A B} (f : A → B) (l : list A) x y :
  NoDup (f <$> l) → x ∈ l → y ∈ l → f x = f y → x = y.
Proof.
  induction l as [|z l IH]; simpl; intros Hnd Hx Hy Hf; [by apply elem_of_nil in Hx|].
  apply NoDup_cons in Hnd as [Hz Hnd].
  apply elem_of_cons in Hx as [->|Hx]; apply elem_of_cons in Hy as [->|Hy]; try done.
  - exfalso. apply Hz. rewrite Hf. by apply list_elem_of_fmap_2.
  - exfalso. apply Hz. rewrite <-Hf. by apply list_elem_of_fmap_2.
  - by apply IH.
Qed.

(** C3. The rank of a priority is P1→1, P2→2, P3→3, P4→4, none→99;
    [QueuedAlert.__lt__] is the lexicographic order on
    (priority_rank, enqueued_at), and every queued entry carries the
    rank of its alert's priority. When the completion of a run
    dispatches a queued alert [X], every alert [Y] that stays queued
    and whose service was free at that election has a key that is not
    smaller: a strictly lower rank goes first, and among equal ranks
    the earlier [enqueued_at]. *)
Theorem priority_then_fifo_election :
  (∀ p, _priority_rank p
          = match p with
            | Some P1 => 1 | Some P2 => 2 | Some P3 => 3 | Some P4 => 4 | None => 99
            end) ∧
  (∀ a b, QueuedAlert_lt a b = true ↔
          priority_rank a < priority_rank b ∨
          (priority_rank a = priority_rank b ∧ enqueued_at a < enqueued_at b)) ∧
  (∀ max ttl w k a tr now started,
     1 ≤ max → reachable max ttl w → _tasks (intake w) !! k = Some (a, tr) →
     (∀ q, q ∈ _queue (intake w) →
           priority_rank q = _priority_rank (priority (alert q))) ∧
     ∃ w', _run_wrapper_exit k now started w = Some w' ∧
       ∀ X Y,
         X ∈ _queue (intake w) → (alert X, trace_id X) ∈ _tasks (intake w') →
         Y ∈ _queue (intake w') →
         service_name (alert Y)
           ∉ dom (delete (service_name a) (_active_services (intake w))) →
         priority_rank X < priority_rank Y ∨
         (priority_rank X = priority_rank Y ∧ enqueued_at X ≤ enqueued_at Y)).
Proof.
  split_and!.
  - by intros [[]|].
  - apply QueuedAlert_lt_spec.
  - intros max ttl w k a tr now started Hmax Hr Hk.
    destruct (reachable_facts _ _ _ Hmax Hr) as (HI & _ & _ & Hranked).
    split. { by apply Forall_forall. }
    destruct (_run_wrapper_exit_effect k a tr now started w HI Hk)
      as (l & w' & Hexit & Hl & Hsorted & _ & _ & _ & Heff).
    exists w'. split; [done|]. intros X Y HX HXrun HY HYfree.
    destruct HI as [[] _].
    assert (incident_id (alert X) ∉ task_ids (_tasks (intake w))) as HXnew.
    { apply NoDup_app in inv_nodup_ids0 as (_ & Hdisj & _). intros Hin.
      eapply Hdisj; [exact Hin|]. unfold queue_ids.
      by apply (list_elem_of_fmap_2 (λ c, incident_id (alert c))). }
    assert (_tasks (intake w) ≡ₚ (a, tr) :: delete k (_tasks (intake w))) as Htasks
      by by apply delete_Permutation.
    assert ((alert X, trace_id X) ∉ delete k (_tasks (intake w))) as HXrest.
    { intros Hin. apply HXnew. unfold task_ids. rewrite Htasks.
      apply (list_elem_of_fmap_2 (λ t : Task, incident_id t.1)) in Hin.
      by right. }
    destruct (_shutting_down (intake w)).
    { destruct Heff as (Hi' & _). rewrite Hi' in HXrun. done. }
    destruct Heff as (_ & Hq' & _ & _ & _ & Hel).
    set (act := delete (service_name a) (_active_services (intake w))) in *.
    set (ttl0 := _queue_ttl_seconds (intake w)) in *.
    destruct (elect act (fresh_of ttl0 now l)) as [[x|] r] eqn:Helect; simpl in *.
    2:{ destruct Hel as (Ht' & _). rewrite Ht' in HXrun. done. }
    destruct Hel as (Ht' & _). rewrite Ht' in HXrun.
    apply elem_of_app in HXrun as [?|HXx]; [done|].
    apply list_elem_of_singleton in HXx.
    apply elect_Some in Helect as (Hfree & Hperm & l1 & l2 & Hfresh & -> & Hbusy).
    assert (x ∈ _queue (intake w)) as Hx.
    { rewrite <-Hl. apply (list_elem_of_filter (λ c, ¬ is_expired ttl0 now c) l x).
      fold (fresh_of ttl0 now l). rewrite Hfresh. apply elem_of_app. right. by left. }
    assert (X = x) as ->.
    { apply NoDup_app in inv_nodup_ids0 as (_ & _ & Hndq).
      eapply (NoDup_fmap_inj (λ c, incident_id (alert c))); [exact Hndq|done..|].
      injection HXx as Ha _. by rewrite Ha. }
    rewrite Hq' in HY. apply elem_of_app in HY as [HY|HY].
    { rewrite Forall_forall in Hbusy. specialize (Hbusy Y HY).
      unfold is_free in Hbusy. by apply bool_decide_eq_false_1 in Hbusy. }
    pose proof (fresh_of_sorted ttl0 now l Hsorted) as Hfs. rewrite Hfresh in Hfs.
    apply StronglySorted_app_1_r, StronglySorted_inv in Hfs as [_ Hfs].
    rewrite Forall_forall in Hfs. by apply QueuedAlert_le_spec, Hfs.
Qed.

Lemma priority_then_fifo_election_witness :
  ∃ w w',
    run [Submit (_make_alert "blocker" "svc-x" (Some P2)) "t0" 0;
         Submit (_make_alert "low" "svc-a" (Some P4)) "t1" 1;
         Submit (_make_alert "critical" "svc-b" (Some P1)) "t2" 2]
        (World_init 1 600)
      = Some ([Some "dispatched"; Some "queued"; Some "queued"]%string, w) ∧
    _run_wrapper_exit 0 3 3 w = Some w' ∧
    (_make_alert "critical" "svc-b" (Some P1), "t2"%string) ∈ _tasks (intake w') ∧
    queued_of (_make_alert "low" "svc-a" (Some P4)) "t1" 1 ∈ _queue (intake w') ∧
    (priority_rank (queued_of (_make_alert "critical" "svc-b" (Some P1)) "t2" 2)
       < priority_rank (queued_of (_make_alert "low" "svc-a" (Some P4)) "t1" 1) ∨
     (priority_rank (queued_of (_make_alert "critical" "svc-b" (Some P1)) "t2" 2)
        = priority_rank (queued_of (_make_alert "low" "svc-a" (Some P4)) "t1" 1) ∧
      enqueued_at (queued_of (_make_alert "critical" "svc-b" (Some P1)) "t2" 2)
        ≤ enqueued_at (queued_of (_make_alert "low" "svc-a" (Some P4)) "t1" 1))).
Proof.
  pose (evs := [Submit (_make_alert "blocker" "svc-x" (Some P2)) "t0" 0;
                Submit (_make_alert "low" "svc-a" (Some P4)) "t1" 1;
                Submit (_make_alert "critical" "svc-b" (Some P1)) "t2" 2]).
  pose (w := ltac:(let t := eval vm_compute in
                     (default (World_init 1 600) (snd <$> run evs (World_init 1 600)))
                   in exact t)).
  pose (w' := ltac:(let t := eval vm_compute in
                      (default w (_run_wrapper_exit 0 3 3 w)) in exact t)).
  assert (run evs (World_init 1 600)
            = Some ([Some "dispatched"; Some "queued"; Some "queued"]%string, w)) as Hrun
    by (vm_compute; reflexivity).
  assert (_run_wrapper_exit 0 3 3 w = Some w') as Hexit by (vm_compute; reflexivity).
  assert (reachable 1 600 w) as Hr
    by (eapply run_reachable; [constructor|exact Hrun]).
  destruct (proj2 (proj2 priority_then_fifo_election) 1 600 w 0%nat
              (_make_alert "blocker" "svc-x" (Some P2)) "t0"%string 3 3)
    as (_ & w'' & Hexit' & Hord).
  - lia.
  - exact Hr.
  - vm_compute. reflexivity.
  - rewrite Hexit in Hexit'. injection Hexit' as <-.
    exists w, w'. split; [exact Hrun|]. split; [exact Hexit|].
    split; [vm_compute; apply list_elem_of_here|].
    split; [vm_compute; apply list_elem_of_here|].
    apply Hord.
    + vm_compute. apply list_elem_of_here.
    + vm_compute. apply list_elem_of_here.
    + vm_compute. apply list_elem_of_here.
    + by_compute.
Defined.

(** ** C4 *)

(** C4, as amended. When the scan runs (the queue is a non-empty heap
    and a slot is free) it pops the whole queue in key order [l]; every
    popped candidate older than the TTL is discarded, wherever it
    stands in that order: its incident leaves [_known_incidents], and
    the expired counters go up and the queue-depth gauge down by one
    per discarded candidate. The first candidate within the TTL whose
    service has no active run is elected and dispatched (the gauge goes
    down once more); all other candidates within the TTL, before and
    after the elected one, form the new queue. *)
Theorem next_dispatch_scan now started w :
  heap_ok QueuedAlert_lt (_queue (intake w)) →
  _queue (intake w) ≠ [] →
  _active_count (intake w) < _max_concurrent (intake w) →
  let ttl := _queue_ttl_seconds (intake w) in
  let act := _active_services (intake w) in
  ∃ l w',
    drain QueuedAlert_lt (length (_queue (intake w))) (_queue (intake w)) = Some l ∧
    l ≡ₚ _queue (intake w) ∧ StronglySorted (le QueuedAlert_lt) l ∧
    _dispatch_next now started w = Some w' ∧
    let expired := filter (λ c, ttl < now - enqueued_at c) l in
    let fresh := filter (λ c, ¬ ttl < now - enqueued_at c) l in
    _known_incidents (intake w')
      = _known_incidents (intake w) ∖ list_to_set (queue_ids expired) ∧
    alerts_expired (state w') = alerts_expired (state w) + Z.of_nat (length expired) ∧
    alerts_expired_counter (telemetry w')
      = alerts_expired_counter (telemetry w) + Z.of_nat (length expired) ∧
    ((∃ x l1 l2,
        fresh = l1 ++ x :: l2 ∧
        Forall (λ c, service_name (alert c) ∈ dom act) l1 ∧
        (service_name (alert x) ∉ dom act) ∧
        _queue (intake w') ≡ₚ l1 ++ l2 ∧
        _tasks (intake w') = _tasks (intake w) ++ [(alert x, trace_id x)] ∧
        _active_count (intake w') = _active_count (intake w) + 1 ∧
        _active_services (intake w')
          = <[service_name (alert x) := incident_id (alert x)]> act ∧
        intake_queue_depth_updown (telemetry w')
          = intake_queue_depth_updown (telemetry w) - Z.of_nat (length expired) - 1)
     ∨ (Forall (λ c, service_name (alert c) ∈ dom act) fresh ∧
        _queue (intake w') ≡ₚ fresh ∧
        _tasks (intake w') = _tasks (intake w) ∧
        _active_count (intake w') = _active_count (intake w) ∧
        _active_services (intake w') = act ∧
        intake_queue_depth_updown (telemetry w')
          = intake_queue_depth_updown (telemetry w) - Z.of_nat (length expired))).
Proof.
  intros Hok Hne Hcap ttl act.
  destruct (_dispatch_next_spec now started w Hok Hne Hcap)
    as (l & w1 & q & Hdrain & Hl & Hsorted & Hrun & Hi & Hs & Ht & Hq & _).
  fold ttl act in Hrun, Hi, Hs, Ht, Hq.
  assert (expired_of ttl now l = filter (λ c, ttl < now - enqueued_at c) l) as Hexp.
  { unfold expired_of. apply list_filter_iff. intros c. unfold is_expired.
    by rewrite Is_true_true, Z.ltb_lt. }
  assert (fresh_of ttl now l = filter (λ c, ¬ ttl < now - enqueued_at c) l) as Hfresh.
  { unfold fresh_of. apply list_filter_iff. intros c. unfold is_expired.
    by rewrite Is_true_true, Z.ltb_lt. }
  rewrite Hexp in Hi, Hs, Ht. rewrite Hfresh in Hrun, Ht, Hq.
  exists l. eexists. split_and!; [done..|exact Hrun|].
  cbv zeta.
  destruct (elect act (filter (λ c, ¬ ttl < now - enqueued_at c) l))
    as [[x|] r] eqn:Hel; simpl in *.
  - apply elect_Some in Hel as (Hfree & _ & l1 & l2 & Hdec & -> & Hbusy).
    rewrite Hi, Hs, Ht. simpl. split_and!; [done..|]. left.
    exists x, l1, l2. split_and!; try done; try lia.
    + eapply Forall_impl; [exact Hbusy|]. intros c Hc. unfold is_free in Hc.
      apply bool_decide_eq_false_1 in Hc. by apply dec_stable in Hc.
    + unfold is_free in Hfree. by apply bool_decide_eq_true_1 in Hfree.
  - apply elect_None in Hel as (-> & Hbusy).
    rewrite Hi, Hs, Ht. simpl. split_and!; [done..|]. right.
    split_and!; try done; try lia.
    eapply Forall_impl; [exact Hbusy|]. intros c Hc. unfold is_free in Hc.
    apply bool_decide_eq_false_1 in Hc. by apply dec_stable in Hc.
Qed.

(** The scan at work. Two slots, a TTL of 10 seconds; "blocker-x" and
    "blocker-y" are running and five alerts are queued when "blocker-x"
    completes at time 105. The scan pops the five in key order:
    "stale-first" (P1, queued at 0) has expired; "held" (P2) is within
    the TTL but its service svc-y is busy, so it is held aside; "fresh"
    (P3) is elected; "stale-last" (P4, queued at 1) is popped after the
    elected one and has expired; "after" (P4, queued at 101) is popped
    after the elected one and goes back to the queue with "held". *)
Lemma next_dispatch_scan_witness :
  ∃ w mid w',
    run [Submit (_make_alert "blocker-x" "svc-x" (Some P2)) "t0" 0;
         Submit (_make_alert "blocker-y" "svc-y" (Some P2)) "t1" 0;
         Submit (_make_alert "stale-first" "svc-a" (Some P1)) "t2" 0;
         Submit (_make_alert "stale-last" "svc-b" (Some P4)) "t3" 1;
         Submit (_make_alert "held" "svc-y" (Some P2)) "t4" 100;
         Submit (_make_alert "fresh" "svc-a" (Some P3)) "t5" 100;
         Submit (_make_alert "after" "svc-c" (Some P4)) "t6" 101] (World_init 2 10)
      = Some ([Some "dispatched"; Some "dispatched"; Some "queued"; Some "queued";
               Some "queued"; Some "queued"; Some "queued"]%string, w) ∧
    mid = upd_intake (λ self, set_active_services
                        (delete "svc-x"%string (_active_services self)) self)
            (upd_intake (λ self, set_known_incidents
                           (_known_incidents self ∖ {["blocker-x"%string]}) self)
               (upd_intake (λ self, set_active_count (_active_count self - 1) self) w)) ∧
    _on_complete (_make_alert "blocker-x" "svc-x" (Some P2)) 105 105 w
      = _dispatch_next 105 105 mid ∧
    drain QueuedAlert_lt 5 (_queue (intake mid))
      = Some [queued_of (_make_alert "stale-first" "svc-a" (Some P1)) "t2" 0;
              queued_of (_make_alert "held" "svc-y" (Some P2)) "t4" 100;
              queued_of (_make_alert "fresh" "svc-a" (Some P3)) "t5" 100;
              queued_of (_make_alert "stale-last" "svc-b" (Some P4)) "t3" 1;
              queued_of (_make_alert "after" "svc-c" (Some P4)) "t6" 101] ∧
    _dispatch_next 105 105 mid = Some w' ∧
    _known_incidents (intake w')
      = _known_incidents (intake mid) ∖ {["stale-first"; "stale-last"]}%string ∧
    alerts_expired (state w') = alerts_expired (state mid) + 2 ∧
    _tasks (intake w')
      = _tasks (intake mid) ++ [(_make_alert "fresh" "svc-a" (Some P3), "t5"%string)] ∧
    _queue (intake w')
      = [queued_of (_make_alert "held" "svc-y" (Some P2)) "t4" 100;
         queued_of (_make_alert "after" "svc-c" (Some P4)) "t6" 101] ∧
    intake_queue_depth_updown (telemetry w')
      = intake_queue_depth_updown (telemetry mid) - 2 - 1.
Proof.
  pose (evs := [Submit (_make_alert "blocker-x" "svc-x" (Some P2)) "t0" 0;
                Submit (_make_alert "blocker-y" "svc-y" (Some P2)) "t1" 0;
                Submit (_make_alert "stale-first" "svc-a" (Some P1)) "t2" 0;
                Submit (_make_alert "stale-last" "svc-b" (Some P4)) "t3" 1;
                Submit (_make_alert "held" "svc-y" (Some P2)) "t4" 100;
                Submit (_make_alert "fresh" "svc-a" (Some P3)) "t5" 100;
                Submit (_make_alert "after" "svc-c" (Some P4)) "t6" 101]).
  pose (w := ltac:(let t := eval vm_compute in
                     (default (World_init 2 10) (snd <$> run evs (World_init 2 10)))
                   in exact t)).
  pose (mid := upd_intake (λ self, set_active_services
                             (delete "svc-x"%string (_active_services self)) self)
                 (upd_intake (λ self, set_known_incidents
                                (_known_incidents self ∖ {["blocker-x"%string]}) self)
                    (upd_intake (λ self, set_active_count (_active_count self - 1) self)
                       w))).
  assert (run evs (World_init 2 10)
          = Some ([Some "dispatched"; Some "dispatched"; Some "queued"; Some "queued";
                   Some "queued"; Some "queued"; Some "queued"]%string, w)) as Hrun
    by (vm_compute; reflexivity).
  assert (reachable 2 10 w) as Hr by (eapply run_reachable; [constructor|exact Hrun]).
  destruct (reachable_facts 2 10 w ltac:(lia) Hr) as ([[] _] & _).
  destruct (next_dispatch_scan 105 105 mid) as (l & w' & Hdrain & _ & _ & Hnext & Hscan).
  - exact inv_heap0.
  - vm_compute. discriminate.
  - vm_compute. reflexivity.
  - exists w, mid, w'.
    assert (drain QueuedAlert_lt (length (_queue (intake mid))) (_queue (intake mid))
            = Some [queued_of (_make_alert "stale-first" "svc-a" (Some P1)) "t2" 0;
                    queued_of (_make_alert "held" "svc-y" (Some P2)) "t4" 100;
                    queued_of (_make_alert "fresh" "svc-a" (Some P3)) "t5" 100;
                    queued_of (_make_alert "stale-last" "svc-b" (Some P4)) "t3" 1;
                    queued_of (_make_alert "after" "svc-c" (Some P4)) "t6" 101]) as Hl
      by (vm_compute; reflexivity).
    rewrite Hl in Hdrain. injection Hdrain as <-.
    cbv zeta in Hscan.
    destruct Hscan as (Hknown & Hexpired & _).
    split; [exact Hrun|]. split; [reflexivity|]. split; [reflexivity|].
    split; [exact Hl|]. split; [exact Hnext|].
    split. { rewrite Hknown. f_equal. }
    split. { rewrite Hexpired. reflexivity. }
    pose (after := ltac:(let t := eval vm_compute in
                           (default mid (_dispatch_next 105 105 mid)) in exact t)).
    assert (_dispatch_next 105 105 mid = Some after) as Hsome
      by (vm_compute; reflexivity).
    rewrite Hnext in Hsome. injection Hsome as Hw'.
    split; [rewrite Hw'; vm_compute; reflexivity|].
    split; [rewrite Hw'; vm_compute; reflexivity|].
    rewrite Hw'. vm_compute. reflexivity.
Defined.

(** C4 as stated fails: a candidate ordered after the elected one is
    still popped and, being older than the TTL, expired. With one slot
    and a TTL of 10: "stale" (P4) is queued at time 0 and "fresh" (P1)
    at time 100; when the blocker completes at time 105 the scan elects
    "fresh" and then discards "stale". *)
Lemma scan_expires_candidates_after_the_elected_one :
  ∃ w w',
    run [Submit (_make_alert "blocker" "svc-x" (Some P2)) "t0" 0;
         Submit (_make_alert "stale" "svc-b" (Some P4)) "t1" 0;
         Submit (_make_alert "fresh" "svc-a" (Some P1)) "t2" 100] (World_init 1 10)
      = Some ([Some "dispatched"; Some "queued"; Some "queued"]%string, w) ∧
    drain QueuedAlert_lt 2 (_queue (intake w))
      = Some [queued_of (_make_alert "fresh" "svc-a" (Some P1)) "t2" 100;
              queued_of (_make_alert "stale" "svc-b" (Some P4)) "t1" 0] ∧
    "stale"%string ∈ _known_incidents (intake w) ∧
    _run_wrapper_exit 0 105 105 w = Some w' ∧
    _tasks (intake w') = [(_make_alert "fresh" "svc-a" (Some P1), "t2"%string)] ∧
    _queue (intake w') = [] ∧
    ("stale"%string ∉ _known_incidents (intake w')) ∧
    alerts_expired (state w') = alerts_expired (state w) + 1.
Proof.
  eexists. eexists.
  split; [vm_compute; reflexivity|]. split; [vm_compute; reflexivity|].
  split; [by_compute|]. split; [vm_compute; reflexivity|].
  split; [vm_compute; reflexivity|]. split; [vm_compute; reflexivity|].
  split; [by_compute|vm_compute; reflexivity].
Qed.

(** ** C7 *)

Lemma step_after_shutdown ev w d w' :
  _shutting_down (intake w) = true → _queue (intake w) = [] →
  step ev w = Some (d, w') →
  _shutting_down (intake w') = true ∧ _queue (intake w') = [] ∧
  intake_queue_depth_updown (telemetry w') = intake_queue_depth_updown (telemetry w) ∧
  rejected_or_silent ev d.
Proof.
  intros Hsd Hq Hstep. destruct ev as [a t now|k now started|]; cbn [step] in Hstep.
  - rewrite submit_rejected in Hstep by done. simpl in Hstep. by simplify_eq.
  - unfold _run_wrapper_exit, _on_complete in Hstep.
    destruct (_tasks (intake w) !! k) as [[a tr]|]; [|done].
    simpl in Hstep. rewrite Hsd in Hstep. simpl in Hstep. simplify_eq. by simpl.
  - simplify_eq. destruct (shutdown_spec w) as (-> & _ & ->). simpl.
    rewrite Hq. simpl. split_and!; try done. lia.
Qed.

(** C7. [shutdown] sets [_shutting_down], empties the queue, removes
    every queued incident from [_known_incidents] and lowers the
    queue-depth gauge by one per queued entry, which brings the gauge
    of a reachable state to 0; it touches nothing else. Whatever
    happens afterwards, [_shutting_down] stays set, the queue stays
    empty, and every submit returns "rejected" and leaves the whole
    state as it was. *)
Theorem shutdown_drains_queue_and_rejects_submits :
  (∀ w,
     _shutting_down (intake (shutdown w)) = true ∧
     _queue (intake (shutdown w)) = [] ∧
     _known_incidents (intake (shutdown w))
       = _known_incidents (intake w) ∖ list_to_set (queue_ids (_queue (intake w))) ∧
     (∀ q, q ∈ _queue (intake w) →
           incident_id (alert q) ∉ _known_incidents (intake (shutdown w))) ∧
     intake_queue_depth_updown (telemetry (shutdown w))
       = intake_queue_depth_updown (telemetry w)
         - Z.of_nat (length (_queue (intake w))) ∧
     _active_services (intake (shutdown w)) = _active_services (intake w) ∧
     _active_count (intake (shutdown w)) = _active_count (intake w) ∧
     _tasks (intake (shutdown w)) = _tasks (intake w) ∧
     state (shutdown w) = state w) ∧
  (∀ max ttl w,
     1 ≤ max → reachable max ttl w →
     intake_queue_depth_updown (telemetry (shutdown w)) = 0) ∧
  (∀ w evs ds w',
     run evs (shutdown w) = Some (ds, w') →
     _shutting_down (intake w') = true ∧
     _queue (intake w') = [] ∧
     intake_queue_depth_updown (telemetry w')
       = intake_queue_depth_updown (telemetry (shutdown w)) ∧
     Forall2 rejected_or_silent evs ds ∧
     ∀ a t now, submit a t now w' = Some ("rejected"%string, w')).
Proof.
  split_and!.
  - intros w. destruct (shutdown_spec w) as (Hi & Hs & Ht).
    rewrite Hi, Hs, Ht. simpl. split_and!; try done; try lia.
    intros q Hq Hin. apply elem_of_difference in Hin as [_ Hin]. apply Hin.
    apply elem_of_list_to_set. unfold queue_ids.
    by apply (list_elem_of_fmap_2 (λ c, incident_id (alert c))).
  - intros max ttl w Hmax Hr.
    destruct (reachable_facts _ _ _ Hmax Hr) as ([_ Hg] & _).
    destruct (shutdown_spec w) as (_ & _ & ->). simpl. lia.
  - intros w evs.
    assert (_shutting_down (intake (shutdown w)) = true ∧ _queue (intake (shutdown w)) = [])
      as [Hsd Hq] by (destruct (shutdown_spec w) as (-> & _); done).
    generalize dependent (shutdown w). clear w.
    induction evs as [|ev evs IH]; intros w Hsd Hq ds w' Hrun; simpl in Hrun.
    + simplify_eq. split_and!; try done. intros a t now. by apply submit_rejected.
    + destruct (step ev w) as [[d w1]|] eqn:Hstep; [|done]. simpl in Hrun.
      destruct (run evs w1) as [[ds1 w2]|] eqn:Hrest; [|done]. simpl in Hrun.
      simplify_eq.
      destruct (step_after_shutdown _ _ _ _ Hsd Hq Hstep) as (Hsd1 & Hq1 & Hg1 & Hd).
      destruct (IH w1 Hsd1 Hq1 _ _ Hrest) as (? & ? & Hg2 & ? & ?).
      split_and!; try done; try congruence. by constructor.
Qed.

Lemma shutdown_drains_queue_and_rejects_submits_witness :
  ∃ w w',
    run [Submit (_make_alert "active" "svc-a" (Some P2)) "t0" 0;
         Submit (_make_alert "queued" "svc-b" (Some P2)) "t1" 1] (World_init 1 600)
      = Some ([Some "dispatched"; Some "queued"]%string, w) ∧
    length (_queue (intake w)) = 1%nat ∧
    intake_queue_depth_updown (telemetry (shutdown w)) = 0 ∧
    run [Submit (_make_alert "queued" "svc-b" (Some P2)) "t2" 2; Complete 0 3 3;
         Submit (_make_alert "active" "svc-a" (Some P2)) "t3" 4] (shutdown w)
      = Some ([Some "rejected"; None; Some "rejected"]%string, w') ∧
    _shutting_down (intake w') = true ∧ _queue (intake w') = [].
Proof.
  pose (evs := [Submit (_make_alert "active" "svc-a" (Some P2)) "t0" 0;
                Submit (_make_alert "queued" "svc-b" (Some P2)) "t1" 1]).
  pose (evs' := [Submit (_make_alert "queued" "svc-b" (Some P2)) "t2" 2; Complete 0 3 3;
                 Submit (_make_alert "active" "svc-a" (Some P2)) "t3" 4]).
  pose (w := ltac:(let t := eval vm_compute in
                     (default (World_init 1 600) (snd <$> run evs (World_init 1 600)))
                   in exact t)).
  pose (w' := ltac:(let t := eval vm_compute in
                      (default w (snd <$> run evs' (shutdown w))) in exact t)).
  assert (run evs (World_init 1 600)
            = Some ([Some "dispatched"; Some "queued"]%string, w)) as Hrun
    by (vm_compute; reflexivity).
  assert (run evs' (shutdown w)
            = Some ([Some "rejected"; None; Some "rejected"]%string, w')) as Hrun'
    by (vm_compute; reflexivity).
  assert (reachable 1 600 w) as Hr
    by (eapply run_reachable; [constructor|exact Hrun]).
  destruct shutdown_drains_queue_and_rejects_submits as (_ & Hgauge & Hafter).
  destruct (Hafter w evs' _ w' Hrun') as (Hsd & Hq & _).
  exists w, w'. split; [exact Hrun|]. split; [vm_compute; reflexivity|].
  split; [apply (Hgauge 1 600 w); [lia|exact Hr]|].
  split; [exact Hrun'|]. split; [exact Hsd|exact Hq].
Defined.
End IntakeClaims.

(** * The agent loop: turns *)
Module AgentFacts.
Import Py Config Agent AgentSpec.

Lemma run_tool_calls_turns env tcs r msgs :
  turns (foldl (run_tool_call env) (r, msgs) tcs).1 = turns r.
Proof.
  revert r msgs. induction tcs as [|tc tcs IH]; intros r msgs; [done|].
  simpl. by rewrite IH.
Qed.

(** A pass that ends the loop leaves [turn + 1] in [turns] and a
    summary; a pass that goes on leaves [turn + 1] in [turns]. *)
Lemma agent_turn_turns config env turn st :
  match agent_turn config env turn st with
  | Break r => turns r = Z.of_nat turn + 1 ∧ summary r ≠ NoSummary
  | Continue st' => turns (result_ st') = Z.of_nat turn + 1
  | Raised _ => True
  end.
Proof.
  unfold agent_turn.
  repeat case_match; simplify_eq/=; try done.
  all: try match goal with
       | H : foldl _ (?r, ?m) ?l = _ |- _ =>
           pose proof (run_tool_calls_turns env l r m) as Hf; rewrite H in Hf;
           simpl in Hf; rewrite Hf
       end.
  all: by destruct (usage _).
Qed.

Lemma turn_loop_turns config env n : ∀ turn st,
  (0 < n + turn)%nat →
  ((0 < turn)%nat → turns (result_ st) = Z.of_nat turn) →
  match turn_loop config env n turn st with
  | Return r => 1 ≤ turns r ≤ Z.of_nat (n + turn) ∧ summary r ≠ NoSummary
  | Raise _ => True
  end.
Proof.
  induction n as [|n IH]; intros turn st Hpos Hst; simpl.
  - split; [|done]. rewrite Hst; lia.
  - pose proof (agent_turn_turns config env turn st) as Ht.
    destruct (agent_turn config env turn st) as [r|st'|exc]; [|  |done].
    + destruct Ht as [-> ?]. split; [lia|done].
    + specialize (IH (S turn) st' ltac:(lia) ltac:(intros _; rewrite Ht; lia)).
      destruct (turn_loop config env n (S turn) st'); [|done].
      destruct IH as [? ?]. split; [lia|done].
Qed.

Lemma run_agent_turns config env msg :
  match run_agent config env msg with
  | Return r => 1 ≤ turns r ≤ Z.of_nat MAX_TURNS ∧ summary r ≠ NoSummary
  | Raise _ => True
  end.
Proof.
  unfold run_agent. destruct (load_system_prompt env); [|done].
  match goal with |- context [turn_loop _ _ _ _ ?st] =>
    pose proof (turn_loop_turns config env MAX_TURNS 0 st) as H end.
  rewrite Nat.add_0_r in H. apply H; [unfold MAX_TURNS; lia|lia].
Qed.

Lemma agent_turn_agree config env env' bound turn st :
  agree bound env env' → (turn < bound)%nat →
  agent_turn config env turn st = agent_turn config env' turn st.
Proof.
  intros (Hs & _ & Hj & He & Ht) Hlt. destruct (Ht turn Hlt) as [Hc Hl].
  unfold agent_turn, run_tool_call. by rewrite Hs, Hj, He, Hc, Hl.
Qed.

Lemma turn_loop_agree config env env' n : ∀ turn st,
  agree (n + turn) env env' →
  turn_loop config env n turn st = turn_loop config env' n turn st.
Proof.
  induction n as [|n IH]; intros turn st Ha; [done|]. simpl.
  rewrite (agent_turn_agree config env env' (S n + turn) turn st Ha) by lia.
  destruct (agent_turn config env' turn st); try done.
  apply IH. by replace (n + S turn)%nat with (S n + turn)%nat by lia.
Qed.

Lemma run_agent_agree config env env' msg :
  agree MAX_TURNS env env' → run_agent config env msg = run_agent config env' msg.
Proof.
  intros Ha. unfold run_agent. pose proof Ha as (Hs & Hp & Hrest). rewrite Hp.
  destruct (load_system_prompt env'); [|done].
  apply turn_loop_agree. by rewrite Nat.add_0_r.
Qed.
End AgentFacts.

(** * The agent loop: turn, duration and token limits *)
Module AgentClaims.
Import Py Config Agent AgentSpec AgentFacts ExampleConfig ExampleRuns.

(** C6, as amended. An agent run ends, with an exception of the LLM call or of the
    prompt file or else with a result of 1 to [MAX_TURNS] = 20 turns and
    a summary, and it looks at the clock and at the LLM for the turns
    0..19 only. At the start of a turn: if the elapsed time is strictly
    above [MAX_DURATION_SECONDS] = 300 the run ends there with the
    duration summary; if it is not, and the budget is positive and
    [input_tokens + output_tokens] has reached it, the run ends there
    with the token budget summary; and if neither gate fires the LLM is
    called (an exception it raises ends the run), which includes an
    elapsed time of 300 exactly. *)
Theorem run_agent_bounded_and_gated :
  (∀ config env msg,
     (∃ exc, run_agent config env msg = Raise exc) ∨
     (∃ r, run_agent config env msg = Return r ∧
           1 ≤ turns r ≤ Z.of_nat MAX_TURNS ∧ MAX_TURNS = 20%nat ∧
           summary r ≠ NoSummary)) ∧
  (∀ config env env' msg,
     agree MAX_TURNS env env' → run_agent config env msg = run_agent config env' msg) ∧
  (∀ config env n turn st,
     MAX_DURATION_SECONDS < clock env turn - start_time env →
     MAX_DURATION_SECONDS = 300 ∧
     turn_loop config env (S n) turn st
       = Return (with_summary
                   (DurationLimitExceeded (clock env turn - start_time env)
                      (Z.of_nat turn + 1))
                   (with_turns (Z.of_nat turn + 1) (result_ st)))) ∧
  (∀ config env n turn st,
     clock env turn - start_time env ≤ MAX_DURATION_SECONDS →
     0 < max_tokens_per_incident config →
     max_tokens_per_incident config
       ≤ input_tokens (result_ st) + output_tokens (result_ st) →
     turn_loop config env (S n) turn st
       = Return (with_summary
                   (TokenBudgetExceeded
                      (input_tokens (result_ st) + output_tokens (result_ st))
                      (max_tokens_per_incident config) (Z.of_nat turn + 1))
                   (with_turns (Z.of_nat turn + 1) (result_ st)))) ∧
  (∀ config env n turn st exc,
     clock env turn - start_time env ≤ MAX_DURATION_SECONDS →
     max_tokens_per_incident config ≤ 0 ∨
     input_tokens (result_ st) + output_tokens (result_ st)
       < max_tokens_per_incident config →
     (∀ model, create env turn model (messages st) = Raise exc) →
     turn_loop config env (S n) turn st = Raise exc).
Proof.
  split_and!.
  - intros config env msg. pose proof (run_agent_turns config env msg) as H.
    destruct (run_agent config env msg) as [r|exc]; [right|left; by eexists].
    exists r. by destruct H as [? ?].
  - apply run_agent_agree.
  - intros config env n turn st He. split; [done|].
    simpl. unfold agent_turn.
    apply Z.ltb_lt in He. by rewrite He.
  - intros config env n turn st He Hpos Hmax. simpl. unfold agent_turn.
    apply Z.ltb_ge in He. rewrite He.
    apply Z.ltb_lt in Hpos. apply Z.leb_le in Hmax. simpl in *.
    by rewrite Hpos, Hmax.
  - intros config env n turn st exc He Hbudget Hllm. simpl. unfold agent_turn.
    apply Z.ltb_ge in He. rewrite He.
    assert ((0 <? max_tokens_per_incident config)
            && (max_tokens_per_incident config
                <=? input_tokens (with_turns (Z.of_nat turn + 1) (result_ st))
                    + output_tokens (with_turns (Z.of_nat turn + 1) (result_ st)))
            = false) as ->.
    { simpl. apply andb_false_iff. destruct Hbudget; [left|right]; lia. }
    by rewrite Hllm.
Qed.

Lemma run_agent_bounded_and_gated_witness :
  (∃ r, run_agent test_config (final_answer 1000 "Resolved.") "alert" = Return r ∧
        1 ≤ turns r ≤ 20) ∧
  turn_loop test_config (always_tool_call 1301) 20 0
    {| result_ := {| summary := NoSummary; turns := 0; input_tokens := 0;
                     output_tokens := 0; models_used := []; tool_calls_made := [] |};
       messages := []; current_model := "gpt-4o"; escalated_model := false |}
    = Return {| summary := DurationLimitExceeded 301 1; turns := 1; input_tokens := 0;
                output_tokens := 0; models_used := []; tool_calls_made := [] |} ∧
  turn_loop (with_max_tokens_per_incident 1000 test_config) (always_tool_call 1000) 18 2
    {| result_ := {| summary := NoSummary; turns := 2; input_tokens := 1000;
                     output_tokens := 200; models_used := ["gpt-4o"%string];
                     tool_calls_made := ["call_ops_endpoint"%string] |};
       messages := []; current_model := "gpt-4o"; escalated_model := false |}
    = Return {| summary := TokenBudgetExceeded 1200 1000 3; turns := 3;
                input_tokens := 1000; output_tokens := 200;
                models_used := ["gpt-4o"%string];
                tool_calls_made := ["call_ops_endpoint"%string] |}.
Proof.
  destruct run_agent_bounded_and_gated as (Hrun & _ & Hdur & Htok & _).
  split_and!.
  - destruct (Hrun test_config (final_answer 1000 "Resolved.") "alert"%string)
      as [[exc Hexc]|(r & Hr & Ht & _)]; [by vm_compute in Hexc|].
    exists r. split; [exact Hr|]. unfold MAX_TURNS in Ht. lia.
  - refine (proj2 (Hdur test_config (always_tool_call 1301) 19%nat 0%nat _ _)).
    vm_compute. reflexivity.
  - refine (Htok (with_max_tokens_per_incident 1000 test_config)
              (always_tool_call 1000) 17%nat 2%nat _ _ _ _).
    + vm_compute. discriminate.
    + vm_compute. reflexivity.
    + vm_compute. discriminate.
Defined.

(** C6 as stated fails: at an elapsed time of exactly 300 seconds,
    which is at least [MAX_DURATION_SECONDS], the run does not end on
    the duration limit; the LLM is called and its answer becomes the
    summary. *)
Lemma run_continues_at_300_seconds :
  clock (final_answer 1300 "Resolved.") 0 - start_time (final_answer 1300 "Resolved.")
    = MAX_DURATION_SECONDS ∧
  run_agent test_config (final_answer 1300 "Resolved.") "alert"
    = Return {| summary := FinalText "Resolved."; turns := 1; input_tokens := 120;
                output_tokens := 30; models_used := ["gpt-4o"%string];
                tool_calls_made := [] |}.
Proof. split; vm_compute; reflexivity. Qed.
End AgentClaims.

(** * The webhook endpoints: signature verification *)
Module MainFacts.
Import Py Models State Telemetry Config Intake Main PyFacts HashlibFacts.

(** What [_verify_signature] answers on an ASCII header. *)
Lemma _verify_signature_ascii body signature secret :
  isascii signature = true →
  ∃ b, _verify_signature body signature secret = Return b ∧
       (b = true ↔ signature = Hashlib.hmac_sha256_hexdigest secret body ∨
                   signature = "v1=" +:+ Hashlib.hmac_sha256_hexdigest secret body).
Proof.
  intros Hsig. unfold _verify_signature.
  destruct (hexdigest_facts secret body) as (Hd & Hv & Hlen). cbv zeta in Hd, Hv, Hlen.
  set (d := Hashlib.hmac_sha256_hexdigest secret body) in *.
  destruct (bool_decide (signature = ""%string)) eqn:He.
  { apply bool_decide_eq_true in He as ->. exists false. split; [done|].
    split; [done|]. intros [H|H]; [|done]. by rewrite <- H in Hlen. }
  rewrite compare_digest_ascii by (done || by apply isascii_removeprefix).
  eexists. split; [done|]. rewrite bool_decide_eq_true. unfold removeprefix.
  destruct (startswith "v1=" signature) eqn:Hp.
  - pose proof (startswith_inv _ _ Hp) as Hs. split.
    + intros Hd'. rewrite <- Hd' in Hs. by right.
    + intros [H|H]; [|by rewrite H, drop_chars_app].
      rewrite H, Hv in Hp. done.
  - split.
    + intros ->. by left.
    + intros [H|H]; [done|]. by rewrite H, startswith_app in Hp.
Qed.

(** On a header that is not ASCII the check gives no answer:
    [hmac.compare_digest] raises. *)
Lemma _verify_signature_non_ascii body signature secret :
  isascii signature = false →
  _verify_signature body signature secret = Raise "TypeError".
Proof.
  intros Hsig. unfold _verify_signature.
  destruct (bool_decide (signature = ""%string)) eqn:He.
  { apply bool_decide_eq_true in He as ->. done. }
  apply compare_digest_non_ascii. right. unfold removeprefix.
  destruct (startswith "v1=" signature) eqn:Hp; [|done].
  rewrite (startswith_inv _ _ Hp), isascii_app in Hsig. by simpl in Hsig.
Qed.

(** The handlers return [HTTPException 401] from the verification
    branch only. *)
Lemma admit_alert_not_401 alert trace_id now w detail :
  (admit_alert alert trace_id now w).1 ≠ HTTPException 401 detail.
Proof. unfold admit_alert. by destruct (submit _ _ _ _) as [[? ?]|]. Qed.
End MainFacts.

(** * The webhook endpoints: authentication *)
Module WebhookClaims.
Import Py Models State Telemetry Config Intake Main Mutation.
Import PyFacts HashlibFacts MutationFacts MainFacts ExampleConfig ExampleRequests.

Local Arguments _verify_signature : simpl never.
Local Arguments compare_digest : simpl never.
Local Arguments admit_alert : simpl never.
Local Arguments ignore_event : simpl never.

(** C8, as amended. With a webhook secret configured and the service
    not draining, [receive_webhook] checks the signature header. An
    ASCII header passes the check exactly when it is the lowercase hex
    HMAC-SHA256 of the raw body under the secret, with or without the
    prefix "v1="; flipping one bit of one character of a passing header
    gives, when the result is ASCII, a header that fails. For an ASCII
    header that fails, a missing or empty one included, the handler
    answers 401 "Invalid webhook signature", adds one to
    [webhooks_failed] and to its counter, appends a
    [webhook_auth_failure] record to [recent_errors] and leaves the
    intake alone; for one that passes it answers no 401. A draining
    service answers 503 whatever the header. *)
Theorem webhook_signature_verification :
  (∀ body signature secret,
     isascii signature = true →
     ∃ b, _verify_signature body signature secret = Return b ∧
          (b = true ↔ signature = Hashlib.hmac_sha256_hexdigest secret body ∨
                      signature = "v1=" +:+ Hashlib.hmac_sha256_hexdigest secret body)) ∧
  (∀ body secret signature i k,
     signature = Hashlib.hmac_sha256_hexdigest secret body ∨
     signature = "v1=" +:+ Hashlib.hmac_sha256_hexdigest secret body →
     (i < String.length signature)%nat → (k < 8)%nat →
     isascii (mutate i k signature) = true →
     _verify_signature body (mutate i k signature) secret = Return false) ∧
  (∀ config request trace_id now w,
     pagerduty_webhook_secret config ≠ ""%string →
     draining (state w) = false →
     let signature :=
       default ""%string (headers request !! "x-pagerduty-signature"%string) in
     let digest :=
       Hashlib.hmac_sha256_hexdigest (pagerduty_webhook_secret config) (body request) in
     let out := receive_webhook config request trace_id now w in
     isascii signature = true →
     (signature = digest ∨ signature = "v1=" +:+ digest →
      ∀ detail, out.1 ≠ HTTPException 401 detail) ∧
     (¬ (signature = digest ∨ signature = "v1=" +:+ digest) →
      out.1 = HTTPException 401 "Invalid webhook signature" ∧
      webhooks_failed (state out.2) = webhooks_failed (state w) + 1 ∧
      webhooks_failed_counter (telemetry out.2)
        = webhooks_failed_counter (telemetry w) + 1 ∧
      recent_errors (state out.2)
        = deque_append MAX_RECENT_ERRORS (recent_errors (state w))
            {| err_timestamp := now; err_type := "webhook_auth_failure";
               err_message := "Invalid webhook signature";
               err_incident_id := None; err_trace_id := Some trace_id |} ∧
      intake out.2 = intake w)) ∧
  (∀ config request trace_id now w,
     draining (state w) = true →
     (receive_webhook config request trace_id now w).1
       = HTTPException 503 "Service is draining").
Proof.
  split_and!.
  - apply _verify_signature_ascii.
  - intros body secret signature i k Hsig Hi Hk Hascii.
    destruct (_verify_signature_ascii body (mutate i k signature) secret Hascii)
      as (b & -> & Hb).
    f_equal. destruct b; [|done]. exfalso.
    pose proof (mutate_neq i k signature Hi Hk) as Hneq.
    pose proof (mutate_length i k signature) as Hlen.
    destruct (proj1 Hb eq_refl) as [Hm|Hm], Hsig as [Hs|Hs]; try congruence;
      rewrite Hm, Hs, ?string_length_app in Hlen;
      change (String.length "v1=") with 3%nat in Hlen; lia.
  - intros config request trace_id now w Hsecret Hdrain signature digest out Hascii.
    subst out. unfold receive_webhook. simpl. rewrite Hdrain.
    rewrite bool_decide_eq_false_2 by done. fold signature.
    destruct (_verify_signature_ascii (body request) signature
                (pagerduty_webhook_secret config) Hascii) as (b & -> & Hb).
    fold digest in Hb. split.
    + intros Hvalid. apply Hb in Hvalid as ->. intros detail.
      destruct (json request) as [payload|]; [|done].
      destruct (negb _); [done|].
      destruct (from_webhook payload); [apply admit_alert_not_401|done].
    + intros Hinvalid. destruct b; [by destruct Hinvalid; apply Hb|]. done.
  - intros config request trace_id now w Hdrain. unfold receive_webhook. simpl.
    by rewrite Hdrain.
Qed.

Lemma webhook_signature_verification_witness :
  (receive_webhook (with_webhook_secret "test-secret" test_config)
     (signed_request "v1=invalid") "trace-1" 5 (World_init 3 600)).1
    = HTTPException 401 "Invalid webhook signature" ∧
  _verify_signature "{}"
    (mutate 3 0 ("v1=" +:+ Hashlib.hmac_sha256_hexdigest "test-secret" "{}"))
    "test-secret" = Return false.
Proof.
  destruct webhook_signature_verification as (_ & Hmut & Hhandler & _).
  split.
  - destruct (Hhandler (with_webhook_secret "test-secret" test_config)
                (signed_request "v1=invalid") "trace-1"%string 5 (World_init 3 600)
                ltac:(discriminate) ltac:(reflexivity) ltac:(vm_compute; reflexivity))
      as [_ Hinvalid].
    apply Hinvalid. intros [H|H]; vm_compute in H; discriminate.
  - apply Hmut; [by right| |lia|vm_compute; reflexivity].
    destruct (hexdigest_facts "test-secret" "{}") as (_ & _ & Hlen). cbv zeta in Hlen.
    rewrite string_length_app, Hlen. change (String.length "v1=") with 3%nat. lia.
Defined.

(** C8 as stated fails, in two ways. The bare hex digest, without
    "v1=", passes the check: the request is handled (here its event type
    is ignored) and nothing is counted as failed. And a draining service
    answers 503, not 401, to a request with an invalid signature, and
    counts and records no failure. *)
Lemma bare_digest_passes_verification :
  Hashlib.hmac_sha256_hexdigest "test-secret" "{}"
    = "2f59040b63b7200598444239da2c9a4f3abc5c434259b23126d72514dab8cd09"%string ∧
  "2f59040b63b7200598444239da2c9a4f3abc5c434259b23126d72514dab8cd09"%string
    ≠ ("v1=" +:+ Hashlib.hmac_sha256_hexdigest "test-secret" "{}") ∧
  _verify_signature "{}"
    "2f59040b63b7200598444239da2c9a4f3abc5c434259b23126d72514dab8cd09" "test-secret"
    = Return true ∧
  (∃ w, receive_webhook (with_webhook_secret "test-secret" test_config)
          (signed_request "2f59040b63b7200598444239da2c9a4f3abc5c434259b23126d72514dab8cd09")
          "trace-1" 5 (World_init 3 600)
        = (Returned [("status", "ignored"); ("event_type", "")]%string, w) ∧
        webhooks_failed (state w) = 0 ∧ recent_errors (state w) = []) ∧
  _verify_signature "{}" "v1=invalid" "test-secret" = Return false ∧
  ∃ w, receive_webhook (with_webhook_secret "test-secret" test_config)
         (signed_request "v1=invalid") "trace-1" 5
         (upd_state (set_draining true) (World_init 3 600))
       = (HTTPException 503 "Service is draining", w) ∧
       webhooks_failed (state w) = 0 ∧ recent_errors (state w) = [].
Proof.
  split_and!.
  - vm_compute. reflexivity.
  - vm_compute. discriminate.
  - vm_compute. reflexivity.
  - eexists. split_and!; vm_compute; reflexivity.
  - vm_compute. reflexivity.
  - eexists. split_and!; vm_compute; reflexivity.
Qed.

(** C10, as amended. With the service not draining and both tokens
    ASCII, [receive_gcp_webhook] answers 401 "Invalid auth token"
    exactly when a token is configured, the [auth_token] parameter is
    non-empty and the two differ, and it then adds one to
    [webhooks_failed] and to its counter and records no error. A
    request without the parameter, or with an empty one, is not
    checked: an open incident whose payload parses is handed to the
    intake. A draining service answers 503 whatever the token. *)
Theorem gcp_webhook_token_check :
  (∀ config request trace_id now w,
     draining (state w) = false →
     let auth_token := default ""%string (query_params request !! "auth_token"%string) in
     let out := receive_gcp_webhook config request trace_id now w in
     isascii auth_token = true → isascii (ops_auth_token config) = true →
     (out.1 = HTTPException 401 "Invalid auth token"
      ↔ ops_auth_token config ≠ ""%string ∧ auth_token ≠ ""%string ∧
        auth_token ≠ ops_auth_token config) ∧
     (out.1 = HTTPException 401 "Invalid auth token" →
      webhooks_failed (state out.2) = webhooks_failed (state w) + 1 ∧
      webhooks_failed_counter (telemetry out.2)
        = webhooks_failed_counter (telemetry w) + 1 ∧
      recent_errors (state out.2) = recent_errors (state w) ∧
      intake out.2 = intake w)) ∧
  (∀ config request trace_id now w payload alert,
     draining (state w) = false →
     default ""%string (query_params request !! "auth_token"%string) = ""%string →
     json request = Return payload → incident_state payload = "open"%string →
     from_gcp_webhook payload = Some alert →
     receive_gcp_webhook config request trace_id now w
       = admit_alert alert trace_id now
           (upd_telemetry (add_webhooks_received_counter 1)
              (upd_state (λ s, set_webhooks_received (webhooks_received s + 1) s) w))) ∧
  (∀ config request trace_id now w,
     draining (state w) = true →
     (receive_gcp_webhook config request trace_id now w).1
       = HTTPException 503 "Service is draining").
Proof.
  split_and!.
  - intros config request trace_id now w Hdrain auth_token out Ha Ho.
    subst out. unfold receive_gcp_webhook. simpl. rewrite Hdrain. fold auth_token.
    destruct (decide (ops_auth_token config = ""%string)) as [Hops|Hops].
    { rewrite (bool_decide_eq_true_2 _ Hops). simpl.
      split; [|intros H; exfalso; revert H];
        [split; [intros H; exfalso; revert H|by intros (? & _)]|];
        (destruct (json request) as [payload|]; [|done]);
        (destruct (negb _); [done|]);
        (destruct (from_gcp_webhook payload); [apply admit_alert_not_401|done]). }
    rewrite (bool_decide_eq_false_2 _ Hops). simpl.
    destruct (decide (auth_token = ""%string)) as [Htok|Htok].
    { rewrite (bool_decide_eq_true_2 _ Htok). simpl.
      split; [|intros H; exfalso; revert H];
        [split; [intros H; exfalso; revert H|by intros (_ & ? & _)]|];
        (destruct (json request) as [payload|]; [|done]);
        (destruct (negb _); [done|]);
        (destruct (from_gcp_webhook payload); [apply admit_alert_not_401|done]). }
    rewrite (bool_decide_eq_false_2 _ Htok). simpl.
    rewrite compare_digest_ascii by done.
    destruct (decide (auth_token = ops_auth_token config)) as [Heq|Heq].
    { rewrite (bool_decide_eq_true_2 _ Heq).
      split; [|intros H; exfalso; revert H];
        [split; [intros H; exfalso; revert H|by intros (_ & _ & ?)]|];
        (destruct (json request) as [payload|]; [|done]);
        (destruct (negb _); [done|]);
        (destruct (from_gcp_webhook payload); [apply admit_alert_not_401|done]). }
    rewrite (bool_decide_eq_false_2 _ Heq). simpl. by split_and!.
  - intros config request trace_id now w payload alert Hdrain Htok Hjson Hopen Halert.
    unfold receive_gcp_webhook. simpl. rewrite Hdrain, Htok. simpl.
    rewrite andb_false_r, Hjson, Hopen, Halert. done.
  - intros config request trace_id now w Hdrain. unfold receive_gcp_webhook. simpl.
    by rewrite Hdrain.
Qed.

Lemma gcp_webhook_token_check_witness :
  (receive_gcp_webhook test_config (gcp_request (Some "wrong-token"%string) empty_payload)
     "trace-1" 5 (World_init 3 600)).1
    = HTTPException 401 "Invalid auth token" ∧
  (receive_gcp_webhook test_config (gcp_request None empty_payload)
     "trace-1" 5 (World_init 3 600)).1
    ≠ HTTPException 401 "Invalid auth token".
Proof.
  destruct gcp_webhook_token_check as (Hcheck & _).
  split.
  - destruct (Hcheck test_config
                (gcp_request (Some "wrong-token"%string) empty_payload)
                "trace-1"%string 5 (World_init 3 600) ltac:(reflexivity)
                ltac:(vm_compute; reflexivity) ltac:(vm_compute; reflexivity))
      as [[_ Hbwd] _].
    apply Hbwd. split_and!; vm_compute; discriminate.
  - intros H.
    destruct (Hcheck test_config (gcp_request None empty_payload)
                "trace-1"%string 5 (World_init 3 600) ltac:(reflexivity)
                ltac:(vm_compute; reflexivity) ltac:(vm_compute; reflexivity))
      as [[Hfwd _] _].
    destruct (Hfwd H) as (_ & Hne & _). by apply Hne.
Defined.

(** C10 as stated fails: a request with a configured token and a
    non-empty [auth_token] that differs from it is answered 503, not
    401, by a draining service, and is not counted as failed. *)
Lemma gcp_wrong_token_without_401 :
  ops_auth_token test_config ≠ ""%string ∧
  "wrong-token"%string ≠ ops_auth_token test_config ∧
  ∃ w, receive_gcp_webhook test_config
         (gcp_request (Some "wrong-token"%string) empty_payload)
         "trace-1" 5 (upd_state (set_draining true) (World_init 3 600))
       = (HTTPException 503 "Service is draining", w) ∧
       webhooks_failed (state w) = 0.
Proof.
  split_and!; try (vm_compute; discriminate).
  eexists. split; vm_compute; reflexivity.
Qed.
End WebhookClaims.

(** * Paths: names hold no separator *)
Module PathlibFacts.
Import Py Pathlib PathlibSpec PyFacts.

Lemma has_sep_String c s :
  has_sep (String c s) = bool_decide (c = "/"%char) || has_sep s.
Proof. done. Qed.

Lemma split_sep_nonempty s : split_sep s ≠ [].
Proof.
  destruct s as [|c s]; [done|]. simpl.
  destruct (bool_decide (c = "/"%char)); [done|]. by destruct (split_sep s).
Qed.

Lemma split_sep_no_sep s : Forall (λ x, has_sep x = false) (split_sep s).
Proof.
  induction s as [|c s IH]; simpl; [by repeat constructor|].
  destruct (bool_decide (c = "/"%char)) eqn:Hc; [by constructor|].
  destruct (split_sep s) as [|x xs]; [by repeat constructor; rewrite has_sep_String, Hc|].
  apply Forall_cons in IH as [Hx Hxs]. constructor; [|done].
  by rewrite has_sep_String, Hc.
Qed.

Lemma split_sep_whole s : has_sep s = false → split_sep s = [s].
Proof.
  induction s as [|c s IH]; [done|]. rewrite has_sep_String. intros H.
  apply orb_false_iff in H as [Hc Hs]. simpl. by rewrite Hc, (IH Hs).
Qed.

Lemma last_Forall {A} (P : A → Prop) l d : Forall P l → P d → P (List.last l d).
Proof.
  intros Hl Hd. induction Hl as [|x l Hx Hl IH]; [done|].
  destruct l; [done|]. exact IH.
Qed.

(** A name holds no separator. *)
Lemma name_no_sep s : has_sep (name (Path s)) = false.
Proof.
  unfold name, Path. simpl.
  apply (last_Forall (λ x, has_sep x = false)); [|done].
  apply Forall_forall. intros x Hx. apply list_elem_of_filter in Hx as [_ Hx].
  by apply (proj1 (Forall_forall _ _) (split_sep_no_sep s)).
Qed.

Lemma startswith_sep s : has_sep s = false → startswith "/" s = false.
Proof.
  destruct s as [|c s]; [done|]. rewrite has_sep_String. intros H.
  apply orb_false_iff in H as [Hc _]. simpl.
  rewrite andb_true_r. apply bool_decide_eq_false. apply bool_decide_eq_false in Hc.
  congruence.
Qed.

(** A non-empty string that is its own name parses to that one
    component, without a root. *)
Lemma Path_of_name s :
  s ≠ ""%string → name (Path s) = s →
  has_sep s = false ∧ Path s = {| root := ""; tail := [s] |}.
Proof.
  intros Hne Hname.
  assert (has_sep s = false) as Hsep by (rewrite <- Hname; apply name_no_sep).
  split; [done|].
  unfold name, Path in *. simpl in Hname. rewrite (split_sep_whole s Hsep) in *.
  destruct (decide (s ≠ ""%string ∧ s ≠ "."%string)) as [Hok|Hno].
  - rewrite filter_cons_True, filter_nil by done. f_equal.
    unfold parse_root. pose proof (startswith_sep s Hsep) as Hr.
    destruct s as [|c s]; [done|]. simpl in *. rewrite andb_true_r in Hr.
    by rewrite Hr.
  - rewrite filter_cons_False, filter_nil in Hname by done. simpl in Hname. done.
Qed.

Lemma truediv_name p s :
  s ≠ ""%string → name (Path s) = s →
  truediv p s = {| root := root p; tail := tail p ++ [s] |}.
Proof.
  intros Hne Hname. unfold truediv.
  destruct (Path_of_name s Hne Hname) as [_ ->]. done.
Qed.
End PathlibFacts.

(** * The incident report tool: path traversal *)
Module ToolsClaims.
Import Py Pathlib PathlibSpec Tools PathlibFacts ExampleFs.

(** C9, as amended. [_write_incident_report] answers a filename that differs from
    its own name with an error envelope and calls nothing on the file
    system; every filename that holds a separator (so every one with a
    directory, with "../" or that is absolute) differs from its name.
    An empty filename or empty content gets the envelope "filename and
    content are required", again with no call. For a non-empty filename
    that is its own name and non-empty content the handler creates
    [incidents_dir] and writes the content to the path made of the
    components of [incidents_dir] followed by the filename, which holds
    no separator; it answers with the written envelope for that path
    unless one of the two calls raises. *)
Theorem write_incident_report_rejects_traversal :
  (∀ incidents_dir fs input,
     name (Path (default ""%string (input !! "filename"%string)))
       ≠ default ""%string (input !! "filename"%string) →
     ∃ msg, _write_incident_report incidents_dir fs input = (ErrorEnvelope msg, [])) ∧
  (∀ filename, has_sep filename = true → name (Path filename) ≠ filename) ∧
  (∀ incidents_dir fs input,
     default ""%string (input !! "filename"%string) = ""%string ∨
     default ""%string (input !! "content"%string) = ""%string →
     _write_incident_report incidents_dir fs input
       = (ErrorEnvelope "filename and content are required", [])) ∧
  (∀ incidents_dir fs input,
     let filename := default ""%string (input !! "filename"%string) in
     let content := default ""%string (input !! "content"%string) in
     let filepath := {| root := root incidents_dir;
                        tail := tail incidents_dir ++ [filename] |} in
     filename ≠ ""%string → content ≠ ""%string → name (Path filename) = filename →
     has_sep filename = false ∧
     _write_incident_report incidents_dir fs input
       = match fs (Mkdir incidents_dir) with
         | Raise exc => (Raised exc, [Mkdir incidents_dir])
         | Return _ =>
             match fs (WriteText filepath content) with
             | Raise exc => (Raised exc, [Mkdir incidents_dir; WriteText filepath content])
             | Return _ => (Written (str filepath),
                            [Mkdir incidents_dir; WriteText filepath content])
             end
         end).
Proof.
  split_and!.
  - intros incidents_dir fs input Hname. unfold _write_incident_report.
    destruct (_ || _); [by eexists|].
    rewrite bool_decide_eq_false_2 by done. by eexists.
  - intros filename Hsep Hname. rewrite <- Hname, name_no_sep in Hsep. done.
  - intros incidents_dir fs input H. unfold _write_incident_report.
    destruct H as [-> | ->]; [done|]. by rewrite orb_true_r.
  - intros incidents_dir fs input filename content filepath Hf Hc Hname.
    split; [by apply Path_of_name|].
    unfold _write_incident_report. fold filename content.
    rewrite (bool_decide_eq_false_2 _ Hf), (bool_decide_eq_false_2 _ Hc). simpl.
    rewrite Hname, (bool_decide_eq_true_2 _ eq_refl). simpl.
    by rewrite (truediv_name incidents_dir filename Hf Hname).
Qed.

Lemma write_incident_report_rejects_traversal_witness :
  _write_incident_report (Path "/app/incidents") fs_ok
    (report_input "INC-1.md" "Root cause: disk full.")
    = (Written "/app/incidents/INC-1.md",
       [Mkdir (Path "/app/incidents");
        WriteText {| root := "/"; tail := ["app"; "incidents"; "INC-1.md"]%string |}
          "Root cause: disk full."]) ∧
  (∃ msg, _write_incident_report (Path "/app/incidents") fs_ok
            (report_input "../../etc/passwd" "Root cause: disk full.")
          = (ErrorEnvelope msg, [])).
Proof.
  destruct write_incident_report_rejects_traversal as (Hreject & _ & _ & Hwrite).
  split.
  - destruct (Hwrite (Path "/app/incidents") fs_ok
                (report_input "INC-1.md" "Root cause: disk full.")
                ltac:(vm_compute; discriminate) ltac:(vm_compute; discriminate)
                ltac:(vm_compute; reflexivity)) as [_ ->].
    vm_compute. reflexivity.
  - apply Hreject. vm_compute. discriminate.
Defined.

(** C9 as stated fails: the empty filename is its own name, and with
    non-empty content the handler still answers with an error envelope
    and writes nothing. *)
Lemma empty_filename_is_not_written :
  name (Path "") = ""%string ∧
  default ""%string (report_input "" "Root cause: disk full." !! "content"%string)
    ≠ ""%string ∧
  _write_incident_report (Path "/app/incidents") fs_ok
    (report_input "" "Root cause: disk full.")
    = (ErrorEnvelope "filename and content are required", []).
Proof. split_and!; [vm_compute; reflexivity|vm_compute; discriminate|vm_compute; reflexivity]. Qed.

(** The filename ".." is its own name as well: the handler issues the
    write on [incidents_dir/..], and the exception of the file system is
    what keeps the report from being written. *)
Remark parent_directory_passes_the_name_test :
  name (Path "..") = ".."%string ∧
  _write_incident_report (Path "/app/incidents") fs_posix
    (report_input ".." "Root cause: disk full.")
    = (Raised "IsADirectoryError",
       [Mkdir (Path "/app/incidents");
        WriteText {| root := "/"; tail := ["app"; "incidents"; ".."]%string |}
          "Root cause: disk full."]).
Proof. split; vm_compute; reflexivity. Qed.
End ToolsClaims.

(** * Alert processing: the hourly budget and the intake *)
Module ProcessFacts.
Import Py Models State Telemetry Config Intake IntakeSpec IntakeFacts Main.

Lemma _tokens_last_hour_log now s s' :
  hourly_token_log s = hourly_token_log s' →
  _tokens_last_hour now s = _tokens_last_hour now s'.
Proof. unfold _tokens_last_hour. by intros ->. Qed.

Lemma _is_hourly_budget_exhausted_spec config now s :
  _is_hourly_budget_exhausted config now s = true
  ↔ 0 < max_tokens_per_hour config ∧ max_tokens_per_hour config ≤ _tokens_last_hour now s.
Proof.
  unfold _is_hourly_budget_exhausted.
  destruct (max_tokens_per_hour config <=? 0) eqn:H.
  - apply Z.leb_le in H. split; [done|lia].
  - apply Z.leb_gt in H. rewrite Z.leb_le. split; [by split|by intros [_ ?]].
Qed.

(** [_process_alert] leaves the intake and its gauge alone. *)
Lemma _process_alert_intake config env alert trace_id a :
  intake (world (app (_process_alert config env alert trace_id a))) = intake (world a) ∧
  intake_queue_depth_updown (telemetry (world (app (_process_alert config env alert trace_id a))))
    = intake_queue_depth_updown (telemetry (world a)).
Proof.
  unfold _process_alert.
  destruct (_is_hourly_budget_exhausted _ _ _).
  - by destruct (_escalate_budget_exhausted _ _ _ _ _ _ _).
  - destruct (Agent.run_agent _ _ _) as [r|exc]; [|done].
    by destruct (_append_cost_to_report env _ r _).
Qed.

Lemma _process_alert_Inv config env alert trace_id a :
  Inv (world a) → Inv (world (app (_process_alert config env alert trace_id a))).
Proof.
  destruct (_process_alert_intake config env alert trace_id a) as [Hi Hg].
  intros [HI HG]. split; [by rewrite Hi|]. by rewrite Hi, Hg.
Qed.

(** When the wrapper of a run exits, its incident is known no more and
    its service is free, unless the scan gave it to a queued alert of
    the same service. *)
Lemma _run_wrapper_exit_slot k a tr now started w :
  Inv w → _tasks (intake w) !! k = Some (a, tr) →
  ∃ w', _run_wrapper_exit k now started w = Some w' ∧
    (incident_id a ∉ _known_incidents (intake w')) ∧
    match _active_services (intake w') !! service_name a with
    | None => True
    | Some i => ∃ q, q ∈ _queue (intake w) ∧
                     service_name (alert q) = service_name a ∧
                     incident_id (alert q) = i
    end.
Proof.
  intros HI Hk.
  destruct (_run_wrapper_exit_effect k a tr now started w HI Hk)
    as (l & w' & Hexit & Hperm & _ & _ & _ & _ & Hcase).
  exists w'. split; [done|]. cbv zeta in Hcase.
  destruct (_shutting_down (intake w)).
  { destruct Hcase as (-> & _ & _). simpl. split; [set_solver|].
    by rewrite lookup_delete_eq. }
  destruct Hcase as (-> & _ & _ & _ & _ & Hel). split; [set_solver|].
  destruct (elect _ _) as [[x|] r] eqn:Helect; simpl in Hel.
  - destruct Hel as (_ & _ & ->).
    destruct (decide (service_name (alert x) = service_name a)) as [Heq|Hne].
    + rewrite <- Heq, lookup_insert_eq. exists x. split_and!; [|done..].
      apply elect_Some in Helect as (_ & Hp & _).
      assert (x ∈ fresh_of (_queue_ttl_seconds (intake w)) now l) as Hx
        by (rewrite Hp; by left).
      apply list_elem_of_filter in Hx as [_ Hx]. by rewrite <- Hperm.
    + rewrite lookup_insert_ne by done. by rewrite lookup_delete_eq.
  - destruct Hel as (_ & _ & ->). by rewrite lookup_delete_eq.
Qed.
End ProcessFacts.

(** * Alert processing: the hourly token budget *)
Module ProcessClaims.
Import Py Models State Telemetry Config Intake IntakeSpec IntakeFacts Main.
Import ProcessFacts Examples ExampleConfig ExampleRuns ExampleProcess.

(** C5, as amended. [_tokens_last_hour] adds the token counts of the entries of
    [hourly_token_log] whose timestamp is at most 3600 seconds before the
    reading of the clock. When [max_tokens_per_hour] is positive and that
    sum has reached it, [_process_alert] starts no agent run: it adds one
    to [agent_runs_completed] and to its counter, removes the incident
    from [active_incidents], marks its queue entry "escalated", leaves
    the intake and the token log alone, and posts the budget note for the
    incident; if that request comes back it then sends the PUT, whose
    body sets [escalation_level] to the constant 2 (whatever level the
    incident is at); an exception of either request escapes. When the
    budget is unset or not reached the agent is run. When the wrapper of
    such a run exits, the incident is known no more and its service is
    free for, or already given to, a queued alert of that service. *)
Theorem hourly_budget_precheck :
  (∀ now s ts n log,
     _tokens_last_hour now (set_hourly_token_log [] s) = 0 ∧
     _tokens_last_hour now (set_hourly_token_log ((ts, n) :: log) s)
       = (if bool_decide (now - 3600 ≤ ts) then n else 0)
         + _tokens_last_hour now (set_hourly_token_log log s)) ∧
  (∀ config env alert trace_id a,
     0 < max_tokens_per_hour config →
     max_tokens_per_hour config ≤ _tokens_last_hour (time env 1) (state (world a)) →
     let out := _process_alert config env alert trace_id a in
     let x_trace_id := if bool_decide (trace_id = ""%string) then None else Some trace_id in
     let post :=
       POST_note (incident_id alert)
         {| note_budget_type := "hourly";
            note_tokens_used := _tokens_last_hour (time env 2) (state (world a));
            note_budget := max_tokens_per_hour config; note_alert := alert |}
         x_trace_id in
     let put := PUT_incident (incident_id alert) 2 x_trace_id in
     agent_run out = None ∧
     agent_runs_completed (state (world (app out)))
       = agent_runs_completed (state (world a)) + 1 ∧
     agent_runs_completed_counter (telemetry (world (app out)))
       = agent_runs_completed_counter (telemetry (world a)) + 1 ∧
     active_incidents (state (world (app out)))
       = delete (incident_id alert) (active_incidents (state (world a))) ∧
     incidents_active_updown (telemetry (world (app out)))
       = incidents_active_updown (telemetry (world a)) - 1 ∧
     entry_status <$> _alert_queue (app out) !! incident_id alert
       = Some "escalated"%string ∧
     intake (world (app out)) = intake (world a) ∧
     hourly_token_log (state (world (app out))) = hourly_token_log (state (world a)) ∧
     match send env post with
     | Raise exc => requests out = [post] ∧ raised out = Some exc
     | Return _ =>
         requests out = [post; put] ∧
         raised out = match send env put with
                      | Raise exc => Some exc
                      | Return _ => None
                      end ∧
         ∀ provider : Provider,
           foldl (λ p r, serve r p) provider (requests out) !! incident_id alert = Some 2
     end) ∧
  (∀ config env alert trace_id a,
     max_tokens_per_hour config ≤ 0 ∨
     _tokens_last_hour (time env 1) (state (world a)) < max_tokens_per_hour config →
     let out := _process_alert config env alert trace_id a in
     agent_run out
       = Some (Agent.run_agent config (agent_env env) (format_alert_message env alert)) ∧
     requests out = []) ∧
  (∀ config env alert trace_id a max ttl k now started,
     1 ≤ max → reachable max ttl (world a) →
     _tasks (intake (world a)) !! k = Some (alert, trace_id) →
     let out := _process_alert config env alert trace_id a in
     ∃ w', _run_wrapper_exit k now started (world (app out)) = Some w' ∧
       (incident_id alert ∉ _known_incidents (intake w')) ∧
       match _active_services (intake w') !! service_name alert with
       | None => True
       | Some i => ∃ q, q ∈ _queue (intake (world a)) ∧
                        service_name (Intake.alert q) = service_name alert ∧
                        incident_id (Intake.alert q) = i
       end).
Proof.
  split_and!.
  - intros now s ts n log. split; [done|].
    unfold _tokens_last_hour. simpl.
    destruct (decide (now - 3600 ≤ ts)) as [Hin|Hout].
    + rewrite filter_cons_True by done. by rewrite (bool_decide_eq_true_2 _ Hin).
    + rewrite filter_cons_False by done. by rewrite (bool_decide_eq_false_2 _ Hout).
  - intros config env alert trace_id a Hpos Hmax out x_trace_id post put.
    subst out. unfold _process_alert.
    match goal with |- context [_is_hourly_budget_exhausted ?c ?n ?s] =>
      assert (_is_hourly_budget_exhausted c n s = true) as ->
        by (apply _is_hourly_budget_exhausted_spec; split; done) end.
    unfold _escalate_budget_exhausted.
    match goal with |- context [_tokens_last_hour (time env 2) ?s] =>
      rewrite (_tokens_last_hour_log (time env 2) s (state (world a))) by done end.
    fold x_trace_id. fold post. fold put.
    destruct (send env post) as [[]|exc]; [destruct (send env put) as [[]|exc]|]; simpl.
    all: rewrite ?lookup_alter_eq, ?lookup_insert_eq; simpl.
    all: split_and!; try done; try lia.
    all: intros provider; unfold Provider in provider; apply lookup_insert_eq.
  - intros config env alert trace_id a Hno out. subst out. unfold _process_alert.
    match goal with |- context [_is_hourly_budget_exhausted ?c ?n ?s] =>
      assert (_is_hourly_budget_exhausted c n s = false) as -> end.
    { apply not_true_is_false. rewrite _is_hourly_budget_exhausted_spec. simpl. lia. }
    destruct (Agent.run_agent _ _ _) as [r|exc]; [|done].
    by destruct (_append_cost_to_report env _ r _).
  - intros config env alert trace_id a max ttl k now started Hmax Hr Hk out.
    pose proof (reachable_Inv _ _ _ Hmax Hr) as HI.
    pose proof (_process_alert_Inv config env alert trace_id a HI) as HI'.
    destruct (_process_alert_intake config env alert trace_id a) as [Hi _].
    fold out in HI', Hi.
    destruct (_run_wrapper_exit_slot k alert trace_id now started (world (app out)) HI')
      as (w' & Hexit & Hknown & Hslot); [by rewrite Hi|].
    exists w'. rewrite Hi in Hslot. done.
Qed.

Lemma spent_world_reachable : reachable 3 600 spent_world.
Proof.
  apply reachable_main; [|vm_compute; reflexivity].
  apply (reachable_step 3 600 (World_init 3 600)
           (Submit (_make_alert "PD-1" "api" (Some P2)) "trace-1" 9990)
           (Some "dispatched"%string)); [constructor|].
  vm_compute. reflexivity.
Defined.

Lemma hourly_budget_precheck_witness :
  agent_run (_process_alert budget_config process_env
               (_make_alert "PD-1" "api" (Some P2)) "trace-1" spent_app) = None ∧
  agent_runs_completed
    (state (world (app (_process_alert budget_config process_env
                          (_make_alert "PD-1" "api" (Some P2)) "trace-1" spent_app))))
    = 1 ∧
  requests (_process_alert budget_config process_env
              (_make_alert "PD-1" "api" (Some P2)) "trace-1" spent_app)
    = [POST_note "PD-1"
         {| note_budget_type := "hourly"; note_tokens_used := 1200; note_budget := 1000;
            note_alert := _make_alert "PD-1" "api" (Some P2) |} (Some "trace-1"%string);
       PUT_incident "PD-1" 2 (Some "trace-1"%string)] ∧
  ∃ w', _run_wrapper_exit 0 10010 10010
          (world (app (_process_alert budget_config process_env
                         (_make_alert "PD-1" "api" (Some P2)) "trace-1" spent_app)))
        = Some w' ∧
        ("PD-1"%string ∉ _known_incidents (intake w')).
Proof.
  destruct hourly_budget_precheck as (_ & Hbudget & _ & Hslot).
  pose proof (Hbudget budget_config process_env (_make_alert "PD-1" "api" (Some P2))
                "trace-1"%string spent_app ltac:(by vm_compute) ltac:(by vm_compute))
    as (Hrun & Hdone & _ & _ & _ & _ & _ & _ & Hreq).
  assert (∀ r, send process_env r = Return ()) as Hsend by reflexivity.
  rewrite Hsend in Hreq. destruct Hreq as (Hreq & _).
  split_and!.
  - exact Hrun.
  - rewrite Hdone. vm_compute. reflexivity.
  - rewrite Hreq. vm_compute. reflexivity.
  - destruct (Hslot budget_config process_env (_make_alert "PD-1" "api" (Some P2))
                "trace-1"%string spent_app 3 600 0%nat 10010 10010
                ltac:(lia) spent_world_reachable ltac:(vm_compute; reflexivity))
      as (w' & Hexit & Hknown & _).
    exists w'. split; [exact Hexit|exact Hknown].
Defined.

(** C5 as stated fails: an incident that is at escalation level 2 when
    its alert arrives (incident.escalated events are processed too) is
    still at level 2 after the budget escalation; the PUT carries the
    constant 2, not the level above the current one. *)
Lemma budget_escalation_keeps_level_two :
  requests (_process_alert budget_config process_env
              (_make_alert "PD-1" "api" (Some P2)) "trace-1" spent_app)
    = [POST_note "PD-1"
         {| note_budget_type := "hourly"; note_tokens_used := 1200; note_budget := 1000;
            note_alert := _make_alert "PD-1" "api" (Some P2) |} (Some "trace-1"%string);
       PUT_incident "PD-1" 2 (Some "trace-1"%string)] ∧
  ({[ "PD-1"%string := 2 ]} : Provider) !! "PD-1"%string = Some 2 ∧
  foldl (λ p r, serve r p) ({[ "PD-1"%string := 2 ]} : Provider)
    (requests (_process_alert budget_config process_env
                 (_make_alert "PD-1" "api" (Some P2)) "trace-1" spent_app))
    !! "PD-1"%string = Some 2 ∧
  2 ≠ 2 + 1.
Proof. split_and!; [vm_compute; reflexivity..|lia]. Qed.
End ProcessClaims.

(** * The intake: the decision of a submit, the registry, the gauge and
    the shutdown *)
Module IntakeProperties.
Import Models State Telemetry Intake IntakeSpec HeapqSpec HeapqFacts IntakeFacts Examples.
Import IntakeClaims ExampleWorlds.

Lemma after_reachable max ttl evs w :
  reachable max ttl w → reachable max ttl (after evs w).
Proof.
  intros Hr. unfold after. destruct (run evs w) as [[ds w']|] eqn:Hrun; [|done].
  simpl. by eapply run_reachable.
Qed.

Lemma crowded_world_reachable : reachable 1 600 crowded_world.
Proof. apply after_reachable. constructor. Qed.

Lemma stopped_world_reachable : reachable 1 600 stopped_world.
Proof. apply after_reachable, crowded_world_reachable. Qed.

(** X1. In every state the intake reaches, [submit] returns (no list
    access of the heap raises) and its answer is decided by the state
    alone: "rejected" exactly when shutting down; otherwise
    "deduplicated" exactly when the incident id is known; otherwise
    "dispatched" exactly when the service has no active run and
    [_active_count] is below the cap, in which case the run is the new
    last task; otherwise "queued", in which case the queue holds the
    new entry and the entries it held. *)
Theorem submit_answers_by_state max ttl w a t now :
  1 ≤ max → reachable max ttl w →
  ∃ d w', submit a t now w = Some (d, w') ∧
    (d = "rejected"%string ↔ _shutting_down (intake w) = true) ∧
    (d = "deduplicated"%string ↔
       _shutting_down (intake w) = false ∧
       incident_id a ∈ _known_incidents (intake w)) ∧
    (d = "dispatched"%string ↔
       _shutting_down (intake w) = false ∧
       (incident_id a ∉ _known_incidents (intake w)) ∧
       (service_name a ∉ dom (_active_services (intake w))) ∧
       _active_count (intake w) < max) ∧
    (d = "queued"%string ↔
       _shutting_down (intake w) = false ∧
       (incident_id a ∉ _known_incidents (intake w)) ∧
       (service_name a ∈ dom (_active_services (intake w))
        ∨ max ≤ _active_count (intake w))) ∧
    (d = "dispatched"%string →
       _tasks (intake w') = _tasks (intake w) ++ [(a, t)] ∧
       _queue (intake w') = _queue (intake w)) ∧
    (d = "queued"%string →
       _tasks (intake w') = _tasks (intake w) ∧
       _queue (intake w') ≡ₚ queued_of a t now :: _queue (intake w)).
Proof.
  intros Hmax Hr. destruct (reachable_facts _ _ _ Hmax Hr) as ([Hi Hg] & Hm & _).
  destruct (_shutting_down (intake w)) eqn:Hsd.
  { rewrite submit_rejected by done. eexists _, _. split; [done|].
    split_and!; intuition (congruence || discriminate). }
  destruct (decide (incident_id a ∈ _known_incidents (intake w))) as [Hin|Hnin].
  { rewrite submit_deduplicated by done. eexists _, _. split; [done|].
    split_and!; intuition (congruence || discriminate). }
  destruct (decide (service_name a ∈ dom (_active_services (intake w))
                    ∨ _max_concurrent (intake w) ≤ _active_count (intake w)))
    as [Hbusy|Hfree].
  - destruct (submit_queued a t now w Hsd Hnin Hbusy (inv_heap _ Hi))
      as (q & Hperm & Hok & ->).
    eexists _, _. split; [done|]. rewrite <- Hm. simpl.
    split_and!; intuition (congruence || discriminate || lia).
  - assert (service_name a ∉ dom (_active_services (intake w))) by tauto.
    assert (_active_count (intake w) < _max_concurrent (intake w)) by lia.
    rewrite submit_dispatched by done.
    eexists _, _. split; [done|]. rewrite <- Hm. simpl.
    split_and!; intuition (congruence || discriminate || lia).
Qed.

Lemma submit_answers_by_state_witness :
  ∃ w', submit (_make_alert "inc-4" "cache" (Some P3)) "t4" 3 crowded_world
          = Some ("queued"%string, w') ∧
        _queue (intake w')
          ≡ₚ queued_of (_make_alert "inc-4" "cache" (Some P3)) "t4" 3
             :: _queue (intake crowded_world).
Proof.
  destruct (submit_answers_by_state 1 600 crowded_world
              (_make_alert "inc-4" "cache" (Some P3)) "t4"%string 3
              ltac:(lia) crowded_world_reachable)
    as (d & w' & Hs & _ & _ & _ & Hq & _ & Hqueue).
  assert (d = "queued"%string) as ->.
  { apply Hq. split; [vm_compute; reflexivity|]. split; [by_compute|].
    right. vm_compute. discriminate. }
  exists w'. split; [exact Hs|]. by apply Hqueue.
Defined.

(** X2. In every state the intake reaches, [_known_incidents] holds
    exactly the incident ids of the running tasks and of the queued
    alerts, and no id occurs twice among them: no incident runs twice,
    is queued twice, or runs while it is queued. *)
Theorem known_incidents_are_running_or_queued max ttl w :
  1 ≤ max → reachable max ttl w →
  (∀ id, id ∈ _known_incidents (intake w)
         ↔ id ∈ task_ids (_tasks (intake w)) ∨ id ∈ queue_ids (_queue (intake w))) ∧
  NoDup (task_ids (_tasks (intake w)) ++ queue_ids (_queue (intake w))).
Proof.
  intros Hmax Hr. destruct (reachable_facts _ _ _ Hmax Hr) as ([[] _] & _).
  split; [|done]. intros id.
  by rewrite inv_known0, elem_of_list_to_set, elem_of_app.
Qed.

Lemma known_incidents_are_running_or_queued_witness :
  _known_incidents (intake crowded_world) = {[ "inc-1"; "inc-2"; "inc-3" ]}%string ∧
  NoDup (task_ids (_tasks (intake crowded_world))
         ++ queue_ids (_queue (intake crowded_world))).
Proof.
  destruct (known_incidents_are_running_or_queued 1 600 crowded_world
              ltac:(lia) crowded_world_reachable) as [_ Hnodup].
  split; [by_compute|exact Hnodup].
Defined.

(** X3. In every state the intake reaches, the queue depth gauge is the
    length of the queue, and the head of the queue is an alert that no
    queued alert precedes in the order of (priority_rank,
    enqueued_at). *)
Theorem queue_depth_gauge_is_exact max ttl w :
  1 ≤ max → reachable max ttl w →
  intake_queue_depth_updown (telemetry w) = Z.of_nat (length (_queue (intake w))) ∧
  ∀ x q, head (_queue (intake w)) = Some x → q ∈ _queue (intake w) →
         QueuedAlert_lt q x = false.
Proof.
  intros Hmax Hr. destruct (reachable_facts _ _ _ Hmax Hr) as ([[] Hg] & _).
  split; [done|]. intros x q Hx Hq.
  destruct (_queue (intake w)) as [|y l] eqn:Hqueue; [done|]. simpl in Hx. simplify_eq.
  by apply (heap_root_min QueuedAlert_lt QueuedAlert_lt_asym QueuedAlert_le_trans
              (x :: l) x inv_heap0).
Qed.

Lemma queue_depth_gauge_is_exact_witness :
  intake_queue_depth_updown (telemetry crowded_world) = 2 ∧
  head (_queue (intake crowded_world))
    = Some (queued_of (_make_alert "inc-2" "api" (Some P1)) "t2" 1).
Proof.
  destruct (queue_depth_gauge_is_exact 1 600 crowded_world
              ltac:(lia) crowded_world_reachable) as [Hg _].
  split; [rewrite Hg; vm_compute; reflexivity|vm_compute; reflexivity].
Defined.

(** X4. The intake leaves no alert waiting that it could run: in every
    state it reaches, each queued alert has a service with an active
    run, or [_active_count] has reached the cap. *)
Theorem queued_alerts_are_blocked max ttl w :
  1 ≤ max → reachable max ttl w →
  ∀ q, q ∈ _queue (intake w) →
       service_name (alert q) ∈ dom (_active_services (intake w))
       ∨ _active_count (intake w) = max.
Proof.
  intros Hmax Hr q Hq.
  destruct (reachable_facts _ _ _ Hmax Hr) as ([[] _] & Hm & _).
  rewrite Forall_forall in inv_blocked0.
  destruct (inv_blocked0 q Hq) as [?|?]; [by left|right; lia].
Qed.

Lemma queued_alerts_are_blocked_witness :
  (service_name (_make_alert "inc-3" "db" None)
     ∉ dom (_active_services (intake crowded_world))) ∧
  _active_count (intake crowded_world) = 1.
Proof.
  assert (service_name (_make_alert "inc-3" "db" None)
            ∉ dom (_active_services (intake crowded_world))) as Hfree by by_compute.
  split; [exact Hfree|].
  destruct (queued_alerts_are_blocked 1 600 crowded_world ltac:(lia)
              crowded_world_reachable
              (queued_of (_make_alert "inc-3" "db" None) "t3" 2)) as [Hbusy|Hcap].
  - vm_compute. apply list_elem_of_further, list_elem_of_here.
  - done.
  - exact Hcap.
Defined.

(** X5. Once the intake is shutting down no run starts: the queue is
    empty, the exit of a run removes that run, lowers [_active_count]
    by one and touches neither [state] nor the instruments; and when
    the last run has gone, [_active_count] is 0 and [_active_services]
    and [_known_incidents] are empty. *)
Theorem shutdown_winds_down max ttl w :
  1 ≤ max → reachable max ttl w → _shutting_down (intake w) = true →
  _queue (intake w) = [] ∧
  (∀ k a tr now started,
     _tasks (intake w) !! k = Some (a, tr) →
     ∃ w', _run_wrapper_exit k now started w = Some w' ∧
       _tasks (intake w') = delete k (_tasks (intake w)) ∧
       _active_count (intake w') = _active_count (intake w) - 1 ∧
       _queue (intake w') = [] ∧ _shutting_down (intake w') = true ∧
       state w' = state w ∧ telemetry w' = telemetry w) ∧
  (_tasks (intake w) = [] →
     _active_count (intake w) = 0 ∧ _active_services (intake w) = ∅ ∧
     _known_incidents (intake w) = ∅).
Proof.
  intros Hmax Hr Hsd. destruct (reachable_facts _ _ _ Hmax Hr) as (HI & _).
  pose proof HI as [[] _]. pose proof (inv_shutdown0 Hsd) as Hq.
  split_and!; [done| |].
  - intros k a tr now started Hk.
    destruct (_run_wrapper_exit_effect k a tr now started w HI Hk)
      as (l & w' & Hexit & _ & _ & _ & _ & Hsd' & Hcase).
    rewrite Hsd in Hcase, Hsd'. destruct Hcase as (Hi & Hs & Ht).
    exists w'. rewrite Hi. simpl. by split_and!.
  - intros Ht. rewrite Ht, Hq in *. simpl in *. split_and!; [lia|done|done].
Qed.

Lemma shutdown_winds_down_witness :
  ∃ w', _run_wrapper_exit 0 5 5 stopped_world = Some w' ∧
        _tasks (intake w') = [] ∧ _active_count (intake w') = 0 ∧
        _queue (intake w') = [].
Proof.
  destruct (shutdown_winds_down 1 600 stopped_world ltac:(lia) stopped_world_reachable
              ltac:(vm_compute; reflexivity)) as (_ & Hexit & _).
  destruct (Hexit 0%nat (_make_alert "inc-1" "api" (Some P2)) "t1"%string 5 5
              ltac:(vm_compute; reflexivity))
    as (w' & Hw' & Htasks & Hcount & Hqueue & _).
  exists w'. split; [exact Hw'|]. split; [|split; [|exact Hqueue]].
  - rewrite Htasks. vm_compute. reflexivity.
  - rewrite Hcount. vm_compute. reflexivity.
Defined.
End IntakeProperties.

(** * The agent loop: models, conversation and token overrun *)
Module AgentProperties.
Import Py Config Agent AgentSpec AgentFacts AgentSchedule ExampleConfig ExampleRuns.
Import ExampleSchedule.

Lemma run_tool_calls_spec env tcs : ∀ r msgs,
  foldl (run_tool_call env) (r, msgs) tcs
  = ({| summary := summary r; turns := turns r; input_tokens := input_tokens r;
        output_tokens := output_tokens r; models_used := models_used r;
        tool_calls_made := tool_calls_made r ++ (tool_name <$> tcs) |},
     msgs ++ (answer env <$> tcs)).
Proof.
  induction tcs as [|tc tcs IH]; intros r msgs; simpl.
  - rewrite !app_nil_r. by destruct r.
  - rewrite IH. simpl. by rewrite <- !app_assoc.
Qed.

Lemma asked_model_at config turn st :
  model_inv config turn st → asked config turn st = model_at config turn.
Proof.
  unfold model_inv, asked, model_at.
  destruct (escalated_model st); simpl.
  - intros (-> & Hne & Hle). rewrite bool_decide_eq_false_2 by done. simpl.
    by rewrite (proj2 (Z.leb_le _ _) Hle).
  - by intros ->.
Qed.

(** One pass, with its fold over the tool calls written out. *)
Lemma agent_turn_unfold config env turn st :
  agent_turn config env turn st =
    let r := with_turns (Z.of_nat turn + 1) (result_ st) in
    let model := asked config turn st in
    let elapsed := clock env turn - start_time env in
    if MAX_DURATION_SECONDS <? elapsed then
      Break (with_summary (DurationLimitExceeded elapsed (turns r)) r)
    else if (0 <? max_tokens_per_incident config)
            && (max_tokens_per_incident config <=? input_tokens r + output_tokens r) then
      Break (with_summary
               (TokenBudgetExceeded (input_tokens r + output_tokens r)
                  (max_tokens_per_incident config) (turns r)) r)
    else
      match create env turn model (messages st) with
      | Raise exc => Raised exc
      | Return response =>
          let r := track_usage model (usage response) r in
          match choices response with
          | [] => Raised "IndexError"
          | ([], content) :: _ =>
              if bool_decide (content = ""%string)
              then Break (with_summary EmptyResponse r)
              else Break (with_summary (FinalText content) r)
          | (tool_calls, content) :: _ =>
              Continue
                {| result_ :=
                     {| summary := summary r; turns := turns r;
                        input_tokens := input_tokens r; output_tokens := output_tokens r;
                        models_used := models_used r;
                        tool_calls_made := tool_calls_made r ++ (tool_name <$> tool_calls) |};
                   messages := messages st ++ exchange env tool_calls content;
                   current_model := model;
                   escalated_model :=
                     negb (escalated_model st)
                     && negb (bool_decide (llm_model_escalation config = ""%string))
                     && (llm_escalation_turn config <=? Z.of_nat turn)
                     || escalated_model st |}
          end
      end.
Proof.
  unfold agent_turn, asked. cbv zeta.
  repeat case_match; try done.
  all: match goal with
       | H : foldl _ _ _ = _ |- _ => rewrite run_tool_calls_spec in H; simplify_eq
       end.
  all: unfold exchange; rewrite <- app_assoc; simpl; f_equal; f_equal.
  all: by repeat match goal with H : _ = true |- _ => rewrite H
                            | H : _ = false |- _ => rewrite H end.
Qed.

Lemma model_inv_next config env turn st st' :
  model_inv config turn st → agent_turn config env turn st = Continue st' →
  model_inv config (S turn) st' ∧
  messages st' = messages st ++
    match create env turn (model_at config turn) (messages st) with
    | Return {| choices := (tool_call :: tool_calls, content) :: _ |} =>
        exchange env (tool_call :: tool_calls) content
    | _ => []
    end.
Proof.
  intros HJ. rewrite agent_turn_unfold. cbv zeta.
  rewrite (asked_model_at _ _ _ HJ).
  repeat case_match; try done; intros; simplify_eq/=.
  all: split; [|done].
  all: unfold model_inv, model_at in *; simpl.
  all: destruct (escalated_model st); simpl in *.
  all: try (destruct HJ as (? & Hne & Hle);
            rewrite (bool_decide_eq_false_2 _ Hne), (proj2 (Z.leb_le _ _) Hle); simpl;
            split_and!; [done..|lia]).
  all: destruct (bool_decide_reflect (llm_model_escalation config = ""%string)); simpl.
  all: try done.
  all: destruct (Z.leb_spec (llm_escalation_turn config) (Z.of_nat turn)); simpl; try done.
  all: split_and!; [done..|lia].
Qed.

Lemma run_agent_first_loop config env msg :
  run_agent config env msg =
    match load_system_prompt env with
    | Raise exc => Raise exc
    | Return _ => turn_loop config env MAX_TURNS 0 (first_loop config env msg)
    end.
Proof.
  unfold run_agent, first_loop, opening. by destruct (load_system_prompt env).
Qed.

(** A run against an LLM that answers as [env] does wherever the loop
    asks it is the run against [env]. *)
Lemma turn_loop_with_create config env f (I : nat → Loop → Prop) :
  (∀ turn st, I turn st →
     f turn (asked config turn st) (messages st)
     = create env turn (asked config turn st) (messages st)) →
  (∀ turn st st', I turn st → agent_turn config env turn st = Continue st' →
     I (S turn) st') →
  ∀ n turn st, I turn st →
    turn_loop config env n turn st = turn_loop config (with_create f env) n turn st.
Proof.
  intros Hf Hnext. induction n as [|n IH]; intros turn st HI; [done|]. simpl.
  assert (agent_turn config (with_create f env) turn st = agent_turn config env turn st)
    as ->.
  { rewrite !agent_turn_unfold. cbv zeta. simpl. by rewrite (Hf _ _ HI). }
  destruct (agent_turn config env turn st) as [r|st'|exc] eqn:Hturn; try done.
  apply IH. by eapply Hnext.
Qed.

Lemma first_loop_model_inv config env msg : model_inv config 0 (first_loop config env msg).
Proof. done. Qed.

Lemma conversation_next config env msg turn st st' :
  model_inv config turn st → messages st = conversation config env msg turn →
  agent_turn config env turn st = Continue st' →
  model_inv config (S turn) st' ∧ messages st' = conversation config env msg (S turn).
Proof.
  intros HJ Hm Hturn. destruct (model_inv_next _ _ _ _ _ HJ Hturn) as [HJ' Hm'].
  split; [done|]. rewrite Hm'. simpl. rewrite <- Hm.
  destruct (create env turn (model_at config turn) (messages st))
    as [[u [|[[|tc tcs] c] l]]|]; by rewrite ?app_nil_r.
Qed.

Lemma note_model_escalation (m e : string) l :
  l ∈ [[]; [m]; [e]; [m; e]] → NoDup l →
  (if bool_decide (e ∈ l) then l else l ++ [e]) ∈ [[]; [m]; [e]; [m; e]] ∧
  NoDup (if bool_decide (e ∈ l) then l else l ++ [e]).
Proof.
  intros Hl Hnd. case_bool_decide as He; [done|].
  rewrite !elem_of_cons in Hl. destruct Hl as [->|[->|[->|[->|Hl]]]].
  - simpl. split; [set_solver|]. apply NoDup_singleton.
  - simpl. split; [set_solver|]. apply NoDup_cons. split; [set_solver|apply NoDup_singleton].
  - set_solver.
  - set_solver.
  - by apply elem_of_nil in Hl.
Qed.

Lemma note_model_first (m : string) l :
  l ∈ [[]; [m]] →
  (if bool_decide (m ∈ l) then l else l ++ [m]) ∈ [[]; [m]] ∧
  NoDup (if bool_decide (m ∈ l) then l else l ++ [m]).
Proof.
  intros Hl. rewrite !elem_of_cons in Hl. destruct Hl as [->|[->|Hl]].
  - rewrite bool_decide_eq_false_2 by set_solver. simpl.
    split; [set_solver|apply NoDup_singleton].
  - rewrite bool_decide_eq_true_2 by set_solver.
    split; [set_solver|apply NoDup_singleton].
  - by apply elem_of_nil in Hl.
Qed.

Lemma track_usage_models config turn st u :
  model_inv config turn st → models_inv config st →
  let r := track_usage (model_at config turn) u (with_turns (Z.of_nat turn + 1) (result_ st)) in
  models_used r ∈ [[]; [llm_model config]; [llm_model_escalation config];
                   [llm_model config; llm_model_escalation config]] ∧
  NoDup (models_used r) ∧
  (model_at config turn = llm_model config → escalated_model st = false →
   models_used r ∈ [[]; [llm_model config]]).
Proof.
  intros HJ (Hl & Hnd & Hfirst). destruct u as [u|]; cbv zeta; simpl;
    [|split_and!; [done..|]; intros _; apply Hfirst].
  unfold model_inv, model_at in *.
  destruct (escalated_model st) eqn:Hesc.
  - destruct HJ as (_ & Hne & Hle).
    rewrite (bool_decide_eq_false_2 _ Hne), (proj2 (Z.leb_le _ _) Hle). simpl.
    destruct (note_model_escalation _ _ _ Hl Hnd) as [? ?]. by split_and!.
  - destruct (negb _ && _).
    + destruct (note_model_escalation _ _ _ Hl Hnd) as [? ?]. split_and!; [done..|].
      intros Heq _. rewrite Heq.
      by destruct (note_model_first _ _ (Hfirst eq_refl)) as [? _].
    + destruct (note_model_first _ _ (Hfirst eq_refl)) as [H1 H2].
      split_and!; [|done..]. set_solver.
Qed.

Lemma models_inv_turn config env turn st :
  model_inv config turn st → models_inv config st →
  match agent_turn config env turn st with
  | Break r =>
      models_used r ∈ [[]; [llm_model config]; [llm_model_escalation config];
                       [llm_model config; llm_model_escalation config]] ∧
      NoDup (models_used r)
  | Continue st' => models_inv config st'
  | Raised _ => True
  end.
Proof.
  intros HJ HM. pose proof HM as (Hl & Hnd & Hfirst).
  rewrite agent_turn_unfold. cbv zeta. rewrite (asked_model_at _ _ _ HJ).
  repeat case_match; simplify_eq/=; try done.
  all: try match goal with
       | |- context [track_usage _ ?u _] =>
           destruct (track_usage_models config turn st u HJ HM) as (Hm1 & Hm2 & Hm3)
       end.
  all: try by split.
  unfold models_inv. simpl. split_and!; [done..|].
  intros Hesc. apply orb_false_iff in Hesc as [Hno Hesc]. apply Hm3; [|done].
  unfold model_at. rewrite Hesc in Hno. simpl in Hno. by rewrite Hno.
Qed.

Lemma models_inv_loop config env n : ∀ turn st,
  model_inv config turn st → models_inv config st →
  match turn_loop config env n turn st with
  | Return r =>
      models_used r ∈ [[]; [llm_model config]; [llm_model_escalation config];
                       [llm_model config; llm_model_escalation config]] ∧
      NoDup (models_used r)
  | Raise _ => True
  end.
Proof.
  induction n as [|n IH]; intros turn st HJ HM; simpl.
  - by destruct HM as (? & ? & _).
  - pose proof (models_inv_turn config env turn st HJ HM) as Hturn.
    destruct (agent_turn config env turn st) as [r|st'|exc] eqn:Ht; try done.
    apply IH; [|done]. by destruct (model_inv_next _ _ _ _ _ HJ Ht).
Qed.

(** X6. A run asks the LLM for [llm_model] until turn
    [llm_escalation_turn] and, if an escalation model is configured, for
    that model from this turn on: it is the run against the LLM that is
    handed the scheduled model whatever the loop passes. [models_used]
    of the result lists the models that reported usage, each once and
    the escalation model last. *)
Theorem run_agent_follows_model_schedule :
  (∀ config env msg,
     run_agent config env msg
     = run_agent config
         (with_create (λ turn _ msgs, create env turn (model_at config turn) msgs) env)
         msg) ∧
  (∀ config env msg,
     match run_agent config env msg with
     | Return r =>
         models_used r ∈ [[]; [llm_model config]; [llm_model_escalation config];
                          [llm_model config; llm_model_escalation config]] ∧
         NoDup (models_used r)
     | Raise _ => True
     end).
Proof.
  split; intros config env msg; rewrite !run_agent_first_loop.
  - change (load_system_prompt (with_create _ env)) with (load_system_prompt env).
    destruct (load_system_prompt env) eqn:Hp; [|done].
    assert (first_loop config
              (with_create (λ turn _ msgs, create env turn (model_at config turn) msgs) env)
              msg = first_loop config env msg) as -> by done.
    apply (turn_loop_with_create config env _ (model_inv config)).
    + intros turn st HJ. by rewrite (asked_model_at _ _ _ HJ).
    + intros turn st st' HJ Ht. by destruct (model_inv_next _ _ _ _ _ HJ Ht).
    + done.
  - destruct (load_system_prompt env); [|done].
    apply models_inv_loop; [done|]. unfold models_inv, first_loop. simpl.
    split_and!; [set_solver|apply NoDup_nil_2|set_solver].
Qed.

(** X7. At each turn the LLM is sent the opening two messages and then,
    for each earlier turn in order, the assistant message of that turn
    followed by one tool message per tool call, in the order of the
    calls and under their ids, holding the result of the tool on the
    decoded arguments ([{}] for arguments that are not JSON): the run is
    the run against the LLM that is handed this conversation whatever
    the loop passes. *)
Theorem run_agent_conversation config env msg :
  run_agent config env msg = run_agent config (on_schedule config env msg) msg.
Proof.
  rewrite !run_agent_first_loop.
  change (load_system_prompt (on_schedule config env msg)) with (load_system_prompt env).
  destruct (load_system_prompt env) eqn:Hp; [|done].
  assert (first_loop config (on_schedule config env msg) msg = first_loop config env msg)
    as -> by done.
  apply (turn_loop_with_create config env _
           (λ turn st, model_inv config turn st ∧
                       messages st = conversation config env msg turn)).
  - intros turn st [HJ Hm]. by rewrite (asked_model_at _ _ _ HJ), Hm.
  - intros turn st st' [HJ Hm] Ht. by eapply conversation_next.
  - done.
Qed.

Lemma budget_turn config env U turn st :
  0 < max_tokens_per_incident config → 0 ≤ U → usage_within U env →
  0 ≤ input_tokens (result_ st) → 0 ≤ output_tokens (result_ st) →
  input_tokens (result_ st) + output_tokens (result_ st)
    < max_tokens_per_incident config + U →
  match agent_turn config env turn st with
  | Break r =>
      0 ≤ input_tokens r ∧ 0 ≤ output_tokens r ∧
      input_tokens r + output_tokens r < max_tokens_per_incident config + U ∧
      ∀ used budget turns',
        summary r = TokenBudgetExceeded used budget turns' →
        used = input_tokens r + output_tokens r ∧
        budget = max_tokens_per_incident config ∧ budget ≤ used
  | Continue st' =>
      0 ≤ input_tokens (result_ st') ∧ 0 ≤ output_tokens (result_ st') ∧
      input_tokens (result_ st') + output_tokens (result_ st')
        < max_tokens_per_incident config + U
  | Raised _ => True
  end.
Proof.
  intros HB HU Hu Hin Hout Hsum. rewrite agent_turn_unfold. cbv zeta.
  destruct (MAX_DURATION_SECONDS <? _); [by simpl|].
  destruct (0 <? max_tokens_per_incident config) eqn:Hpos; [|lia]. simpl.
  destruct (Z.leb_spec (max_tokens_per_incident config)
              (input_tokens (result_ st) + output_tokens (result_ st))) as [Hle|Hlt].
  { simpl. split_and!; [done..|]. intros ??? [= <- <- <-]. by split_and!. }
  destruct (create env turn (asked config turn st) (messages st))
    as [response|exc] eqn:Hcreate; [|done].
  assert (let r := track_usage (asked config turn st) (usage response)
                     (with_turns (Z.of_nat turn + 1) (result_ st)) in
          0 ≤ input_tokens r ∧ 0 ≤ output_tokens r ∧
          input_tokens r + output_tokens r < max_tokens_per_incident config + U)
    as Hr.
  { destruct (usage response) as [u|] eqn:Husage; simpl; [|lia].
    destruct (Hu _ _ _ _ _ Hcreate Husage) as (? & ? & ?). lia. }
  cbv zeta in Hr.
  destruct (choices response) as [|[[|tc tcs] content] rest]; [done| |done].
  destruct Hr as (? & ? & ?). by case_bool_decide; simpl; split_and!.
Qed.

Lemma budget_loop config env U n : ∀ turn st,
  0 < max_tokens_per_incident config → 0 ≤ U → usage_within U env →
  0 ≤ input_tokens (result_ st) → 0 ≤ output_tokens (result_ st) →
  input_tokens (result_ st) + output_tokens (result_ st)
    < max_tokens_per_incident config + U →
  match turn_loop config env n turn st with
  | Return r =>
      0 ≤ input_tokens r ∧ 0 ≤ output_tokens r ∧
      input_tokens r + output_tokens r < max_tokens_per_incident config + U ∧
      ∀ used budget turns',
        summary r = TokenBudgetExceeded used budget turns' →
        used = input_tokens r + output_tokens r ∧
        budget = max_tokens_per_incident config ∧ budget ≤ used
  | Raise _ => True
  end.
Proof.
  induction n as [|n IH]; intros turn st HB HU Hu Hin Hout Hsum; simpl.
  - by split_and!.
  - pose proof (budget_turn config env U turn st HB HU Hu Hin Hout Hsum) as Hturn.
    destruct (agent_turn config env turn st) as [r|st'|exc]; [done| |done].
    destruct Hturn as (? & ? & ?). by apply IH.
Qed.

(** X8. The token budget of an incident is tested before each call of
    the LLM, not after it: with a budget set, and an LLM whose responses
    each report at most [U] tokens (and no negative count), a run ends
    with less than [max_tokens_per_incident + U] tokens, so it overruns
    the budget by less than one response; and a result whose summary is
    that of the exceeded budget carries in it the tokens of the run,
    which have reached the budget. *)
Theorem run_agent_budget_overrun config env msg r U :
  0 < max_tokens_per_incident config → 0 ≤ U → usage_within U env →
  run_agent config env msg = Return r →
  0 ≤ input_tokens r ∧ 0 ≤ output_tokens r ∧
  input_tokens r + output_tokens r < max_tokens_per_incident config + U ∧
  ∀ used budget turns',
    summary r = TokenBudgetExceeded used budget turns' →
    used = input_tokens r + output_tokens r ∧
    budget = max_tokens_per_incident config ∧ budget ≤ used.
Proof.
  intros HB HU Hu. rewrite run_agent_first_loop.
  destruct (load_system_prompt env); [|done].
  pose proof (budget_loop config env U MAX_TURNS 0 (first_loop config env msg) HB HU Hu)
    as Hloop.
  intros Hrun. rewrite Hrun in Hloop. apply Hloop; simpl; lia.
Qed.

Lemma run_agent_budget_overrun_witness :
  ∃ r, run_agent escalating_config diagnosing "alert" = Return r ∧
       max_tokens_per_incident escalating_config = 2000 ∧
       input_tokens r + output_tokens r = 2400 ∧
       input_tokens r + output_tokens r < 2000 + 600.
Proof.
  assert (usage_within 600 diagnosing) as Hu.
  { intros turn model msgs response u [= <-] [= <-]. simpl. lia. }
  eexists. split; [vm_compute; reflexivity|]. split; [reflexivity|].
  split; [vm_compute; reflexivity|].
  refine (proj1 (proj2 (proj2
            (run_agent_budget_overrun escalating_config diagnosing "alert"%string _ 600
               _ _ Hu _)))).
  - vm_compute. reflexivity.
  - vm_compute. discriminate.
  - vm_compute. reflexivity.
Defined.
End AgentProperties.

(** * The alert queue endpoints *)
Module QueueProperties.
Import Py Models State Telemetry Config Intake IntakeSpec IntakeFacts Main Ops OpsSpec.
Import ProcessFacts Examples ExampleConfig ExampleRuns ExampleProcess ExampleQueue.

Lemma _process_alert_queue config env alert trace_id a :
  ∃ s, s ∈ ["escalated"; "done"; "failed"]%string ∧
    _alert_queue (app (_process_alert config env alert trace_id a))
    = <[incident_id alert :=
          {| entry_status := s; entry_alert := alert; entry_trace_id := trace_id;
             entry_queued_at := time env 0 |}]> (_alert_queue a) ∧
    (s = "failed"%string
     ↔ run_failed (_process_alert config env alert trace_id a) = true
       ∨ footer_failed (_process_alert config env alert trace_id a) = true).
Proof.
  unfold _process_alert, run_failed, footer_failed.
  destruct (_is_hourly_budget_exhausted _ _ _).
  - destruct (_escalate_budget_exhausted _ _ _ _ _ _ _) as [sent exc].
    exists "escalated"%string. simpl. unfold set_status. simpl.
    rewrite alter_insert_eq. split_and!; [set_solver|done|naive_solver].
  - destruct (Agent.run_agent _ _ _) as [r|exc]; simpl.
    + destruct (_append_cost_to_report env _ r _); simpl.
      * exists "done"%string. unfold set_status. simpl.
        rewrite alter_insert_eq. split_and!; [set_solver|done|naive_solver].
      * exists "failed"%string. unfold set_status. simpl.
        rewrite !alter_insert_eq. split_and!; [set_solver|done|naive_solver].
    + exists "failed"%string. unfold set_status. simpl.
      rewrite alter_insert_eq. split_and!; [set_solver|done|naive_solver].
Qed.

Lemma filter_none {A} (P : A → Prop) `{!∀ x, Decision (P x)} (l : list A) :
  Forall (λ x, ¬ P x) l → filter P l = [].
Proof. induction 1 as [|x l Hx _ IH]; [done|]. by rewrite filter_cons_False. Qed.

Lemma served_statuses config a :
  served config a →
  map_Forall (λ id e, entry_status e ∈ written_statuses ∧ incident_id (entry_alert e) = id)
    (_alert_queue a).
Proof.
  induction 1 as [w|a w _ IH|a alert tr now _ IH|a env alert tr _ IH
                 |a incident now _ IH|a incident now _ IH]; simpl.
  - apply map_Forall_empty.
  - done.
  - apply map_Forall_insert_2; [|done]. simpl. split; [|done].
    unfold written_statuses. set_solver.
  - destruct (_process_alert_queue config env alert tr a) as (s & Hs & -> & _).
    apply map_Forall_insert_2; [|done]. simpl. split; [|done].
    unfold written_statuses. set_solver.
  - unfold claim_alert. destruct (_alert_queue a !! incident) as [e|] eqn:He; [|done].
    case_bool_decide; simpl; [|done].
    intros id e'. rewrite lookup_alter_Some.
    intros [(-> & e0 & He0 & ->)|[_ He']]; [|by apply IH].
    destruct (IH _ _ He0) as [_ ?]. simpl. split; [|done].
    unfold written_statuses. set_solver.
  - unfold complete_alert. destruct (_alert_queue a !! incident) as [e|] eqn:He; [|done].
    simpl. intros id e'. rewrite lookup_alter_Some.
    intros [(-> & e0 & He0 & ->)|[_ He']]; [|by apply IH].
    destruct (IH _ _ He0) as [_ ?]. simpl. split; [|done].
    unfold written_statuses. set_solver.
Qed.

(** X9. No code writes the status "pending" into [_alert_queue]: in
    whatever state [_process_alert], [claim_alert] and [complete_alert]
    leave it, every entry is filed under its own incident id with one
    of the statuses processing, escalated, done and failed; so
    [alerts_pending] answers the empty list, and [claim_alert] claims
    nothing: it answers 404 or 409 and changes nothing. *)
Theorem alert_queue_is_never_pending config a :
  served config a →
  (∀ id e, _alert_queue a !! id = Some e →
     entry_status e ∈ written_statuses ∧ incident_id (entry_alert e) = id) ∧
  (∀ values, values ≡ₚ (map_to_list (_alert_queue a)).*2 → alerts_pending values = []) ∧
  (∀ incident now,
     globals (claim_alert incident now a) = a ∧ stamp (claim_alert incident now a) = None ∧
     ∃ status_code detail,
       answer (claim_alert incident now a) = Refused status_code detail ∧
       (status_code = 404 ↔ _alert_queue a !! incident = None) ∧
       (status_code = 409 ↔ is_Some (_alert_queue a !! incident))).
Proof.
  intros Hs. pose proof (served_statuses _ _ Hs) as Hq. split_and!.
  - intros id e He. by apply (Hq id e).
  - intros values Hv. unfold alerts_pending.
    assert (filter (λ e, entry_status e = "pending"%string) values = []) as ->; [|done].
    apply filter_none. apply Forall_forall. intros e He Hp.
    rewrite Hv in He. apply list_elem_of_fmap in He as ([id e'] & -> & He').
    apply elem_of_map_to_list in He'. destruct (Hq id e' He') as [Hin _].
    simpl in Hp. rewrite Hp in Hin. unfold written_statuses in Hin.
    set_solver.
  - intros incident now. unfold claim_alert.
    destruct (_alert_queue a !! incident) as [e|] eqn:He; simpl.
    + destruct (Hq incident e He) as [Hin _].
      rewrite bool_decide_eq_false_2; simpl.
      * split_and!; [done..|]. eexists _, _. split_and!; [done|done|].
        split; [by eexists|done].
      * intros Hp. rewrite Hp in Hin. unfold written_statuses in Hin. set_solver.
    + split_and!; [done..|]. eexists _, _. split_and!; [done|done|].
      split; [done|]. by intros [? ?].
Qed.

Lemma finished_app_served : served test_config finished_app.
Proof. apply served_process, served_start. Qed.

Lemma alert_queue_is_never_pending_witness :
  (entry_status <$> _alert_queue finished_app !! "PD-1"%string) = Some "done"%string ∧
  answer (claim_alert "PD-1" 10010 finished_app) = Refused 409 "Alert is already done" ∧
  answer (claim_alert "PD-2" 10010 finished_app) = Refused 404 "Alert not found: PD-2" ∧
  alerts_pending (map_to_list (_alert_queue finished_app)).*2 = [].
Proof.
  destruct (alert_queue_is_never_pending test_config finished_app finished_app_served)
    as (_ & Hpending & _).
  split_and!; [vm_compute; reflexivity..|].
  by apply Hpending.
Defined.

(** X10. [complete_alert] counts a run that [_process_alert] has
    counted. Called for an alert that has been processed it answers
    "completed" and sets the entry to done whatever became of the run
    (escalated, done or failed). It adds one to [agent_runs_completed],
    which [_process_alert] has raised already unless [run_agent]
    raised, but not to the counter instrument; and it lowers the gauge
    of active incidents once more: after [_process_alert] has lowered
    it once, or twice when [_append_cost_to_report] raised at the end
    of a completed run, so that the [except] clause ran after the
    statements of the completed run and the run is counted as completed
    and as failed. The intake is left alone. *)
Theorem complete_alert_counts_the_run_again config env alert trace_id a now :
  answer (complete_alert (incident_id alert) now
            (app (_process_alert config env alert trace_id a)))
    = Answered [("status", "completed"); ("incident_id", incident_id alert)]%string ∧
  (entry_status <$>
     _alert_queue (globals (complete_alert (incident_id alert) now
                            (app (_process_alert config env alert trace_id a))))
       !! incident_id alert) = Some "done"%string ∧
  agent_runs_completed
    (state (world (globals (complete_alert (incident_id alert) now
                            (app (_process_alert config env alert trace_id a))))))
    = agent_runs_completed (state (world a))
      + (if run_failed (_process_alert config env alert trace_id a) then 1 else 2) ∧
  agent_runs_completed_counter
    (telemetry (world (globals (complete_alert (incident_id alert) now
                                (app (_process_alert config env alert trace_id a))))))
    = agent_runs_completed_counter (telemetry (world a))
      + (if run_failed (_process_alert config env alert trace_id a) then 0 else 1) ∧
  agent_runs_failed
    (state (world (globals (complete_alert (incident_id alert) now
                            (app (_process_alert config env alert trace_id a))))))
    = agent_runs_failed (state (world a))
      + (if run_failed (_process_alert config env alert trace_id a)
            || footer_failed (_process_alert config env alert trace_id a)
         then 1 else 0) ∧
  incidents_active_updown
    (telemetry (world (globals (complete_alert (incident_id alert) now
                                (app (_process_alert config env alert trace_id a))))))
    = incidents_active_updown (telemetry (world a))
      - (if footer_failed (_process_alert config env alert trace_id a) then 3 else 2) ∧
  intake (world (globals (complete_alert (incident_id alert) now
                          (app (_process_alert config env alert trace_id a)))))
    = intake (world a).
Proof.
  unfold complete_alert, _process_alert, run_failed, footer_failed.
  destruct (_is_hourly_budget_exhausted _ _ _).
  - destruct (_escalate_budget_exhausted _ _ _ _ _ _ _) as [sent exc]. simpl.
    rewrite lookup_alter_eq, lookup_insert_eq. simpl.
    rewrite lookup_alter_eq, lookup_alter_eq, lookup_insert_eq. simpl.
    split_and!; try done; lia.
  - destruct (Agent.run_agent _ _ _) as [r|exc]; simpl.
    + destruct (_append_cost_to_report env _ r _); simpl.
      * rewrite lookup_alter_eq, lookup_insert_eq. simpl.
        rewrite lookup_alter_eq, lookup_alter_eq, lookup_insert_eq. simpl.
        split_and!; try done; lia.
      * rewrite !lookup_alter_eq, lookup_insert_eq. simpl.
        rewrite !lookup_alter_eq, lookup_insert_eq. simpl.
        split_and!; try done; lia.
    + rewrite lookup_alter_eq, lookup_insert_eq. simpl.
      rewrite lookup_alter_eq, lookup_alter_eq, lookup_insert_eq. simpl.
      split_and!; try done; lia.
Qed.

(** A completed run on a host where the reports cannot be listed: the
    [except] clause runs after the statements of the completed run, and
    the one run is counted as completed and as failed, with two
    durations, and lowers the gauge twice. *)
Example footer_failure_counts_the_run_twice :
  agent_run (_process_alert test_config unlisted_env
               (_make_alert "PD-1" "api" (Some P2)) "trace-1" busy_app)
    = Some (Return {| Agent.summary := Agent.FinalText "Resolved."; Agent.turns := 1;
                      Agent.input_tokens := 120; Agent.output_tokens := 30;
                      Agent.models_used := ["gpt-4o"%string];
                      Agent.tool_calls_made := [] |}) ∧
  (λ s, (agent_runs_completed s, agent_runs_failed s, length (run_durations s),
         err_type <$> recent_errors s))
    (state (world (app (_process_alert test_config unlisted_env
                          (_make_alert "PD-1" "api" (Some P2)) "trace-1" busy_app))))
    = (1, 1, 2%nat, ["agent_failure"%string]) ∧
  incidents_active_updown
    (telemetry (world (app (_process_alert test_config unlisted_env
                              (_make_alert "PD-1" "api" (Some P2)) "trace-1" busy_app))))
    = incidents_active_updown (telemetry busy_world) - 2 ∧
  (entry_status <$>
     _alert_queue (app (_process_alert test_config unlisted_env
                          (_make_alert "PD-1" "api" (Some P2)) "trace-1" busy_app))
       !! "PD-1"%string) = Some "failed"%string.
Proof. split_and!; vm_compute; reflexivity. Qed.
End QueueProperties.

(** * The intake writes its own fields only *)
Module FrameFacts.
Import Py Models State Telemetry Config Intake IntakeSpec IntakeFacts Main Ops OpsSpec.

Local Arguments scan_body : simpl never.
Local Arguments rest_of_world : simpl never.

Lemma dispatch_frame a t now w : rest_of_world (dispatch a t now w) = rest_of_world w.
Proof. done. Qed.

Lemma submit_frame a t now w d w' :
  submit a t now w = Some (d, w') → rest_of_world w' = rest_of_world w.
Proof.
  unfold submit. intros H. repeat case_match; simplify_eq/=; try done.
  destruct (Heapq.heappush _ _ _); by simplify_eq/=.
Qed.

Lemma scan_body_frame now c w e r :
  rest_of_world (scan_body now c (w, e, r)).1.1 = rest_of_world w.
Proof. unfold scan_body. by repeat case_match. Qed.

Lemma scan_loop_frame fuel now : ∀ w e r res,
  scan_loop fuel now (w, e, r) = Some res → rest_of_world res.1.1 = rest_of_world w.
Proof.
  induction fuel as [|fuel IH]; intros w e r res H; simpl in H.
  - destruct (_queue (intake w)); by simplify_eq/=.
  - destruct (_queue (intake w)) as [|a q]; [by simplify_eq/=|].
    destruct (Heapq.heappop QueuedAlert_lt (a :: q)) as [[c q']|]; [|done].
    simpl in H.
    pose proof (scan_body_frame now c (upd_intake (set_queue q') w) e r) as Hb.
    destruct (scan_body now c (upd_intake (set_queue q') w, e, r)) as [[w1 e1] r1].
    apply IH in H. simpl in Hb. by rewrite H, Hb.
Qed.

Lemma _dispatch_next_frame now started w w' :
  _dispatch_next now started w = Some w' → rest_of_world w' = rest_of_world w.
Proof.
  unfold _dispatch_next. intros H.
  destruct (_queue (intake w)) as [|a q] eqn:Hq; [by simplify_eq|].
  destruct (_ <=? _); [by simplify_eq|].
  destruct (scan_loop _ now (w, None, [])) as [[[w1 e1] r1]|] eqn:Hscan; [|done].
  apply scan_loop_frame in Hscan. simpl in H, Hscan.
  destruct (Heapq.heapify QueuedAlert_lt r1) as [q1|]; [|done]. simpl in H.
  destruct e1; injection H as <-; by rewrite <- Hscan.
Qed.

Lemma _run_wrapper_exit_frame k now started w w' :
  _run_wrapper_exit k now started w = Some w' → rest_of_world w' = rest_of_world w.
Proof.
  unfold _run_wrapper_exit, _on_complete. intros H.
  destruct (_tasks (intake w) !! k) as [[a tr]|]; [|done]. simpl in H.
  destruct (negb _).
  - match type of H with context [_dispatch_next ?n ?s ?w0] =>
      destruct (_dispatch_next n s w0) as [w1|] eqn:Hnext end; [|done].
    apply _dispatch_next_frame in Hnext. injection H as <-.
    change (rest_of_world w1 = rest_of_world w). by rewrite Hnext.
  - by injection H as <-.
Qed.

Lemma step_frame ev w d w' :
  step ev w = Some (d, w') → rest_of_world w' = rest_of_world w.
Proof.
  destruct ev as [a t now|k now started|]; simpl; intros H.
  - destruct (submit a t now w) as [[d0 w0]|] eqn:Hs; [|done].
    simplify_eq/=. by eapply submit_frame.
  - destruct (_run_wrapper_exit k now started w) as [w0|] eqn:He; [|done].
    simplify_eq/=. by eapply _run_wrapper_exit_frame.
  - simplify_eq. destruct (shutdown_spec w) as (_ & Hs & Ht).
    unfold rest_of_world. by rewrite Hs, Ht.
Qed.

(** ** The intake reads its own fields only *)

Lemma submit_reads_intake a t now w1 w2 :
  intake w1 = intake w2 →
  (λ r, (r.1, intake r.2)) <$> submit a t now w1
  = (λ r, (r.1, intake r.2)) <$> submit a t now w2.
Proof.
  destruct w1 as [i s1 t1], w2 as [i2 s2 t2]. simpl. intros <-.
  unfold submit. simpl. repeat case_match; try done.
  by destruct (Heapq.heappush _ _ _).
Qed.

Lemma scan_body_reads_intake now c w1 w2 e r :
  intake w1 = intake w2 →
  intake (scan_body now c (w1, e, r)).1.1 = intake (scan_body now c (w2, e, r)).1.1 ∧
  (scan_body now c (w1, e, r)).1.2 = (scan_body now c (w2, e, r)).1.2 ∧
  (scan_body now c (w1, e, r)).2 = (scan_body now c (w2, e, r)).2.
Proof.
  destruct w1 as [i s1 t1], w2 as [i2 s2 t2]. simpl. intros <-.
  unfold scan_body. simpl. by repeat case_match.
Qed.

Lemma scan_loop_reads_intake fuel now : ∀ w1 w2 e r,
  intake w1 = intake w2 →
  match scan_loop fuel now (w1, e, r), scan_loop fuel now (w2, e, r) with
  | Some res1, Some res2 =>
      intake res1.1.1 = intake res2.1.1 ∧ res1.1.2 = res2.1.2 ∧ res1.2 = res2.2
  | None, None => True
  | _, _ => False
  end.
Proof.
  induction fuel as [|fuel IH]; intros w1 w2 e r Hi; simpl; rewrite <- Hi.
  - by destruct (_queue (intake w1)).
  - destruct (_queue (intake w1)) as [|a q]; [done|].
    destruct (Heapq.heappop QueuedAlert_lt (a :: q)) as [[c q']|]; [|done]. simpl.
    destruct (scan_body_reads_intake now c (upd_intake (set_queue q') w1)
                (upd_intake (set_queue q') w2) e r) as (H1 & H2 & H3).
    { simpl. by rewrite Hi. }
    destruct (scan_body now c (upd_intake (set_queue q') w1, e, r)) as [[w1' e1] r1].
    destruct (scan_body now c (upd_intake (set_queue q') w2, e, r)) as [[w2' e2] r2].
    simpl in *. subst. by apply IH.
Qed.

Lemma _dispatch_next_reads_intake now started w1 w2 :
  intake w1 = intake w2 →
  intake <$> _dispatch_next now started w1 = intake <$> _dispatch_next now started w2.
Proof.
  intros Hi. unfold _dispatch_next. rewrite <- Hi.
  destruct (_queue (intake w1)) as [|a q]; [by simpl; rewrite Hi|].
  destruct (_ <=? _); [by simpl; rewrite Hi|].
  pose proof (scan_loop_reads_intake (length (a :: q)) now w1 w2 None [] Hi) as Hscan.
  destruct (scan_loop _ now (w1, None, [])) as [[[w1' e1] r1]|],
           (scan_loop _ now (w2, None, [])) as [[[w2' e2] r2]|]; try done.
  simpl in *. destruct Hscan as (Hi' & -> & ->).
  destruct (Heapq.heapify QueuedAlert_lt r2) as [q2|]; [|done]. simpl.
  destruct e2; simpl; by rewrite Hi'.
Qed.

Lemma _run_wrapper_exit_reads_intake k now started w1 w2 :
  intake w1 = intake w2 →
  intake <$> _run_wrapper_exit k now started w1
  = intake <$> _run_wrapper_exit k now started w2.
Proof.
  intros Hi. unfold _run_wrapper_exit, _on_complete. rewrite <- Hi.
  destruct (_tasks (intake w1) !! k) as [[a tr]|]; [|done]. simpl. rewrite <- Hi.
  destruct (negb _).
  - match goal with |- context [_dispatch_next ?n ?s (upd_intake ?f3 (upd_intake ?f2
                                 (upd_intake ?f1 w1)))] =>
      pose proof (_dispatch_next_reads_intake n s
                    (upd_intake f3 (upd_intake f2 (upd_intake f1 w1)))
                    (upd_intake f3 (upd_intake f2 (upd_intake f1 w2)))) as Hnext end.
    simpl in Hnext. rewrite Hi in Hnext. specialize (Hnext eq_refl).
    match type of Hnext with intake <$> ?x = intake <$> ?y =>
      destruct x as [w1'|], y as [w2'|] end; simplify_eq/=; try done.
    by rewrite Hnext.
  - simpl. by rewrite Hi.
Qed.

Lemma shutdown_reads_intake w1 w2 :
  intake w1 = intake w2 → intake (shutdown w1) = intake (shutdown w2).
Proof.
  intros Hi. destruct (shutdown_spec w1) as (-> & _), (shutdown_spec w2) as (-> & _).
  by rewrite Hi.
Qed.
End FrameFacts.

(** * The /ops endpoints, the webhook counters and the hourly budget *)
Module ServiceProperties.
Import Py Models State Telemetry Config Intake IntakeSpec IntakeFacts Main Ops OpsSpec.
Import PyFacts ProcessFacts Examples ExampleConfig ExampleRuns ExampleProcess ExampleQueue.
Import ExampleOps ExampleWorlds.

Local Arguments compare_digest : simpl never.
Local Arguments startswith : simpl never.
Local Arguments removeprefix : simpl never.

Lemma bearer_inj t t' : "Bearer " +:+ t = "Bearer " +:+ t' → t = t'.
Proof.
  intros H. apply (f_equal (removeprefix "Bearer ")) in H.
  by rewrite !removeprefix_app in H.
Qed.

(** X11. [_require_ops_auth] by the [authorization] header: with no
    token configured every request passes; otherwise a header that does
    not start with "Bearer " (a missing one, or another case of the
    word) is answered 401, a header "Bearer t" passes when [t] is the
    configured token and is answered 403 when it is another ASCII
    string, the empty one included; and when [t] or the configured
    token is not ASCII the comparison raises [TypeError]. *)
Theorem ops_auth_by_header config request :
  (_require_ops_auth config request = Answered ()
   ↔ ops_auth_token config = ""%string
     ∨ isascii (ops_auth_token config) = true ∧
       authorization request = "Bearer " +:+ ops_auth_token config) ∧
  (_require_ops_auth config request = Refused 401 "Missing authorization header"
   ↔ ops_auth_token config ≠ ""%string ∧
     startswith "Bearer " (authorization request) = false) ∧
  (_require_ops_auth config request = Refused 403 "Invalid auth token"
   ↔ ops_auth_token config ≠ ""%string ∧
     ∃ t, authorization request = "Bearer " +:+ t ∧ t ≠ ops_auth_token config ∧
          isascii t = true ∧ isascii (ops_auth_token config) = true) ∧
  (_require_ops_auth config request = Crashed "TypeError"
   ↔ ops_auth_token config ≠ ""%string ∧
     ∃ t, authorization request = "Bearer " +:+ t ∧
          (isascii t = false ∨ isascii (ops_auth_token config) = false)) ∧
  _require_ops_auth config request
    ∈ [Answered (); Refused 401 "Missing authorization header";
       Refused 403 "Invalid auth token"; Crashed "TypeError"].
Proof.
  unfold _require_ops_auth. fold (authorization request).
  set (auth := authorization request). set (token := ops_auth_token config).
  case_bool_decide as Hempty.
  { split_and!; [naive_solver..|set_solver]. }
  destruct (startswith "Bearer " auth) eqn:Hstart; simpl.
  2: { split_and!; [| | | |set_solver].
       - split; [done|]. intros [?|[_ Heq]]; [done|].
         by rewrite Heq, startswith_app in Hstart.
       - naive_solver.
       - split; [done|]. intros (_ & t & Heq & _).
         by rewrite Heq, startswith_app in Hstart.
       - split; [done|]. intros (_ & t & Heq & _).
         by rewrite Heq, startswith_app in Hstart. }
  pose proof (startswith_inv _ _ Hstart) as Hauth.
  set (t := drop_chars (String.length "Bearer ") auth) in *.
  assert (removeprefix "Bearer " auth = t) as ->.
  { rewrite Hauth. apply removeprefix_app. }
  unfold compare_digest.
  destruct (isascii t) eqn:Ht, (isascii token) eqn:Htoken; simpl.
  - case_bool_decide as Heq.
    + split_and!; [| | | |set_solver].
      * split; [|done]. intros _. right. split; [done|]. by rewrite Hauth, Heq.
      * naive_solver.
      * split; [done|]. intros (_ & t' & Heq' & Hne & _).
        rewrite Hauth in Heq'. apply bearer_inj in Heq'. congruence.
      * split; [done|]. intros (_ & t' & Heq' & [H|H]); [|congruence].
        rewrite Hauth in Heq'. apply bearer_inj in Heq'. congruence.
    + split_and!; [| | | |set_solver].
      * split; [done|]. intros [?|[_ Heq']]; [done|].
        rewrite Hauth in Heq'. apply bearer_inj in Heq'. congruence.
      * naive_solver.
      * split; [|done]. intros _. split; [done|]. by exists t.
      * split; [done|]. intros (_ & t' & Heq' & [H|H]); [|congruence].
        rewrite Hauth in Heq'. apply bearer_inj in Heq'. congruence.
  - split_and!; [| | | |set_solver].
    + split; [done|]. intros [?|[? _]]; [done|congruence].
    + naive_solver.
    + split; [done|]. intros (_ & t' & _ & _ & _ & ?). congruence.
    + split; [|done]. intros _. split; [done|]. exists t. split; [done|by right].
  - split_and!; [| | | |set_solver].
    + split; [done|]. intros [?|[_ Heq']]; [done|].
      rewrite Hauth in Heq'. apply bearer_inj in Heq'. congruence.
    + naive_solver.
    + split; [done|]. intros (_ & t' & Heq' & _ & ? & _).
      rewrite Hauth in Heq'. apply bearer_inj in Heq'. congruence.
    + split; [|done]. intros _. split; [done|]. exists t. split; [done|by left].
  - split_and!; [| | | |set_solver].
    + split; [done|]. intros [?|[? _]]; [done|congruence].
    + naive_solver.
    + split; [done|]. intros (_ & t' & _ & _ & _ & ?). congruence.
    + split; [|done]. intros _. split; [done|]. exists t. split; [done|by right].
Qed.

Lemma rest_of_world_draining w w' :
  rest_of_world w' = rest_of_world w → draining (state w') = draining (state w).
Proof. intros H. by apply (f_equal (λ p, draining p.1)) in H. Qed.

(** X12. The intake writes its own fields only: a step of it (a
    submit, the exit of a run with the scan that follows, the shutdown)
    changes no field of [state] but [alerts_deduplicated],
    [alerts_queued], [alerts_expired] and [active_incidents], and no
    instrument but the counters of these three, the gauge of active
    incidents and the gauge of the queue depth. The webhook and run
    counters, the token log, the errors and [draining] are as before. *)
Theorem intake_step_writes_its_own ev w d w' :
  step ev w = Some (d, w') →
  rest_of_state (state w') = rest_of_state (state w) ∧
  rest_of_instruments (telemetry w') = rest_of_instruments (telemetry w).
Proof.
  intros H. apply FrameFacts.step_frame in H. unfold rest_of_world in H.
  by apply pair_equal_spec in H.
Qed.

Lemma intake_step_writes_its_own_witness :
  ∃ w', step (Complete 0 602 602) crowded_world = Some (None, w') ∧
        alerts_expired (state w') = alerts_expired (state crowded_world) + 1 ∧
        rest_of_state (state w') = rest_of_state (state crowded_world).
Proof.
  eexists. split; [vm_compute; reflexivity|]. split; [vm_compute; reflexivity|].
  refine (proj1 (intake_step_writes_its_own (Complete 0 602 602) crowded_world None _ _)).
  vm_compute. reflexivity.
Defined.

(** X20. The intake reads its own fields only: what a step answers
    and what it leaves in the fields of the intake are the same from
    two states that differ in [state] and in the instruments. The
    drain flag, the counters and the token log have no part in what is
    deduplicated, queued, dispatched or expired. *)
Theorem intake_step_reads_its_own ev w1 w2 :
  intake w1 = intake w2 → decision (step ev w1) = decision (step ev w2).
Proof.
  intros Hi. unfold decision. destruct ev as [a t now|k now started|]; simpl.
  - pose proof (FrameFacts.submit_reads_intake a t now w1 w2 Hi) as Hs.
    destruct (submit a t now w1) as [[d1 w1']|], (submit a t now w2) as [[d2 w2']|];
      simplify_eq/=; try done.
    by f_equal; f_equal.
  - pose proof (FrameFacts._run_wrapper_exit_reads_intake k now started w1 w2 Hi) as He.
    destruct (_run_wrapper_exit k now started w1) as [w1'|],
             (_run_wrapper_exit k now started w2) as [w2'|]; simplify_eq/=; try done.
    by rewrite He.
  - pose proof (FrameFacts.shutdown_reads_intake w1 w2 Hi) as Hs. simpl in *. by rewrite Hs.
Qed.

Lemma intake_step_reads_its_own_witness :
  decision (step (Complete 0 602 602) (upd_state (set_draining true) crowded_world))
  = decision (step (Complete 0 602 602) crowded_world) ∧
  (_tasks <$> (snd <$> decision (step (Complete 0 602 602) crowded_world)))
  = Some [(_make_alert "inc-3" "db" None, "t3"%string)].
Proof.
  split; [|vm_compute; reflexivity].
  refine (intake_step_reads_its_own (Complete 0 602 602)
            (upd_state (set_draining true) crowded_world) crowded_world _).
  vm_compute. reflexivity.
Defined.

(** X13. Drain mode. [ops_drain] answers "draining" only to an
    authorized request, and then it sets [draining] and nothing else.
    In a draining state both webhook endpoints answer 503 and do no
    more than count the request as received, so nothing is submitted to
    the intake; and nothing takes the service out of drain mode: the
    webhook endpoints, the steps of the intake, [_process_alert] and
    [complete_alert] leave [draining] set. *)
Theorem ops_drain_refuses_webhooks config request w n w' :
  ops_drain config request w = (Answered n, w') →
  _require_ops_auth config request = Answered () ∧
  n = size (active_incidents (state w)) ∧
  w' = upd_state (set_draining true) w ∧ draining (state w') = true ∧
  ∀ w1, draining (state w1) = true →
    (∀ request' trace_id now,
       receive_webhook config request' trace_id now w1
         = (HTTPException 503 "Service is draining", count_received w1) ∧
       receive_gcp_webhook config request' trace_id now w1
         = (HTTPException 503 "Service is draining", count_received w1)) ∧
    draining (state (count_received w1)) = true ∧
    intake (count_received w1) = intake w1 ∧
    (∀ ev d w2, step ev w1 = Some (d, w2) → draining (state w2) = true) ∧
    (∀ env alert trace_id q,
       draining (state (world (app (_process_alert config env alert trace_id
                                      {| world := w1; _alert_queue := q |})))) = true) ∧
    (∀ incident now q,
       draining (state (world (globals (complete_alert incident now
                                        {| world := w1; _alert_queue := q |})))) = true).
Proof.
  unfold ops_drain. destruct (_require_ops_auth config request) as [[]| |] eqn:Hauth;
    [|done..].
  intros [= <- <-]. split_and!; [done..|].
  intros w1 Hd. split_and!.
  - intros request' trace_id now. unfold receive_webhook, receive_gcp_webhook. simpl.
    by rewrite Hd.
  - done.
  - done.
  - intros ev d w2 Hstep. apply FrameFacts.step_frame in Hstep.
    by rewrite (rest_of_world_draining _ _ Hstep).
  - intros env alert trace_id q. unfold _process_alert.
    destruct (_is_hourly_budget_exhausted _ _ _).
    + by destruct (_escalate_budget_exhausted _ _ _ _ _ _ _).
    + destruct (Agent.run_agent _ _ _) as [r|exc]; [|done].
      by destruct (_append_cost_to_report env _ r _).
  - intros incident now q. unfold complete_alert. simpl.
    by destruct (q !! incident).
Qed.

Lemma ops_drain_refuses_webhooks_witness :
  ∃ w', ops_drain test_config (bearer_request "Bearer ops-test") crowded_world
          = (Answered 1%nat, w') ∧
        receive_webhook test_config
          (triggered_request (_make_alert "inc-9" "cache" (Some P1))) "t9" 5 w'
          = (HTTPException 503 "Service is draining", count_received w') ∧
        _known_incidents (intake (count_received w'))
          = _known_incidents (intake crowded_world).
Proof.
  eexists. split; [vm_compute; reflexivity|].
  destruct (ops_drain_refuses_webhooks test_config (bearer_request "Bearer ops-test")
              crowded_world 1%nat _ ltac:(vm_compute; reflexivity))
    as (_ & _ & _ & Hd & Hrefuse).
  destruct (Hrefuse _ Hd) as (Hweb & _).
  split; [apply Hweb|reflexivity].
Defined.

Lemma Inv_frame w w' :
  intake w' = intake w →
  intake_queue_depth_updown (telemetry w') = intake_queue_depth_updown (telemetry w) →
  Inv w → Inv w'.
Proof. intros Hi Hg [HI HG]. split; [by rewrite Hi|by rewrite Hi, Hg]. Qed.

Lemma submit_dispositions a t now w d w' :
  submit a t now w = Some (d, w') →
  d ∈ ["rejected"; "deduplicated"; "dispatched"; "queued"]%string.
Proof.
  unfold submit. intros H. repeat case_match; simplify_eq/=; try set_solver.
  destruct (Heapq.heappush _ _ _); simplify_eq/=. set_solver.
Qed.

Lemma rest_of_world_counted w1 w' r :
  rest_of_world w' = rest_of_world w1 →
  ∀ w, counted w w1 r → counted w w' r.
Proof.
  intros H w (H1 & H2 & H3 & H4 & H5 & H6 & H7 & H8).
  pose proof (f_equal (λ p, webhooks_received p.1) H) as E1.
  pose proof (f_equal (λ p, webhooks_processed p.1) H) as E2.
  pose proof (f_equal (λ p, webhooks_ignored p.1) H) as E3.
  pose proof (f_equal (λ p, webhooks_failed p.1) H) as E4.
  pose proof (f_equal (λ p, webhooks_received_counter p.2) H) as E5.
  pose proof (f_equal (λ p, webhooks_processed_counter p.2) H) as E6.
  pose proof (f_equal (λ p, webhooks_ignored_counter p.2) H) as E7.
  pose proof (f_equal (λ p, webhooks_failed_counter p.2) H) as E8.
  simpl in *. unfold counted. by rewrite E1, E2, E3, E4, E5, E6, E7, E8.
Qed.

Local Arguments submit : simpl never.
Local Arguments _verify_signature : simpl never.

Lemma admit_alert_counted alert trace_id now w w1 :
  Inv w1 →
  (∀ r, tally r = (1, 0, 0) →
        counted w (upd_telemetry (add_webhooks_processed_counter 1)
                     (upd_state (λ s, set_webhooks_processed (webhooks_processed s + 1) s)
                        w1)) r) →
  counted w (admit_alert alert trace_id now w1).2 (admit_alert alert trace_id now w1).1.
Proof.
  intros HI Hc. unfold admit_alert.
  set (w2 := upd_telemetry _ (upd_state _ w1)) in *.
  assert (Inv w2) as HI2 by by eapply Inv_frame.
  destruct (submit_Inv alert trace_id now w2 HI2) as (d & w' & Hs & _).
  rewrite Hs. simpl.
  pose proof (submit_dispositions _ _ _ _ _ _ Hs) as Hd.
  eapply rest_of_world_counted; [by eapply FrameFacts.submit_frame|].
  apply Hc. simpl. rewrite bool_decide_eq_false_2; [done|].
  intros ->. set_solver.
Qed.

(** X14. Every webhook is counted once. In a state the intake can
    reach, a request to either webhook endpoint adds one to
    [webhooks_received] and, by its answer, one to exactly one of the
    other counters: to [webhooks_ignored] when it is answered
    "ignored", to [webhooks_processed] when it is answered with the
    disposition of the intake, to [webhooks_failed] when it is answered
    400 or 401; a request answered 503, or ended by an exception that is
    not an [HTTPException], is counted as received only. The counter
    instruments move as the fields of [state] do. *)
Theorem webhook_is_counted_once max ttl config request trace_id now w :
  1 ≤ max → reachable max ttl w →
  counted w (receive_webhook config request trace_id now w).2
    (receive_webhook config request trace_id now w).1 ∧
  counted w (receive_gcp_webhook config request trace_id now w).2
    (receive_gcp_webhook config request trace_id now w).1.
Proof.
  intros Hmax Hr. pose proof (reachable_Inv _ _ _ Hmax Hr) as HI.
  assert (∀ r, tally r = (0, 0, 0) → counted w (count_received w) r) as Hzero.
  { intros r Hr0. unfold counted. rewrite Hr0. simpl. split_and!; lia. }
  assert (Inv (count_received w)) as HI1 by by eapply Inv_frame.
  split.
  - unfold receive_webhook. fold (count_received w).
    destruct (draining (state (count_received w))); [by apply Hzero|].
    match goal with |- context [match ?v with Return _ => _ | Raise _ => _ end] =>
      destruct v as [[|]|exc] end; simpl.
    + destruct (json request) as [payload|exc]; [|by apply Hzero].
      destruct (negb _).
      * unfold ignore_event, counted. simpl. split_and!; lia.
      * destruct (from_webhook payload) as [alert|].
        -- apply admit_alert_counted; [done|]. intros r Hr1.
           unfold counted. rewrite Hr1. simpl. split_and!; lia.
        -- unfold counted. simpl. split_and!; lia.
    + unfold counted. simpl. split_and!; lia.
    + by apply Hzero.
  - unfold receive_gcp_webhook. fold (count_received w).
    destruct (draining (state (count_received w))); [by apply Hzero|].
    match goal with |- context [match ?v with Return _ => _ | Raise _ => _ end] =>
      destruct v as [[|]|exc] end; simpl.
    + destruct (json request) as [payload|exc]; [|by apply Hzero].
      destruct (negb _).
      * unfold ignore_event, counted. simpl. split_and!; lia.
      * destruct (from_gcp_webhook payload) as [alert|].
        -- apply admit_alert_counted; [done|]. intros r Hr1.
           unfold counted. rewrite Hr1. simpl. split_and!; lia.
        -- unfold counted. simpl. split_and!; lia.
    + unfold counted. simpl. split_and!; lia.
    + by apply Hzero.
Qed.

Lemma webhook_is_counted_once_witness :
  (receive_webhook test_config
     (triggered_request (_make_alert "inc-9" "cache" (Some P1))) "t9" 5 crowded_world).1
    = Returned [("status", "queued"); ("incident_id", "inc-9"); ("trace_id", "t9")]%string ∧
  webhooks_processed
    (state (receive_webhook test_config
              (triggered_request (_make_alert "inc-9" "cache" (Some P1))) "t9" 5
              crowded_world).2)
    = webhooks_processed (state crowded_world) + 1.
Proof.
  split; [vm_compute; reflexivity|].
  destruct (webhook_is_counted_once 1 600 test_config
              (triggered_request (_make_alert "inc-9" "cache" (Some P1))) "t9"%string 5
              crowded_world ltac:(lia) IntakeProperties.crowded_world_reachable)
    as [(_ & Hp & _) _].
  rewrite Hp. vm_compute. reflexivity.
Defined.

Lemma by_type_fold errors : ∀ (counts : gmap string Z) t,
  foldl (λ counts e, <[err_type e := default 0 (counts !! err_type e) + 1]> counts)
    counts errors !! t
  = if decide (count_type t errors = 0) then counts !! t
    else Some (default 0 (counts !! t) + count_type t errors).
Proof.
  unfold count_type.
  induction errors as [|e errors IH]; intros counts t; simpl.
  - done.
  - rewrite IH. destruct (decide (err_type e = t)) as [<-|Hne].
    + rewrite filter_cons_True by done. simpl. rewrite lookup_insert_eq. simpl.
      repeat case_decide; try lia; f_equal; lia.
    + rewrite filter_cons_False by done. by rewrite lookup_insert_ne.
Qed.

(** X15. [ops_errors] counts the recorded errors by their type:
    [by_type] has a key for each type that occurs among them and for no
    other, with the number of its occurrences; [total] is their number,
    and [recent] holds the last twenty of them, or all when they are
    fewer, in their order. *)
Theorem ops_errors_counts_by_type s :
  total (ops_errors s) = length (recent_errors s) ∧
  (∀ t, by_type (ops_errors s) !! t
        = if decide (count_type t (recent_errors s) = 0) then None
          else Some (count_type t (recent_errors s))) ∧
  (∃ older, recent_errors s = older ++ recent (ops_errors s)) ∧
  length (recent (ops_errors s)) = Nat.min (length (recent_errors s)) 20.
Proof.
  unfold ops_errors. simpl. split_and!.
  - done.
  - intros t. rewrite by_type_fold. rewrite lookup_empty. simpl.
    case_decide; [done|]. f_equal.
  - eexists. symmetry. apply take_drop.
  - rewrite length_drop. lia.
Qed.

Lemma sum_nonneg (l : list (Z * Z)) :
  Forall (λ e, 0 ≤ e.2) l → 0 ≤ foldr Z.add 0 ((λ e, e.2) <$> l).
Proof. induction 1 as [|e l He _ IH]; csimpl in *; lia. Qed.

Lemma _tokens_last_hour_entry now s t n :
  Forall (λ e, 0 ≤ e.2) (hourly_token_log s) →
  (t, n) ∈ hourly_token_log s → now - 3600 ≤ t →
  n ≤ _tokens_last_hour now s.
Proof.
  unfold _tokens_last_hour. cbv zeta.
  induction (hourly_token_log s) as [|e l IH]; intros Hpos Hin Ht.
  { by apply elem_of_nil in Hin. }
  apply Forall_cons in Hpos as [He Hl].
  assert (0 ≤ foldr Z.add 0 ((λ e, e.2) <$> filter (λ e, now - 3600 ≤ e.1) l)) as Hsum.
  { apply sum_nonneg. apply Forall_forall. intros x Hx.
    apply list_elem_of_filter in Hx as [_ Hx]. rewrite Forall_forall in Hl. by apply Hl. }
  apply elem_of_cons in Hin as [<-|Hin].
  - rewrite filter_cons_True by done. csimpl. lia.
  - specialize (IH Hl Hin Ht).
    destruct (decide (now - 3600 ≤ e.1)).
    + rewrite filter_cons_True by done. csimpl in *. lia.
    + by rewrite filter_cons_False.
Qed.

Lemma deque_append_elem {A} (n : nat) (d : list A) (x : A) :
  x ∈ deque_append n d x ∧ ∀ y, y ∈ deque_append n d x → y = x ∨ y ∈ d.
Proof.
  unfold deque_append. case_decide.
  - split; [set_solver|]. intros y [Hy| ->%list_elem_of_singleton]%elem_of_app; [|by left].
    right. destruct d; [done|]. simpl in Hy. rewrite drop_0 in Hy. set_solver.
  - split; [set_solver|]. set_solver.
Qed.

(** X16. A run that alone spends the hourly budget stops the next one.
    With an hourly budget set and no negative entry in the token log,
    when a call of [_process_alert] runs the agent and the result holds
    at least [max_tokens_per_hour] tokens, these are logged under the
    clock reading of that moment, and a call of [_process_alert] for
    any alert whose budget check comes within 3600 seconds of that
    reading does not run the agent: the alert is set to escalated and
    the note of the exhausted budget is the first request sent. *)
Theorem spent_hour_stops_the_next_run config env env' alert alert' trace_id trace_id' a r :
  0 < max_tokens_per_hour config →
  Forall (λ e, 0 ≤ e.2) (hourly_token_log (state (world a))) →
  agent_run (_process_alert config env alert trace_id a) = Some (Return r) →
  max_tokens_per_hour config ≤ Agent.input_tokens r + Agent.output_tokens r →
  time env' 1 - 3600 ≤ time env 4 →
  last (hourly_token_log
          (state (world (app (_process_alert config env alert trace_id a)))))
    = Some (time env 4, Agent.input_tokens r + Agent.output_tokens r) ∧
  agent_run (_process_alert config env' alert' trace_id'
               (app (_process_alert config env alert trace_id a))) = None ∧
  (entry_status <$>
     _alert_queue (app (_process_alert config env' alert' trace_id'
                          (app (_process_alert config env alert trace_id a))))
       !! incident_id alert') = Some "escalated"%string ∧
  ∃ note x_trace_id,
    head (requests (_process_alert config env' alert' trace_id'
                      (app (_process_alert config env alert trace_id a))))
      = Some (POST_note (incident_id alert') note x_trace_id).
Proof.
  intros HB Hlog Hrun Hspent Hclock.
  assert ((max_tokens_per_hour config <=? 0) = false) as Hset by lia.
  set (a1 := app (_process_alert config env alert trace_id a)).
  assert (hourly_token_log (state (world a1))
          = deque_append MAX_TOKEN_LOG (hourly_token_log (state (world a)))
              (time env 4, Agent.input_tokens r + Agent.output_tokens r)) as Hlog1.
  { subst a1. revert Hrun. unfold _process_alert. rewrite Hset.
    destruct (_is_hourly_budget_exhausted _ _ _).
    - by destruct (_escalate_budget_exhausted _ _ _ _ _ _ _).
    - destruct (Agent.run_agent _ _ _) as [r0|exc]; simpl; [|done].
      destruct (_append_cost_to_report env _ r0 _); by intros [= ->]. }
  destruct (deque_append_elem MAX_TOKEN_LOG (hourly_token_log (state (world a)))
              (time env 4, Agent.input_tokens r + Agent.output_tokens r))
    as [Hin Hsub].
  split.
  { rewrite Hlog1. unfold deque_append. case_decide; by rewrite last_snoc. }
  assert (_is_hourly_budget_exhausted config (time env' 1) (state (world a1)) = true)
    as Hex.
  { apply _is_hourly_budget_exhausted_spec. split; [done|].
    etrans; [exact Hspent|].
    apply (_tokens_last_hour_entry _ _ (time env 4)); [| |done].
    - rewrite Hlog1. apply Forall_forall. intros y Hy.
      destruct (Hsub y Hy) as [->|Hy']; [simpl; lia|].
      rewrite Forall_forall in Hlog. by apply Hlog.
    - by rewrite Hlog1. }
  unfold _process_alert. simpl. rewrite Hex.
  unfold _escalate_budget_exhausted.
  destruct (send env' _) as [[]|exc]; [destruct (send env' _) as [[]|exc]|]; simpl.
  all: unfold set_status; simpl; rewrite lookup_alter_eq, lookup_insert_eq; simpl.
  all: split_and!; [done..|by eexists _, _].
Qed.

Lemma spent_hour_stops_the_next_run_witness :
  agent_run (_process_alert budget_config later_env (_make_alert "PD-2" "db" None) "trace-2"
               (app (_process_alert budget_config greedy_env
                       (_make_alert "PD-1" "api" (Some P2)) "trace-1" busy_app)))
  = None.
Proof.
  refine (proj1 (proj2
            (spent_hour_stops_the_next_run budget_config greedy_env later_env
               (_make_alert "PD-1" "api" (Some P2)) (_make_alert "PD-2" "db" None)
               "trace-1" "trace-2" busy_app
               {| Agent.summary := Agent.MaxTurnsReached; Agent.turns := 20;
                  Agent.input_tokens := 10000; Agent.output_tokens := 2000;
                  Agent.models_used := ["gpt-4o"%string];
                  Agent.tool_calls_made := replicate 20 "call_ops_endpoint"%string |}
               _ _ _ _ _))).
  - vm_compute. reflexivity.
  - vm_compute. constructor.
  - vm_compute. reflexivity.
  - vm_compute. discriminate.
  - vm_compute. discriminate.
Defined.
End ServiceProperties.

(** * The tool executor: its requests and the scaling limits *)
Module ExecutorProperties.
Import Py PyFacts PyStr Pathlib Tools Scaling Json Executor ExecutorSpec ExampleExecutor.
Import SpecFloat.

Local Arguments startswith : simpl never.
Local Arguments rstrip : simpl never.
Local Arguments get : simpl never.

Lemma lookup_key_Some {A} key (d : gmap string A) x :
  lookup_key key d = Return (Some x) → ∃ s, key = JStr s ∧ d !! s = Some x.
Proof. destruct key; simpl; intros; simplify_eq. by eexists. Qed.

Lemma lookup_key_registered key (d : gmap string string) base :
  lookup_key key d = Return base → default ""%string base ≠ ""%string →
  ∃ s b, key = JStr s ∧ d !! s = Some b ∧ b ≠ ""%string ∧ default ""%string base = b.
Proof.
  intros Hkey Hne. destruct base as [b|]; [|done].
  apply lookup_key_Some in Hkey as (s & -> & Hs). by exists s, b.
Qed.

(** A value that [get] finds under a default it differs from is in the
    dict, under any default. *)
Lemma get_found key a b d :
  get key a d ≠ a → get key b d = get key a d.
Proof.
  unfold get. by destruct (list_find _ _) as [[? []]|].
Qed.

Lemma truthy_ne j a : truthy a = false → truthy j = true → j ≠ a.
Proof. intros Ha Hj ->. congruence. Qed.

Lemma sent_fmap (calls : list HttpCall) : sent (Http <$> calls) = calls.
Proof. unfold sent. induction calls as [|c calls IH]; csimpl; [done|]. by rewrite IH. Qed.

Lemma _call_ops_endpoint_calls repr self out input c :
  c ∈ (_call_ops_endpoint repr self out input).2 →
  ∃ service endpoint,
    get "service_name" (JStr "") input = JStr service ∧
    get "endpoint" (JStr "") input = JStr endpoint ∧
    startswith "/ops/" endpoint = true ∧
    method c ∈ [GET; POST] ∧ at_service self service endpoint c.
Proof.
  unfold _call_ops_endpoint.
  destruct (_ || _); [set_solver|].
  destruct (get "endpoint" (JStr "") input) as [| | | |endpoint| |] eqn:Hendpoint;
    try set_solver.
  destruct (startswith "/ops/" endpoint) eqn:Hops; [|set_solver]. simpl.
  destruct (_ || _); [|set_solver]. simpl.
  destruct (lookup_key _ (services self)) as [base_url|exc] eqn:Hkey; [|set_solver].
  case_bool_decide as Hne; [set_solver|].
  destruct (lookup_key_registered _ _ _ Hkey Hne) as (service & base & Hs & Hbase & Hb & ->).
  match goal with |- context [http out ?c0] => set (call := c0) end.
  intros Hc. assert (c = call) as ->.
  { destruct (http out call) as [response|exc]; [destruct (body_data response)|];
      simpl in Hc; by apply list_elem_of_singleton in Hc. }
  exists service, endpoint. split_and!; [done..| |].
  - subst call. destruct (eq_str _ "GET"); simpl; set_solver.
  - exists base. subst call. by destruct (eq_str _ "GET").
Qed.

Lemma _create_pagerduty_incident_calls self out input :
  Forall (at_events self) (_create_pagerduty_incident self out input).2 ∧
  (length (_create_pagerduty_incident self out input).2 ≤ 1)%nat.
Proof.
  unfold _create_pagerduty_incident.
  destruct (negb _); [split; [apply Forall_nil_2|simpl; lia]|].
  case_bool_decide as Hkey; [split; [apply Forall_nil_2|simpl; lia]|].
  match goal with |- context [http out ?c] => set (call := c) end.
  assert (at_events self call) as Hcall.
  { subst call. unfold at_events. simpl. split_and!; try done. by eexists. }
  assert (Forall (at_events self) [call] ∧ (length [call] ≤ 1)%nat) as Hsent.
  { split; [by apply Forall_singleton|simpl; lia]. }
  destruct (http out call) as [response|exc]; [|done].
  case_bool_decide; [|done].
  destruct (decoded response) as [r|exc]; [|done].
  by destruct (json_get "dedup_key" r), (json_get "message" r).
Qed.

(** The two requests of the tools that address an incident. *)
Lemma incident_post self id body :
  at_incident self id {| method := POST; url := incident_url id +:+ "/notes";
                         headers := pagerduty_headers self; json := body |}.
Proof. split; [done|by left]. Qed.

Lemma incident_put self id body :
  at_incident self id {| method := PUT; url := incident_url id;
                         headers := pagerduty_headers self; json := body |}.
Proof. split; [done|by right]. Qed.

Lemma _escalate_pagerduty_calls repr self out input :
  match get "incident_id" (JStr "") input with
  | JStr id =>
      if startswith "gcp-" id then
        Forall (at_events self) (_escalate_pagerduty repr self out input).2 ∧
        (length (_escalate_pagerduty repr self out input).2 ≤ 1)%nat
      else Forall (at_incident self id) (_escalate_pagerduty repr self out input).2
  | _ => (_escalate_pagerduty repr self out input).2 = []
  end.
Proof.
  unfold _escalate_pagerduty.
  destruct (get "incident_id" (JStr "") input) as [| | | |id| |];
    try by destruct (_ || _).
  destruct (startswith "gcp-" id).
  - destruct (_ || _); [split; [apply Forall_nil_2|simpl; lia]|].
    destruct (slice_to 200 _); [|split; [apply Forall_nil_2|simpl; lia]].
    apply _create_pagerduty_incident_calls.
  - destruct (_ || _); [done|].
    match goal with |- context [http out ?c] => destruct (http out c) end;
      [match goal with |- context [http out ?c] => destruct (http out c) end|];
      repeat first [apply Forall_nil_2
                   |apply Forall_cons_2; [apply incident_post || apply incident_put|]].
Qed.

Lemma _acknowledge_alert_calls repr self out input :
  match get "incident_id" (JStr "") input with
  | JStr id =>
      if startswith "gcp-" id then (_acknowledge_alert repr self out input).2 = []
      else Forall (at_incident self id) (_acknowledge_alert repr self out input).2
  | _ => (_acknowledge_alert repr self out input).2 = []
  end.
Proof.
  unfold _acknowledge_alert.
  destruct (get "incident_id" (JStr "") input) as [| | | |id| |];
    try by destruct (_ || _).
  destruct (startswith "gcp-" id).
  - destruct (_ || _); [done|]. by destruct (slice_to 200 _).
  - destruct (_ || _); [done|].
    match goal with |- context [http out ?c] => destruct (http out c) end;
      [match goal with |- context [http out ?c] => destruct (http out c) end|];
      repeat first [apply Forall_nil_2
                   |apply Forall_cons_2; [apply incident_post || apply incident_put|]].
Qed.

Lemma compare_not_lt a b c :
  bool_decide (Some (a ?= b) = c) = false → c = Some Lt → b ≤ a.
Proof.
  intros H ->. apply bool_decide_eq_false in H.
  destruct (Z.compare_spec a b); [lia|done|lia].
Qed.

Lemma compare_not_gt a b c :
  bool_decide (Some (a ?= b) = c) = false → c = Some Gt → a ≤ b.
Proof.
  intros H ->. apply bool_decide_eq_false in H.
  destruct (Z.compare_spec a b); [lia|lia|done].
Qed.

(** What passes the two tests of [_scale_service]. *)
Lemma passes_between lo hi target :
  lt_int target lo = Return false → gt_int target hi = Return false →
  between lo hi target ∨ target = JFloat S754_nan.
Proof.
  unfold lt_int, gt_int, compare_int.
  destruct target as [|b|n|f|s|l|d]; try done.
  - intros [= Hlo] [= Hhi]. left. simpl.
    split; [by eapply compare_not_lt|by eapply compare_not_gt].
  - intros [= Hlo] [= Hhi]. left. simpl.
    split; [by eapply compare_not_lt|by eapply compare_not_gt].
  - destruct f as [z|[]| |z m e]; simpl.
    + intros [= Hlo] [= Hhi]. left.
      split; [by eapply compare_not_lt|by eapply compare_not_gt].
    + by intros [= Hlo].
    + by intros _ [= Hhi].
    + intros _ _. by right.
    + intros [= Hlo] [= Hhi]. left. destruct (0 <=? e).
      * split; [by eapply compare_not_lt|by eapply compare_not_gt].
      * split; [by eapply compare_not_lt|by eapply compare_not_gt].
Qed.

(** What a request of [_scale_service] is, when one is made. *)
Lemma _scale_service_call repr self out input c :
  c ∈ (_scale_service repr self out input).2 →
  ∃ service scaling base,
    get "service_name" (JStr "") input = JStr service ∧
    scaling_config self !! service = Some scaling ∧
    mode scaling = APPLICATION ∧
    truthy (get "target_instances" (JInt 0) input) = true ∧
    truthy (get "reason" (JStr "") input) = true ∧
    lt_int (get "target_instances" (JInt 0) input) (min_instances scaling)
      = Return false ∧
    gt_int (get "target_instances" (JInt 0) input) (max_instances scaling)
      = Return false ∧
    services self !! service = Some base ∧ base ≠ ""%string ∧
    (_scale_service repr self out input).2 = [c] ∧
    c = {| method := POST; url := rstrip "/" base +:+ "/ops/scale";
           headers := ops_headers self;
           json := Some (JObj [("target_instances",
                                get "target_instances" (JInt 0) input);
                               ("reason", get "reason" (JStr "") input)]%string) |}.
Proof.
  unfold _scale_service.
  destruct (truthy (get "service_name" (JStr "") input)); [|set_solver].
  destruct (truthy (get "target_instances" (JInt 0) input)) eqn:Ht; [|set_solver].
  destruct (truthy (get "reason" (JStr "") input)) eqn:Hr; [|set_solver].
  simpl.
  destruct (lookup_key _ (scaling_config self)) as [[scaling|]|exc] eqn:Hs;
    [|set_solver..].
  apply lookup_key_Some in Hs as (service & Hservice & Hs). rewrite Hservice. simpl.
  destruct (lt_int _ (min_instances scaling)) as [[]|] eqn:Hlo; [set_solver| |set_solver].
  destruct (gt_int _ (max_instances scaling)) as [[]|] eqn:Hhi; [set_solver| |set_solver].
  destruct (mode scaling) eqn:Hmode; [|set_solver].
  destruct (services self !! service) as [base|] eqn:Hbase; [|set_solver]. simpl.
  case_bool_decide as Hne; [set_solver|].
  match goal with |- context [http out ?c0] => set (call := c0) end.
  intros Hc. exists service, scaling, base.
  assert (c = call) as ->.
  { destruct (http out call) as [response|exc]; [destruct (body_data response)|];
      simpl in Hc; by apply list_elem_of_singleton in Hc. }
  split_and!; try done.
  destruct (http out call) as [response|exc]; [destruct (body_data response)|]; done.
Qed.

Lemma Forall_requests (P : HttpCall → Prop) (Q : Prop) (calls : list HttpCall) :
  Forall P calls →
  Forall (λ e, match e with Http c => P c | Fs _ => Q end) (Http <$> calls).
Proof. intros H. by apply Forall_fmap. Qed.

Lemma execute_on_dict repr self out tool_name h d :
  handler repr self out tool_name
    = Some (on_dict (λ input, ((h input).1, Http <$> (h input).2))) →
  (execute repr self out tool_name (JObj d)).2 = Http <$> (h d).2 ∧
  ∀ input, (∀ d, input ≠ JObj d) → (execute repr self out tool_name input).2 = [].
Proof.
  intros Hh. unfold execute. rewrite Hh. split.
  - simpl. by destruct (h d) as [[a|exc] calls].
  - intros input Hinput. destruct input; try done. by destruct (Hinput members).
Qed.

Lemma json_get_dict key d : json_get key (JObj d) = Return (get key (JStr "") d).
Proof. done. Qed.

(** X17. Where the executor sends requests. Whatever tool the LLM
    names and whatever JSON value it gives as input, each call that
    [execute] makes of the HTTP client is the one its tool allows.
    [call_ops_endpoint] calls the service that the input names, if the
    registry has it: the URL is the registered base URL, without its
    trailing slashes, followed by the endpoint of the input, which is a
    string that starts with /ops/, the method is GET or POST, and the
    headers are the trace id and the ops token. [scale_service] posts to /ops/scale of the service
    it names, in the same way. [escalate_pagerduty] and
    [acknowledge_alert] call the URL of the PagerDuty REST API for
    incidents followed by the incident id of the input, a string that
    does not start with "gcp-", under the PagerDuty token; for an id
    that starts with "gcp-" the first posts an event to the Events API,
    as [create_pagerduty_incident] does, with no header and the routing
    key in its body, and the second calls nothing. The other tools make
    no request, and only [write_incident_report] touches the file
    system. The endpoint and the incident id are pasted into the URL as
    they stand: the prefix is all the code tests, so that every
    endpoint that starts with /ops/ is called, dot segments, a query
    or a fragment in it included. *)
Theorem execute_sends_allowed_requests :
  (∀ repr self out tool_name input,
     Forall (λ e, match e with
                  | Http c => destination self tool_name input c
                  | Fs _ => tool_name = "write_incident_report"%string
                  end) (execute repr self out tool_name input).2) ∧
  (∀ repr self out service base endpoint,
     services self !! service = Some base → base ≠ ""%string → service ≠ ""%string →
     startswith "/ops/" endpoint = true →
     (execute repr self out "call_ops_endpoint"
        (JObj [("service_name", JStr service); ("endpoint", JStr endpoint)]%string)).2
     = [Http {| method := GET; url := rstrip "/" base +:+ endpoint;
                headers := ops_headers self; json := None |}]).
Proof.
  split.
  - intros repr self out tool_name input.
    assert (∀ h P,
      handler repr self out tool_name
        = Some (on_dict (λ input, ((h input).1, Http <$> (h input).2))) →
      (∀ d, Forall (P d) (h d).2) →
      (∀ d c, P d c → destination self tool_name (JObj d) c) →
      Forall (λ e, match e with
                   | Http c => destination self tool_name input c
                   | Fs _ => tool_name = "write_incident_report"%string
                   end) (execute repr self out tool_name input).2) as Hvia.
    { intros h P Hh HP Hdest.
      destruct (execute_on_dict repr self out tool_name h [] Hh) as [_ Hother].
      destruct input as [| | | | | |d]; try (rewrite Hother by done; apply Forall_nil_2).
      destruct (execute_on_dict repr self out tool_name h d Hh) as [-> _].
      apply Forall_requests. eapply Forall_impl; [apply HP|]. apply Hdest. }
    unfold handler in Hvia.
    destruct (decide (tool_name = "call_ops_endpoint"%string)) as [->|H1].
    { eapply (Hvia _ (λ d c, c ∈ (_call_ops_endpoint repr self out d).2)); [done| |].
      - intros d. by apply Forall_forall.
      - intros d c Hc. apply _call_ops_endpoint_calls in Hc
          as (service & endpoint & Hs & He & Hops & Hm & Hat).
        exists service, endpoint. rewrite !json_get_dict, Hs, He. done. }
    destruct (decide (tool_name = "escalate_pagerduty"%string)) as [->|H2].
    { eapply (Hvia _ (λ d c, c ∈ (_escalate_pagerduty repr self out d).2)); [done| |].
      - intros d. by apply Forall_forall.
      - intros d c Hc. pose proof (_escalate_pagerduty_calls repr self out d) as Hcalls.
        unfold destination. simpl.
        destruct (get "incident_id" (JStr "") d) as [| | | |id| |] eqn:Hid;
          try (rewrite Hcalls in Hc; by apply elem_of_nil in Hc).
        exists id. split; [done|].
        destruct (startswith "gcp-" id).
        + destruct Hcalls as [Hcalls _]. rewrite Forall_forall in Hcalls. by apply Hcalls.
        + rewrite Forall_forall in Hcalls. by apply Hcalls. }
    destruct (decide (tool_name = "acknowledge_alert"%string)) as [->|H3].
    { eapply (Hvia _ (λ d c, c ∈ (_acknowledge_alert repr self out d).2)); [done| |].
      - intros d. by apply Forall_forall.
      - intros d c Hc. pose proof (_acknowledge_alert_calls repr self out d) as Hcalls.
        unfold destination. simpl.
        destruct (get "incident_id" (JStr "") d) as [| | | |id| |] eqn:Hid;
          try (rewrite Hcalls in Hc; by apply elem_of_nil in Hc).
        exists id. split; [done|].
        destruct (startswith "gcp-" id).
        + rewrite Hcalls in Hc. by apply elem_of_nil in Hc.
        + rewrite Forall_forall in Hcalls. split; [done|]. by apply Hcalls. }
    destruct (decide (tool_name = "create_pagerduty_incident"%string)) as [->|H4].
    { eapply (Hvia _ (λ d c, at_events self c)); [done| |].
      - intros d. apply _create_pagerduty_incident_calls.
      - intros d c Hc. done. }
    destruct (decide (tool_name = "scale_service"%string)) as [->|H5].
    { eapply (Hvia _ (λ d c, c ∈ (_scale_service repr self out d).2)); [done| |].
      - intros d. by apply Forall_forall.
      - intros d c Hc. apply _scale_service_call in Hc
          as (service & scaling & base & Hs & _ & _ & _ & _ & _ & _ & Hb & Hne & _ & ->).
        exists service. rewrite json_get_dict, Hs. split_and!; [done..|].
        by exists base. }
    clear Hvia. unfold execute, handler.
    repeat case_bool_decide; try congruence; try apply Forall_nil_2.
    + unfold on_dict. destruct input as [| | | | | |d]; try apply Forall_nil_2.
      destruct (_write_incident_report_json self out d) as [[msg|path|exc] calls]; simpl;
        apply Forall_fmap, Forall_forall; by intros.
    + destruct (email out input); apply Forall_nil_2.
  - intros repr self out service base endpoint Hbase Hne Hservice Hops.
    assert (endpoint ≠ ""%string) as Hendpoint by by intros ->.
    unfold execute, handler, on_dict, _call_ops_endpoint. simpl.
    change (get "service_name" (JStr "")
              [("service_name", JStr service); ("endpoint", JStr endpoint)]%string)
      with (JStr service).
    change (get "endpoint" (JStr "")
              [("service_name", JStr service); ("endpoint", JStr endpoint)]%string)
      with (JStr endpoint).
    change (get "method" (JStr "GET")
              [("service_name", JStr service); ("endpoint", JStr endpoint)]%string)
      with (JStr "GET").
    simpl. rewrite !bool_decide_eq_false_2 by done. simpl.
    rewrite Hops, Hbase. simpl. rewrite bool_decide_eq_false_2 by done.
    destruct (http out _) as [response|exc]; [destruct (body_data response)|]; done.
Qed.

Lemma execute_sends_allowed_requests_witness :
  (execute kind executor failing "call_ops_endpoint"
     (JObj [("service_name", JStr "api");
            ("endpoint", JStr "/ops/../admin/delete?x=1#f")]%string)).2
  = [Http {| method := GET; url := "https://api.internal/ops/../admin/delete?x=1#f";
             headers := [("X-Trace-Id", "trace-1");
                         ("Authorization", "Bearer ops-test")]%string;
             json := None |}].
Proof.
  apply (proj2 execute_sends_allowed_requests kind executor failing "api"%string
           "https://api.internal/"%string "/ops/../admin/delete?x=1#f"%string).
  - vm_compute. reflexivity.
  - discriminate.
  - discriminate.
  - vm_compute. reflexivity.
Defined.

Lemma load_entry_ok strip int limits limits' entry :
  limits_ok limits → load_entry strip int limits entry = Return limits' →
  limits_ok limits'.
Proof.
  intros Hok. unfold load_entry.
  destruct (split "|" (strip entry)) as [|p0 [|p1 [|p2 [|p3 [|]]]]]; try done.
  destruct (int (strip p1)) as [min_inst|]; [|done].
  destruct (int (strip p2)) as [max_inst|]; [|done].
  destruct (parse_mode (strip p3)) as [m|]; [|done].
  destruct (Z.ltb_spec min_inst 1); [done|].
  destruct (Z.ltb_spec max_inst min_inst); [done|].
  intros [= <-]. apply map_Forall_insert_2; [|done]. simpl. by split_and!.
Qed.

Lemma load_entries_ok strip int entries : ∀ limits limits',
  limits_ok limits → load_entries strip int limits entries = Return limits' →
  limits_ok limits'.
Proof.
  induction entries as [|entry entries IH]; intros limits limits' Hok; simpl.
  - by intros [= <-].
  - destruct (load_entry strip int limits entry) as [limits1|] eqn:Hentry; [|done].
    apply IH. by eapply load_entry_ok.
Qed.

Lemma _load_scaling_limits_ok strip int raw limits :
  _load_scaling_limits strip int raw = Return limits → limits_ok limits.
Proof.
  unfold _load_scaling_limits. case_bool_decide.
  - intros [= <-]. apply map_Forall_empty.
  - apply load_entries_ok, map_Forall_empty.
Qed.

Lemma execute_scale_service repr self out input :
  sent (execute repr self out "scale_service" input).2
  = match input with
    | JObj d => (_scale_service repr self out d).2
    | _ => []
    end.
Proof.
  destruct (execute_on_dict repr self out "scale_service"
              (_scale_service repr self out) [] eq_refl) as [_ Hother].
  destruct input as [| | | | | |d]; try by rewrite Hother.
  destruct (execute_on_dict repr self out "scale_service"
              (_scale_service repr self out) d eq_refl) as [-> _].
  apply sent_fmap.
Qed.

(** X18. The scaling tool keeps to the configured limits, on every
    target but NaN. With the limits that [_load_scaling_limits] loads
    from SCALING_LIMITS, [execute] on [scale_service] calls the HTTP
    client only when the input names a service that has limits of mode
    application and is in the registry; the call is then the one POST
    to /ops/scale of that service, with the target and the reason of
    the input as they came. The target is taken as [json.loads] gave
    it, and nothing tests that it is an integer: what the two
    comparisons let through is an integer, [True] or a float whose
    exact value is at least the minimum of the service, which is at
    least 1, and at most its maximum, and also the float NaN, which is
    neither below the minimum nor above the maximum (whether the client
    then encodes it is the affair of the client). A target that is no
    number raises in the comparison and no call is made. *)
Theorem scale_service_stays_within_limits strip int raw repr self out input c :
  _load_scaling_limits strip int raw = Return (scaling_config self) →
  c ∈ sent (execute repr self out "scale_service" input).2 →
  ∃ service scaling base target reason,
    json_get "service_name" input = Return (JStr service) ∧
    json_get "target_instances" input = Return target ∧
    json_get "reason" input = Return reason ∧
    scaling_config self !! service = Some scaling ∧
    mode scaling = APPLICATION ∧
    1 ≤ min_instances scaling ∧
    (between (min_instances scaling) (max_instances scaling) target
     ∨ target = JFloat SpecFloat.S754_nan) ∧
    services self !! service = Some base ∧
    c = {| method := POST; url := rstrip "/" base +:+ "/ops/scale";
           headers := ops_headers self;
           json := Some (JObj [("target_instances", target);
                               ("reason", reason)]%string) |} ∧
    (execute repr self out "scale_service" input).2 = [Http c].
Proof.
  intros Hload. rewrite execute_scale_service.
  destruct input as [| | | | | |d]; try by intros ?%elem_of_nil.
  intros Hc.
  destruct (_scale_service_call repr self out d c Hc)
    as (service & scaling & base & Hservice & Hs & Hmode & Ht & Hr & Hlo & Hhi
        & Hbase & _ & Hcalls & Heq).
  destruct (_load_scaling_limits_ok _ _ _ _ Hload _ _ Hs) as (_ & Hone & _).
  exists service, scaling, base, (get "target_instances" (JInt 0) d),
    (get "reason" (JStr "") d).
  split_and!; try done.
  - by rewrite json_get_dict, Hservice.
  - rewrite json_get_dict. f_equal. apply get_found.
    by apply (truthy_ne _ (JInt 0)).
  - by apply passes_between.
  - destruct (execute_on_dict repr self out "scale_service"
                (_scale_service repr self out) d eq_refl) as [-> _].
    by rewrite Hcalls.
Qed.

Lemma scale_service_stays_within_limits_witness :
  (execute kind executor failing "scale_service" (scale_api (JInt 4))).2
    = [Http (scale_request (JInt 4))] ∧
  (execute kind executor failing "scale_service" (scale_api (JInt 7))).2 = [] ∧
  (execute kind executor failing "scale_service"
     (scale_api (JFloat (SpecFloat.S754_finite false 5 (-1))))).2
    = [Http (scale_request (JFloat (SpecFloat.S754_finite false 5 (-1))))] ∧
  (execute kind executor failing "scale_service"
     (scale_api (JFloat (SpecFloat.S754_finite false 13 (-1))))).2 = [] ∧
  (execute kind executor failing "scale_service"
     (scale_api (JFloat SpecFloat.S754_nan))).2
    = [Http (scale_request (JFloat SpecFloat.S754_nan))] ∧
  (execute kind executor failing "scale_service" (scale_api (JStr "4"))).2 = [].
Proof.
  split; [|split_and!; vm_compute; reflexivity].
  destruct (scale_service_stays_within_limits id int
              "api|2|6|application,db|1|3|cloud_native" kind executor failing
              (scale_api (JInt 4)) (scale_request (JInt 4)))
    as (service & scaling & base & target & reason & _ & _ & _ & _ & _ & _ & _ & _ & _
        & Hcalls).
  - vm_compute. reflexivity.
  - vm_compute. apply list_elem_of_here.
  - exact Hcalls.
Defined.

Lemma execute_calls repr self out tool_name h input :
  handler repr self out tool_name
    = Some (on_dict (λ input, ((h input).1, Http <$> (h input).2))) →
  (execute repr self out tool_name input).2
  = Http <$> match input with
             | JObj d => (h d).2
             | _ => []
             end.
Proof.
  intros Hh. destruct (execute_on_dict repr self out tool_name h [] Hh) as [_ Hother].
  destruct input as [| | | | | |d]; try by rewrite Hother.
  by destruct (execute_on_dict repr self out tool_name h d Hh) as [-> _].
Qed.

(** X19. The prefix of the incident id decides where the PagerDuty
    tools turn. When the incident id of the input is a string that
    starts with "gcp-", [acknowledge_alert] calls nothing, and
    [escalate_pagerduty] makes at most the one call that posts an event
    to the Events API, and not even that when no routing key is
    configured: it then answers an error and nobody is paged. When the
    id is another string, every call of the two tools is a POST to
    https://api.pagerduty.com/incidents/<id>/notes or a PUT to
    https://api.pagerduty.com/incidents/<id>, with the id of the input
    as it stands, under the PagerDuty token; and when the message has a
    truth value and the requests come back, [escalate_pagerduty] posts
    the note, puts the escalation level 2 and answers "escalated"
    whatever the status of the responses. When the id is no string, or
    the input no object, neither tool calls anything. *)
Theorem pagerduty_tools_route_by_prefix repr self out input :
  match json_get "incident_id" input with
  | Return (JStr id) =>
      if startswith "gcp-" id then
        (execute repr self out "acknowledge_alert" input).2 = [] ∧
        Forall (at_events self) (sent (execute repr self out "escalate_pagerduty" input).2) ∧
        (length (execute repr self out "escalate_pagerduty" input).2 ≤ 1)%nat ∧
        (pagerduty_routing_key self = ""%string →
         (execute repr self out "escalate_pagerduty" input).2 = [] ∧
         ∃ msg, (execute repr self out "escalate_pagerduty" input).1 = error msg)
      else
        Forall (at_incident self id)
          (sent (execute repr self out "acknowledge_alert" input).2) ∧
        Forall (at_incident self id)
          (sent (execute repr self out "escalate_pagerduty" input).2) ∧
        (∀ message,
           id ≠ ""%string →
           json_get "escalation_message" input = Return message →
           truthy message = true →
           (∀ call, ∃ response, http out call = Return response) →
           ∃ note_status,
             execute repr self out "escalate_pagerduty" input
             = (JObj [("status", JStr "escalated"); ("incident_id", JStr id);
                      ("note_status", JInt note_status)]%string,
                [Http {| method := POST;
                         url := "https://api.pagerduty.com/incidents/" +:+ id
                                +:+ "/notes";
                         headers := pagerduty_headers self;
                         json := Some (note ("[SRE Agent Escalation]" +:+ LF +:+ LF
                                             +:+ format repr message)) |};
                 Http {| method := PUT;
                         url := "https://api.pagerduty.com/incidents/" +:+ id;
                         headers := pagerduty_headers self;
                         json := Some (JObj [("incident",
                                  JObj [("type", JStr "incident_reference");
                                        ("escalation_level", JInt 2)])]%string) |}]))
  | _ =>
      (execute repr self out "acknowledge_alert" input).2 = [] ∧
      (execute repr self out "escalate_pagerduty" input).2 = []
  end.
Proof.
  rewrite (execute_calls repr self out "acknowledge_alert"
             (_acknowledge_alert repr self out) input eq_refl).
  rewrite !(execute_calls repr self out "escalate_pagerduty"
              (_escalate_pagerduty repr self out) input eq_refl).
  destruct input as [| | | | | |d]; try done.
  rewrite json_get_dict, !sent_fmap, !length_fmap.
  pose proof (_acknowledge_alert_calls repr self out d) as Hack.
  pose proof (_escalate_pagerduty_calls repr self out d) as Hesc.
  destruct (get "incident_id" (JStr "") d) as [| | | |id| |] eqn:Hid;
    try by rewrite Hack, Hesc.
  destruct (startswith "gcp-" id) eqn:Hgcp.
  - destruct Hesc as [Hesc Hlen]. rewrite Hack. split_and!; [done..|].
    intros Hkey. unfold execute, handler, on_dict. simpl.
    unfold _escalate_pagerduty. rewrite Hid, Hgcp.
    destruct (_ || _); [split; [done|by eexists]|].
    destruct (slice_to 200 _); [|split; [done|by eexists]].
    unfold _create_pagerduty_incident. rewrite Hkey. simpl.
    split; [done|by eexists].
  - split_and!; [done..|].
    intros message Hne Hmessage Htruthy Hhttp.
    rewrite json_get_dict in Hmessage. injection Hmessage as Hmessage.
    unfold execute, handler, on_dict. simpl.
    unfold _escalate_pagerduty. rewrite Hid, Hmessage, Hgcp, Htruthy. simpl.
    rewrite (bool_decide_eq_false_2 _ Hne). simpl.
    match goal with |- context [http out ?c] =>
      destruct (Hhttp c) as [response ->] end.
    match goal with |- context [http out ?c] =>
      destruct (Hhttp c) as [response' ->] end.
    by eexists.
Qed.
End ExecutorProperties.
